(** * Pathfinding visualiser ([pfinder.py]): model and verified properties

    The program keeps one [Node] object per grid cell in the module-level
    list of lists [nodes], and a handful of module-level variables
    ([ROWS], [COLUMNS], [ALG], [START], [END], [PAUSED], ...).  Node
    objects are created once by [create_nodes] and never replaced, and
    the node stored at [nodes[r][c]] has [row = r] and [column = c], so
    a node reference ([START], [END], [parent_node], a queue entry) is
    modelled by the node's position and the object store by a finite map
    from positions to the mutable fields. *)

From stdpp Require Import gmap list sorting.
From Stdlib Require Import ZArith Lia.

Open Scope Z_scope.

Abbreviation pos := (Z * Z)%type.

(** ** Values *)

(** The three values of [ALG]. *)
Inductive Algorithm := A_STAR | DJIKSTRA | GREEDY.

(** The colour constants of the module, and the colours of the gradient
    that [draw_path] computes with the [colour] library ([Gradient i n]
    is the [i]-th of the [n] colours of [start.range_to(end, n)], a tuple
    of floats kept abstract here). *)
Inductive Color := WHITE | BLUE | CYAN | RED | GREEN | GREY | BLACK | Gradient (i n : nat).

Global Instance Color_eq_dec : EqDecision Color.
Proof. solve_decision. Defined.

(** A score is an [int] or [float("inf")]. *)
Inductive Num := Fin (z : Z) | Inf.

Global Instance Num_eq_dec : EqDecision Num.
Proof. solve_decision. Defined.

Definition num_add (a b : Num) : Num :=
  match a, b with
  | Fin x, Fin y => Fin (x + y)
  | _, _ => Inf
  end.

Definition num_ltb (a b : Num) : bool :=
  match a, b with
  | Fin x, Fin y => x <? y
  | Fin _, Inf => true
  | Inf, _ => false
  end.

Definition num_leb (a b : Num) : bool := negb (num_ltb b a).

Definition num_lt (a b : Num) : Prop := num_ltb a b = true.
Definition num_le (a b : Num) : Prop := num_leb a b = true.

(** The exceptions the modelled code can raise. *)
Inductive Exn := AttributeError | IndexError | TypeError | SystemExit.

Inductive Res (A : Type) := Ok (a : A) | Raise (e : Exn).
Arguments Ok {A} a.
Arguments Raise {A} e.

(** ** Nodes and module state *)

(** The mutable fields of a [Node]; [row] and [column] are the key. *)
Record Node := mkNode {
  color : Color;
  needs_refresh : bool;
  g_score : Num;
  h_score : Z;
  parent_node : option pos
}.

(** [Node.__init__]. *)
Definition new_node : Node := mkNode WHITE true Inf 0 None.

Global Instance Node_inhabited : Inhabited Node := populate new_node.

Global Instance Node_eq_dec : EqDecision Node.
Proof. solve_decision. Defined.

Record World := mkWorld {
  ROWS : Z;
  COLUMNS : Z;
  ALG : Algorithm;
  START : option pos;
  END : option pos;
  nodes : gmap pos Node;
  SHOW_MAZE_ANIM : bool;
  PAUSED : bool;
  QUICK_MODE : bool
}.

Definition with_START (s : option pos) (w : World) : World :=
  mkWorld (ROWS w) (COLUMNS w) (ALG w) s (END w) (nodes w)
          (SHOW_MAZE_ANIM w) (PAUSED w) (QUICK_MODE w).

Definition with_END (e : option pos) (w : World) : World :=
  mkWorld (ROWS w) (COLUMNS w) (ALG w) (START w) e (nodes w)
          (SHOW_MAZE_ANIM w) (PAUSED w) (QUICK_MODE w).

Definition with_nodes (m : gmap pos Node) (w : World) : World :=
  mkWorld (ROWS w) (COLUMNS w) (ALG w) (START w) (END w) m
          (SHOW_MAZE_ANIM w) (PAUSED w) (QUICK_MODE w).

Definition with_ALG (a : Algorithm) (w : World) : World :=
  mkWorld (ROWS w) (COLUMNS w) a (START w) (END w) (nodes w)
          (SHOW_MAZE_ANIM w) (PAUSED w) (QUICK_MODE w).

Definition with_SHOW_MAZE_ANIM (b : bool) (w : World) : World :=
  mkWorld (ROWS w) (COLUMNS w) (ALG w) (START w) (END w) (nodes w)
          b (PAUSED w) (QUICK_MODE w).

Definition with_PAUSED (b : bool) (w : World) : World :=
  mkWorld (ROWS w) (COLUMNS w) (ALG w) (START w) (END w) (nodes w)
          (SHOW_MAZE_ANIM w) b (QUICK_MODE w).

Definition with_QUICK_MODE (b : bool) (w : World) : World :=
  mkWorld (ROWS w) (COLUMNS w) (ALG w) (START w) (END w) (nodes w)
          (SHOW_MAZE_ANIM w) (PAUSED w) b.

(** The fields of the node at position [p]. *)
Definition node (w : World) (p : pos) : Node := nodes w !!! p.

(** An assignment to fields of the node at [p]. *)
Definition set_node (p : pos) (f : Node → Node) (w : World) : World :=
  with_nodes (<[p := f (node w p)]> (nodes w)) w.

Definition in_grid (w : World) (p : pos) : Prop :=
  0 ≤ p.1 < ROWS w ∧ 0 ≤ p.2 < COLUMNS w.

(** The positions of the grid in the order of
    [for row in nodes: for node in row]. *)
Definition all_nodes (w : World) : list pos :=
  r ← seqZ 0 (ROWS w); c ← seqZ 0 (COLUMNS w); [(r, c)].

(** [create_nodes], with the module state around it. *)
Definition create_nodes (rows columns : Z) (alg : Algorithm) : World :=
  let w := mkWorld rows columns alg None None ∅ false false false in
  foldl (λ w p, set_node p (λ _, new_node) w) w (all_nodes w).

(** List indexing [l[i]] on a list of length [len]: a negative index
    counts from the end, anything else out of range raises
    [IndexError]. *)
Definition py_index (len i : Z) : option Z :=
  if (0 <=? i) && (i <? len) then Some i
  else if (- len <=? i) && (i <? 0) then Some (len + i)
  else None.

(** [nodes[i][j]]. *)
Definition nodes_at (w : World) (i j : Z) : option pos :=
  r ← py_index (ROWS w) i; c ← py_index (COLUMNS w) j; Some (r, c).

(** ** [Node] methods *)

(** One [if cond: neighbours.append(nodes[i][j])]. *)
Definition append_if (cond : bool) (x : option pos) (acc : option (list pos))
  : option (list pos) :=
  if cond then l ← acc; p ← x; Some (l ++ [p]) else acc.

(** [Node.get_neighbours]; [None] stands for an [IndexError]. *)
Definition get_neighbours (w : World) (self : pos) (n : Z) : option (list pos) :=
  let row := self.1 in
  let column := self.2 in
  append_if (column <? COLUMNS w - n) (nodes_at w row (column + n))
    (append_if (row <? ROWS w - n) (nodes_at w (row + n) column)
      (append_if (column >? n - 1) (nodes_at w row (column - n))
        (append_if (row >? n - 1) (nodes_at w (row - n) column)
          (Some [])))).

Definition is_start (w : World) (self : pos) : bool := bool_decide (START w = Some self).
Definition is_end (w : World) (self : pos) : bool := bool_decide (END w = Some self).
Definition is_obstacle (w : World) (self : pos) : bool :=
  bool_decide (color (node w self) = GREY).
Definition is_active (w : World) (self : pos) : bool :=
  bool_decide (color (node w self) = GREEN).
Definition is_visited (w : World) (self : pos) : bool :=
  bool_decide (color (node w self) = RED) || is_start w self.
Definition is_normal (w : World) (self : pos) : bool :=
  bool_decide (color (node w self) = WHITE).

Definition paint (c : Color) (n : Node) : Node :=
  mkNode c true (g_score n) (h_score n) (parent_node n).

Definition make_start (self : pos) (w : World) : World :=
  if negb (is_end w self) then with_START (Some self) (set_node self (paint BLUE) w)
  else w.

Definition make_end (self : pos) (w : World) : World :=
  if negb (is_start w self) then with_END (Some self) (set_node self (paint CYAN) w)
  else w.

Definition make_obstacle (self : pos) (w : World) : World :=
  if negb (is_end w self) && negb (is_start w self) then set_node self (paint GREY) w
  else w.

Definition make_active (self : pos) (w : World) : World :=
  set_node self (paint GREEN) w.

Definition make_visited (self : pos) (w : World) : World :=
  if negb (is_start w self) then set_node self (paint RED) w else w.

Definition make_path (self : pos) (c : Color) (w : World) : World :=
  set_node self (paint c) w.

(** The field assignments of [Node.reset]. *)
Definition cleared (n : Node) : Node := mkNode WHITE true Inf (h_score n) None.

Definition reset (self : pos) (w : World) : World :=
  let w1 := if is_start w self then with_START None w
            else if is_end w self then with_END None w
            else w in
  set_node self cleared w1.

(** [Node.update_h_score]; it reads [END.row] and [END.column]. *)
Definition update_h_score (self : pos) (w : World) : Res unit * World :=
  match END w with
  | None => (Raise AttributeError, w)
  | Some e =>
      (Ok tt,
       set_node self
         (λ n, mkNode (color n) (needs_refresh n) (g_score n)
                      (Z.abs (e.1 - self.1) + Z.abs (e.2 - self.2))
                      (parent_node n)) w)
  end.

Definition f_score (n : Node) : Num := num_add (g_score n) (Fin (h_score n)).

(** [Node.score]. *)
Definition score (w : World) (self : pos) : Num :=
  match ALG w with
  | A_STAR => f_score (node w self)
  | DJIKSTRA => g_score (node w self)
  | GREEDY => Fin (h_score (node w self))
  end.

(** [Node.draw]: the drawing itself is outside the model, the flag is
    not. *)
Definition draw (self : pos) (w : World) : World :=
  if needs_refresh (node w self)
  then set_node self (λ n, mkNode (color n) false (g_score n) (h_score n) (parent_node n)) w
  else w.

(** ** Grid operations *)

Definition draw_screen (w : World) : World :=
  foldl (λ w p, draw p w) w (all_nodes w).

(** The body of the mode-1 loop of [reset_grid]. *)
Definition soft_reset (w : World) (p : pos) : World :=
  if negb (is_start w p) && negb (is_end w p) && negb (is_obstacle w p)
  then reset p w else w.

Definition clear_end (n : Node) : Node :=
  mkNode (color n) (needs_refresh n) Inf (h_score n) None.

Definition reset_grid (mode : Z) (w : World) : Res unit * World :=
  if mode =? 0 then (Ok tt, foldl (λ w p, reset p w) w (all_nodes w))
  else if mode =? 1 then
    let w' := foldl soft_reset w (all_nodes w) in
    match END w' with
    | None => (Raise AttributeError, w')
    | Some e => (Ok tt, set_node e clear_end w')
    end
  else (Ok tt, w).

(** ** Input *)

Inductive Key := K_q | K_s | K_SPACE | K_BACKSPACE | K_other.

(** What [pygame.event.get()] returns is a list of these. *)
Inductive Event := QUIT | KEYDOWN (k : Key) | OtherEvent.

(** [handle_input_running] on the events of one poll: [Ok true] is the
    cancel signal, and [sys.exit()] raises [SystemExit]. *)
Fixpoint handle_input_running (evs : list Event) (w : World) : Res bool * World :=
  match evs with
  | [] => (Ok false, w)
  | QUIT :: _ => (Raise SystemExit, w)
  | KEYDOWN K_q :: evs' =>
      handle_input_running evs' (with_QUICK_MODE (negb (QUICK_MODE w)) w)
  | KEYDOWN K_s :: evs' =>
      handle_input_running evs' (with_SHOW_MAZE_ANIM (negb (SHOW_MAZE_ANIM w)) w)
  | KEYDOWN K_SPACE :: evs' =>
      handle_input_running evs' (with_PAUSED (negb (PAUSED w)) w)
  | KEYDOWN K_BACKSPACE :: _ => (Ok true, w)
  | _ :: evs' => handle_input_running evs' w
  end.

(** The polls still to come, one list of events per call of
    [handle_input_running]; once they are used up a poll finds no
    event. *)
Definition poll (inputs : list (list Event)) : list Event * list (list Event) :=
  match inputs with
  | [] => ([], [])
  | evs :: rest => (evs, rest)
  end.

(** ** The priority queue of [find_path] *)

(** A queue entry [(score, index, node)]. *)
Record Entry := mkEntry { e_score : Num; e_index : Z; e_node : pos }.

(** Tuple order on the first two components.  The third component, a
    [Node], has no order; it is never compared as long as the entries in
    the queue have distinct indexes (see [queue_indexes_distinct]). *)
Definition entry_leb (a b : Entry) : bool :=
  num_ltb (e_score a) (e_score b)
  || (bool_decide (e_score a = e_score b) && (e_index a <=? e_index b)).

(** [extract_min e q] takes the least entry out of the queue [e :: q]. *)
Fixpoint extract_min (e : Entry) (q : list Entry) : Entry * list Entry :=
  match q with
  | [] => (e, [])
  | x :: q' =>
      let '(m, r) := extract_min x q' in
      if entry_leb e m then (e, x :: q') else (m, e :: r)
  end.

(** ** [find_path] *)

(** The variables of the search loop.  [puts] is the history of the
    calls of [active.put], oldest first; the code never reads it. *)
Record Search := mkSearch {
  world : World;
  active : list Entry;
  index : Z;
  puts : list Entry
}.

Definition relaxed (g : Num) (current : pos) (n : Node) : Node :=
  mkNode (color n) (needs_refresh n) g (h_score n) (Some current).

(** The body of [for neighbour in current.get_neighbours(1)]. *)
Definition relax (current : pos) (s : Search) (neighbour : pos) : Search :=
  let w := world s in
  if negb (is_obstacle w neighbour) then
    let g := num_add (g_score (node w current)) (Fin 1) in
    if num_ltb g (g_score (node w neighbour)) then
      let w1 := set_node neighbour (relaxed g current) w in
      if negb (is_active w1 neighbour) && negb (is_visited w1 neighbour) then
        let w2 := make_active neighbour w1 in
        let e := mkEntry (score w2 neighbour) (index s) neighbour in
        mkSearch w2 (active s ++ [e]) (index s + 1) (puts s ++ [e])
      else mkSearch w1 (active s) (index s) (puts s)
    else s
  else s.

(** How the search loop ends. *)
Inductive LoopEnd :=
  | Cancelled (r : Res unit * World)   (* after [reset_grid(1)] *)
  | Found (s : Search)                 (* [found_path = True; break] *)
  | Exhausted (s : Search)             (* the queue is empty *)
  | Raised (e : Exn) (w : World)
  | OutOfFuel.

Inductive Step := Next (s : Search) | Stop (r : LoopEnd).

(** One iteration of [while not active.empty()], for the queue
    [e0 :: q0] and the events [evs] of its poll. *)
Definition search_iteration (evs : list Event) (s : Search) (e0 : Entry) (q0 : list Entry)
  : Step :=
  match handle_input_running evs (world s) with
  | (Raise e, w) => Stop (Raised e w)
  | (Ok true, w) => Stop (Cancelled (reset_grid 1 w))
  | (Ok false, w) =>
      if PAUSED w then Next (mkSearch w (active s) (index s) (puts s))
      else
        let w := if QUICK_MODE w then w else draw_screen w in
        let '(m, q) := extract_min e0 q0 in
        let current := e_node m in
        if is_end w current then Stop (Found (mkSearch w q (index s) (puts s)))
        else
          let w := make_visited current w in
          match get_neighbours w current 1 with
          | None => Stop (Raised IndexError w)
          | Some nbs => Next (foldl (relax current) (mkSearch w q (index s) (puts s)) nbs)
          end
  end.

Definition search_step (evs : list Event) (s : Search) : Step :=
  match active s with
  | [] => Stop (Exhausted s)
  | e0 :: q0 => search_iteration evs s e0 q0
  end.

Fixpoint search_loop (fuel : nat) (inputs : list (list Event)) (s : Search)
  : LoopEnd * list (list Event) :=
  match fuel with
  | O => (OutOfFuel, inputs)
  | S fuel' =>
      match active s with
      | [] => (Exhausted s, inputs)
      | e0 :: q0 =>
          let '(evs, rest) := poll inputs in
          match search_iteration evs s e0 q0 with
          | Next s' => search_loop fuel' rest s'
          | Stop r => (r, rest)
          end
      end
  end.

(** The first loop of [find_path]. *)
Definition init_node (w : Res unit * World) (p : pos) : Res unit * World :=
  match w with
  | (Ok _, w) =>
      match update_h_score p w with
      | (Ok _, w1) =>
          (Ok tt, set_node p (λ n, mkNode (color n) (needs_refresh n) (g_score n)
                                          (h_score n) None) w1)
      | r => r
      end
  | r => r
  end.

(** [find_path] up to the search loop. *)
Definition search_init (w : World) : Res Search * World :=
  match foldl init_node (Ok tt, w) (all_nodes w) with
  | (Raise e, w1) => (Raise e, w1)
  | (Ok _, w1) =>
      match START w1 with
      | None => (Raise AttributeError, w1)
      | Some st =>
          let w2 := set_node st (λ n, mkNode (color n) (needs_refresh n) (Fin 0)
                                             (h_score n) (parent_node n)) w1 in
          let e := mkEntry (score w2 st) 0 st in
          (Ok (mkSearch w2 [e] 0 [e]), w2)
      end
  end.

(** ** [draw_path] *)

(** The loop [for _ in range(k)] of [draw_path]: each round prepends
    [node] to [path] and moves to its parent; reading [parent_node] of
    [None] raises [AttributeError].  The result is [path] and the last
    value of [node]. *)
Fixpoint walk (k : nat) (w : World) (nd : option pos) (path : list pos)
  : Res (list pos * option pos) :=
  match k with
  | O => Ok (path, nd)
  | S k' =>
      match nd with
      | None => Raise AttributeError
      | Some p => walk k' w (parent_node (node w p)) (p :: path)
      end
  end.

(** [range(END.g_score)]: a [float] is no valid argument, and a negative
    [int] gives the empty range. *)
Definition path_walk (w : World) : Res (list pos * option pos) :=
  match END w with
  | None => Raise AttributeError
  | Some e =>
      match g_score (node w e) with
      | Inf => Raise TypeError
      | Fin g => walk (Z.to_nat g) w (Some e) []
      end
  end.

(** The loop [while index < len(path)], on the cells still to paint. *)
Fixpoint paint_loop (fuel : nat) (inputs : list (list Event)) (n : nat) (i : nat)
    (todo : list pos) (w : World) : option (Res unit * World * list (list Event)) :=
  match todo with
  | [] => Some (Ok tt, w, inputs)
  | p :: todo' =>
      match fuel with
      | O => None
      | S fuel' =>
          let '(evs, rest) := poll inputs in
          match handle_input_running evs w with
          | (Raise e, w1) => Some (Raise e, w1, rest)
          | (Ok _, w1) =>
              if PAUSED w1 then paint_loop fuel' rest n i todo w1
              else
                let w2 := make_path p (Gradient i n) w1 in
                let w3 := if QUICK_MODE w2 then w2 else draw_screen w2 in
                paint_loop fuel' rest n (S i) todo' w3
          end
      end
  end.

Definition draw_path (fuel : nat) (inputs : list (list Event)) (w : World)
  : option (Res unit * World * list (list Event)) :=
  match path_walk w with
  | Raise e => Some (Raise e, w, inputs)
  | Ok (path, _) => paint_loop fuel inputs (length path) O path w
  end.

(** What [find_path] prints. *)
Inductive Message :=
  | MsgCancelled
  | MsgNoPath
  | MsgPathFound (len : Num).

(** A finished call: how it returned, what it printed, and the module
    state it left. *)
Record Run := mkRun {
  returned : Res unit;
  printed : list Message;
  final : World
}.

(** [find_path]; [None] when the fuel does not cover the loops. *)
Definition find_path (fuel : nat) (inputs : list (list Event)) (w : World) : option Run :=
  match search_init w with
  | (Raise e, w1) => Some (mkRun (Raise e) [] w1)
  | (Ok s, _) =>
      match search_loop fuel inputs s with
      | (OutOfFuel, _) => None
      | (Raised e w1, _) => Some (mkRun (Raise e) [] w1)
      | (Cancelled (r, w1), _) => Some (mkRun r [MsgCancelled] w1)
      | (Exhausted s1, _) =>
          let '(r, w2) := reset_grid 1 (draw_screen (world s1)) in
          Some (mkRun r [MsgNoPath] w2)
      | (Found s1, rest) =>
          let w1 := world s1 in
          let msg := MsgPathFound (match END w1 with
                                   | Some e => g_score (node w1 e)
                                   | None => Inf
                                   end) in
          match draw_path fuel rest w1 with
          | None => None
          | Some (Raise e, w2, _) => Some (mkRun (Raise e) [msg] w2)
          | Some (Ok _, w2, _) =>
              let '(r, w3) := reset_grid 1 (draw_screen w2) in
              Some (mkRun r [msg] w3)
          end
      end
  end.

(** ** [generate_maze] *)

(** [choice(l)] for a non-empty [l], with the random draw [k]. *)
Definition choice (k : nat) (l : list pos) (d : pos) : pos :=
  nth (k mod length l)%nat l d.

Definition draw_rng (rng : list nat) : nat * list nat :=
  match rng with
  | [] => (O, [])
  | k :: rng' => (k, rng')
  end.

(** The loop [while active] of [generate_maze].  The Python list
    [active] is used as a stack ([append] and [pop] at its end); here
    its last element is the head of the list. *)
Fixpoint maze_loop (fuel : nat) (rng : list nat) (inputs : list (list Event))
    (active : list pos) (w : World) : option (Res unit * World) :=
  match active with
  | [] => Some (Ok tt, w)
  | current :: rest =>
      match fuel with
      | O => None
      | S fuel' =>
          let '(r, w, inputs) :=
            if SHOW_MAZE_ANIM w then
              let '(evs, inputs') := poll inputs in
              match handle_input_running evs w with
              | (Raise e, w1) => (Raise e, w1, inputs')
              | (Ok _, w1) => (Ok tt, draw_screen w1, inputs')
              end
            else (Ok tt, w, inputs) in
          match r with
          | Raise e => Some (Raise e, w)
          | Ok _ =>
              let w := reset current (make_active current w) in
              match get_neighbours w current 2 with
              | None => Some (Raise IndexError, w)
              | Some nbs =>
                  let neighbours := filter (λ p, is_normal w p = false) nbs in
                  match neighbours with
                  | [] => maze_loop fuel' rng inputs rest w
                  | _ :: _ =>
                      let '(k, rng') := draw_rng rng in
                      let next_cell := choice k neighbours current in
                      match nodes_at w ((current.1 + next_cell.1) / 2)
                                       ((current.2 + next_cell.2) / 2) with
                      | None => Some (Raise IndexError, w)
                      | Some dividing_wall =>
                          let w := reset next_cell (reset dividing_wall w) in
                          maze_loop fuel' rng' inputs (next_cell :: current :: rest) w
                      end
                  end
              end
          end
      end
  end.

Definition generate_maze (fuel : nat) (rng : list nat) (inputs : list (list Event))
    (w : World) : option (Res unit * World) :=
  let w := (reset_grid 0 w).2 in
  let w := foldl (λ w p, make_obstacle p w) w (all_nodes w) in
  match nodes_at w 0 0 with
  | None => Some (Raise IndexError, w)
  | Some origin =>
      let w := reset origin w in
      match maze_loop fuel rng inputs [origin] w with
      | None => None
      | Some (Raise e, w) => Some (Raise e, w)
      | Some (Ok _, w) =>
          let w := make_start origin w in
          match nodes_at w (ROWS w - 1) (COLUMNS w - 2) with
          | None => Some (Raise IndexError, w)
          | Some e => Some (Ok tt, make_end e w)
          end
      end
  end.

(** * Properties *)

(** ** The node store *)

Lemma node_set_node p f w q :
  node (set_node p f w) q = if decide (p = q) then f (node w p) else node w q.
Proof.
  unfold node, set_node; simpl.
  destruct (decide (p = q)) as [->|Hne].
  - by rewrite lookup_total_insert_eq.
  - by rewrite lookup_total_insert_ne.
Qed.

Lemma node_set_node_eq p f w : node (set_node p f w) p = f (node w p).
Proof. rewrite node_set_node. by destruct (decide (p = p)). Qed.

Lemma node_set_node_ne p f w q : p ≠ q → node (set_node p f w) q = node w q.
Proof. intros. rewrite node_set_node. by destruct (decide (p = q)). Qed.

Lemma nodes_set_node p f w : nodes (set_node p f w) = <[p := f (node w p)]> (nodes w).
Proof. done. Qed.

Lemma py_index_in_range len i : 0 ≤ i < len → py_index len i = Some i.
Proof.
  intros [H1 H2]. unfold py_index.
  apply Z.leb_le in H1. apply Z.ltb_lt in H2. by rewrite H1, H2.
Qed.

Lemma nodes_at_in_grid w i j : in_grid w (i, j) → nodes_at w i j = Some (i, j).
Proof.
  intros [Hr Hc]; simpl in *. unfold nodes_at.
  by rewrite !py_index_in_range.
Qed.

(** ** Neighbours *)

(** [p] lies [n] cells away from [(row, column)] along one axis. *)
Definition axial (n row column : Z) (p : pos) : Prop :=
  (p.2 = column ∧ Z.abs (p.1 - row) = n) ∨ (p.1 = row ∧ Z.abs (p.2 - column) = n).

Lemma append_if_spec (P : pos → Prop) (k : nat) cond i j w acc l :
  acc = Some l → Forall P l → (length l ≤ k)%nat →
  (cond = true → in_grid w (i, j) ∧ P (i, j)) →
  ∃ l', append_if cond (nodes_at w i j) acc = Some l' ∧ Forall P l' ∧ (length l' ≤ S k)%nat.
Proof.
  intros -> Hl Hk Hc. destruct cond; simpl.
  - destruct (Hc eq_refl) as [Hg HP]. rewrite (nodes_at_in_grid _ _ _ Hg). simpl.
    eexists; split; [done|]. split.
    + apply Forall_app; split; [done|]. by constructor.
    + rewrite length_app; simpl. lia.
  - exists l. repeat split; auto.
Qed.

(** C8.  For a cell of the grid and a step [n ≥ 1], [get_neighbours]
    raises no [IndexError] and returns at most four cells, each of them
    inside the [ROWS × COLUMNS] grid and exactly [n] cells away from the
    cell along one axis (so no index wrapped around). *)
Theorem get_neighbours_in_bounds (w : World) (row column n : Z) :
  1 ≤ n → in_grid w (row, column) →
  ∃ l, get_neighbours w (row, column) n = Some l
       ∧ (length l ≤ 4)%nat
       ∧ ∀ p, p ∈ l → in_grid w p ∧ axial n row column p.
Proof.
  intros Hn [Hr Hc]; simpl in *.
  unfold get_neighbours; simpl.
  set (P := λ p : pos, in_grid w p ∧ axial n row column p).
  destruct (append_if_spec P 0 (row >? n - 1) (row - n) column w (Some []) [])
    as (l1 & E1 & F1 & L1); [done| constructor | simpl; lia | |].
  { intros H%Z.gtb_lt. assert (G : in_grid w (row - n, column)) by (split; simpl; lia).
    repeat split; try apply G. left; simpl. split; [done | lia]. }
  destruct (append_if_spec P 1 (column >? n - 1) row (column - n) w _ l1 E1 F1 L1)
    as (l2 & E2 & F2 & L2).
  { intros H%Z.gtb_lt. assert (G : in_grid w (row, column - n)) by (split; simpl; lia).
    repeat split; try apply G. right; simpl. split; [done | lia]. }
  destruct (append_if_spec P 2 (row <? ROWS w - n) (row + n) column w _ l2 E2 F2 L2)
    as (l3 & E3 & F3 & L3).
  { intros H%Z.ltb_lt. assert (G : in_grid w (row + n, column)) by (split; simpl; lia).
    repeat split; try apply G. left; simpl. split; [done | lia]. }
  destruct (append_if_spec P 3 (column <? COLUMNS w - n) row (column + n) w _ l3 E3 F3 L3)
    as (l4 & E4 & F4 & L4).
  { intros H%Z.ltb_lt. assert (G : in_grid w (row, column + n)) by (split; simpl; lia).
    repeat split; try apply G. right; simpl. split; [done | lia]. }
  exists l4. split; [done|]. split; [done|].
  intros p Hp. by apply (proj1 (Forall_forall P l4) F4).
Qed.

(** The theorem at the corner cell [(0, 0)] of a 3 × 3 grid, step 2. *)
Lemma get_neighbours_in_bounds_witness :
  ∃ l, get_neighbours (create_nodes 3 3 A_STAR) (0, 0) 2 = Some l
       ∧ (length l ≤ 4)%nat
       ∧ ∀ p, p ∈ l → in_grid (create_nodes 3 3 A_STAR) p ∧ axial 2 0 0 p.
Proof.
  apply (get_neighbours_in_bounds (create_nodes 3 3 A_STAR) 0 0 2).
  - lia.
  - split; vm_compute; split; congruence.
Defined.

(** ** The neighbours, exactly *)

Definition in_gridb (w : World) (p : pos) : bool :=
  (0 <=? p.1) && (p.1 <? ROWS w) && (0 <=? p.2) && (p.2 <? COLUMNS w).

Lemma in_gridb_spec w p : in_gridb w p = true ↔ in_grid w p.
Proof.
  unfold in_gridb, in_grid.
  rewrite !andb_true_iff, !Z.leb_le, !Z.ltb_lt. lia.
Qed.

Lemma nodes_at_Some_in_grid w i j p : nodes_at w i j = Some p → in_grid w p.
Proof.
  unfold nodes_at, py_index. intros H.
  destruct ((0 <=? i) && (i <? ROWS w)) eqn:E1;
    [|destruct ((- ROWS w <=? i) && (i <? 0)) eqn:E1'; [|done]];
    (destruct ((0 <=? j) && (j <? COLUMNS w)) eqn:E2;
      [|destruct ((- COLUMNS w <=? j) && (j <? 0)) eqn:E2'; [|done]]);
    simpl in H; injection H as <-;
    rewrite ?andb_true_iff, ?Z.leb_le, ?Z.ltb_lt in *;
    split; simpl; lia.
Qed.

(** The four cells [n] steps up, left, down and right of [p], in the
    order in which [get_neighbours] looks at them. *)
Definition around (p : pos) (n : Z) : list pos :=
  [(p.1 - n, p.2); (p.1, p.2 - n); (p.1 + n, p.2); (p.1, p.2 + n)].

Lemma get_neighbours_around (w : World) (p : pos) (n : Z) :
  1 ≤ n → in_grid w p →
  get_neighbours w p n = Some (filter (λ q, in_gridb w q = true) (around p n)).
Proof.
  intros Hn [Hr Hc]. destruct p as [r c]. simpl in Hr, Hc.
  unfold get_neighbours, around. simpl.
  assert (Hin : ∀ q, in_grid w q → in_gridb w q = true) by (intros; by apply in_gridb_spec).
  assert (Hout : ∀ q, ¬ in_grid w q → in_gridb w q = false).
  { intros q Hq. destruct (in_gridb w q) eqn:E; [|done]. by apply in_gridb_spec in E. }
  assert (Hf : ∀ (q : pos) l, filter (λ q, in_gridb w q = true) (q :: l)
               = if in_gridb w q then q :: filter (λ q, in_gridb w q = true) l
                 else filter (λ q, in_gridb w q = true) l).
  { intros q l. rewrite filter_cons. destruct (in_gridb w q); by case_decide. }
  rewrite !Hf. change (filter _ []) with (@nil pos).
  destruct (Z.gtb_spec r (n - 1)) as [H1|H1];
    destruct (Z.gtb_spec c (n - 1)) as [H2|H2];
    destruct (Z.ltb_spec r (ROWS w - n)) as [H3|H3];
    destruct (Z.ltb_spec c (COLUMNS w - n)) as [H4|H4]; simpl;
    rewrite ?nodes_at_in_grid by (split; simpl; lia); simpl;
    repeat match goal with
      | |- context [in_gridb w ?q] =>
          first [ rewrite (Hin q) by (split; simpl; lia)
                | rewrite (Hout q) by (unfold in_grid; simpl; lia) ]
      end; done.
Qed.

Lemma axial_around n p q : 0 < n → axial n p.1 p.2 q ↔ q ∈ around p n.
Proof.
  intros Hn. unfold axial, around. destruct p as [r c], q as [r' c']. simpl.
  rewrite !elem_of_cons, elem_of_nil. split.
  - intros [[-> H]|[-> H]].
    + destruct (decide (r' = r - n)) as [->|]; [by left|].
      right; right; left. f_equal. lia.
    + destruct (decide (c' = c - n)) as [->|]; [right; by left|].
      right; right; right; left. f_equal. lia.
  - intros [H|[H|[H|[H|[]]]]]; injection H as -> ->; lia.
Qed.

(** The neighbours of a cell of the grid: the cells of the grid that
    lie [n] steps away along one axis. *)
Lemma get_neighbours_axial (w : World) (p : pos) (n : Z) :
  1 ≤ n → in_grid w p →
  ∃ l, get_neighbours w p n = Some l
       ∧ ∀ q, q ∈ l ↔ in_grid w q ∧ axial n p.1 p.2 q.
Proof.
  intros Hn Hp. rewrite (get_neighbours_around w p n Hn Hp).
  eexists. split; [reflexivity|].
  intros q. rewrite list_elem_of_filter, in_gridb_spec.
  rewrite (axial_around n p q) by lia. tauto.
Qed.

(** ** Resetting the grid *)

(** The condition of the mode-1 loop of [reset_grid]. *)
Definition soft (w : World) (p : pos) : bool :=
  negb (is_start w p) && negb (is_end w p) && negb (is_obstacle w p).

Lemma cleared_idemp n : cleared (cleared n) = cleared n.
Proof. done. Qed.

Lemma clear_end_idemp n : clear_end (clear_end n) = clear_end n.
Proof. done. Qed.

Lemma soft_reset_unfold w p :
  soft_reset w p = if soft w p then set_node p cleared w else w.
Proof.
  unfold soft_reset, soft, reset.
  destruct (is_start w p); simpl; [done|].
  destruct (is_end w p); simpl; [done|].
  by destruct (is_obstacle w p).
Qed.

Lemma soft_set_node_cleared w p q :
  soft w p = true → soft (set_node p cleared w) q = soft w q.
Proof.
  intros Hp. unfold soft, is_start, is_end, is_obstacle in *; simpl.
  rewrite node_set_node. destruct (decide (p = q)) as [->|]; [|done].
  simpl. apply andb_true_iff in Hp as [-> Hc]. by rewrite Hc.
Qed.

(** The mode-1 loop leaves the module variables alone and clears exactly
    the cells that satisfy its condition. *)
Lemma foldl_soft_reset l w :
  let w' := foldl soft_reset w l in
  ROWS w' = ROWS w ∧ COLUMNS w' = COLUMNS w ∧ ALG w' = ALG w
  ∧ START w' = START w ∧ END w' = END w
  ∧ SHOW_MAZE_ANIM w' = SHOW_MAZE_ANIM w ∧ PAUSED w' = PAUSED w
  ∧ QUICK_MODE w' = QUICK_MODE w
  ∧ ∀ q, nodes w' !! q =
         if bool_decide (q ∈ l) && soft w q then Some (cleared (node w q))
         else nodes w !! q.
Proof.
  revert w. induction l as [|x l IH]; intros w; simpl.
  { split_and!; auto. }
  specialize (IH (soft_reset w x)). simpl in IH.
  destruct IH as (H1 & H2 & H3 & H4 & H5 & H6 & H7 & H8 & Hn).
  rewrite soft_reset_unfold in *.
  destruct (soft w x) eqn:Hx.
  - split_and!; try done. intros q. rewrite Hn, (soft_set_node_cleared _ _ _ Hx).
    rewrite node_set_node, nodes_set_node. destruct (decide (x = q)) as [->|Hne].
    + rewrite Hx, andb_true_r. rewrite (bool_decide_eq_true_2 (q ∈ q :: l)) by left.
      destruct (bool_decide (q ∈ l)); simpl; [done|].
      by rewrite lookup_insert_eq.
    + rewrite lookup_insert_ne by done.
      rewrite (bool_decide_ext (q ∈ x :: l) (q ∈ l)); [done|].
      rewrite elem_of_cons. split; [intros [?|?]; congruence | by right].
  - split_and!; try done. intros q. rewrite Hn.
    destruct (decide (x = q)) as [->|Hne].
    + rewrite Hx, !andb_false_r. done.
    + rewrite (bool_decide_ext (q ∈ x :: l) (q ∈ l)); [done|].
      rewrite elem_of_cons. split; [intros [?|?]; congruence | by right].
Qed.

Lemma world_eq w1 w2 :
  ROWS w1 = ROWS w2 → COLUMNS w1 = COLUMNS w2 → ALG w1 = ALG w2 →
  START w1 = START w2 → END w1 = END w2 → nodes w1 = nodes w2 →
  SHOW_MAZE_ANIM w1 = SHOW_MAZE_ANIM w2 → PAUSED w1 = PAUSED w2 →
  QUICK_MODE w1 = QUICK_MODE w2 → w1 = w2.
Proof. destruct w1, w2; simpl; intros; by subst. Qed.

Lemma node_lookup w q n : nodes w !! q = Some n → node w q = n.
Proof. unfold node. intros H. by rewrite lookup_total_alt, H. Qed.

Lemma node_lookup_eq w1 w2 q : nodes w1 !! q = nodes w2 !! q → node w1 q = node w2 q.
Proof. unfold node. intros H. by rewrite !lookup_total_alt, H. Qed.

Lemma soft_cleared_ext w1 w2 q :
  START w1 = START w2 → END w1 = END w2 →
  color (node w1 q) = GREY ↔ color (node w2 q) = GREY →
  soft w1 q = soft w2 q.
Proof.
  intros Hs He Hc. unfold soft, is_start, is_end, is_obstacle. rewrite Hs, He.
  by rewrite (bool_decide_ext _ _ Hc).
Qed.

(** The state after [reset_grid(1)], cell by cell. *)
Lemma reset_grid_1_nodes w e :
  END w = Some e →
  let w' := (reset_grid 1 w).2 in
  (reset_grid 1 w).1 = Ok tt
  ∧ ROWS w' = ROWS w ∧ COLUMNS w' = COLUMNS w ∧ ALG w' = ALG w
  ∧ START w' = START w ∧ END w' = END w
  ∧ SHOW_MAZE_ANIM w' = SHOW_MAZE_ANIM w ∧ PAUSED w' = PAUSED w
  ∧ QUICK_MODE w' = QUICK_MODE w
  ∧ ∀ q, nodes w' !! q =
         if decide (q = e) then Some (clear_end (node w e))
         else if bool_decide (q ∈ all_nodes w) && soft w q then Some (cleared (node w q))
         else nodes w !! q.
Proof.
  intros He. unfold reset_grid; simpl.
  pose proof (foldl_soft_reset (all_nodes w) w) as H. simpl in H.
  destruct H as (H1 & H2 & H3 & H4 & H5 & H6 & H7 & H8 & Hn).
  rewrite H5, He. simpl. split_and!; try done; try congruence.
  intros q. destruct (decide (q = e)) as [->|Hqe].
  - rewrite lookup_insert_eq. f_equal. f_equal.
    apply node_lookup_eq. rewrite Hn.
    unfold soft, is_end. rewrite He.
    rewrite (bool_decide_eq_true_2 (Some e = Some e)) by done.
    by rewrite !andb_false_r.
  - rewrite lookup_insert_ne by done. apply Hn.
Qed.

Lemma soft_after_reset_grid_1 w e q :
  END w = Some e → soft (reset_grid 1 w).2 q = soft w q.
Proof.
  intros He.
  destruct (reset_grid_1_nodes w e He) as (_ & _ & _ & _ & H4 & H5 & _ & _ & _ & Hn).
  unfold soft, is_start, is_end. rewrite H4, H5.
  destruct (bool_decide (START w = Some q)); simpl; [done|].
  destruct (bool_decide (END w = Some q)); simpl; [done|].
  f_equal. unfold is_obstacle. apply bool_decide_ext.
  assert (Hq : node (reset_grid 1 w).2 q =
               if decide (q = e) then clear_end (node w e)
               else if bool_decide (q ∈ all_nodes w) && soft w q then cleared (node w q)
               else node w q).
  { repeat case_match; try (apply node_lookup; rewrite Hn; by repeat case_match).
    apply node_lookup_eq. rewrite Hn. by repeat case_match. }
  rewrite Hq. destruct (decide (q = e)) as [->|]; [done|].
  destruct (bool_decide (q ∈ all_nodes w) && soft w q) eqn:E; [|done].
  apply andb_true_iff in E as [_ E]. unfold soft in E.
  apply andb_true_iff in E as [_ E]. apply negb_true_iff in E.
  unfold is_obstacle in E. apply bool_decide_eq_false in E. simpl. split; [done|].
  intros; done.
Qed.

(** C6.  The mode-1 reset is idempotent: run on the state that a first
    mode-1 reset left, it returns the same way and leaves exactly that
    state, for every state in which [END] is set. *)
Theorem reset_grid_1_idempotent (w : World) (e : pos) :
  END w = Some e →
  reset_grid 1 (reset_grid 1 w).2 = reset_grid 1 w.
Proof.
  intros He.
  destruct (reset_grid_1_nodes w e He) as (R & H1 & H2 & H3 & H4 & H5 & H6 & H7 & H8 & Hn).
  assert (Hs : ∀ q, soft (reset_grid 1 w).2 q = soft w q).
  { intros q. by apply soft_after_reset_grid_1 with e. }
  destruct (reset_grid 1 w) as [r w2]. simpl in *. subst r.
  assert (He2 : END w2 = Some e) by congruence.
  destruct (reset_grid_1_nodes w2 e He2) as (R' & K1 & K2 & K3 & K4 & K5 & K6 & K7 & K8 & Kn).
  assert (Hall : all_nodes w2 = all_nodes w).
  { unfold all_nodes. by rewrite H1, H2. }
  destruct (reset_grid 1 w2) as [r' w4]. simpl in *. subst r'.
  f_equal. apply world_eq; try congruence.
  apply map_eq. intros q. rewrite Kn, Hall, Hs.
  destruct (decide (q = e)) as [->|Hqe].
  - rewrite (node_lookup w2 e (clear_end (node w e))); [| rewrite Hn; by case_decide].
    rewrite Hn. by case_decide.
  - destruct (bool_decide (q ∈ all_nodes w) && soft w q) eqn:E.
    + rewrite (node_lookup w2 q (cleared (node w q))).
      * rewrite Hn, decide_False by done. by rewrite E.
      * rewrite Hn, decide_False by done. by rewrite E.
    + done.
Qed.

(** The theorem on a 2 × 3 grid with an obstacle, after a search left
    its marks. *)
Lemma reset_grid_1_idempotent_witness :
  let w := make_active (0, 1)
             (make_obstacle (1, 1)
                (make_end (1, 2) (make_start (0, 0) (create_nodes 2 3 A_STAR)))) in
  reset_grid 1 (reset_grid 1 w).2 = reset_grid 1 w.
Proof.
  intros w. apply (reset_grid_1_idempotent w (1, 2)). reflexivity.
Defined.

(** C10.  The mode-1 reset reads [END] after its loop: with [END] set
    the call returns normally and leaves the End cell with an infinite
    [g_score] and no parent; with [END] unset it raises
    [AttributeError]. *)
Theorem reset_grid_1_needs_END (w : World) :
  match END w with
  | Some e =>
      (reset_grid 1 w).1 = Ok tt
      ∧ g_score (node (reset_grid 1 w).2 e) = Inf
      ∧ parent_node (node (reset_grid 1 w).2 e) = None
  | None => (reset_grid 1 w).1 = Raise AttributeError
  end.
Proof.
  destruct (END w) as [e|] eqn:He.
  - destruct (reset_grid_1_nodes w e He) as (R & _ & _ & _ & _ & _ & _ & _ & _ & Hn).
    split; [done|].
    rewrite (node_lookup _ e (clear_end (node w e))); [done|].
    rewrite Hn. by rewrite decide_True.
  - unfold reset_grid; simpl.
    destruct (foldl_soft_reset (all_nodes w) w) as (_ & _ & _ & _ & H5 & _).
    by rewrite H5, He.
Qed.

(** ** The heuristic is written in one place only *)

(** [w'] has the [h_score] of [w] in every cell. *)
Definition same_h (w w' : World) : Prop :=
  ∀ q, h_score (node w' q) = h_score (node w q).

Lemma same_h_refl w : same_h w w.
Proof. by intros q. Qed.

Lemma same_h_trans w1 w2 w3 : same_h w1 w2 → same_h w2 w3 → same_h w1 w3.
Proof. intros H1 H2 q. by rewrite H2, H1. Qed.

Lemma same_h_set_node p f w :
  (∀ n, h_score (f n) = h_score n) → same_h w (set_node p f w).
Proof.
  intros Hf q. rewrite node_set_node. destruct (decide (p = q)) as [->|]; [apply Hf|done].
Qed.

Lemma same_h_nodes w w' : nodes w' = nodes w → same_h w w'.
Proof. intros H q. unfold node. by rewrite H. Qed.

Lemma same_h_foldl {A} (F : World → A → World) l w :
  (∀ w x, same_h w (F w x)) → same_h w (foldl F w l).
Proof.
  intros HF. revert w. induction l as [|x l IH]; intros w; simpl.
  - apply same_h_refl.
  - eapply same_h_trans; [apply HF | apply IH].
Qed.

Local Ltac frame_h :=
  repeat first
    [ apply same_h_refl
    | apply same_h_set_node; by intros []
    | match goal with
      | |- same_h _ (if ?c then _ else _) => destruct c
      | |- same_h ?w (with_START _ ?w') => change (same_h w w')
      | |- same_h ?w (with_END _ ?w') => change (same_h w w')
      end ].

Lemma same_h_make_start p w : same_h w (make_start p w).
Proof. unfold make_start. frame_h. Qed.

Lemma same_h_make_end p w : same_h w (make_end p w).
Proof. unfold make_end. frame_h. Qed.

Lemma same_h_make_obstacle p w : same_h w (make_obstacle p w).
Proof. unfold make_obstacle. frame_h. Qed.

Lemma same_h_make_active p w : same_h w (make_active p w).
Proof. unfold make_active. frame_h. Qed.

Lemma same_h_make_visited p w : same_h w (make_visited p w).
Proof. unfold make_visited. frame_h. Qed.

Lemma same_h_make_path p c w : same_h w (make_path p c w).
Proof. unfold make_path. frame_h. Qed.

Lemma same_h_draw p w : same_h w (draw p w).
Proof. unfold draw. frame_h. Qed.

Lemma same_h_reset p w : same_h w (reset p w).
Proof.
  unfold reset.
  eapply same_h_trans; [|apply same_h_set_node; by intros []].
  destruct (is_start w p); [by apply same_h_nodes|].
  destruct (is_end w p); [by apply same_h_nodes|]. apply same_h_refl.
Qed.

Lemma same_h_draw_screen w : same_h w (draw_screen w).
Proof. apply same_h_foldl. intros; apply same_h_draw. Qed.

Lemma same_h_reset_grid mode w : same_h w (reset_grid mode w).2.
Proof.
  unfold reset_grid. destruct (mode =? 0); simpl.
  { apply same_h_foldl. intros; apply same_h_reset. }
  destruct (mode =? 1); simpl; [|apply same_h_refl].
  assert (H : same_h w (foldl soft_reset w (all_nodes w))).
  { apply same_h_foldl. intros w0 x. unfold soft_reset.
    destruct (_ && _); [apply same_h_reset | apply same_h_refl]. }
  destruct (END _); simpl; [|done].
  eapply same_h_trans; [apply H|]. apply same_h_set_node. by intros [].
Qed.

Lemma handle_input_running_nodes evs w :
  let w' := (handle_input_running evs w).2 in
  nodes w' = nodes w ∧ ROWS w' = ROWS w ∧ COLUMNS w' = COLUMNS w
  ∧ ALG w' = ALG w ∧ START w' = START w ∧ END w' = END w.
Proof.
  revert w. induction evs as [|ev evs IH]; intros w; simpl; [done|].
  destruct ev as [|[]|]; simpl; try done;
    match goal with |- context [handle_input_running evs ?w1] => apply (IH w1) end.
Qed.

Lemma same_h_handle_input_running evs w : same_h w (handle_input_running evs w).2.
Proof. apply same_h_nodes. apply handle_input_running_nodes. Qed.

Lemma same_h_relax current s nb : same_h (world s) (world (relax current s nb)).
Proof.
  unfold relax. destruct (negb _); [|apply same_h_refl].
  destruct (num_ltb _ _); [|apply same_h_refl].
  destruct (_ && _); simpl.
  - eapply same_h_trans; [|apply same_h_make_active]. apply same_h_set_node. by intros [].
  - apply same_h_set_node. by intros [].
Qed.

Lemma same_h_foldl_relax current nbs s :
  same_h (world s) (world (foldl (relax current) s nbs)).
Proof.
  revert s. induction nbs as [|x l IH]; intros s; simpl; [apply same_h_refl|].
  eapply same_h_trans; [apply same_h_relax | apply IH].
Qed.

(** The module state a loop outcome carries, if any. *)
Definition end_world (r : LoopEnd) : option World :=
  match r with
  | Cancelled (_, w) | Raised _ w => Some w
  | Found s | Exhausted s => Some (world s)
  | OutOfFuel => None
  end.

Definition step_world (st : Step) : option World :=
  match st with
  | Next s => Some (world s)
  | Stop r => end_world r
  end.

Definition same_h_opt (w : World) (o : option World) : Prop :=
  match o with
  | Some w' => same_h w w'
  | None => True
  end.

Lemma same_h_search_iteration evs s e0 q0 :
  same_h_opt (world s) (step_world (search_iteration evs s e0 q0)).
Proof.
  unfold search_iteration.
  pose proof (same_h_handle_input_running evs (world s)) as Hh.
  destruct (handle_input_running evs (world s)) as [[[]|e] w1]; simpl in *; try done.
  { destruct (reset_grid 1 w1) as [r w2] eqn:E. simpl.
    eapply same_h_trans; [apply Hh|].
    pose proof (same_h_reset_grid 1 w1) as H. by rewrite E in H. }
  destruct (PAUSED w1); simpl; [done|].
  set (w2 := if QUICK_MODE w1 then w1 else draw_screen w1).
  assert (H2 : same_h (world s) w2).
  { unfold w2. destruct (QUICK_MODE w1); [done|].
    eapply same_h_trans; [apply Hh | apply same_h_draw_screen]. }
  destruct (extract_min e0 q0) as [m q].
  destruct (is_end w2 (e_node m)); simpl; [done|].
  assert (H3 : same_h (world s) (make_visited (e_node m) w2)).
  { eapply same_h_trans; [apply H2 | apply same_h_make_visited]. }
  destruct (get_neighbours _ _ _); simpl; [|done].
  eapply same_h_trans; [apply H3|]. apply (same_h_foldl_relax _ _ (mkSearch _ _ _ _)).
Qed.

Lemma same_h_search_step evs s : same_h_opt (world s) (step_world (search_step evs s)).
Proof.
  unfold search_step. destruct (active s); simpl.
  - apply same_h_refl.
  - apply same_h_search_iteration.
Qed.

Lemma same_h_search_loop fuel inputs s :
  same_h_opt (world s) (end_world (search_loop fuel inputs s).1).
Proof.
  revert inputs s. induction fuel as [|fuel IH]; intros inputs s; simpl; [done|].
  destruct (active s) as [|e0 q0]; simpl; [apply same_h_refl|].
  destruct (poll inputs) as [evs rest].
  pose proof (same_h_search_iteration evs s e0 q0) as Hs.
  destruct (search_iteration evs s e0 q0) as [s'|r]; simpl in *; [|done].
  specialize (IH rest s').
  destruct (end_world _); simpl in *; [|done].
  eapply same_h_trans; [apply Hs | apply IH].
Qed.

Lemma same_h_paint_loop fuel inputs n i todo w :
  match paint_loop fuel inputs n i todo w with
  | Some (_, w', _) => same_h w w'
  | None => True
  end.
Proof.
  revert inputs i todo w. induction fuel as [|fuel IH]; intros inputs i todo w.
  { destruct todo; simpl; [apply same_h_refl | done]. }
  destruct todo as [|p todo]; simpl; [apply same_h_refl|].
  destruct (poll inputs) as [evs rest].
  pose proof (same_h_handle_input_running evs w) as Hh.
  destruct (handle_input_running evs w) as [[b|e] w1]; simpl in *; [|done].
  destruct (PAUSED w1).
  - specialize (IH rest i (p :: todo) w1).
    destruct (paint_loop _ _ _ _ _ _) as [[[? w'] ?]|]; [|done].
    eapply same_h_trans; [apply Hh | apply IH].
  - match goal with |- context [paint_loop fuel rest n (S i) todo ?w3] =>
      specialize (IH rest (S i) todo w3); assert (H3 : same_h w w3) end.
    { eapply same_h_trans; [apply Hh|].
      destruct (QUICK_MODE _).
      - apply same_h_make_path.
      - eapply same_h_trans; [apply same_h_make_path | apply same_h_draw_screen]. }
    destruct (paint_loop _ _ _ _ _ _) as [[[? w'] ?]|]; [|done].
    eapply same_h_trans; [apply H3 | apply IH].
Qed.

Lemma same_h_draw_path fuel inputs w :
  match draw_path fuel inputs w with
  | Some (_, w', _) => same_h w w'
  | None => True
  end.
Proof.
  unfold draw_path. destruct (path_walk w) as [[path nd]|e].
  - apply same_h_paint_loop.
  - apply same_h_refl.
Qed.

Lemma same_h_maze_loop fuel rng inputs stack w :
  match maze_loop fuel rng inputs stack w with
  | Some (_, w') => same_h w w'
  | None => True
  end.
Proof.
  revert rng inputs stack w. induction fuel as [|fuel IH]; intros rng inputs stack w.
  { destruct stack; simpl; [apply same_h_refl | done]. }
  destruct stack as [|current rest]; simpl; [apply same_h_refl|].
  set (pre := if SHOW_MAZE_ANIM w then _ else _).
  assert (Hpre : same_h w pre.1.2).
  { unfold pre. destruct (SHOW_MAZE_ANIM w); simpl; [|apply same_h_refl].
    destruct (poll inputs) as [evs inputs'].
    pose proof (same_h_handle_input_running evs w) as Hh.
    destruct (handle_input_running evs w) as [[b|e] w1]; simpl in *; [|done].
    eapply same_h_trans; [apply Hh | apply same_h_draw_screen]. }
  destruct pre as [[r w1] inputs1]; simpl in *.
  destruct r as [[]|e]; [|done].
  set (w2 := reset current (make_active current w1)).
  assert (H2 : same_h w w2).
  { eapply same_h_trans; [apply Hpre|].
    eapply same_h_trans; [apply same_h_make_active | apply same_h_reset]. }
  destruct (get_neighbours w2 current 2) as [nbs|]; [|done].
  destruct (filter _ nbs) as [|n0 ns] eqn:Ef.
  - specialize (IH rng inputs1 rest w2).
    destruct (maze_loop _ _ _ _ _) as [[? w']|]; [|done].
    eapply same_h_trans; [apply H2 | apply IH].
  - destruct (draw_rng rng) as [k rng'].
    destruct (nodes_at _ _ _) as [wall|]; [|done].
    match goal with |- context [maze_loop fuel rng' inputs1 ?st ?w3] =>
      specialize (IH rng' inputs1 st w3); assert (H3 : same_h w w3) end.
    { eapply same_h_trans; [apply H2|].
      eapply same_h_trans; apply same_h_reset. }
    destruct (maze_loop _ _ _ _ _) as [[? w']|]; [|done].
    eapply same_h_trans; [apply H3 | apply IH].
Qed.

Lemma same_h_generate_maze fuel rng inputs w :
  match generate_maze fuel rng inputs w with
  | Some (_, w') => same_h w w'
  | None => True
  end.
Proof.
  unfold generate_maze.
  set (w1 := foldl _ (reset_grid 0 w).2 _).
  assert (H1 : same_h w w1).
  { eapply same_h_trans; [apply (same_h_reset_grid 0)|].
    apply same_h_foldl. intros; apply same_h_make_obstacle. }
  destruct (nodes_at w1 0 0) as [origin|]; [|done].
  pose proof (same_h_maze_loop fuel rng inputs [origin] (reset origin w1)) as Hm.
  destruct (maze_loop _ _ _ _ _) as [[[[]|e] w2]|]; [| |done].
  - assert (H2 : same_h w (make_start origin w2)).
    { eapply same_h_trans; [apply H1|].
      eapply same_h_trans; [apply same_h_reset|].
      eapply same_h_trans; [apply Hm | apply same_h_make_start]. }
    destruct (nodes_at _ _ _); [|done].
    eapply same_h_trans; [apply H2 | apply same_h_make_end].
  - eapply same_h_trans; [apply H1|].
    eapply same_h_trans; [apply same_h_reset | apply Hm].
Qed.

(** ** Initialisation of a search *)

Lemma elem_of_all_nodes w q : q ∈ all_nodes w ↔ in_grid w q.
Proof.
  unfold all_nodes, in_grid. destruct q as [r c]; simpl.
  rewrite list_elem_of_bind. split.
  - intros (r' & H1 & H2). apply list_elem_of_bind in H1 as (c' & H1 & H3).
    apply list_elem_of_singleton in H1. injection H1 as -> ->.
    apply elem_of_seqZ in H2, H3. lia.
  - intros [Hr Hc]. exists r. split; [|apply elem_of_seqZ; lia].
    apply list_elem_of_bind. exists c. split; [by apply list_elem_of_singleton|].
    apply elem_of_seqZ; lia.
Qed.

(** What the first loop of [find_path] does to the node at [q]. *)
Definition initialised (e q : pos) (n : Node) : Node :=
  mkNode (color n) (needs_refresh n) (g_score n)
         (Z.abs (e.1 - q.1) + Z.abs (e.2 - q.2)) None.

(** [w'] differs from [w] in node fields only. *)
Definition same_globals (w w' : World) : Prop :=
  ROWS w' = ROWS w ∧ COLUMNS w' = COLUMNS w ∧ ALG w' = ALG w
  ∧ START w' = START w ∧ END w' = END w
  ∧ SHOW_MAZE_ANIM w' = SHOW_MAZE_ANIM w ∧ PAUSED w' = PAUSED w
  ∧ QUICK_MODE w' = QUICK_MODE w.

Lemma same_globals_refl w : same_globals w w.
Proof. by repeat split. Qed.

Lemma same_globals_trans w1 w2 w3 :
  same_globals w1 w2 → same_globals w2 w3 → same_globals w1 w3.
Proof. unfold same_globals. intros. destruct_and!. split_and!; congruence. Qed.

Lemma same_globals_set_node p f w : same_globals w (set_node p f w).
Proof. by repeat split. Qed.

Lemma same_globals_all_nodes w w' : same_globals w w' → all_nodes w' = all_nodes w.
Proof. intros (H1 & H2 & _). unfold all_nodes. by rewrite H1, H2. Qed.

Lemma foldl_init_node l w e :
  END w = Some e →
  ∃ w', foldl init_node (Ok tt, w) l = (Ok tt, w')
        ∧ same_globals w w'
        ∧ ∀ q, node w' q = if bool_decide (q ∈ l) then initialised e q (node w q)
                           else node w q.
Proof.
  revert w. induction l as [|x l IH]; intros w He; simpl.
  { exists w. split; [done|]. split; [apply same_globals_refl|done]. }
  unfold update_h_score. rewrite He.
  match goal with |- context [foldl init_node (Ok tt, ?w1) l] => set (w1' := w1) end.
  destruct (IH w1' He) as (w' & E & G & Hn).
  exists w'. split; [done|]. split.
  { eapply same_globals_trans; [|apply G]. by repeat split. }
  intros q. rewrite Hn. unfold w1'.
  destruct (decide (x = q)) as [->|Hne].
  - rewrite !node_set_node_eq.
    rewrite (bool_decide_eq_true_2 (q ∈ q :: l)) by left.
    by destruct (bool_decide (q ∈ l)).
  - rewrite !node_set_node_ne by done.
    rewrite (bool_decide_ext (q ∈ x :: l) (q ∈ l)); [done|].
    rewrite elem_of_cons. split; [intros [?|?]; congruence | by right].
Qed.

Lemma foldl_init_node_no_END l w :
  END w = None → (foldl init_node (Ok tt, w) l).2 = w.
Proof.
  intros He. destruct l as [|x l]; simpl; [done|].
  unfold update_h_score. rewrite He.
  induction l as [|y l IH]; simpl; done.
Qed.

Definition with_g (g : Num) (n : Node) : Node :=
  mkNode (color n) (needs_refresh n) g (h_score n) (parent_node n).

(** The state in which the search loop starts. *)
Lemma search_init_spec w st e :
  START w = Some st → END w = Some e →
  ∃ w', search_init w = (Ok (mkSearch w' [mkEntry (score w' st) 0 st] 0
                                      [mkEntry (score w' st) 0 st]), w')
        ∧ same_globals w w'
        ∧ ∀ q, node w' q =
               (if decide (st = q) then with_g (Fin 0) else id)
                 (if bool_decide (in_grid w q) then initialised e q (node w q)
                  else node w q).
Proof.
  intros Hs He. unfold search_init.
  destruct (foldl_init_node (all_nodes w) w e He) as (w1 & E & G & Hn).
  rewrite E. destruct G as (G1 & G2 & G3 & G4 & G5 & G6 & G7 & G8).
  rewrite G4, Hs. eexists. split; [reflexivity|]. split.
  { by repeat split. }
  intros q. rewrite node_set_node. rewrite !Hn.
  rewrite !(bool_decide_ext _ _ (elem_of_all_nodes w _)).
  destruct (decide (st = q)) as [->|]; [|done]. done.
Qed.

Lemma search_init_world w s w1 : search_init w = (Ok s, w1) → world s = w1.
Proof.
  unfold search_init. destruct (foldl _ _ _) as [[[]|e] w2]; [|done].
  destruct (START w2); [|done]. by injection 1 as <- <-.
Qed.

Lemma same_h_find_path fuel inputs w :
  match find_path fuel inputs w with
  | Some r => same_h (search_init w).2 (final r)
  | None => True
  end.
Proof.
  unfold find_path. destruct (search_init w) as [[s|e] w1] eqn:Ei; simpl; [|apply same_h_refl].
  apply search_init_world in Ei. subst w1.
  pose proof (same_h_search_loop fuel inputs s) as Hl.
  destruct (search_loop fuel inputs s) as [[[r w1]|s1|s1|e w1|] rest]; simpl in *; try done.
  - pose proof (same_h_draw_path fuel rest (world s1)) as Hd.
    destruct (draw_path fuel rest (world s1)) as [[[[[]|e] w2] rest']|]; simpl; try done.
    + pose proof (same_h_reset_grid 1 (draw_screen w2)) as Hr.
      destruct (reset_grid 1 (draw_screen w2)) as [r w3]; simpl in *.
      eapply same_h_trans; [apply Hl|]. eapply same_h_trans; [apply Hd|].
      eapply same_h_trans; [apply same_h_draw_screen | apply Hr].
    + eapply same_h_trans; [apply Hl | apply Hd].
  - pose proof (same_h_reset_grid 1 (draw_screen (world s1))) as Hr.
    destruct (reset_grid 1 (draw_screen (world s1))) as [r w3]; simpl in *.
    eapply same_h_trans; [apply Hl|].
    eapply same_h_trans; [apply same_h_draw_screen | apply Hr].
Qed.

(** C9.  No operation but the first loop of [find_path] writes an
    [h_score]: [Node.reset], [reset_grid] in every mode, the colouring
    methods, [draw_screen], the iterations of the search loop,
    [draw_path] and [generate_maze] all leave the [h_score] of every
    cell as it was.  The first loop of [find_path] sets the [h_score] of
    every cell of the grid to its Manhattan distance to [END] (and
    raises before any write when [END] is unset), and the rest of
    [find_path] keeps it. *)
Theorem h_score_written_only_by_search_init (w : World) :
  (∀ p, same_h w (reset p w))
  ∧ (∀ mode, same_h w (reset_grid mode w).2)
  ∧ (∀ p c, same_h w (make_start p w) ∧ same_h w (make_end p w)
            ∧ same_h w (make_obstacle p w) ∧ same_h w (make_active p w)
            ∧ same_h w (make_visited p w) ∧ same_h w (make_path p c w)
            ∧ same_h w (draw p w))
  ∧ same_h w (draw_screen w)
  ∧ (∀ evs q i h, same_h_opt w (step_world (search_step evs (mkSearch w q i h))))
  ∧ (∀ fuel inputs, match draw_path fuel inputs w with
                    | Some (_, w', _) => same_h w w'
                    | None => True
                    end)
  ∧ (∀ fuel rng inputs, match generate_maze fuel rng inputs w with
                        | Some (_, w') => same_h w w'
                        | None => True
                        end)
  ∧ (∀ q, h_score (node (search_init w).2 q) =
          match END w with
          | Some e => if bool_decide (in_grid w q)
                      then Z.abs (e.1 - q.1) + Z.abs (e.2 - q.2)
                      else h_score (node w q)
          | None => h_score (node w q)
          end)
  ∧ (∀ fuel inputs, match find_path fuel inputs w with
                    | Some r => same_h (search_init w).2 (final r)
                    | None => True
                    end).
Proof.
  split_and!.
  - intros; apply same_h_reset.
  - intros; apply same_h_reset_grid.
  - intros. split_and!.
    + apply same_h_make_start.
    + apply same_h_make_end.
    + apply same_h_make_obstacle.
    + apply same_h_make_active.
    + apply same_h_make_visited.
    + apply same_h_make_path.
    + apply same_h_draw.
  - apply same_h_draw_screen.
  - intros. apply (same_h_search_step evs (mkSearch w q i h)).
  - intros; apply same_h_draw_path.
  - intros; apply same_h_generate_maze.
  - intros q. destruct (END w) as [e|] eqn:He.
    + unfold search_init.
      destruct (foldl_init_node (all_nodes w) w e He) as (w1 & E & G & Hn).
      rewrite E. assert (H1 : h_score (node w1 q) =
          if bool_decide (in_grid w q) then Z.abs (e.1 - q.1) + Z.abs (e.2 - q.2)
          else h_score (node w q)).
      { rewrite Hn, (bool_decide_ext _ _ (elem_of_all_nodes w q)).
        by destruct (bool_decide _). }
      destruct (START w1); simpl; [|done].
      rewrite node_set_node. by destruct (decide _) as [->|].
    + unfold search_init.
      pose proof (foldl_init_node_no_END (all_nodes w) w He) as E.
      destruct (foldl _ _ _) as [[[]|e] w1]; simpl in *; subst w1; [|done].
      destruct (START w); simpl; [|done].
      rewrite node_set_node. by destruct (decide _) as [->|].
  - intros; apply same_h_find_path.
Qed.

(** ** Cancelling a search *)

(** The search state after the loop iterations that the polls [inputs]
    drive, as long as none of them ends the loop. *)
Fixpoint run_steps (inputs : list (list Event)) (s : Search) : option Search :=
  match inputs with
  | [] => Some s
  | evs :: rest =>
      match search_step evs s with
      | Next s' => run_steps rest s'
      | Stop _ => None
      end
  end.

Lemma search_loop_run_steps fuel pre inputs s s' :
  run_steps pre s = Some s' →
  search_loop (length pre + fuel) (pre ++ inputs) s = search_loop fuel inputs s'.
Proof.
  revert s. induction pre as [|evs pre IH]; intros s; simpl.
  { by intros [= ->]. }
  unfold search_step. destruct (active s) as [|e0 q0]; [done|].
  destruct (search_iteration evs s e0 q0) as [s1|]; [|done].
  apply IH.
Qed.

(** C7.  When a poll of the running search loop brings the cancel
    signal, that iteration ends the loop: [find_path] prints the
    cancellation message and nothing else, draws no path, and returns
    what [reset_grid(1)] returns, leaving the module state that
    [reset_grid(1)] produces from the state [w'] in which the signal was
    read. *)
Theorem find_path_cancel (fuel : nat) (pre : list (list Event)) (evs : list Event)
    (rest : list (list Event)) (w w0 w' : World) (s0 s' : Search) :
  search_init w = (Ok s0, w0) →
  run_steps pre s0 = Some s' →
  active s' ≠ [] →
  handle_input_running evs (world s') = (Ok true, w') →
  (length pre < fuel)%nat →
  search_loop fuel (pre ++ evs :: rest) s0 = (Cancelled (reset_grid 1 w'), rest)
  ∧ find_path fuel (pre ++ evs :: rest) w
    = Some (mkRun (reset_grid 1 w').1 [MsgCancelled] (reset_grid 1 w').2).
Proof.
  intros Hi Hr Ha Hc Hf.
  assert (Hl : search_loop fuel (pre ++ evs :: rest) s0
               = (Cancelled (reset_grid 1 w'), rest)).
  { replace fuel with (length pre + S (fuel - S (length pre)))%nat by lia.
    rewrite (search_loop_run_steps _ _ _ _ _ Hr). simpl.
    destruct (active s') as [|e0 q0]; [done|].
    unfold search_iteration. by rewrite Hc. }
  split; [done|].
  unfold find_path. rewrite Hi, Hl. by destruct (reset_grid 1 w').
Qed.

(** ** The open 5 × 5 grid *)

Definition grid5 (alg : Algorithm) : World :=
  make_end (4, 4) (make_start (0, 0) (create_nodes 5 5 alg)).

(** The theorem for a cancel key in the third poll of an A* search on
    the open 5 × 5 grid, pressed after a quick-mode toggle. *)
Lemma find_path_cancel_witness :
  let w := grid5 A_STAR in
  let s0 := match search_init w with (Ok s, _) => s | _ => mkSearch w [] 0 [] end in
  let s' := default s0 (run_steps [[]; []] s0) in
  let w' := with_QUICK_MODE true (world s') in
  search_loop 10 ([[]; []] ++ [KEYDOWN K_q; KEYDOWN K_BACKSPACE] :: [[]]) s0
    = (Cancelled (reset_grid 1 w'), [[]])
  ∧ find_path 10 ([[]; []] ++ [KEYDOWN K_q; KEYDOWN K_BACKSPACE] :: [[]]) w
    = Some (mkRun (reset_grid 1 w').1 [MsgCancelled] (reset_grid 1 w').2).
Proof.
  intros w s0 s' w'.
  apply (find_path_cancel 10 [[]; []] [KEYDOWN K_q; KEYDOWN K_BACKSPACE] [[]]
           w (world s0) w' s0 s').
  - vm_compute. reflexivity.
  - vm_compute. reflexivity.
  - vm_compute. discriminate.
  - vm_compute. reflexivity.
  - simpl. lia.
Defined.

(** The outcome of the search loop of [find_path]. *)
Definition search_result (fuel : nat) (inputs : list (list Event)) (w : World)
  : option LoopEnd :=
  match search_init w with
  | (Ok s, _) => Some (search_loop fuel inputs s).1
  | (Raise _, _) => None
  end.

(** C4.  On the 5 × 5 grid without obstacles, with Start at (0, 0) and
    End at (4, 4), the search of each of the three algorithms ends by
    dequeuing End with [g_score] 8, and [find_path] prints a path length
    of 8 and returns normally. *)
Theorem open_grid5_path_length (alg : Algorithm) :
  match search_result 100 [] (grid5 alg) with
  | Some (Found s1) => g_score (node (world s1) (4, 4)) = Fin 8
  | _ => False
  end
  ∧ printed <$> find_path 100 [] (grid5 alg) = Some [MsgPathFound (Fin 8)]
  ∧ returned <$> find_path 100 [] (grid5 alg) = Some (Ok tt).
Proof. destruct alg; vm_compute; done. Qed.

(** ** One iteration of the search loop *)

(** [w'] differs from [w] at most in the refresh flags of the nodes and
    in the three toggles. *)
Definition core_eq (w w' : World) : Prop :=
  ROWS w' = ROWS w ∧ COLUMNS w' = COLUMNS w ∧ ALG w' = ALG w
  ∧ START w' = START w ∧ END w' = END w
  ∧ ∀ q, color (node w' q) = color (node w q)
         ∧ g_score (node w' q) = g_score (node w q)
         ∧ h_score (node w' q) = h_score (node w q)
         ∧ parent_node (node w' q) = parent_node (node w q).

Lemma core_eq_refl w : core_eq w w.
Proof. by repeat split. Qed.

Lemma core_eq_trans w1 w2 w3 : core_eq w1 w2 → core_eq w2 w3 → core_eq w1 w3.
Proof.
  intros (A1 & A2 & A3 & A4 & A5 & A) (B1 & B2 & B3 & B4 & B5 & B).
  split_and!; try congruence.
  intros q. destruct (A q) as (? & ? & ? & ?), (B q) as (? & ? & ? & ?).
  split_and!; congruence.
Qed.

Lemma core_eq_handle_input_running evs w : core_eq w (handle_input_running evs w).2.
Proof.
  destruct (handle_input_running_nodes evs w) as (Hn & ? & ? & ? & ? & ?).
  split_and!; try done. intros q. unfold node. by rewrite Hn.
Qed.

Lemma core_eq_draw p w : core_eq w (draw p w).
Proof.
  unfold draw. destruct (needs_refresh _); [|apply core_eq_refl].
  split_and!; try done. intros q. rewrite node_set_node.
  by destruct (decide (p = q)) as [->|].
Qed.

Lemma core_eq_draw_screen w : core_eq w (draw_screen w).
Proof.
  unfold draw_screen. generalize (all_nodes w). intros l. revert w.
  induction l as [|x l IH]; intros w; simpl; [apply core_eq_refl|].
  eapply core_eq_trans; [apply core_eq_draw | apply IH].
Qed.

Lemma core_eq_in_grid w w' q : core_eq w w' → in_grid w' q ↔ in_grid w q.
Proof. intros (H1 & H2 & _). unfold in_grid. by rewrite H1, H2. Qed.

Lemma core_eq_is_obstacle w w' q : core_eq w w' → is_obstacle w' q = is_obstacle w q.
Proof.
  intros (_ & _ & _ & _ & _ & H). unfold is_obstacle.
  destruct (H q) as (-> & _). done.
Qed.

Lemma core_eq_is_end w w' q : core_eq w w' → is_end w' q = is_end w q.
Proof. intros (_ & _ & _ & _ & H & _). unfold is_end. by rewrite H. Qed.

(** The transitions of the loop variables that one iteration can make
    without leaving the loop by an exception or a cancellation: the
    iteration is skipped while paused, or it dequeues End, or it
    dequeues another cell and relaxes its neighbours. *)
Inductive iter (s : Search) : Search → Prop :=
  | iter_paused w1 :
      core_eq (world s) w1 →
      iter s (mkSearch w1 (active s) (index s) (puts s))
  | iter_found w1 e0 q0 m q :
      active s = e0 :: q0 → core_eq (world s) w1 →
      extract_min e0 q0 = (m, q) →
      is_end w1 (e_node m) = true →
      iter s (mkSearch w1 q (index s) (puts s))
  | iter_relax w1 e0 q0 m q nbs :
      active s = e0 :: q0 → core_eq (world s) w1 →
      extract_min e0 q0 = (m, q) →
      is_end w1 (e_node m) = false →
      get_neighbours (make_visited (e_node m) w1) (e_node m) 1 = Some nbs →
      iter s (foldl (relax (e_node m))
                    (mkSearch (make_visited (e_node m) w1) q (index s) (puts s)) nbs).

(** The loop variables a step passes on, to the next iteration or to
    the code after the loop. *)
Definition step_search (st : Step) : option Search :=
  match st with
  | Next s | Stop (Found s) | Stop (Exhausted s) => Some s
  | Stop _ => None
  end.

Lemma search_iteration_iter evs s e0 q0 s' :
  active s = e0 :: q0 →
  step_search (search_iteration evs s e0 q0) = Some s' → iter s s'.
Proof.
  intros Ha. unfold search_iteration.
  pose proof (core_eq_handle_input_running evs (world s)) as Hh.
  destruct (handle_input_running evs (world s)) as [[[]|e] w1]; simpl in *; try done.
  destruct (PAUSED w1); simpl.
  { intros [= <-]. by constructor. }
  set (w2 := if QUICK_MODE w1 then w1 else draw_screen w1).
  assert (H2 : core_eq (world s) w2).
  { unfold w2. destruct (QUICK_MODE w1); [done|].
    eapply core_eq_trans; [apply Hh | apply core_eq_draw_screen]. }
  destruct (extract_min e0 q0) as [m q] eqn:Em.
  destruct (is_end w2 (e_node m)) eqn:Ee; simpl.
  { intros [= <-]. by eapply iter_found. }
  destruct (get_neighbours _ _ _) as [nbs|] eqn:En; simpl; [|done].
  intros [= <-]. by eapply iter_relax.
Qed.

Lemma search_step_iter evs s s' :
  step_search (search_step evs s) = Some s' → s' = s ∨ iter s s'.
Proof.
  unfold search_step. destruct (active s) as [|e0 q0] eqn:Ha; simpl.
  - intros [= <-]. by left.
  - intros H. right. by eapply search_iteration_iter.
Qed.

Lemma run_steps_rtc inputs s s' : run_steps inputs s = Some s' → rtc iter s s'.
Proof.
  revert s. induction inputs as [|evs rest IH]; intros s; simpl.
  { intros [= ->]. done. }
  destruct (search_step evs s) as [s1|] eqn:E; [|done].
  intros H. destruct (search_step_iter evs s s1) as [->|Hi].
  - by rewrite E.
  - by apply IH.
  - eapply rtc_l; [apply Hi | by apply IH].
Qed.


(** ** Relaxing one neighbour *)

(** The candidate cost [current.g_score + 1]. *)
Definition cand (w : World) (current : pos) : Num :=
  num_add (g_score (node w current)) (Fin 1).

(** Either [relax] changes nothing, or the neighbour is no obstacle and
    the candidate cost is below its [g_score]: then the neighbour gets
    the candidate cost and [current] as parent, no other node changes,
    and the neighbour is put in the queue with the current index, or
    the queue is left alone. *)
Lemma relax_spec current s nb :
  let w := world s in
  let s' := relax current s nb in
  s' = s
  ∨ (is_obstacle w nb = false
     ∧ num_ltb (cand w current) (g_score (node w nb)) = true
     ∧ same_globals w (world s')
     ∧ (∀ q, q ≠ nb → node (world s') q = node w q)
     ∧ g_score (node (world s') nb) = cand w current
     ∧ parent_node (node (world s') nb) = Some current
     ∧ h_score (node (world s') nb) = h_score (node w nb)
     ∧ (color (node (world s') nb) = color (node w nb)
        ∨ color (node (world s') nb) = GREEN)
     ∧ ((active s' = active s ∧ index s' = index s ∧ puts s' = puts s)
        ∨ (let e := mkEntry (score (world s') nb) (index s) nb in
           active s' = active s ++ [e] ∧ index s' = index s + 1
           ∧ puts s' = puts s ++ [e]))).
Proof.
  intros w s'. unfold s', relax. fold w. fold (cand w current).
  destruct (is_obstacle w nb) eqn:Ho; simpl; [by left|].
  destruct (num_ltb (cand w current) (g_score (node w nb))) eqn:Hlt; simpl.
  2:{ left. by destruct s. }
  right. split; [done|]. split; [done|].
  destruct (negb (is_active _ nb) && negb (is_visited _ nb)); simpl.
  - unfold make_active. split_and!.
    + by repeat split.
    + intros q Hq. by rewrite !node_set_node_ne.
    + by rewrite !node_set_node_eq.
    + by rewrite !node_set_node_eq.
    + by rewrite !node_set_node_eq.
    + right. by rewrite !node_set_node_eq.
    + right. done.
  - split_and!.
    + by repeat split.
    + intros q Hq. by rewrite !node_set_node_ne.
    + by rewrite !node_set_node_eq.
    + by rewrite !node_set_node_eq.
    + by rewrite !node_set_node_eq.
    + left. by rewrite !node_set_node_eq.
    + left. done.
Qed.

Lemma foldl_relax_ind (I : Search → Prop) current nbs s :
  I s →
  (∀ s nb, nb ∈ nbs → I s → I (relax current s nb)) →
  I (foldl (relax current) s nbs).
Proof.
  revert s. induction nbs as [|x l IH]; intros s Hs Hstep; simpl; [done|].
  apply IH.
  - apply Hstep; [left | done].
  - intros s1 nb Hnb. apply Hstep. by right.
Qed.

(** ** The least entry of the queue *)

Lemma num_ltb_irrefl a : num_ltb a a = false.
Proof. destruct a; simpl; [apply Z.ltb_irrefl | done]. Qed.

Lemma entry_leb_refl a : entry_leb a a = true.
Proof.
  unfold entry_leb. rewrite num_ltb_irrefl, bool_decide_eq_true_2 by done.
  simpl. apply Z.leb_refl.
Qed.

Lemma entry_leb_total a b : entry_leb a b = false → entry_leb b a = true.
Proof.
  unfold entry_leb. destruct a as [sa ia na], b as [sb ib nb]; simpl.
  intros H. apply orb_false_iff in H as [H1 H2].
  destruct sa as [x|], sb as [y|]; simpl in *; try done.
  - apply Z.ltb_ge in H1. destruct (decide (x = y)) as [->|Hne].
    + rewrite bool_decide_eq_true_2 in H2 by done. simpl in H2.
      apply Z.leb_gt in H2.
      rewrite Z.ltb_irrefl, bool_decide_eq_true_2 by done. simpl.
      apply Z.leb_le. lia.
    + assert ((y <? x) = true) as -> by (apply Z.ltb_lt; lia). done.
  - apply Z.leb_gt in H2. apply Z.leb_le. lia.
Qed.

Lemma entry_leb_trans a b c :
  entry_leb a b = true → entry_leb b c = true → entry_leb a c = true.
Proof.
  unfold entry_leb. destruct a as [sa ia na], b as [sb ib nb], c as [sc ic nc]; simpl.
  intros H1 H2.
  apply orb_true_iff in H1 as [H1|H1], H2 as [H2|H2].
  - apply orb_true_iff. left.
    destruct sa, sb, sc; simpl in *; try done. apply Z.ltb_lt. lia.
  - apply andb_true_iff in H2 as [H2 _]. apply bool_decide_eq_true in H2 as <-.
    by rewrite H1.
  - apply andb_true_iff in H1 as [H1 _]. apply bool_decide_eq_true in H1 as ->.
    by rewrite H2.
  - apply andb_true_iff in H1 as [H1 H1'], H2 as [H2 H2'].
    apply bool_decide_eq_true in H1 as ->. apply bool_decide_eq_true in H2 as ->.
    rewrite bool_decide_eq_true_2 by done. simpl.
    apply orb_true_iff. right. apply Z.leb_le. lia.
Qed.

(** [extract_min] returns an entry of the queue that is least in the
    tuple order, and the other entries in their order. *)
Lemma extract_min_spec e q m r :
  extract_min e q = (m, r) →
  m ∈ e :: q
  ∧ (∀ x, x ∈ e :: q → entry_leb m x = true)
  ∧ r `sublist_of` e :: q
  ∧ (∀ x, x ∈ e :: q → x = m ∨ x ∈ r).
Proof.
  revert e m r. induction q as [|x q IH]; intros e m r; simpl.
  { intros [= <- <-]. split_and!.
    - left.
    - intros x ->%list_elem_of_singleton. apply entry_leb_refl.
    - by apply sublist_cons_r; left.
    - intros x ->%list_elem_of_singleton. by left. }
  destruct (extract_min x q) as [m1 r1] eqn:E1.
  destruct (IH x m1 r1 E1) as (Hm & Hle & Hsub & Hall).
  destruct (entry_leb e m1) eqn:El; intros [= <- <-].
  - split_and!.
    + left.
    + intros y [->|Hy]%elem_of_cons; [apply entry_leb_refl|].
      eapply entry_leb_trans; [apply El | by apply Hle].
    + by apply sublist_cons_r; left.
    + intros y [->|Hy]%elem_of_cons; [by left | by right].
  - split_and!.
    + by right.
    + intros y [->|Hy]%elem_of_cons; [by apply entry_leb_total | by apply Hle].
    + by apply sublist_skip.
    + intros y [->|Hy]%elem_of_cons; [right; left|].
      destruct (Hall y Hy) as [->|Hr]; [by left | right; by right].
Qed.

(** ** The cost [g_score] during a search *)

(** A cost is [+inf] or a non-negative integer. *)
Definition nonneg (g : Num) : Prop :=
  match g with
  | Fin z => 0 ≤ z
  | Inf => True
  end.

Definition g_nonneg (w : World) : Prop := ∀ q, nonneg (g_score (node w q)).

Lemma num_le_refl a : num_le a a.
Proof. unfold num_le, num_leb. by rewrite num_ltb_irrefl. Qed.

Lemma num_le_trans a b c : num_le a b → num_le b c → num_le a c.
Proof.
  unfold num_le, num_leb. destruct a, b, c; simpl; try done.
  rewrite !negb_true_iff, !Z.ltb_ge. lia.
Qed.

Lemma num_lt_le a b : num_lt a b → num_le a b.
Proof.
  unfold num_lt, num_le, num_leb. destruct a, b; simpl; try done.
  rewrite negb_true_iff, Z.ltb_lt, Z.ltb_ge. lia.
Qed.

(** A round of the [for] loop leaves every [g_score] as it is, or
    assigns the neighbour a strictly smaller one. *)
Lemma relax_g_score current s nb q :
  g_score (node (world (relax current s nb)) q) = g_score (node (world s) q)
  ∨ (q = nb
     ∧ g_score (node (world (relax current s nb)) q) = cand (world s) current
     ∧ num_lt (g_score (node (world (relax current s nb)) q))
              (g_score (node (world s) q))).
Proof.
  destruct (relax_spec current s nb) as [->|(_ & Hlt & _ & Hq & Hg & _)]; [by left|].
  destruct (decide (q = nb)) as [->|Hne].
  - right. split; [done|]. split; [done|]. unfold num_lt. by rewrite Hg.
  - left. by rewrite Hq.
Qed.

Lemma relax_g_nonneg current s nb :
  g_nonneg (world s) → g_nonneg (world (relax current s nb)).
Proof.
  intros Hn q.
  destruct (relax_g_score current s nb q) as [->|(_ & -> & _)]; [apply Hn|].
  unfold cand. specialize (Hn current).
  destruct (g_score (node (world s) current)); simpl in *; [lia|done].
Qed.

Lemma relax_g_le current s nb q :
  num_le (g_score (node (world (relax current s nb)) q)) (g_score (node (world s) q)).
Proof.
  destruct (relax_g_score current s nb q) as [->|(_ & _ & H)].
  - apply num_le_refl.
  - by apply num_lt_le.
Qed.

Lemma foldl_relax_g current nbs s :
  g_nonneg (world s) →
  g_nonneg (world (foldl (relax current) s nbs))
  ∧ ∀ q, num_le (g_score (node (world (foldl (relax current) s nbs)) q))
                (g_score (node (world s) q)).
Proof.
  revert s. induction nbs as [|x l IH]; intros s Hn; simpl.
  { split; [done|]. intros; apply num_le_refl. }
  destruct (IH (relax current s x)) as [H1 H2]; [by apply relax_g_nonneg|].
  split; [done|]. intros q.
  eapply num_le_trans; [apply H2 | apply relax_g_le].
Qed.

Lemma make_visited_g_score p w q :
  g_score (node (make_visited p w) q) = g_score (node w q).
Proof.
  unfold make_visited. destruct (negb _); [|done].
  rewrite node_set_node. by destruct (decide (p = q)) as [->|].
Qed.

Lemma iter_g s s' :
  iter s s' → g_nonneg (world s) →
  g_nonneg (world s')
  ∧ ∀ q, num_le (g_score (node (world s') q)) (g_score (node (world s) q)).
Proof.
  intros Hi Hn.
  assert (Hc : ∀ w1, core_eq (world s) w1 →
               g_nonneg w1 ∧ ∀ q, g_score (node w1 q) = g_score (node (world s) q)).
  { intros w1 (_ & _ & _ & _ & _ & Hq). split.
    - intros q. destruct (Hq q) as (_ & -> & _). apply Hn.
    - intros q. by destruct (Hq q) as (_ & -> & _). }
  destruct Hi as [w1 Hw|w1 e0 q0 m q Ha Hw Hm He|w1 e0 q0 m q nbs Ha Hw Hm He Hnb]; simpl.
  - destruct (Hc w1 Hw) as [H1 H2]. split; [done|].
    intros q. rewrite H2. apply num_le_refl.
  - destruct (Hc w1 Hw) as [H1 H2]. split; [done|].
    intros q'. rewrite H2. apply num_le_refl.
  - destruct (Hc w1 Hw) as [H1 H2].
    edestruct (foldl_relax_g (e_node m) nbs) as [F1 F2]; [|split; [apply F1|]].
    { simpl. intros q'. rewrite make_visited_g_score. apply H1. }
    intros q'. eapply num_le_trans; [apply F2|]. simpl.
    rewrite make_visited_g_score, H2. apply num_le_refl.
Qed.

Lemma search_init_g_nonneg w s0 w0 :
  g_nonneg w → search_init w = (Ok s0, w0) → g_nonneg (world s0).
Proof.
  intros Hn Hi. unfold search_init in Hi.
  destruct (END w) as [e|] eqn:He.
  - destruct (foldl_init_node (all_nodes w) w e He) as (w1 & E & G & Hq).
    rewrite E in Hi. destruct (START w1) as [st|]; [|done].
    injection Hi as <- <-. simpl. intros q. rewrite node_set_node.
    destruct (decide (st = q)) as [->|]; simpl; [done|].
    rewrite Hq. destruct (bool_decide _); [|apply Hn]. simpl. apply Hn.
  - pose proof (foldl_init_node_no_END (all_nodes w) w He) as E.
    destruct (foldl _ _ _) as [[[]|e] w1]; simpl in *; subst w1; [|done].
    destruct (START w) as [st|]; [|done].
    injection Hi as <- <-. simpl. intros q. rewrite node_set_node.
    destruct (decide (st = q)) as [->|]; simpl; [done | apply Hn].
Qed.

(** C5.  Take a call of [find_path] in a state where every [g_score] is
    [+inf] or a non-negative integer, and let [s0] be the state in which
    its search loop starts.  At the start of every iteration of the
    loop, and after every round of the [for] loop over the neighbours,
    every [g_score] is [+inf] or a non-negative integer; no iteration
    and no round increases a [g_score]; and a round either writes no
    [g_score] or assigns the neighbour [current.g_score + 1], strictly
    less than what it had. *)
Theorem g_score_only_decreases (w w0 : World) (s0 s : Search) :
  g_nonneg w →
  search_init w = (Ok s0, w0) →
  rtc iter s0 s →
  g_nonneg (world s)
  ∧ (∀ q, num_le (g_score (node (world s) q)) (g_score (node (world s0) q)))
  ∧ (∀ s', iter s s' →
           ∀ q, num_le (g_score (node (world s') q)) (g_score (node (world s) q)))
  ∧ (∀ current nbs,
        let s' := foldl (relax current) s nbs in
        g_nonneg (world s')
        ∧ (∀ q, num_le (g_score (node (world s') q)) (g_score (node (world s) q)))
        ∧ ∀ nb q,
            g_score (node (world (relax current s' nb)) q) = g_score (node (world s') q)
            ∨ (q = nb
               ∧ g_score (node (world (relax current s' nb)) q) = cand (world s') current
               ∧ num_lt (g_score (node (world (relax current s' nb)) q))
                        (g_score (node (world s') q)))).
Proof.
  intros Hn Hi Hr.
  pose proof (search_init_g_nonneg w s0 w0 Hn Hi) as H0.
  assert (H : g_nonneg (world s)
              ∧ ∀ q, num_le (g_score (node (world s) q)) (g_score (node (world s0) q))).
  { clear Hi. induction Hr as [s|s1 s2 s3 H12 H23 IH].
    - split; [done|]. intros; apply num_le_refl.
    - destruct (iter_g s1 s2 H12 H0) as [G1 G2].
      destruct (IH G1) as [G3 G4]. split; [done|].
      intros q. eapply num_le_trans; [apply G4 | apply G2]. }
  destruct H as [H1 H2]. split_and!; try done.
  - intros s' Hs'. by apply iter_g.
  - intros current nbs s'.
    destruct (foldl_relax_g current nbs s H1) as [F1 F2].
    split_and!; try done. intros nb q. apply relax_g_score.
Qed.

(** The theorem for the state after two iterations of a Dijkstra search
    on the open 5 × 5 grid. *)
Lemma g_score_only_decreases_witness :
  let w := grid5 DJIKSTRA in
  let s0 := match search_init w with (Ok s, _) => s | _ => mkSearch w [] 0 [] end in
  let s := default s0 (run_steps [[]; []] s0) in
  g_nonneg (world s)
  ∧ (∀ q, num_le (g_score (node (world s) q)) (g_score (node (world s0) q)))
  ∧ (∀ s', iter s s' →
           ∀ q, num_le (g_score (node (world s') q)) (g_score (node (world s) q)))
  ∧ (∀ current nbs,
        let s' := foldl (relax current) s nbs in
        g_nonneg (world s')
        ∧ (∀ q, num_le (g_score (node (world s') q)) (g_score (node (world s) q)))
        ∧ ∀ nb q,
            g_score (node (world (relax current s' nb)) q) = g_score (node (world s') q)
            ∨ (q = nb
               ∧ g_score (node (world (relax current s' nb)) q) = cand (world s') current
               ∧ num_lt (g_score (node (world (relax current s' nb)) q))
                        (g_score (node (world s') q)))).
Proof.
  intros w s0 s.
  apply (g_score_only_decreases w (world s0) s0 s).
  - intros q. unfold node.
    destruct (nodes w !! q) as [n|] eqn:E.
    + rewrite lookup_total_alt, E. simpl.
      assert (Hall : map_Forall (λ _ n, g_score n = Inf) (nodes w)).
      { apply map_Forall_to_list. vm_compute. repeat constructor. }
      by rewrite (Hall q n E).
    + rewrite lookup_total_alt, E. done.
  - vm_compute. reflexivity.
  - apply (run_steps_rtc [[]; []]). vm_compute. reflexivity.
Defined.

(** ** Insertion indexes *)

Definition idx_lt (a b : Entry) : Prop := e_index a < e_index b.

(** The insertions so far are Start's with index 0 and then one per
    index [0, 1, ..., index - 1], and the queue holds entries of the
    latter kind in the order of their insertion. *)
Definition queue_run (s : Search) : Prop :=
  ∃ e0 rest, puts s = e0 :: rest ∧ e_index e0 = 0
             ∧ e_index <$> rest = seqZ 0 (index s) ∧ 0 ≤ index s
             ∧ active s `sublist_of` rest.

(** The same, or the queue still holds Start's entry alone. *)
Definition queue_inv (s : Search) : Prop :=
  ∃ e0 rest, puts s = e0 :: rest ∧ e_index e0 = 0
             ∧ e_index <$> rest = seqZ 0 (index s) ∧ 0 ≤ index s
             ∧ ((active s = [e0] ∧ rest = []) ∨ active s `sublist_of` rest).

Lemma queue_run_inv s : queue_run s → queue_inv s.
Proof. intros (e0 & rest & ? & ? & ? & ? & ?). exists e0, rest. by eauto 10. Qed.

Lemma relax_queue_run current s nb : queue_run s → queue_run (relax current s nb).
Proof.
  intros (e0 & rest & Hp & H0 & Hr & Hi & Hs).
  destruct (relax_spec current s nb) as [->|(_ & _ & _ & _ & _ & _ & _ & _ & Hq)].
  { exists e0, rest. by eauto 10. }
  unfold queue_run.
  destruct Hq as [(Ea & Ei & Ep)|(Ea & Ei & Ep)]; rewrite Ea, Ei, Ep.
  { exists e0, rest. by eauto 10. }
  eexists e0, (rest ++ [_]). split_and!.
  - by rewrite Hp.
  - done.
  - rewrite fmap_app, Hr. simpl. rewrite (seqZ_app 0 (index s) 1) by lia. done.
  - lia.
  - by apply sublist_app.
Qed.

Lemma iter_queue_inv s s' : iter s s' → queue_inv s → queue_inv s'.
Proof.
  intros Hi (e0 & rest & Hp & H0 & Hr & Hx & Hs).
  assert (Hq : ∀ e1 q1 m q, active s = e1 :: q1 → extract_min e1 q1 = (m, q) →
                            q `sublist_of` rest).
  { intros e1 q1 m q Ha Hm.
    destruct (extract_min_spec _ _ _ _ Hm) as (_ & _ & Hsub & _).
    destruct Hs as [[Hs ->]|Hs].
    - rewrite Ha in Hs. injection Hs as -> ->. simpl in Hm. by injection Hm as <- <-.
    - rewrite <- Ha in Hsub. by etrans. }
  destruct Hi as [w1 Hw|w1 e1 q1 m q Ha Hw Hm He|w1 e1 q1 m q nbs Ha Hw Hm He Hnb].
  - exists e0, rest. by eauto 10.
  - exists e0, rest. split_and!; try done. right. by eapply Hq.
  - apply queue_run_inv. apply foldl_relax_ind.
    + exists e0, rest. split_and!; try done. by eapply Hq.
    + intros. by apply relax_queue_run.
Qed.

Lemma search_init_queue_inv w s0 w0 : search_init w = (Ok s0, w0) → queue_inv s0.
Proof.
  unfold search_init. destruct (foldl _ _ _) as [[[]|e] w1]; [|done].
  destruct (START w1) as [st|]; [|done]. intros [= <- <-].
  eexists _, []. split_and!; try done. by left.
Qed.

Lemma rtc_iter_queue_inv s0 s : rtc iter s0 s → queue_inv s0 → queue_inv s.
Proof.
  induction 1 as [|s1 s2 s3 H12 _ IH]; [done|].
  intros H. apply IH. by eapply iter_queue_inv.
Qed.

Lemma seqZ_indexes_sorted (l : list Entry) m n :
  e_index <$> l = seqZ m n →
  StronglySorted idx_lt l ∧ Forall (λ x, m ≤ e_index x < m + n) l.
Proof.
  revert m n. induction l as [|x l IH]; intros m n H.
  { split; constructor. }
  destruct (decide (0 < n)) as [Hn|Hn].
  2:{ rewrite seqZ_nil in H by lia. done. }
  rewrite seqZ_cons in H by done. simpl in H. injection H as Hx Hl.
  destruct (IH _ _ Hl) as [Hs Hf]. split.
  - constructor; [done|]. eapply Forall_impl; [apply Hf|].
    intros y Hy. unfold idx_lt. simpl in Hy. lia.
  - constructor; [lia|]. eapply Forall_impl; [apply Hf|].
    intros y Hy. simpl in Hy. lia.
Qed.

Lemma sublist_StronglySorted {A} (R : A → A → Prop) l1 l2 :
  l1 `sublist_of` l2 → StronglySorted R l2 → StronglySorted R l1.
Proof.
  induction 1 as [|x l1 l2 Hs IH|x l1 l2 Hs IH]; intros H2.
  - constructor.
  - apply StronglySorted_cons in H2 as [Hf H2].
    apply StronglySorted_cons. split; [|by apply IH].
    apply Forall_forall. intros y Hy.
    apply (proj1 (Forall_forall _ _) Hf). by eapply elem_of_sublist.
  - apply StronglySorted_cons in H2 as [_ H2]. by apply IH.
Qed.

Lemma sorted_indexes_inj l x y :
  StronglySorted idx_lt l → x ∈ l → y ∈ l → e_index x = e_index y → x = y.
Proof.
  induction 1 as [|z l Hs IH Hf]; [by intros ?%elem_of_nil|].
  intros [->|Hx]%elem_of_cons [->|Hy]%elem_of_cons He; try done.
  - pose proof (proj1 (Forall_forall _ _) Hf y Hy) as H. unfold idx_lt in H. lia.
  - pose proof (proj1 (Forall_forall _ _) Hf x Hx) as H. unfold idx_lt in H. lia.
  - by apply IH.
Qed.

Lemma queue_inv_sorted s : queue_inv s → StronglySorted idx_lt (active s).
Proof.
  intros (e0 & rest & Hp & H0 & Hr & Hx & [[-> _]|Hs]).
  - repeat constructor.
  - eapply sublist_StronglySorted; [done|]. by eapply seqZ_indexes_sorted.
Qed.

(** The claim as the specification words it: every insertion gets an
    index above those of all insertions before it. *)
Definition strictly_increasing_insertions (s : Search) : Prop :=
  ∀ i j a b, (i < j)%nat → puts s !! i = Some a → puts s !! j = Some b →
             e_index a < e_index b.

(** The search loop of a Dijkstra search on the open 5 × 5 grid, at its
    start and after its first iteration. *)
Definition demo_start : Search :=
  match search_init (grid5 DJIKSTRA) with
  | (Ok s, _) => s
  | (Raise _, w) => mkSearch w [] 0 []
  end.

Definition demo_after_one : Search := default demo_start (run_steps [[]] demo_start).

(** The first iteration dequeues Start, inserted with index 0, and
    inserts its first neighbour with index 0 again. *)
Lemma insertion_index_repeats :
  search_init (grid5 DJIKSTRA) = (Ok demo_start, world demo_start)
  ∧ rtc iter demo_start demo_after_one
  ∧ e_index <$> puts demo_after_one = [0; 0; 1]
  ∧ ¬ strictly_increasing_insertions demo_after_one.
Proof.
  split_and!.
  - vm_compute. reflexivity.
  - apply (run_steps_rtc [[]]). vm_compute. reflexivity.
  - vm_compute. reflexivity.
  - intros H.
    assert (E0 : e_index <$> (puts demo_after_one !! 0%nat) = Some 0)
      by (vm_compute; reflexivity).
    assert (E1 : e_index <$> (puts demo_after_one !! 1%nat) = Some 0)
      by (vm_compute; reflexivity).
    destruct (puts demo_after_one !! 0%nat) as [a|] eqn:Ea; [|discriminate E0].
    destruct (puts demo_after_one !! 1%nat) as [b|] eqn:Eb; [|discriminate E1].
    simpl in E0, E1. injection E0 as E0. injection E1 as E1.
    assert (Hab : e_index a < e_index b).
    { apply (H 0%nat 1%nat a b); [lia | exact Ea | exact Eb]. }
    clear H Ea Eb. lia.
Qed.

(** C2, amended.  In every state that the search loop of a run reaches,
    the insertions made so far carry the indexes 0, 0, 1, 2, ...,
    [index - 1] in this order: Start's insertion and the first one of
    the loop share index 0, every insertion has an index at least that
    of every earlier one, and strictly above that of every earlier one
    except Start's.  Start's entry has left the queue before the loop
    inserts, so the queue holds its entries in insertion order with
    strictly increasing, pairwise distinct indexes; and the dequeue
    returns an entry of least score that has, among the entries of that
    score, the least index: the one inserted first. *)
Theorem insertion_indexes (w w0 : World) (s0 s : Search) :
  search_init w = (Ok s0, w0) →
  rtc iter s0 s →
  e_index <$> puts s = 0 :: seqZ 0 (index s)
  ∧ (∀ i j a b, (i < j)%nat → puts s !! i = Some a → puts s !! j = Some b →
                e_index a ≤ e_index b ∧ ((0 < i)%nat → e_index a < e_index b))
  ∧ active s `sublist_of` puts s
  ∧ StronglySorted idx_lt (active s)
  ∧ (∀ e0 q0 m r, active s = e0 :: q0 → extract_min e0 q0 = (m, r) →
       m ∈ active s
       ∧ r `sublist_of` active s
       ∧ ∀ x, x ∈ active s → x ≠ m →
              num_lt (e_score m) (e_score x)
              ∨ (e_score x = e_score m ∧ e_index m < e_index x)).
Proof.
  intros Hi Hr.
  pose proof (rtc_iter_queue_inv _ _ Hr (search_init_queue_inv _ _ _ Hi)) as Hq.
  pose proof (queue_inv_sorted s Hq) as Hsorted.
  destruct Hq as (e0 & rest & Hp & H0 & Hrest & Hx & Hs).
  assert (Hidx : e_index <$> puts s = 0 :: seqZ 0 (index s)).
  { by rewrite Hp, fmap_cons, H0, Hrest. }
  split_and!; try done.
  - intros i j a b Hij Ha Hb.
    assert (Ha' : (e_index <$> puts s) !! i = Some (e_index a))
      by (by rewrite list_lookup_fmap, Ha).
    assert (Hb' : (e_index <$> puts s) !! j = Some (e_index b))
      by (by rewrite list_lookup_fmap, Hb).
    rewrite Hidx in Ha', Hb'.
    destruct j as [|j]; [lia|]. simpl in Hb'.
    apply lookup_seqZ in Hb' as [-> Hj].
    destruct i as [|i]; simpl in Ha'.
    + injection Ha' as <-. split; lia.
    + apply lookup_seqZ in Ha' as [-> _]. split; lia.
  - rewrite Hp. destruct Hs as [[-> ->]|Hs]; [done|]. by apply sublist_cons.
  - intros e1 q1 m r Ha Hm.
    destruct (extract_min_spec _ _ _ _ Hm) as (Hin & Hle & Hsub & _).
    rewrite <- Ha in Hin, Hle, Hsub. split_and!; try done.
    intros x Hxin Hne. specialize (Hle x Hxin). unfold entry_leb in Hle.
    apply orb_true_iff in Hle as [Hlt|Heq]; [by left|].
    apply andb_true_iff in Heq as [Heq Hle]. apply bool_decide_eq_true in Heq.
    apply Z.leb_le in Hle. right. split; [done|].
    destruct (decide (e_index m = e_index x)) as [E|E]; [|lia].
    exfalso. apply Hne. symmetry. by eapply sorted_indexes_inj.
Qed.

(** The amended claim after the first iteration of the demonstration
    search. *)
Lemma insertion_indexes_witness :
  e_index <$> puts demo_after_one = 0 :: seqZ 0 (index demo_after_one)
  ∧ (∀ i j a b, (i < j)%nat → puts demo_after_one !! i = Some a →
                puts demo_after_one !! j = Some b →
                e_index a ≤ e_index b ∧ ((0 < i)%nat → e_index a < e_index b))
  ∧ active demo_after_one `sublist_of` puts demo_after_one
  ∧ StronglySorted idx_lt (active demo_after_one)
  ∧ (∀ e0 q0 m r, active demo_after_one = e0 :: q0 → extract_min e0 q0 = (m, r) →
       m ∈ active demo_after_one
       ∧ r `sublist_of` active demo_after_one
       ∧ ∀ x, x ∈ active demo_after_one → x ≠ m →
              num_lt (e_score m) (e_score x)
              ∨ (e_score x = e_score m ∧ e_index m < e_index x)).
Proof.
  apply (insertion_indexes (grid5 DJIKSTRA) (world demo_start) demo_start demo_after_one).
  - vm_compute. reflexivity.
  - apply (run_steps_rtc [[]]). vm_compute. reflexivity.
Defined.

(** ** Parent links during a search *)

Definition adjacent4 (a b : pos) : Prop :=
  Z.abs (a.1 - b.1) + Z.abs (a.2 - b.2) = 1.

(** The cell has a finite, non-negative cost. *)
Definition reached (w : World) (q : pos) : Prop :=
  ∃ g, g_score (node w q) = Fin g ∧ 0 ≤ g.

(** What the search keeps true of the nodes: Start has cost 0 and no
    parent; a parent link joins two 4-adjacent cells of the grid, none
    of them an obstacle, and the child costs at least one more than the
    parent; a cell other than Start without parent has infinite cost. *)
Definition world_inv (st : pos) (w : World) : Prop :=
  START w = Some st ∧ in_grid w st ∧ is_obstacle w st = false
  ∧ g_score (node w st) = Fin 0 ∧ parent_node (node w st) = None
  ∧ (∀ c p, in_grid w c → parent_node (node w c) = Some p →
       in_grid w p ∧ adjacent4 p c
       ∧ is_obstacle w c = false ∧ is_obstacle w p = false
       ∧ ∃ gp gc, g_score (node w p) = Fin gp ∧ g_score (node w c) = Fin gc
                  ∧ 0 ≤ gp ∧ gp + 1 ≤ gc)
  ∧ (∀ c, in_grid w c → c ≠ st → parent_node (node w c) = None →
          g_score (node w c) = Inf).

(** The queue holds reached cells of the grid that are no obstacles. *)
Definition queue_ok (w : World) (q : list Entry) : Prop :=
  ∀ x, x ∈ q → in_grid w (e_node x) ∧ is_obstacle w (e_node x) = false
               ∧ reached w (e_node x).

Definition search_inv (st : pos) (s : Search) : Prop :=
  world_inv st (world s) ∧ queue_ok (world s) (active s).

(** [w'] differs from [w] at most in colours that make no obstacle, in
    refresh flags and in the toggles. *)
Definition obst_eq (w w' : World) : Prop :=
  ROWS w' = ROWS w ∧ COLUMNS w' = COLUMNS w ∧ ALG w' = ALG w
  ∧ START w' = START w ∧ END w' = END w
  ∧ ∀ q, is_obstacle w' q = is_obstacle w q
         ∧ g_score (node w' q) = g_score (node w q)
         ∧ h_score (node w' q) = h_score (node w q)
         ∧ parent_node (node w' q) = parent_node (node w q).

Lemma core_eq_obst_eq w w' : core_eq w w' → obst_eq w w'.
Proof.
  intros (H1 & H2 & H3 & H4 & H5 & Hq). split_and!; try done.
  intros q. destruct (Hq q) as (Hc & ? & ? & ?). split_and!; try done.
  unfold is_obstacle. by rewrite Hc.
Qed.

Lemma obst_eq_make_visited p w : is_obstacle w p = false → obst_eq w (make_visited p w).
Proof.
  intros Hp. unfold make_visited. destruct (negb _).
  2:{ by split_and!. }
  split_and!; try done. intros q. unfold is_obstacle in *.
  rewrite node_set_node. destruct (decide (p = q)) as [->|]; [|done].
  simpl. split_and!; done.
Qed.

Lemma obst_eq_in_grid w w' q : obst_eq w w' → in_grid w' q ↔ in_grid w q.
Proof. intros (H1 & H2 & _). unfold in_grid. by rewrite H1, H2. Qed.

Lemma obst_eq_world_inv st w w' : obst_eq w w' → world_inv st w → world_inv st w'.
Proof.
  intros He (I1 & I2 & I3 & I4 & I5 & I6 & I7).
  pose proof He as (H1 & H2 & H3 & H4 & H5 & Hq).
  assert (Hg : ∀ q, in_grid w' q ↔ in_grid w q) by (intros; by apply obst_eq_in_grid).
  assert (Ho : ∀ q, is_obstacle w' q = is_obstacle w q) by (intros q; apply Hq).
  assert (Hgs : ∀ q, g_score (node w' q) = g_score (node w q)) by (intros q; apply Hq).
  assert (Hpa : ∀ q, parent_node (node w' q) = parent_node (node w q))
    by (intros q; apply Hq).
  split_and!.
  - congruence.
  - by apply Hg.
  - by rewrite Ho.
  - by rewrite Hgs.
  - by rewrite Hpa.
  - intros c p Hc Hp. rewrite Hg in Hc. rewrite Hpa in Hp.
    rewrite Hg, !Ho, !Hgs. by apply I6.
  - intros c Hc Hne Hp. rewrite Hg in Hc. rewrite Hpa in Hp. rewrite Hgs. by apply I7.
Qed.

Lemma obst_eq_reached w w' q : obst_eq w w' → reached w q → reached w' q.
Proof.
  intros (_ & _ & _ & _ & _ & Hq) (g & Hg & H0). exists g.
  destruct (Hq q) as (_ & -> & _). done.
Qed.

Lemma obst_eq_queue_ok w w' q : obst_eq w w' → queue_ok w q → queue_ok w' q.
Proof.
  intros He Hk x Hx. destruct (Hk x Hx) as (H1 & H2 & H3).
  split_and!.
  - by apply (obst_eq_in_grid w w').
  - destruct He as (_ & _ & _ & _ & _ & Hq). destruct (Hq (e_node x)) as (-> & _). done.
  - by eapply obst_eq_reached.
Qed.

(** What holds while the neighbours of [current] are relaxed. *)
Definition relax_inv (st current : pos) (s : Search) : Prop :=
  search_inv st s
  ∧ in_grid (world s) current ∧ is_obstacle (world s) current = false
  ∧ reached (world s) current.

Lemma relax_inv_step st current s nb :
  in_grid (world s) nb → adjacent4 current nb →
  relax_inv st current s → relax_inv st current (relax current s nb).
Proof.
  intros Hnb Hadj Hinv.
  destruct (relax_spec current s nb)
    as [->|(Ho & Hlt & G & Hq & Hg & Hp & _ & Hcol & Hqueue)]; [done|].
  destruct Hinv as ([(I1 & I2 & I3 & I4 & I5 & I6 & I7) Hk] & Hcg & Hco & gc & Hcur & Hgc).
  set (w := world s) in *. set (w' := world (relax current s nb)) in *.
  unfold cand in Hlt, Hg. rewrite Hcur in Hlt, Hg. simpl in Hlt, Hg.
  assert (Hst : nb ≠ st).
  { intros ->. rewrite I4 in Hlt. simpl in Hlt. apply Z.ltb_lt in Hlt. lia. }
  assert (Hnc : nb ≠ current).
  { intros ->. rewrite Hcur in Hlt. simpl in Hlt. apply Z.ltb_lt in Hlt. lia. }
  assert (Hgrid : ∀ q, in_grid w' q ↔ in_grid w q).
  { intros q. destruct G as (G1 & G2 & _). unfold in_grid. by rewrite G1, G2. }
  assert (Hobs : ∀ q, is_obstacle w' q = is_obstacle w q).
  { intros q. destruct (decide (q = nb)) as [->|Hne].
    - rewrite Ho. unfold is_obstacle in *. apply bool_decide_eq_false.
      apply bool_decide_eq_false in Ho. destruct Hcol as [->| ->]; done.
    - unfold is_obstacle. by rewrite Hq. }
  assert (Hreach : ∀ q, reached w q → reached w' q).
  { intros q (g & Hgq & H0). destruct (decide (q = nb)) as [->|Hne].
    - exists (gc + 1). split; [done | lia].
    - exists g. by rewrite Hq. }
  assert (Hw : world_inv st w').
  { split_and!.
    - destruct G as (_ & _ & _ & G4 & _). congruence.
    - by apply Hgrid.
    - by rewrite Hobs.
    - by rewrite Hq.
    - by rewrite Hq.
    - intros c p Hc Hpc. rewrite Hgrid in Hc. rewrite Hgrid, !Hobs.
      destruct (decide (c = nb)) as [->|Hne].
      + rewrite Hp in Hpc. injection Hpc as <-. split_and!; try done.
        exists gc, (gc + 1). rewrite Hq by done. split_and!; try done; lia.
      + rewrite Hq in Hpc by done.
        destruct (I6 c p Hc Hpc) as (P1 & P2 & P3 & P4 & gp & gc' & P5 & P6 & P7 & P8).
        split_and!; try done.
        destruct (decide (p = nb)) as [->|Hpn].
        * rewrite P5 in Hlt. apply Z.ltb_lt in Hlt.
          exists (gc + 1), gc'. split_and!; [exact Hg | by rewrite Hq | lia | lia].
        * exists gp, gc'. by rewrite !Hq.
    - intros c Hc Hne Hpc. rewrite Hgrid in Hc.
      destruct (decide (c = nb)) as [->|Hcn]; [by rewrite Hp in Hpc|].
      rewrite Hq in Hpc |- * by done. by apply I7. }
  split; [split; [exact Hw|] | split; [|split]].
  - intros x Hx.
    assert (Hcase : x ∈ active s ∨ e_node x = nb).
    { destruct Hqueue as [(Ea & _)|(Ea & _)]; rewrite Ea in Hx; [by left|].
      apply elem_of_app in Hx as [Hx|Hx]; [by left|].
      apply list_elem_of_singleton in Hx as ->. by right. }
    destruct Hcase as [Hx' | Hx'].
    + destruct (Hk x Hx') as (K1 & K2 & K3). split_and!.
      * by apply Hgrid.
      * by rewrite Hobs.
      * by apply Hreach.
    + rewrite Hx'. split_and!.
      * by apply Hgrid.
      * by rewrite Hobs.
      * exists (gc + 1). split; [done | lia].
  - by apply Hgrid.
  - by rewrite Hobs.
  - by apply Hreach; exists gc.
Qed.

Lemma axial_adjacent4 r c p : axial 1 r c p → adjacent4 (r, c) p.
Proof. unfold axial, adjacent4. simpl. lia. Qed.

Lemma iter_search_inv st s s' : iter s s' → search_inv st s → search_inv st s'.
Proof.
  intros Hi [Hw Hk].
  destruct Hi as [w1 Hc|w1 e0 q0 m q Ha Hc Hm He|w1 e0 q0 m q nbs Ha Hc Hm He Hnb].
  - apply core_eq_obst_eq in Hc. split; simpl.
    + by eapply obst_eq_world_inv.
    + by eapply obst_eq_queue_ok.
  - apply core_eq_obst_eq in Hc.
    destruct (extract_min_spec _ _ _ _ Hm) as (_ & _ & Hsub & _).
    split; simpl.
    + by eapply obst_eq_world_inv.
    + eapply obst_eq_queue_ok; [done|]. intros x Hx. apply Hk. rewrite Ha.
      by eapply elem_of_sublist.
  - apply core_eq_obst_eq in Hc.
    destruct (extract_min_spec _ _ _ _ Hm) as (Hin & _ & Hsub & _).
    rewrite <- Ha in Hin, Hsub.
    destruct (Hk m Hin) as (K1 & K2 & K3).
    assert (Hv : obst_eq (world s) (make_visited (e_node m) w1)).
    { destruct Hc as (C1 & C2 & C3 & C4 & C5 & Cq).
      assert (Ho : is_obstacle w1 (e_node m) = false).
      { destruct (Cq (e_node m)) as (-> & _). done. }
      destruct (obst_eq_make_visited (e_node m) w1 Ho) as (V1 & V2 & V3 & V4 & V5 & Vq).
      split_and!; try congruence.
      intros x. destruct (Cq x) as (? & ? & ? & ?), (Vq x) as (? & ? & ? & ?).
      split_and!; congruence. }
    set (w2 := make_visited (e_node m) w1) in *.
    assert (Hcur : in_grid w2 (e_node m)) by (by apply (obst_eq_in_grid (world s))).
    destruct (get_neighbours_axial w2 (e_node m) 1) as (l & El' & Hl0); [lia | done |].
    assert (Hl : ∀ p, p ∈ l → in_grid w2 p ∧ axial 1 (e_node m).1 (e_node m).2 p)
      by (intros p Hpl; by apply Hl0).
    rewrite El' in Hnb. injection Hnb as <-.
    set (I := λ s1, relax_inv st (e_node m) s1
                    ∧ ∀ nb, nb ∈ l → in_grid (world s1) nb).
    assert (HI : I (foldl (relax (e_node m)) (mkSearch w2 q (index s) (puts s)) l)).
    { apply foldl_relax_ind.
      - split.
        + split_and!; simpl.
          * split; simpl; [by eapply obst_eq_world_inv|].
            eapply obst_eq_queue_ok; [done|]. intros x Hx. apply Hk.
            by eapply elem_of_sublist.
          * done.
          * destruct Hv as (_ & _ & _ & _ & _ & Vq).
            destruct (Vq (e_node m)) as (-> & _). done.
          * by eapply obst_eq_reached.
        + intros nb Hnb. by apply Hl.
      - intros s1 nb Hnb [H1 H2]. split.
        + apply relax_inv_step; [by apply H2 | | done].
          destruct (Hl nb Hnb) as [_ Hax]. apply axial_adjacent4 in Hax.
          by destruct (e_node m).
        + intros nb' Hnb'. specialize (H2 nb' Hnb').
          destruct (relax_spec (e_node m) s1 nb) as [->|(_ & _ & G & _)]; [done|].
          destruct G as (G1 & G2 & _). unfold in_grid. by rewrite G1, G2. }
    destruct HI as [[HI _] _]. done.
Qed.

Lemma rtc_iter_search_inv st s0 s : rtc iter s0 s → search_inv st s0 → search_inv st s.
Proof.
  induction 1 as [|s1 s2 s3 H12 _ IH]; [done|].
  intros H. apply IH. by eapply iter_search_inv.
Qed.

(** The state in which the loop starts satisfies the invariant, for a
    grid whose Start is no obstacle and whose other cells all have an
    infinite cost. *)
Lemma search_init_search_inv w st e s0 w0 :
  START w = Some st → END w = Some e →
  in_grid w st → is_obstacle w st = false →
  (∀ q, in_grid w q → q ≠ st → g_score (node w q) = Inf) →
  search_init w = (Ok s0, w0) →
  search_inv st s0 ∧ same_globals w (world s0)
  ∧ active s0 = [mkEntry (score (world s0) st) 0 st].
Proof.
  intros Hs He Hg Ho Hinf Hi.
  destruct (search_init_spec w st e Hs He) as (w' & E & G & Hn).
  rewrite E in Hi. injection Hi as <- <-. simpl.
  assert (Hgrid : ∀ q, in_grid w' q ↔ in_grid w q).
  { intros q. destruct G as (G1 & G2 & _). unfold in_grid. by rewrite G1, G2. }
  assert (Hst : node w' st = with_g (Fin 0) (initialised e st (node w st))).
  { rewrite Hn, decide_True by done. by rewrite bool_decide_eq_true_2. }
  assert (Hin : ∀ q, in_grid w q → q ≠ st → node w' q = initialised e q (node w q)).
  { intros q Hq Hne. rewrite Hn, decide_False by done. by rewrite bool_decide_eq_true_2. }
  assert (Host : is_obstacle w' st = false).
  { unfold is_obstacle in *. by rewrite Hst. }
  split; [split | by split].
  - unfold world_inv. cbn [world active]. split_and!.
    + destruct G as (_ & _ & _ & G4 & _). congruence.
    + by apply Hgrid.
    + done.
    + by rewrite Hst.
    + by rewrite Hst.
    + intros c p Hc Hp. rewrite Hgrid in Hc.
      destruct (decide (c = st)) as [->|Hne].
      * by rewrite Hst in Hp.
      * by rewrite Hin in Hp.
    + intros c Hc Hne _. rewrite Hgrid in Hc. rewrite Hin by done. simpl. by apply Hinf.
  - cbn [world active]. intros x ->%list_elem_of_singleton. simpl. split_and!.
    + by apply Hgrid.
    + done.
    + exists 0. by rewrite Hst.
Qed.

(** When the loop ends by dequeuing End, End is a reached cell. *)
Lemma search_loop_found st fuel inputs s s1 rest :
  search_inv st s →
  search_loop fuel inputs s = (Found s1, rest) →
  rtc iter s s1
  ∧ ∃ e, END (world s1) = Some e ∧ in_grid (world s1) e ∧ reached (world s1) e.
Proof.
  revert inputs s. induction fuel as [|fuel IH]; intros inputs s Hinv; simpl; [done|].
  destruct (active s) as [|e0 q0] eqn:Ha; [done|].
  destruct (poll inputs) as [evs rest'].
  destruct (search_iteration evs s e0 q0) as [s'|r] eqn:E.
  - intros H.
    assert (Hi : iter s s') by (eapply search_iteration_iter; [done | by rewrite E]).
    destruct (IH rest' s' (iter_search_inv st _ _ Hi Hinv) H) as [Hr He].
    split; [|done]. by eapply rtc_l.
  - intros [= -> ->].
    assert (Hi : iter s s1) by (eapply search_iteration_iter; [done | by rewrite E]).
    split; [by apply rtc_once|].
    clear Hi. unfold search_iteration in E.
    pose proof (core_eq_handle_input_running evs (world s)) as Hh.
    destruct (handle_input_running evs (world s)) as [[[]|ex] w1]; simpl in *; try done.
    destruct (PAUSED w1); [done|].
    set (w2 := if QUICK_MODE w1 then w1 else draw_screen w1) in *.
    assert (H2 : core_eq (world s) w2).
    { unfold w2. destruct (QUICK_MODE w1); [done|].
      eapply core_eq_trans; [apply Hh | apply core_eq_draw_screen]. }
    destruct (extract_min e0 q0) as [m q] eqn:Em.
    destruct (is_end w2 (e_node m)) eqn:Ee.
    2:{ by destruct (get_neighbours _ _ _). }
    injection E as <-. simpl.
    destruct (extract_min_spec _ _ _ _ Em) as (Hin & _).
    rewrite <- Ha in Hin. destruct Hinv as [_ Hk].
    destruct (Hk m Hin) as (K1 & K2 & K3).
    apply core_eq_obst_eq in H2.
    exists (e_node m). split_and!.
    + unfold is_end in Ee. by apply bool_decide_eq_true in Ee.
    + by apply (obst_eq_in_grid (world s)).
    + by eapply obst_eq_reached.
Qed.

(** ** Walking the parent links *)

(** Every cell of the list is the parent of the next one. *)
Fixpoint linked (w : World) (l : list pos) : Prop :=
  match l with
  | a :: l' =>
      match l' with
      | b :: _ => parent_node (node w b) = Some a ∧ linked w l'
      | [] => True
      end
  | [] => True
  end.

(** Every cell of the list is 4-adjacent to the next one. *)
Fixpoint contiguous (l : list pos) : Prop :=
  match l with
  | a :: l' =>
      match l' with
      | b :: _ => adjacent4 a b ∧ contiguous l'
      | [] => True
      end
  | [] => True
  end.

Lemma linked_snoc w l p :
  linked w l → (∀ a, last l = Some a → parent_node (node w p) = Some a) →
  linked w (l ++ [p]).
Proof.
  induction l as [|a l IH]; intros Hl Hlast; simpl; [done|].
  destruct l as [|b l]; simpl in *.
  - split; [by apply Hlast | done].
  - destruct Hl as [Hab Hl]. split; [done|]. apply IH; [done|].
    intros a' Ha'. by apply Hlast.
Qed.

(** The cells that [walk] prepends: [k] cells, each the parent of the
    next, the last one the cell the walk starts at, and the value of
    [node] at the end is the parent of the first one. *)
Lemma walk_spec k w nd acc path nd' :
  walk k w nd acc = Ok (path, nd') →
  ∃ chain, path = chain ++ acc ∧ length chain = k ∧ linked w chain
           ∧ (∀ a, last chain = Some a → nd = Some a)
           ∧ (∀ a, head chain = Some a → parent_node (node w a) = nd')
           ∧ (chain = [] → nd' = nd).
Proof.
  revert nd acc. induction k as [|k IH]; intros nd acc; simpl.
  { intros [= <- <-]. exists []. by split_and!. }
  destruct nd as [p|]; [|done]. intros H.
  destruct (IH _ _ H) as (chain & -> & Hlen & Hl & Hlast & Hhead & Hnil).
  exists (chain ++ [p]). split_and!.
  - by rewrite <- app_assoc.
  - rewrite length_app. simpl. lia.
  - by apply linked_snoc.
  - intros a. rewrite last_snoc. congruence.
  - destruct chain as [|c chain]; simpl.
    + intros a [= <-]. by rewrite Hnil.
    + intros a [= <-]. by apply Hhead.
  - by destruct chain.
Qed.

(** A walk that stays on cells with a parent follows a legal route. *)
Lemma linked_route st w chain e :
  world_inv st w → linked w chain → last chain = Some e → in_grid w e →
  (∀ a, head chain = Some a → ∃ p, parent_node (node w a) = Some p) →
  contiguous chain
  ∧ ∀ c, c ∈ chain → in_grid w c ∧ is_obstacle w c = false ∧ c ≠ st
                    ∧ ∃ p, parent_node (node w c) = Some p.
Proof.
  intros (I1 & I2 & I3 & I4 & I5 & I6 & I7) Hl Hlast He.
  induction chain as [|a chain IH]; intros Hhead; [done|].
  destruct chain as [|b chain].
  - simpl in *. injection Hlast as ->. split; [done|].
    intros c ->%list_elem_of_singleton.
    destruct (Hhead e eq_refl) as [p Hp].
    destruct (I6 e p He Hp) as (_ & _ & Ho & _).
    split_and!; try done; [|by exists p]. intros ->. by rewrite I5 in Hp.
  - destruct Hl as [Hab Hl].
    destruct IH as [Hc Hall]; [done | done | by intros ? [= <-]; eauto |].
    destruct (Hall b) as (Hb & _); [left|].
    destruct (I6 b a Hb Hab) as (Ha & Hadj & _ & Hoa & _).
    destruct (Hhead a eq_refl) as [p Hp].
    split; [by split|].
    intros c [->|Hc']%elem_of_cons; [|by apply Hall].
    split_and!; try done; [|by exists p]. intros ->. by rewrite I5 in Hp.
Qed.

(** ** Dijkstra's order makes the costs exact *)

(** With [ALG = DJIKSTRA] the queue is ordered by cost.  For a level
    [L]: no cell of the grid costs more than [L + 1], every queue entry
    carries the cost of its cell, at least [L], and every child costs
    exactly one more than its parent. *)
Definition level_inv (L : Z) (s : Search) : Prop :=
  ALG (world s) = DJIKSTRA
  ∧ (∀ c g, in_grid (world s) c → g_score (node (world s) c) = Fin g → g ≤ L + 1)
  ∧ (∀ x, x ∈ active s →
       ∃ g, e_score x = Fin g ∧ L ≤ g ∧ g_score (node (world s) (e_node x)) = Fin g)
  ∧ (∀ c p, in_grid (world s) c → parent_node (node (world s) c) = Some p →
       ∃ gp, g_score (node (world s) p) = Fin gp
             ∧ g_score (node (world s) c) = Fin (gp + 1)).

Definition dijkstra_inv (s : Search) : Prop := ∃ L, level_inv L s.

Lemma relax_level_inv L current s nb :
  in_grid (world s) nb →
  g_score (node (world s) current) = Fin L →
  level_inv L s →
  level_inv L (relax current s nb)
  ∧ g_score (node (world (relax current s nb)) current) = Fin L.
Proof.
  intros Hnb Hcur (D1 & D2 & D3 & D4).
  destruct (relax_spec current s nb)
    as [->|(Ho & Hlt & G & Hq & Hg & Hp & _ & Hcol & Hqueue)]; [done|].
  unfold level_inv.
  set (w := world s) in *. set (w' := world (relax current s nb)) in *.
  unfold cand in Hlt, Hg. rewrite Hcur in Hlt, Hg. simpl in Hlt, Hg.
  assert (Hinf : g_score (node w nb) = Inf).
  { destruct (g_score (node w nb)) as [x|] eqn:Ex; [|done].
    specialize (D2 nb x Hnb Ex). simpl in Hlt. apply Z.ltb_lt in Hlt. lia. }
  assert (Hnc : nb ≠ current) by (intros ->; congruence).
  assert (Hgrid : ∀ q, in_grid w' q ↔ in_grid w q).
  { intros q. destruct G as (G1 & G2 & _). unfold in_grid. by rewrite G1, G2. }
  assert (HA : ALG w' = DJIKSTRA).
  { destruct G as (_ & _ & G3 & _). congruence. }
  split; [|by rewrite Hq].
  split_and!.
  - done.
  - intros c g Hc Hgc. destruct (decide (c = nb)) as [->|Hne].
    + rewrite Hg in Hgc. injection Hgc as <-. lia.
    + rewrite Hq in Hgc by done. rewrite Hgrid in Hc. by eapply D2.
  - intros x Hx.
    assert (Hcase : x ∈ active s ∨ x = mkEntry (score w' nb) (index s) nb).
    { destruct Hqueue as [(Ea & _)|(Ea & _)]; rewrite Ea in Hx; [by left|].
      apply elem_of_app in Hx as [Hx|Hx]; [by left|].
      apply list_elem_of_singleton in Hx. by right. }
    destruct Hcase as [Hx'| ->].
    + destruct (D3 x Hx') as (g & E1 & E2 & E3). exists g.
      split_and!; try done. rewrite Hq; [done|]. intros E. rewrite E in E3. congruence.
    + simpl. exists (L + 1). unfold score. rewrite HA, Hg. split_and!; try done. lia.
  - intros c p Hc Hpc. rewrite Hgrid in Hc. destruct (decide (c = nb)) as [->|Hne].
    + rewrite Hp in Hpc. injection Hpc as <-. exists L. by rewrite Hq.
    + rewrite Hq in Hpc by done. destruct (D4 c p Hc Hpc) as (gp & E1 & E2).
      exists gp. rewrite !Hq; try done. intros ->. congruence.
Qed.

Lemma core_eq_level_inv L w1 s q :
  core_eq (world s) w1 → (∀ x, x ∈ q → x ∈ active s) →
  level_inv L s → level_inv L (mkSearch w1 q (index s) (puts s)).
Proof.
  intros Hc Hsub (D1 & D2 & D3 & D4).
  pose proof Hc as (C1 & C2 & C3 & C4 & C5 & Cq).
  assert (Hgrid : ∀ x, in_grid w1 x ↔ in_grid (world s) x)
    by (intros; by apply core_eq_in_grid).
  assert (Hg : ∀ x, g_score (node w1 x) = g_score (node (world s) x))
    by (intros x; apply Cq).
  assert (Hp : ∀ x, parent_node (node w1 x) = parent_node (node (world s) x))
    by (intros x; apply Cq).
  split_and!; simpl.
  - congruence.
  - intros c g Hcg Hgc. rewrite Hgrid in Hcg. rewrite Hg in Hgc. by eapply D2.
  - intros x Hx. rewrite Hg. by apply D3, Hsub.
  - intros c p Hcg Hpc. rewrite Hgrid in Hcg. rewrite Hp in Hpc. rewrite !Hg. by apply D4.
Qed.

Lemma entry_leb_score m x gm gx :
  entry_leb m x = true → e_score m = Fin gm → e_score x = Fin gx → gm ≤ gx.
Proof.
  unfold entry_leb. intros H Em Ex. rewrite Em, Ex in H. simpl in H.
  apply orb_true_iff in H as [H|H].
  - apply Z.ltb_lt in H. lia.
  - apply andb_true_iff in H as [H _]. apply bool_decide_eq_true in H.
    injection H as ->. lia.
Qed.

Lemma iter_dijkstra_inv st s s' :
  iter s s' → search_inv st s → dijkstra_inv s → dijkstra_inv s'.
Proof.
  intros Hi [Hw Hk] [L HL].
  destruct Hi as [w1 Hc|w1 e0 q0 m q Ha Hc Hm He|w1 e0 q0 m q nbs Ha Hc Hm He Hnb].
  - exists L. by apply core_eq_level_inv.
  - exists L. apply core_eq_level_inv; try done.
    destruct (extract_min_spec _ _ _ _ Hm) as (_ & _ & Hsub & _).
    intros x Hx. rewrite Ha. by eapply elem_of_sublist.
  - destruct (extract_min_spec _ _ _ _ Hm) as (Hin & Hle & Hsub & _).
    rewrite <- Ha in Hin, Hle, Hsub.
    pose proof HL as (D1 & D2 & D3 & D4).
    destruct (D3 m Hin) as (gm & Em & HLm & Egm).
    destruct (Hk m Hin) as (K1 & K2 & K3).
    assert (Hv : obst_eq (world s) (make_visited (e_node m) w1)).
    { pose proof Hc as (C1 & C2 & C3 & C4 & C5 & Cq).
      assert (Ho : is_obstacle w1 (e_node m) = false).
      { rewrite (core_eq_is_obstacle (world s)); done. }
      destruct (obst_eq_make_visited (e_node m) w1 Ho) as (V1 & V2 & V3 & V4 & V5 & Vq).
      apply core_eq_obst_eq in Hc. destruct Hc as (_ & _ & _ & _ & _ & Cq').
      split_and!; try congruence.
      intros x. destruct (Cq' x) as (? & ? & ? & ?), (Vq x) as (? & ? & ? & ?).
      split_and!; congruence. }
    set (w2 := make_visited (e_node m) w1) in *.
    pose proof Hv as (V1 & V2 & V3 & V4 & V5 & Vq).
    assert (Hgrid : ∀ x, in_grid w2 x ↔ in_grid (world s) x)
      by (intros; by apply obst_eq_in_grid).
    assert (Hg : ∀ x, g_score (node w2 x) = g_score (node (world s) x))
      by (intros x; apply Vq).
    assert (Hp : ∀ x, parent_node (node w2 x) = parent_node (node (world s) x))
      by (intros x; apply Vq).
    assert (Hcur : in_grid w2 (e_node m)) by (by apply Hgrid).
    destruct (get_neighbours_axial w2 (e_node m) 1) as (l & El' & Hl0); [lia | done |].
    assert (Hl : ∀ p, p ∈ l → in_grid w2 p ∧ axial 1 (e_node m).1 (e_node m).2 p)
      by (intros p Hpl; by apply Hl0).
    rewrite El' in Hnb. injection Hnb as <-.
    exists gm.
    set (I := λ s1, level_inv gm s1
                    ∧ g_score (node (world s1) (e_node m)) = Fin gm
                    ∧ ∀ nb, nb ∈ l → in_grid (world s1) nb).
    assert (HI : I (foldl (relax (e_node m)) (mkSearch w2 q (index s) (puts s)) l)).
    { apply foldl_relax_ind.
      - split_and!; simpl.
        + split_and!; simpl.
          * congruence.
          * intros c g Hcg Hgc. rewrite Hgrid in Hcg. rewrite Hg in Hgc.
            specialize (D2 c g Hcg Hgc). lia.
          * intros x Hx. assert (Hx' : x ∈ active s) by (by eapply elem_of_sublist).
            destruct (D3 x Hx') as (gx & Ex & _ & Egx). exists gx.
            rewrite Hg. split_and!; try done.
            by eapply entry_leb_score; [apply Hle | |].
          * intros c p Hcg Hpc. rewrite Hgrid in Hcg. rewrite Hp in Hpc.
            rewrite !Hg. by apply D4.
        + by rewrite Hg.
        + intros nb Hnb. by apply Hl.
      - intros s1 nb Hnb (H1 & H2 & H3).
        destruct (relax_level_inv gm (e_node m) s1 nb) as [R1 R2]; try done.
        { by apply H3. }
        split_and!; try done.
        intros nb' Hnb'. specialize (H3 nb' Hnb').
        destruct (relax_spec (e_node m) s1 nb) as [->|(_ & _ & G & _)]; [done|].
        destruct G as (G1 & G2 & _). unfold in_grid. by rewrite G1, G2. }
    by destruct HI as [HI _].
Qed.

Lemma rtc_iter_dijkstra_inv st s0 s :
  rtc iter s0 s → search_inv st s0 → dijkstra_inv s0 → dijkstra_inv s.
Proof.
  induction 1 as [|s1 s2 s3 H12 _ IH]; [done|].
  intros H1 H2. apply IH.
  - by eapply iter_search_inv.
  - by eapply iter_dijkstra_inv.
Qed.

(** With exact costs the walk of [g] links from a cell of cost [g]
    ends at Start. *)
Lemma walk_exact st w k c acc :
  world_inv st w →
  (∀ c p, in_grid w c → parent_node (node w c) = Some p →
     ∃ gp, g_score (node w p) = Fin gp ∧ g_score (node w c) = Fin (gp + 1)) →
  in_grid w c → g_score (node w c) = Fin (Z.of_nat k) →
  ∃ path, walk k w (Some c) acc = Ok (path, Some st).
Proof.
  intros (I1 & I2 & I3 & I4 & I5 & I6 & I7) Hex.
  revert c acc. induction k as [|k IH]; intros c acc Hc Hg; simpl.
  - exists acc. do 3 f_equal.
    destruct (decide (c = st)) as [|Hne]; [done|].
    destruct (parent_node (node w c)) as [p|] eqn:Hp.
    + destruct (I6 c p Hc Hp) as (_ & _ & _ & _ & gp & gc & E1 & E2 & E3 & E4).
      rewrite Hg in E2. injection E2 as <-. lia.
    + rewrite (I7 c Hc Hne Hp) in Hg. done.
  - assert (Hne : c ≠ st).
    { intros ->. rewrite I4 in Hg. injection Hg as Hg. lia. }
    destruct (parent_node (node w c)) as [p|] eqn:Hp.
    2:{ rewrite (I7 c Hc Hne Hp) in Hg. done. }
    destruct (I6 c p Hc Hp) as (Hpg & _).
    destruct (Hex c p Hc Hp) as (gp & E1 & E2).
    rewrite Hg in E2. injection E2 as E2.
    apply IH; [done|]. rewrite E1. f_equal. lia.
Qed.

Lemma search_init_dijkstra_inv w st e s0 w0 :
  START w = Some st → END w = Some e → ALG w = DJIKSTRA →
  (∀ q, in_grid w q → q ≠ st → g_score (node w q) = Inf) →
  search_init w = (Ok s0, w0) → dijkstra_inv s0.
Proof.
  intros Hs He HA Hinf Hi.
  destruct (search_init_spec w st e Hs He) as (w' & E & G & Hn).
  rewrite E in Hi. injection Hi as <- <-. exists 0.
  assert (Hgrid : ∀ q, in_grid w' q ↔ in_grid w q).
  { intros q. destruct G as (G1 & G2 & _). unfold in_grid. by rewrite G1, G2. }
  assert (HA' : ALG w' = DJIKSTRA) by (destruct G as (_ & _ & G3 & _); congruence).
  assert (Hst : g_score (node w' st) = Fin 0).
  { rewrite Hn, decide_True by done. done. }
  split_and!; simpl.
  - done.
  - intros c g Hc Hg. destruct (decide (c = st)) as [->|Hne].
    + rewrite Hst in Hg. injection Hg as <-. lia.
    + rewrite Hgrid in Hc. rewrite Hn, decide_False, bool_decide_eq_true_2 in Hg by done.
      simpl in Hg. rewrite Hinf in Hg; done.
  - intros x ->%list_elem_of_singleton. simpl. exists 0.
    unfold score. rewrite HA', Hst. by split_and!.
  - intros c p Hc Hp. rewrite Hgrid in Hc. rewrite Hn in Hp.
    rewrite bool_decide_eq_true_2 in Hp by done.
    by destruct (decide (st = c)).
Qed.

Lemma relax_END_ALG current s nb :
  END (world (relax current s nb)) = END (world s)
  ∧ START (world (relax current s nb)) = START (world s)
  ∧ ALG (world (relax current s nb)) = ALG (world s).
Proof.
  destruct (relax_spec current s nb) as [->|(_ & _ & G & _)]; [done|].
  destruct G as (_ & _ & ? & ? & ? & _). done.
Qed.

Lemma iter_END_ALG s s' :
  iter s s' →
  END (world s') = END (world s) ∧ START (world s') = START (world s)
  ∧ ALG (world s') = ALG (world s).
Proof.
  intros Hi.
  destruct Hi as [w1 Hc|w1 e0 q0 m q Ha Hc Hm He|w1 e0 q0 m q nbs Ha Hc Hm He Hnb];
    destruct Hc as (_ & _ & C3 & C4 & C5 & _); simpl; try done.
  apply (foldl_relax_ind
           (λ s1, END (world s1) = END (world s) ∧ START (world s1) = START (world s)
                  ∧ ALG (world s1) = ALG (world s))).
  - simpl. unfold make_visited. by destruct (negb _).
  - intros s1 nb _ (H1 & H2 & H3).
    destruct (relax_END_ALG (e_node m) s1 nb) as (R1 & R2 & R3).
    split_and!; congruence.
Qed.

Lemma rtc_iter_END_ALG s s' :
  rtc iter s s' →
  END (world s') = END (world s) ∧ START (world s') = START (world s)
  ∧ ALG (world s') = ALG (world s).
Proof.
  induction 1 as [|s1 s2 s3 H12 _ IH]; [done|].
  destruct (iter_END_ALG _ _ H12) as (? & ? & ?), IH as (? & ? & ?).
  split_and!; congruence.
Qed.

(** The claim as the specification words it, for the state [w] in which
    the search loop has dequeued End: the reconstructor produces
    [g_score(End) + 1] cells, from Start to End, contiguous and free of
    obstacles. *)
Definition path_as_specified (w : World) : Prop :=
  ∃ st e g path nd,
    START w = Some st ∧ END w = Some e ∧ g_score (node w e) = Fin g
    ∧ path_walk w = Ok (path, nd)
    ∧ length path = Z.to_nat (g + 1)
    ∧ head path = Some st ∧ last path = Some e
    ∧ contiguous path
    ∧ ∀ c, c ∈ path → is_obstacle w c = false.

(** The state in which the search loop of [find_path] dequeues End. *)
Definition found_world (fuel : nat) (w : World) : option World :=
  match search_result fuel [] w with
  | Some (Found s1) => Some (world s1)
  | _ => None
  end.

(** A 5 × 5 grid with walls that lead a Greedy search around a detour:
<<
      . . . # E
      S # . # .
      . . . # .
      # . # # .
      . . . . .
>> *)
Definition detour_grid (alg : Algorithm) : World :=
  foldl (λ w p, make_obstacle p w)
        (make_end (0, 4) (make_start (1, 0) (create_nodes 5 5 alg)))
        [(0, 3); (1, 1); (1, 3); (2, 3); (3, 0); (3, 2); (3, 3)].

(** On the open 5 × 5 grid Dijkstra's search ends with [g_score(End)]
    8, and the reconstructor produces 8 cells, not 9, the first of them
    a neighbour of Start, not Start.  On the detour grid the Greedy
    search dequeues End with [g_score] 15 while only 11 parent links
    lead from End to Start: the reconstructor walks past Start and
    raises [AttributeError], and so does [find_path]. *)
Lemma reconstructed_path_not_as_specified :
  (∃ w1 path,
      found_world 100 (grid5 DJIKSTRA) = Some w1
      ∧ g_score (node w1 (4, 4)) = Fin 8
      ∧ path_walk w1 = Ok (path, Some (0, 0))
      ∧ length path = 8%nat
      ∧ head path = Some (1, 0)
      ∧ ¬ path_as_specified w1)
  ∧ (∃ w1,
        found_world 100 (detour_grid GREEDY) = Some w1
        ∧ g_score (node w1 (0, 4)) = Fin 15
        ∧ path_walk w1 = Raise AttributeError
        ∧ returned <$> find_path 100 [] (detour_grid GREEDY) = Some (Raise AttributeError)
        ∧ ¬ path_as_specified w1).
Proof.
  split.
  - destruct (found_world 100 (grid5 DJIKSTRA)) as [w1|] eqn:E.
    2:{ vm_compute in E. discriminate E. }
    assert (H : match found_world 100 (grid5 DJIKSTRA) with
                | Some w1 =>
                    START w1 = Some (0, 0) ∧ END w1 = Some (4, 4)
                    ∧ g_score (node w1 (4, 4)) = Fin 8
                    ∧ ∃ path, path_walk w1 = Ok (path, Some (0, 0))
                              ∧ length path = 8%nat ∧ head path = Some (1, 0)
                | None => False
                end).
    { vm_compute. repeat (split; [reflexivity|]).
      eexists. repeat (split; [reflexivity|]). reflexivity. }
    rewrite E in H. destruct H as (Hs & He & Hg & path & Hw & Hl & Hh).
    exists w1, path.
    split; [reflexivity|]. split; [exact Hg|]. split; [exact Hw|].
    split; [exact Hl|]. split; [exact Hh|].
    intros (st & e & g & path' & nd & Hs' & He' & Hg' & Hw' & Hl' & Hh' & _).
    rewrite Hw in Hw'. injection Hw' as <- <-.
    rewrite Hs in Hs'. injection Hs' as <-. rewrite Hh in Hh'. discriminate Hh'.
  - destruct (found_world 100 (detour_grid GREEDY)) as [w1|] eqn:E.
    2:{ vm_compute in E. discriminate E. }
    assert (H : match found_world 100 (detour_grid GREEDY) with
                | Some w1 =>
                    g_score (node w1 (0, 4)) = Fin 15
                    ∧ path_walk w1 = Raise AttributeError
                | None => False
                end).
    { vm_compute. split; reflexivity. }
    rewrite E in H. destruct H as (Hg & Hw).
    exists w1.
    split; [reflexivity|]. split; [exact Hg|]. split; [exact Hw|].
    split; [vm_compute; reflexivity|].
    intros (st & e & g & path' & nd & _ & _ & _ & Hw' & _).
    rewrite Hw in Hw'. discriminate Hw'.
Qed.

(** C1, amended.  Take a search on a grid whose Start is a cell of the
    grid and no obstacle, whose End differs from Start, and whose cells
    other than Start all have an infinite [g_score], and let its loop
    end by dequeuing End.  Then [g_score(End)] is an integer [g ≥ 1],
    and whenever the walk of [g] parent links from End arrives at
    Start, the reconstructor has produced exactly [g] cells: the route
    from Start to End without Start itself.  Its first cell is
    4-adjacent to Start and has Start as parent, its last cell is End,
    every cell is the parent of the next and 4-adjacent to it, and every
    cell lies in the grid and is no obstacle.  For Dijkstra's algorithm
    the walk always arrives at Start. *)
Theorem path_reconstruction (w w0 : World) (st e : pos) (fuel : nat)
    (inputs rest : list (list Event)) (s0 s1 : Search) :
  START w = Some st → END w = Some e → st ≠ e →
  in_grid w st → is_obstacle w st = false →
  (∀ q, in_grid w q → q ≠ st → g_score (node w q) = Inf) →
  search_init w = (Ok s0, w0) →
  search_loop fuel inputs s0 = (Found s1, rest) →
  ∃ g, START (world s1) = Some st ∧ END (world s1) = Some e
       ∧ g_score (node (world s1) e) = Fin g ∧ 1 ≤ g
       ∧ (∀ path, path_walk (world s1) = Ok (path, Some st) →
            length path = Z.to_nat g
            ∧ last path = Some e
            ∧ (∃ c, head path = Some c
                    ∧ parent_node (node (world s1) c) = Some st
                    ∧ adjacent4 st c)
            ∧ linked (world s1) path
            ∧ contiguous path
            ∧ ∀ c, c ∈ path → in_grid (world s1) c
                              ∧ is_obstacle (world s1) c = false ∧ c ≠ st)
       ∧ (ALG w = DJIKSTRA → ∃ path, path_walk (world s1) = Ok (path, Some st)).
Proof.
  intros Hs He Hne Hg Ho Hinf Hi Hl.
  destruct (search_init_search_inv w st e s0 w0 Hs He Hg Ho Hinf Hi) as (Hinv0 & G0 & _).
  destruct (search_loop_found st fuel inputs s0 s1 rest Hinv0 Hl)
    as (Hr & e' & He' & Heg & ge & Hge & Hge0).
  destruct (rtc_iter_END_ALG _ _ Hr) as (R1 & R2 & R3).
  destruct G0 as (_ & _ & G3 & G4 & G5 & _).
  assert (e' = e) as -> by congruence.
  pose proof (rtc_iter_search_inv st _ _ Hr Hinv0) as [Hw1 _].
  pose proof Hw1 as (I1 & I2 & I3 & I4 & I5 & I6 & I7).
  assert (Hpe : ∃ p, parent_node (node (world s1) e) = Some p).
  { destruct (parent_node (node (world s1) e)) as [p|] eqn:Hp; [by exists p|].
    rewrite (I7 e Heg) in Hge; done. }
  assert (Hg1 : 1 ≤ ge).
  { destruct Hpe as [p Hp].
    destruct (I6 e p Heg Hp) as (_ & _ & _ & _ & gp & gc & E1 & E2 & E3 & E4).
    rewrite Hge in E2. injection E2 as <-. lia. }
  exists ge. split_and!; try done.
  - intros path Hwalk. unfold path_walk in Hwalk. rewrite He', Hge in Hwalk.
    destruct (walk_spec _ _ _ _ _ _ Hwalk) as (chain & -> & Hlen & Hlk & Hlast & Hhead & _).
    rewrite app_nil_r in *.
    assert (Hnonempty : chain ≠ []).
    { intros ->. simpl in Hlen. lia. }
    assert (Hlast' : last chain = Some e).
    { destruct (last chain) as [a|] eqn:Ea.
      - specialize (Hlast a eq_refl). congruence.
      - by apply last_None in Ea. }
    destruct chain as [|c0 chain'] eqn:Ec; [done|]. rewrite <- Ec in *.
    assert (Hh0 : head chain = Some c0) by (by rewrite Ec).
    pose proof (Hhead c0 Hh0) as Hp0.
    destruct (linked_route st (world s1) chain e Hw1 Hlk Hlast' Heg) as [Hcont Hall].
    { intros a Ha. rewrite Hh0 in Ha. injection Ha as <-. by exists st. }
    assert (Hc0 : in_grid (world s1) c0).
    { apply Hall. rewrite Ec. left. }
    destruct (I6 c0 st Hc0 Hp0) as (_ & Hadj & _).
    split_and!; try done.
    + exists c0. by split_and!.
    + intros c Hc. destruct (Hall c Hc) as (? & ? & ? & _). done.
  - intros HA.
    assert (Hd : dijkstra_inv s1).
    { apply (rtc_iter_dijkstra_inv st s0 s1 Hr Hinv0).
      by apply (search_init_dijkstra_inv w st e s0 w0). }
    destruct Hd as (L & _ & _ & _ & Hex).
    unfold path_walk. rewrite He', Hge.
    apply (walk_exact st); try done. rewrite Z2Nat.id by lia. done.
Qed.

(** The state in which Dijkstra's search on the open 5 × 5 grid
    dequeues End. *)
Definition demo_found : Search :=
  match search_loop 100 [] demo_start with
  | (Found s1, _) => s1
  | _ => demo_start
  end.

(** The amended claim for Dijkstra's search on the open 5 × 5 grid. *)
Lemma path_reconstruction_witness :
  ∃ g, START (world demo_found) = Some (0, 0) ∧ END (world demo_found) = Some (4, 4)
       ∧ g_score (node (world demo_found) (4, 4)) = Fin g ∧ 1 ≤ g
       ∧ (∀ path, path_walk (world demo_found) = Ok (path, Some (0, 0)) →
            length path = Z.to_nat g
            ∧ last path = Some (4, 4)
            ∧ (∃ c, head path = Some c
                    ∧ parent_node (node (world demo_found) c) = Some (0, 0)
                    ∧ adjacent4 (0, 0) c)
            ∧ linked (world demo_found) path
            ∧ contiguous path
            ∧ ∀ c, c ∈ path → in_grid (world demo_found) c
                              ∧ is_obstacle (world demo_found) c = false ∧ c ≠ (0, 0))
       ∧ (ALG (grid5 DJIKSTRA) = DJIKSTRA →
          ∃ path, path_walk (world demo_found) = Ok (path, Some (0, 0))).
Proof.
  apply (path_reconstruction (grid5 DJIKSTRA) (world demo_start) (0, 0) (4, 4)
           100 [] [] demo_start demo_found).
  - vm_compute. reflexivity.
  - vm_compute. reflexivity.
  - discriminate.
  - split; simpl; vm_compute; split; congruence.
  - vm_compute. reflexivity.
  - intros q _ _. unfold node.
    assert (Hall : map_Forall (λ _ n, g_score n = Inf) (nodes (grid5 DJIKSTRA))).
    { apply map_Forall_to_list. vm_compute. repeat constructor. }
    rewrite lookup_total_alt.
    destruct (nodes (grid5 DJIKSTRA) !! q) as [n|] eqn:E; simpl; [|done].
    by apply (Hall q n).
  - vm_compute. reflexivity.
  - vm_compute. reflexivity.
Defined.

(** * Further properties of the code *)

(** ** The neighbours, exactly *)

(** For a cell of the grid and a step [n ≥ 1], [get_neighbours] raises
    nothing and returns exactly those of the cells [n] steps up, left,
    down and right that lie in the grid, in this order: no cell twice,
    and every cell of the grid at distance [n] along one axis. *)
Theorem get_neighbours_exact (w : World) (p : pos) (n : Z) :
  1 ≤ n → in_grid w p →
  ∃ l, get_neighbours w p n = Some l
       ∧ l = filter (λ q, in_gridb w q = true) (around p n)
       ∧ NoDup l
       ∧ ∀ q, q ∈ l ↔ in_grid w q ∧ axial n p.1 p.2 q.
Proof.
  intros Hn Hp.
  destruct (get_neighbours_axial w p n Hn Hp) as (l & El & Hl).
  exists l. split; [exact El|].
  assert (E : l = filter (λ q, in_gridb w q = true) (around p n)).
  { rewrite (get_neighbours_around w p n Hn Hp) in El. by injection El. }
  split; [exact E|]. split; [|exact Hl].
  rewrite E. apply NoDup_filter. unfold around.
  generalize p.1, p.2. intros r c.
  rewrite !NoDup_cons, !elem_of_cons, !elem_of_nil.
  split_and!; try apply NoDup_nil_2; intros H;
    repeat match goal with
           | H : _ ∨ _ |- _ => destruct H as [H|H]
           | H : (_, _) = (_, _) |- _ => apply pair_equal_spec in H as [? ?]
           end; try done; lia.
Qed.

(** The theorem at the cell [(1, 0)] of a 3 × 3 grid: up, down and
    right, in this order. *)
Lemma get_neighbours_exact_witness :
  ∃ l, get_neighbours (create_nodes 3 3 A_STAR) (1, 0) 1 = Some l
       ∧ l = filter (λ q, in_gridb (create_nodes 3 3 A_STAR) q = true) (around (1, 0) 1)
       ∧ NoDup l
       ∧ ∀ q, q ∈ l ↔ in_grid (create_nodes 3 3 A_STAR) q ∧ axial 1 (1, 0).1 (1, 0).2 q.
Proof.
  apply (get_neighbours_exact (create_nodes 3 3 A_STAR) (1, 0) 1).
  - lia.
  - split; vm_compute; split; congruence.
Defined.

(** ** Clearing the whole grid *)

Lemma is_start_None w p : START w = None → is_start w p = false.
Proof. unfold is_start. intros ->. by apply bool_decide_eq_false. Qed.

Lemma is_end_None w p : END w = None → is_end w p = false.
Proof. unfold is_end. intros ->. by apply bool_decide_eq_false. Qed.

Lemma reset_node p w q :
  node (reset p w) q = if decide (p = q) then cleared (node w p) else node w q.
Proof.
  unfold reset. rewrite node_set_node.
  destruct (is_start w p); [done|]. by destruct (is_end w p).
Qed.

Lemma reset_dims p w :
  ROWS (reset p w) = ROWS w ∧ COLUMNS (reset p w) = COLUMNS w ∧ ALG (reset p w) = ALG w
  ∧ SHOW_MAZE_ANIM (reset p w) = SHOW_MAZE_ANIM w ∧ PAUSED (reset p w) = PAUSED w
  ∧ QUICK_MODE (reset p w) = QUICK_MODE w.
Proof. unfold reset. destruct (is_start w p); [done|]. by destruct (is_end w p). Qed.

Lemma reset_START p w :
  START (reset p w) = if is_start w p then None else START w.
Proof. unfold reset. destruct (is_start w p); [done|]. by destruct (is_end w p). Qed.

Lemma reset_END p w :
  END (reset p w) = if negb (is_start w p) && is_end w p then None else END w.
Proof. unfold reset. destruct (is_start w p); [done|]. by destruct (is_end w p). Qed.

(** Start and End are not the same cell. *)
Definition distinct_ends (w : World) : Prop :=
  ∀ p, START w = Some p → END w ≠ Some p.

Lemma foldl_reset_node l w q :
  node (foldl (λ w p, reset p w) w l) q
  = if bool_decide (q ∈ l) then cleared (node w q) else node w q.
Proof.
  revert w. induction l as [|x l IH]; intros w; simpl; [done|].
  rewrite IH, reset_node. destruct (decide (x = q)) as [->|Hne].
  - rewrite (bool_decide_eq_true_2 (q ∈ q :: l)) by left.
    by destruct (bool_decide (q ∈ l)).
  - rewrite (bool_decide_ext (q ∈ x :: l) (q ∈ l)); [done|].
    rewrite elem_of_cons. split; [intros [?|?]; congruence | by right].
Qed.

Lemma foldl_reset_dims l w :
  let w' := foldl (λ w p, reset p w) w l in
  ROWS w' = ROWS w ∧ COLUMNS w' = COLUMNS w ∧ ALG w' = ALG w
  ∧ SHOW_MAZE_ANIM w' = SHOW_MAZE_ANIM w ∧ PAUSED w' = PAUSED w
  ∧ QUICK_MODE w' = QUICK_MODE w.
Proof.
  revert w. induction l as [|x l IH]; intros w; simpl; [done|].
  destruct (IH (reset x w)) as (? & ? & ? & ? & ? & ?).
  destruct (reset_dims x w) as (? & ? & ? & ? & ? & ?).
  split_and!; congruence.
Qed.

Local Ltac ends_cases :=
  repeat case_bool_decide; simplify_eq; cbn [negb andb mbind option_bind];
  repeat case_bool_decide; try done;
  repeat match goal with
         | H : _ ∈ _ :: _ |- _ => apply elem_of_cons in H as [H|H]
         | H : ¬ _ ∈ _ :: _ |- _ => rewrite elem_of_cons in H
         end;
  simplify_eq; try done; try tauto.

Lemma foldl_reset_ends l w :
  distinct_ends w →
  let w' := foldl (λ w p, reset p w) w l in
  START w' = (p ← START w; if bool_decide (p ∈ l) then None else Some p)
  ∧ END w' = (p ← END w; if bool_decide (p ∈ l) then None else Some p).
Proof.
  revert w. induction l as [|x l IH]; intros w Hd; simpl.
  { split; [by destruct (START w) | by destruct (END w)]. }
  assert (Hd' : distinct_ends (reset x w)).
  { intros p. rewrite reset_START, reset_END. unfold is_start, is_end.
    repeat case_bool_decide; simpl; try done. by apply Hd. }
  destruct (IH (reset x w) Hd') as [-> ->].
  rewrite reset_START, reset_END. unfold is_start, is_end. split.
  - destruct (START w) as [p|] eqn:Es.
    + cbn [mbind option_bind]. ends_cases.
    + by case_bool_decide.
  - pose proof (Hd x) as Hx.
    destruct (END w) as [p|] eqn:Ee.
    + cbn [mbind option_bind]. ends_cases.
    + by repeat case_bool_decide.
Qed.

(** Start and End, when set, are cells of the grid. *)
Definition ends_in_grid (w : World) : Prop :=
  (∀ p, START w = Some p → in_grid w p) ∧ (∀ p, END w = Some p → in_grid w p).

(** The loop of [reset_grid(0)]. *)
Lemma reset_all_spec (w : World) :
  distinct_ends w → ends_in_grid w →
  let w' := foldl (λ w p, reset p w) w (all_nodes w) in
  START w' = None ∧ END w' = None
  ∧ (∀ q, node w' q = if bool_decide (in_grid w q) then cleared (node w q) else node w q)
  ∧ same_globals (with_END None (with_START None w)) w'.
Proof.
  intros Hd [Hs He] w'.
  destruct (foldl_reset_ends (all_nodes w) w Hd) as [Es Ee]. fold w' in Es, Ee.
  destruct (foldl_reset_dims (all_nodes w) w) as (D1 & D2 & D3 & D4 & D5 & D6).
  fold w' in D1, D2, D3, D4, D5, D6.
  assert (Es' : START w' = None).
  { rewrite Es. destruct (START w) as [p|] eqn:E; [|done]. simpl.
    rewrite bool_decide_eq_true_2; [done|]. apply elem_of_all_nodes. by apply Hs. }
  assert (Ee' : END w' = None).
  { rewrite Ee. destruct (END w) as [p|] eqn:E; [|done]. simpl.
    rewrite bool_decide_eq_true_2; [done|]. apply elem_of_all_nodes. by apply He. }
  split; [done|]. split; [done|]. split.
  - intros q. unfold w'. rewrite foldl_reset_node.
    by rewrite (bool_decide_ext _ _ (elem_of_all_nodes w q)).
  - unfold same_globals. simpl. by split_and!.
Qed.

(** [reset_grid(0)] returns normally and leaves Start and End unset and
    every cell of the grid white, with infinite [g_score] and without
    parent; it keeps the [h_score] of the cells, the size of the grid,
    the algorithm and the toggles. *)
Theorem reset_grid_0_clears (w : World) :
  distinct_ends w → ends_in_grid w →
  let w' := (reset_grid 0 w).2 in
  (reset_grid 0 w).1 = Ok tt
  ∧ START w' = None ∧ END w' = None
  ∧ (∀ q, in_grid w q → node w' q = mkNode WHITE true Inf (h_score (node w q)) None)
  ∧ (∀ q, ¬ in_grid w q → node w' q = node w q)
  ∧ same_globals (with_END None (with_START None w)) w'.
Proof.
  intros Hd He. unfold reset_grid. cbn [Z.eqb fst snd].
  destruct (reset_all_spec w Hd He) as (Es & Ee & Hn & G).
  split; [done|]. split; [exact Es|]. split; [exact Ee|]. split; [|split].
  - intros q Hq. rewrite Hn. by rewrite bool_decide_eq_true_2.
  - intros q Hq. rewrite Hn. by rewrite bool_decide_eq_false_2.
  - exact G.
Qed.

(** The theorem on a 2 × 3 grid with Start, End, an obstacle and an
    open cell. *)
Lemma reset_grid_0_clears_witness :
  let w := make_active (0, 1)
             (make_obstacle (1, 1)
                (make_end (1, 2) (make_start (0, 0) (create_nodes 2 3 A_STAR)))) in
  let w' := (reset_grid 0 w).2 in
  (reset_grid 0 w).1 = Ok tt
  ∧ START w' = None ∧ END w' = None
  ∧ (∀ q, in_grid w q → node w' q = mkNode WHITE true Inf (h_score (node w q)) None)
  ∧ (∀ q, ¬ in_grid w q → node w' q = node w q)
  ∧ same_globals (with_END None (with_START None w)) w'.
Proof.
  intros w.
  apply (reset_grid_0_clears w).
  - intros p Hp. vm_compute in Hp. injection Hp as <-. vm_compute. discriminate.
  - split; intros p Hp; vm_compute in Hp; injection Hp as <-;
      split; vm_compute; split; congruence.
Defined.

(** ** One round of the maze generator *)

(** The body of the loop [while active] of [generate_maze], for the
    stack [current :: rest]: it ends the call with an exception, or it
    hands the loop its next state. *)
Definition maze_body (rng : list nat) (inputs : list (list Event)) (current : pos)
    (rest : list pos) (w : World)
  : (Res unit * World) + (list nat * list (list Event) * list pos * World) :=
  let '(r, w, inputs) :=
    if SHOW_MAZE_ANIM w then
      let '(evs, inputs') := poll inputs in
      match handle_input_running evs w with
      | (Raise e, w1) => (Raise e, w1, inputs')
      | (Ok _, w1) => (Ok tt, draw_screen w1, inputs')
      end
    else (Ok tt, w, inputs) in
  match r with
  | Raise e => inl (Raise e, w)
  | Ok _ =>
      let w := reset current (make_active current w) in
      match get_neighbours w current 2 with
      | None => inl (Raise IndexError, w)
      | Some nbs =>
          let neighbours := filter (λ p, is_normal w p = false) nbs in
          match neighbours with
          | [] => inr (rng, inputs, rest, w)
          | _ :: _ =>
              let '(k, rng') := draw_rng rng in
              let next_cell := choice k neighbours current in
              match nodes_at w ((current.1 + next_cell.1) / 2)
                               ((current.2 + next_cell.2) / 2) with
              | None => inl (Raise IndexError, w)
              | Some dividing_wall =>
                  inr (rng', inputs, next_cell :: current :: rest,
                       reset next_cell (reset dividing_wall w))
              end
          end
      end
  end.

Lemma maze_loop_S fuel rng inputs current rest w :
  maze_loop (S fuel) rng inputs (current :: rest) w
  = match maze_body rng inputs current rest w with
    | inl r => Some r
    | inr (rng', inputs', stack', w') => maze_loop fuel rng' inputs' stack' w'
    end.
Proof.
  unfold maze_body. cbn [maze_loop].
  destruct (if SHOW_MAZE_ANIM w then _ else _) as [[r w1] inputs1].
  destruct r as [[]|e]; [|done].
  destruct (get_neighbours _ _ _) as [nbs|]; [|done].
  destruct (filter _ nbs) as [|n0 ns]; [done|].
  destruct (draw_rng rng) as [k rng'].
  by destruct (nodes_at _ _ _).
Qed.

Lemma choice_elem_of k l d : l ≠ [] → choice k l d ∈ l.
Proof.
  intros Hl. unfold choice. apply list_elem_of_In, nth_In.
  apply Nat.mod_upper_bound. by destruct l.
Qed.

(** [w'] is [w] with the cells [ps] made white; Start and End stay
    unset and no cost becomes finite. *)
Definition carved (ps : list pos) (w w' : World) : Prop :=
  ROWS w' = ROWS w ∧ COLUMNS w' = COLUMNS w
  ∧ START w' = None ∧ END w' = None
  ∧ (∀ q, color (node w' q) = if bool_decide (q ∈ ps) then WHITE else color (node w q))
  ∧ (∀ q, g_score (node w q) = Inf → g_score (node w' q) = Inf)
  ∧ (∀ q, parent_node (node w q) = None → parent_node (node w' q) = None)
  ∧ ALG w' = ALG w.

Lemma make_active_node p w q :
  node (make_active p w) q = if decide (p = q) then paint GREEN (node w p) else node w q.
Proof. unfold make_active. apply node_set_node. Qed.

Lemma carved_reset_active current w0 w1 :
  START w0 = None → END w0 = None → core_eq w0 w1 →
  carved [current] w0 (reset current (make_active current w1)).
Proof.
  intros Hs He (C1 & C2 & C3 & C4 & C5 & Cq).
  assert (Hs1 : START w1 = None) by congruence.
  assert (He1 : END w1 = None) by congruence.
  assert (Hn : ∀ q, node (reset current (make_active current w1)) q
                    = if decide (current = q) then cleared (paint GREEN (node w1 current))
                      else node w1 q).
  { intros q. rewrite reset_node, !make_active_node.
    destruct (decide (current = q)) as [->|]; [|done]. by rewrite decide_True. }
  split_and!.
  - by destruct (reset_dims current (make_active current w1)) as (-> & _).
  - by destruct (reset_dims current (make_active current w1)) as (_ & -> & _).
  - rewrite reset_START. by destruct (is_start _ _).
  - rewrite reset_END. by destruct (_ && _).
  - intros q. rewrite Hn. destruct (decide (current = q)) as [->|Hne].
    + by rewrite bool_decide_eq_true_2 by left.
    + rewrite bool_decide_eq_false_2; [apply Cq|].
      rewrite list_elem_of_singleton. congruence.
  - intros q Hq. rewrite Hn. destruct (decide (current = q)); [done|].
    destruct (Cq q) as (_ & -> & _). done.
  - intros q Hq. rewrite Hn. destruct (decide (current = q)); [done|].
    destruct (Cq q) as (_ & _ & _ & ->). done.
  - destruct (reset_dims current (make_active current w1)) as (_ & _ & -> & _). done.
Qed.

Lemma carved_reset p ps w0 w :
  carved ps w0 w → carved (p :: ps) w0 (reset p w).
Proof.
  intros (C1 & C2 & C3 & C4 & C5 & C6 & C7 & C8).
  split_and!; [..|by destruct (reset_dims p w) as (_ & _ & -> & _)].
  - destruct (reset_dims p w) as (-> & _). done.
  - destruct (reset_dims p w) as (_ & -> & _). done.
  - rewrite reset_START. by destruct (is_start _ _).
  - rewrite reset_END. by destruct (_ && _).
  - intros q. rewrite reset_node. destruct (decide (p = q)) as [->|Hne].
    + by rewrite bool_decide_eq_true_2 by left.
    + rewrite C5. apply (f_equal (λ b : bool, if b then WHITE else color (node w0 q))).
      apply bool_decide_ext. rewrite elem_of_cons. split; [by right|].
      intros [?|?]; [congruence|done].
  - intros q Hq. rewrite reset_node. destruct (decide (p = q)); [done | by apply C6].
  - intros q Hq. rewrite reset_node. destruct (decide (p = q)); [done | by apply C7].
Qed.

Lemma carved_same_cells ps ps' w0 w :
  (∀ q, q ∈ ps ↔ q ∈ ps') → carved ps w0 w → carved ps' w0 w.
Proof.
  intros H (C1 & C2 & C3 & C4 & C5 & C6 & C7 & C8). split_and!; try done.
  intros q. rewrite C5. by rewrite (bool_decide_ext _ _ (H q)).
Qed.

Lemma carved_in_grid ps w w' q : carved ps w w' → in_grid w' q ↔ in_grid w q.
Proof. intros (C1 & C2 & _). unfold in_grid. by rewrite C1, C2. Qed.

Lemma carved_is_normal ps w w' q :
  carved ps w w' → is_normal w' q = bool_decide (q ∈ ps) || is_normal w q.
Proof.
  intros (_ & _ & _ & _ & C5 & _). unfold is_normal. rewrite C5.
  destruct (bool_decide (q ∈ ps)); simpl; done.
Qed.

Lemma midpoint_div a : (a + (a - 2)) / 2 = a - 1 ∧ (a + (a + 2)) / 2 = a + 1 ∧ (a + a) / 2 = a.
Proof.
  split_and!.
  - replace (a + (a - 2)) with ((a - 1) * 2) by lia. apply Z.div_mul. lia.
  - replace (a + (a + 2)) with ((a + 1) * 2) by lia. apply Z.div_mul. lia.
  - replace (a + a) with (a * 2) by lia. apply Z.div_mul. lia.
Qed.

(** A round of the loop, with Start and End unset and [current] in the
    grid, raises no [IndexError]; it either pops [current], all of whose
    neighbours two steps away are white then, or it makes such a
    neighbour that was not white and the wall cell between them white
    and pushes the neighbour. *)
Lemma maze_body_spec rng inputs current rest w :
  START w = None → END w = None → in_grid w current →
  match maze_body rng inputs current rest w with
  | inl (r, w') => r = Raise SystemExit
  | inr (rng', inputs', stack', w') =>
      (stack' = rest ∧ carved [current] w w'
       ∧ ∀ q, in_grid w q → axial 2 current.1 current.2 q → is_normal w' q = true)
      ∨ (∃ next wall,
           stack' = next :: current :: rest
           ∧ carved [next; wall; current] w w'
           ∧ in_grid w next ∧ axial 2 current.1 current.2 next
           ∧ is_normal w next = false
           ∧ wall = ((current.1 + next.1) / 2, (current.2 + next.2) / 2)
           ∧ in_grid w wall ∧ adjacent4 current wall ∧ adjacent4 wall next)
  end.
Proof.
  intros Hs He Hcur. unfold maze_body.
  set (pre := if SHOW_MAZE_ANIM w then _ else _).
  assert (Hpre : match pre.1.1 with
                 | Ok _ => core_eq w pre.1.2
                 | Raise e => e = SystemExit
                 end).
  { unfold pre. destruct (SHOW_MAZE_ANIM w); simpl; [|apply core_eq_refl].
    destruct (poll inputs) as [evs inputs'].
    pose proof (core_eq_handle_input_running evs w) as Hh.
    assert (Hx : ∀ e, (handle_input_running evs w).1 = Raise e → e = SystemExit).
    { clear. revert w. induction evs as [|ev evs IH]; intros w e; simpl; [done|].
      destruct ev as [|[]|]; simpl; try apply IH; congruence. }
    destruct (handle_input_running evs w) as [[b|e] w1]; simpl in *.
    - eapply core_eq_trans; [apply Hh | apply core_eq_draw_screen].
    - by apply Hx. }
  destruct pre as [[r w1] inputs1]. simpl in Hpre.
  destruct r as [[]|e]; [|by subst].
  pose proof (carved_reset_active current w w1 Hs He Hpre) as Hc.
  set (w2 := reset current (make_active current w1)) in *.
  assert (Hg2 : ∀ q, in_grid w2 q ↔ in_grid w q) by (intros; by eapply carved_in_grid).
  rewrite (get_neighbours_around w2 current 2) by (by rewrite ?Hg2).
  set (nbs := filter (λ q, in_gridb w2 q = true) (around current 2)).
  assert (Hnbs : ∀ q, q ∈ nbs ↔ in_grid w q ∧ axial 2 current.1 current.2 q).
  { intros q. unfold nbs. rewrite list_elem_of_filter, in_gridb_spec, Hg2.
    rewrite (axial_around 2 current q) by lia. tauto. }
  destruct (filter (λ p, is_normal w2 p = false) nbs) as [|n0 ns] eqn:Ef.
  { left. split_and!; try done. intros q Hq Hax.
    destruct (is_normal w2 q) eqn:En; [done|]. exfalso.
    assert (Hin : q ∈ filter (λ p, is_normal w2 p = false) nbs).
    { apply list_elem_of_filter. split; [done|]. by apply Hnbs. }
    rewrite Ef in Hin. by apply elem_of_nil in Hin. }
  destruct (draw_rng rng) as [k rng'].
  set (next := choice k (n0 :: ns) current).
  assert (Hnext : next ∈ filter (λ p, is_normal w2 p = false) nbs).
  { rewrite Ef. by apply choice_elem_of. }
  apply list_elem_of_filter in Hnext as [Hnn Hnext].
  apply Hnbs in Hnext as [Hng Hax].
  assert (Hne : next ≠ current).
  { intros E. rewrite E in Hax. unfold axial in Hax. lia. }
  assert (Hnw : is_normal w next = false).
  { rewrite (carved_is_normal _ _ _ _ Hc) in Hnn.
    apply orb_false_iff in Hnn as [_ Hnn]. done. }
  set (wall := ((current.1 + next.1) / 2, (current.2 + next.2) / 2)).
  assert (Hwall : in_grid w wall ∧ adjacent4 current wall ∧ adjacent4 wall next).
  { unfold wall, adjacent4, in_grid, axial in *.
    destruct current as [r c], next as [r' c']. simpl in *.
    destruct (midpoint_div r) as (M1 & M2 & M3), (midpoint_div c) as (M4 & M5 & M6).
    destruct Hax as [[-> H]|[-> H]].
    - rewrite M6. destruct (decide (r' = r - 2)) as [->|].
      + rewrite M1. lia.
      + replace r' with (r + 2) by lia. rewrite M2. lia.
    - rewrite M3. destruct (decide (c' = c - 2)) as [->|].
      + rewrite M4. lia.
      + replace c' with (c + 2) by lia. rewrite M5. lia. }
  destruct Hwall as (Hwg & Ha1 & Ha2).
  assert (Enodes : nodes_at w2 ((current.1 + next.1) / 2) ((current.2 + next.2) / 2)
                   = Some wall).
  { apply nodes_at_in_grid. by apply Hg2. }
  rewrite Enodes.
  right. exists next, wall. split_and!; try done.
  by apply carved_reset, carved_reset.
Qed.

(** ** What the maze generator keeps true *)

Local Ltac zlia := Z.to_euclidean_division_equations; lia.

(** Both coordinates are even. *)
Definition even2 (p : pos) : Prop := p.1 mod 2 = 0 ∧ p.2 mod 2 = 0.

(** [route free a b]: one gets from [a] to [b] by steps between
    4-adjacent cells, every cell after [a] satisfying [free]. *)
Inductive route (free : pos → Prop) (a : pos) : pos → Prop :=
  | route_here : route free a a
  | route_step q r : route free a q → adjacent4 q r → free r → route free a r.

Lemma route_mono (free free' : pos → Prop) a b :
  (∀ p, free p → free' p) → route free a b → route free' a b.
Proof.
  intros H. induction 1 as [|q r _ IH Hadj Hr]; [constructor|].
  eapply route_step; [apply IH | done | by apply H].
Qed.

(** A white cell of the grid. *)
Definition normal (w : World) (p : pos) : Prop := in_grid w p ∧ is_normal w p = true.

(** Where the generator can make a cell white: not at two odd
    coordinates, and at an odd coordinate only between two cells of the
    grid. *)
Definition carvable (w : World) (p : pos) : Prop :=
  (p.1 mod 2 = 1 → p.2 mod 2 = 0 ∧ p.1 + 1 < ROWS w)
  ∧ (p.2 mod 2 = 1 → p.1 mod 2 = 0 ∧ p.2 + 1 < COLUMNS w).

Definition maze_inv (w : World) (stack : list pos) : Prop :=
  START w = None ∧ END w = None
  ∧ normal w (0, 0)
  ∧ (∀ p, in_grid w p → color (node w p) = WHITE ∨ color (node w p) = GREY)
  ∧ (∀ p, in_grid w p → g_score (node w p) = Inf ∧ parent_node (node w p) = None)
  ∧ (∀ p, p ∈ stack → normal w p ∧ even2 p)
  ∧ (∀ p, normal w p → route (normal w) (0, 0) p)
  ∧ (∀ p, normal w p → carvable w p)
  ∧ (∀ p q, normal w p → even2 p → p ∉ stack → in_grid w q →
            axial 2 p.1 p.2 q → is_normal w q = true).

Lemma carved_normal_mono ps w w' p : carved ps w w' → normal w p → normal w' p.
Proof.
  intros Hc [Hg Hn]. split; [by apply (carved_in_grid ps w w')|].
  rewrite (carved_is_normal _ _ _ _ Hc), Hn. apply orb_true_r.
Qed.

Lemma carved_normal_inv ps w w' p : carved ps w w' → normal w' p → p ∈ ps ∨ normal w p.
Proof.
  intros Hc [Hg Hn]. rewrite (carved_is_normal _ _ _ _ Hc) in Hn.
  apply orb_true_iff in Hn as [Hn|Hn].
  - left. by apply bool_decide_eq_true in Hn.
  - right. split; [by apply (carved_in_grid ps w w')|done].
Qed.

Lemma carved_carvable ps w w' p : carved ps w w' → carvable w p → carvable w' p.
Proof. intros (C1 & C2 & _). unfold carvable. by rewrite C1, C2. Qed.

Lemma maze_inv_pop w w' current rest :
  maze_inv w (current :: rest) → carved [current] w w' →
  (∀ q, in_grid w q → axial 2 current.1 current.2 q → is_normal w' q = true) →
  maze_inv w' rest.
Proof.
  intros (I1 & I2 & I3 & I4 & I5 & I6 & I7 & I8 & I9) Hc Hnb.
  pose proof Hc as (C1 & C2 & C3 & C4 & C5 & C6 & C7 & C8).
  destruct (I6 current) as [Hcn Hce]; [left|].
  assert (Hg : ∀ q, in_grid w' q ↔ in_grid w q) by (intros; by eapply carved_in_grid).
  assert (Hback : ∀ p, normal w' p → normal w p).
  { intros p Hp. destruct (carved_normal_inv _ _ _ _ Hc Hp) as [Hin|Hn]; [|done].
    apply list_elem_of_singleton in Hin. by subst. }
  split_and!; try done.
  - by eapply carved_normal_mono.
  - intros p Hp. rewrite C5. case_bool_decide; [by left|]. apply I4. by apply Hg.
  - intros p Hp. apply Hg in Hp. destruct (I5 p Hp) as [Hgp Hpp].
    split; [by apply C6 | by apply C7].
  - intros p Hp. destruct (I6 p) as [Hpn Hpe]; [by right|].
    split; [by eapply carved_normal_mono | done].
  - intros p Hp. eapply route_mono; [|apply I7; by apply Hback].
    intros q. by eapply carved_normal_mono.
  - intros p Hp. eapply carved_carvable; [done|]. by apply I8, Hback.
  - intros p q Hp Hpe Hps Hq Hax. apply Hg in Hq.
    destruct (decide (p = current)) as [->|Hne]; [by apply Hnb|].
    assert (Hn : is_normal w q = true).
    { apply (I9 p q); try done; [by apply Hback|].
      rewrite elem_of_cons. intros [?|?]; done. }
    rewrite (carved_is_normal _ _ _ _ Hc), Hn. apply orb_true_r.
Qed.

Lemma maze_inv_carve w w' current rest next wall :
  maze_inv w (current :: rest) → carved [next; wall; current] w w' →
  in_grid w next → axial 2 current.1 current.2 next →
  wall = ((current.1 + next.1) / 2, (current.2 + next.2) / 2) →
  in_grid w wall → adjacent4 current wall → adjacent4 wall next →
  maze_inv w' (next :: current :: rest).
Proof.
  intros (I1 & I2 & I3 & I4 & I5 & I6 & I7 & I8 & I9) Hc Hng Hax Hw Hwg Ha1 Ha2.
  pose proof Hc as (C1 & C2 & C3 & C4 & C5 & C6 & C7 & C8).
  destruct (I6 current) as [Hcn Hce]; [left|].
  assert (Hg : ∀ q, in_grid w' q ↔ in_grid w q) by (intros; by eapply carved_in_grid).
  assert (Hmono : ∀ p, normal w p → normal w' p)
    by (intros; by eapply carved_normal_mono).
  assert (Hnew : ∀ p, p ∈ [next; wall; current] → in_grid w p → normal w' p).
  { intros p Hp Hpg. split; [by apply Hg|].
    rewrite (carved_is_normal _ _ _ _ Hc). by rewrite bool_decide_eq_true_2. }
  assert (Hnn : normal w' next) by (apply Hnew; [left | done]).
  assert (Hwn : normal w' wall) by (apply Hnew; [right; left | done]).
  assert (Hne2 : even2 next).
  { unfold even2, axial in *. destruct current as [r c], next as [r' c'].
    simpl in *. zlia. }
  assert (Hwc : carvable w wall ∧ ¬ even2 wall).
  { destruct Hcn as [Hcg _]. clear Hwg Ha1 Ha2.
    unfold carvable, even2, axial, in_grid in *. rewrite Hw.
    destruct current as [r c], next as [r' c']. simpl in *.
    destruct (midpoint_div r) as (M1 & M2 & M3), (midpoint_div c) as (M4 & M5 & M6).
    destruct Hax as [[-> H]|[-> H]].
    - rewrite M6. destruct (decide (r' = r - 2)) as [->|].
      + rewrite M1. clear M1 M2 M3 M4 M5 M6. zlia.
      + replace r' with (r + 2) by lia. rewrite M2. clear M1 M2 M3 M4 M5 M6. zlia.
    - rewrite M3. destruct (decide (c' = c - 2)) as [->|].
      + rewrite M4. clear M1 M2 M3 M4 M5 M6. zlia.
      + replace c' with (c + 2) by lia. rewrite M5. clear M1 M2 M3 M4 M5 M6. zlia. }
  destruct Hwc as [Hwc Hwe].
  assert (Hroute : ∀ p, normal w p → route (normal w') (0, 0) p).
  { intros p Hp. eapply route_mono; [apply Hmono | by apply I7]. }
  split_and!; try done.
  - by apply Hmono.
  - intros p Hp. rewrite C5. case_bool_decide; [by left|]. apply I4. by apply Hg.
  - intros p Hp. apply Hg in Hp. destruct (I5 p Hp) as [Hgp Hpp].
    split; [by apply C6 | by apply C7].
  - intros p [->|Hp]%elem_of_cons; [done|].
    destruct (I6 p Hp) as [Hpn Hpe]. split; [by apply Hmono | done].
  - intros p Hp. destruct (carved_normal_inv _ _ _ _ Hc Hp) as [Hin|Hn]; [|by apply Hroute].
    assert (Hrw : route (normal w') (0, 0) wall).
    { eapply route_step; [by apply Hroute | done | done]. }
    rewrite !elem_of_cons, elem_of_nil in Hin.
    destruct Hin as [->|[->|[->|[]]]].
    + by eapply route_step.
    + done.
    + by apply Hroute.
  - intros p Hp. eapply carved_carvable; [done|].
    destruct (carved_normal_inv _ _ _ _ Hc Hp) as [Hin|Hn]; [|by apply I8].
    rewrite !elem_of_cons, elem_of_nil in Hin.
    destruct Hin as [->|[->|[->|[]]]]; [|done|by apply I8].
    unfold carvable, even2 in *. zlia.
  - intros p q Hp Hpe Hps Hq Hax'. apply Hg in Hq.
    rewrite !elem_of_cons in Hps.
    assert (Hpn : normal w p).
    { destruct (carved_normal_inv _ _ _ _ Hc Hp) as [Hin|Hn]; [|done].
      rewrite !elem_of_cons, elem_of_nil in Hin.
      destruct Hin as [->|[->|[->|[]]]]; [tauto | done | tauto]. }
    assert (Hn : is_normal w q = true).
    { apply (I9 p q); try done. rewrite elem_of_cons. tauto. }
    rewrite (carved_is_normal _ _ _ _ Hc), Hn. apply orb_true_r.
Qed.

(** ** The maze generator terminates *)

(** The number of cells of the grid that are not white. *)
Definition walls_left (w : World) : nat :=
  length (filter (λ p, is_normal w p = false) (all_nodes w)).

Lemma filter_false_length (f g : pos → bool) (l : list pos) :
  (∀ p, f p = true → g p = true) →
  (length (filter (λ p, g p = false) l) ≤ length (filter (λ p, f p = false) l))%nat
  ∧ ∀ x, x ∈ l → f x = false → g x = true →
         (length (filter (λ p, g p = false) l) < length (filter (λ p, f p = false) l))%nat.
Proof.
  intros Hfg. induction l as [|y l [IH1 IH2]].
  { split; [done|]. by intros x ?%elem_of_nil. }
  rewrite !filter_cons.
  destruct (f y) eqn:Ef, (g y) eqn:Eg; repeat case_decide; try done; simpl.
  - split; [done|]. intros x [->|Hx]%elem_of_cons Hf Hg; [congruence|]. by apply (IH2 x).
  - by rewrite (Hfg y Ef) in Eg.
  - split; [lia|]. intros x _ _ _. lia.
  - split; [lia|]. intros x [->|Hx]%elem_of_cons Hf Hg; [congruence|].
    specialize (IH2 x Hx Hf Hg). lia.
Qed.

Lemma carved_all_nodes ps w w' : carved ps w w' → all_nodes w' = all_nodes w.
Proof. intros (C1 & C2 & _). unfold all_nodes. by rewrite C1, C2. Qed.

Lemma carved_walls_left ps w w' :
  carved ps w w' →
  (walls_left w' ≤ walls_left w)%nat
  ∧ ∀ x, x ∈ ps → in_grid w x → is_normal w x = false →
         (walls_left w' < walls_left w)%nat.
Proof.
  intros Hc. unfold walls_left. rewrite (carved_all_nodes _ _ _ Hc).
  destruct (filter_false_length (is_normal w) (is_normal w') (all_nodes w)) as [H1 H2].
  { intros p Hp. rewrite (carved_is_normal _ _ _ _ Hc), Hp. apply orb_true_r. }
  split; [done|]. intros x Hx Hg Hn. apply (H2 x); [by apply elem_of_all_nodes | done |].
  rewrite (carved_is_normal _ _ _ _ Hc). by rewrite bool_decide_eq_true_2.
Qed.

(** No poll brings a [QUIT] event. *)
Definition no_quit (inputs : list (list Event)) : Prop :=
  Forall (Forall (λ ev, ev ≠ QUIT)) inputs.

Lemma handle_input_running_no_quit evs w :
  Forall (λ ev, ev ≠ QUIT) evs → ∃ b, (handle_input_running evs w).1 = Ok b.
Proof.
  revert w. induction evs as [|ev evs IH]; intros w Hq; simpl; [by eexists|].
  apply Forall_cons in Hq as [Hev Hq].
  destruct ev as [|[]|]; simpl; try done; try (by apply IH); by eexists.
Qed.

Lemma poll_no_quit inputs :
  no_quit inputs → Forall (λ ev, ev ≠ QUIT) (poll inputs).1 ∧ no_quit (poll inputs).2.
Proof.
  intros H. destruct inputs as [|evs rest]; simpl.
  - split; constructor.
  - by apply Forall_cons in H.
Qed.

Lemma maze_body_no_quit rng inputs current rest w :
  no_quit inputs →
  match maze_body rng inputs current rest w with
  | inl (r, _) => r ≠ Raise SystemExit
  | inr (_, inputs', _, _) => no_quit inputs'
  end.
Proof.
  intros Hq. unfold maze_body.
  set (pre := if SHOW_MAZE_ANIM w then _ else _).
  assert (Hpre : (∃ u, pre.1.1 = Ok u) ∧ no_quit pre.2).
  { unfold pre. destruct (SHOW_MAZE_ANIM w); simpl; [|by eauto].
    destruct (poll_no_quit inputs Hq) as [H1 H2].
    destruct (poll inputs) as [evs inputs']. simpl in *.
    destruct (handle_input_running_no_quit evs w H1) as [b Hb].
    destruct (handle_input_running evs w) as [[b'|e] w1]; simpl in *; [by eauto|done]. }
  destruct pre as [[r w1] inputs1]. simpl in Hpre. destruct Hpre as [[u ->] Hq1].
  destruct (get_neighbours _ _ _) as [nbs|]; [|done].
  destruct (filter _ nbs) as [|n0 ns]; [done|].
  destruct (draw_rng rng) as [k rng'].
  by destruct (nodes_at _ _ _).
Qed.

(** Without the animation a round polls no event. *)
Lemma maze_body_quiet rng inputs current rest w :
  SHOW_MAZE_ANIM w = false →
  match maze_body rng inputs current rest w with
  | inl (r, _) => r ≠ Raise SystemExit
  | inr (_, _, _, w') => SHOW_MAZE_ANIM w' = false
  end.
Proof.
  intros Hq. unfold maze_body. rewrite Hq.
  set (w1 := reset current (make_active current w)).
  assert (H1 : SHOW_MAZE_ANIM w1 = false).
  { unfold w1. destruct (reset_dims current (make_active current w)) as (_ & _ & _ & -> & _).
    exact Hq. }
  destruct (get_neighbours _ _ _) as [nbs|]; [|done].
  destruct (filter _ nbs) as [|n0 ns]; [done|].
  destruct (draw_rng rng) as [k rng'].
  destruct (nodes_at _ _ _) as [wall|]; [|done].
  destruct (reset_dims (choice k (n0 :: ns) current) (reset wall w1)) as (_ & _ & _ & -> & _).
  destruct (reset_dims wall w1) as (_ & _ & _ & -> & _). exact H1.
Qed.

(** What a round does to a state that satisfies the invariant: it
    raises the [SystemExit] of a [QUIT] event, or it hands on a state
    that satisfies the invariant again and is smaller in the measure
    that counts the cells left to whiten twice and the height of the
    stack once. *)
Lemma maze_body_inv rng inputs current rest w :
  maze_inv w (current :: rest) →
  match maze_body rng inputs current rest w with
  | inl (r, _) => r = Raise SystemExit ∧ ¬ no_quit inputs
  | inr (_, inputs', stack', w') =>
      maze_inv w' stack'
      ∧ (2 * walls_left w' + length stack' < 2 * walls_left w + length (current :: rest))%nat
      ∧ ROWS w' = ROWS w ∧ COLUMNS w' = COLUMNS w ∧ ALG w' = ALG w
      ∧ (no_quit inputs → no_quit inputs')
  end.
Proof.
  intros Hinv.
  pose proof Hinv as (I1 & I2 & I3 & I4 & I5 & I6 & I7 & I8 & I9).
  destruct (I6 current) as [[Hcg Hcn] Hce]; [left|].
  pose proof (maze_body_spec rng inputs current rest w I1 I2 Hcg) as Hb.
  pose proof (maze_body_no_quit rng inputs current rest w) as Hq.
  destruct (maze_body rng inputs current rest w) as [[r w']|[[[rng' inputs'] stack'] w']].
  { subst r. split; [done|]. intros Hn. by apply Hq. }
  destruct Hb as [(-> & Hc & Hnb)|(next & wall & -> & Hc & Hng & Hax & Hnn & Hw & Hwg & Ha1 & Ha2)].
  - split; [by eapply maze_inv_pop|].
    destruct (carved_walls_left _ _ _ Hc) as [Hle _].
    destruct Hc as (? & ? & _ & _ & _ & _ & _ & ?).
    split_and!; try done. cbn [length]. lia.
  - split; [by eapply maze_inv_carve|].
    destruct (carved_walls_left _ _ _ Hc) as [_ Hlt].
    specialize (Hlt next ltac:(left) Hng Hnn).
    destruct Hc as (? & ? & _ & _ & _ & _ & _ & ?).
    split_and!; try done. cbn [length]. lia.
Qed.

(** However the loop ends, it raises nothing but the [SystemExit] of a
    [QUIT] event, and when it ends normally the invariant holds with an
    empty stack. *)
Lemma maze_loop_partial fuel rng inputs stack w r w' :
  maze_inv w stack →
  maze_loop fuel rng inputs stack w = Some (r, w') →
  match r with
  | Ok _ => maze_inv w' [] ∧ ROWS w' = ROWS w ∧ COLUMNS w' = COLUMNS w ∧ ALG w' = ALG w
  | Raise e => e = SystemExit ∧ ¬ no_quit inputs ∧ SHOW_MAZE_ANIM w = true
  end.
Proof.
  revert rng inputs stack w. induction fuel as [|fuel IH]; intros rng inputs stack w Hinv.
  { destruct stack; [|done]. cbn [maze_loop]. by intros [= <- <-]. }
  destruct stack as [|current rest].
  { cbn [maze_loop]. by intros [= <- <-]. }
  rewrite maze_loop_S.
  pose proof (maze_body_inv rng inputs current rest w Hinv) as Hb.
  pose proof (maze_body_quiet rng inputs current rest w) as Hs.
  destruct (maze_body rng inputs current rest w) as [[r1 w1]|[[[rng' inputs'] stack'] w1]].
  { intros [= <- <-]. destruct Hb as [-> Hb]. split; [done|]. split; [done|].
    destruct (SHOW_MAZE_ANIM w); [done|]. by destruct Hs. }
  destruct Hb as (Hinv' & _ & HR & HC & HA & Hq).
  intros E. specialize (IH rng' inputs' stack' w1 Hinv' E).
  destruct r as [[]|e].
  - destruct IH as (? & ? & ? & ?). split_and!; congruence.
  - destruct IH as (-> & Hn & Hs1). split; [done|]. split.
    + intros Hn'. by apply Hn, Hq.
    + destruct (SHOW_MAZE_ANIM w); [done|]. rewrite Hs in Hs1 by done. done.
Qed.

(** The loop ends within a number of rounds bounded by twice the cells
    left to whiten plus the height of the stack. *)
Lemma maze_loop_terminates fuel rng inputs stack w :
  maze_inv w stack → (2 * walls_left w + length stack < fuel)%nat →
  ∃ r, maze_loop fuel rng inputs stack w = Some r.
Proof.
  revert rng inputs stack w. induction fuel as [|fuel IH]; intros rng inputs stack w Hinv Hf.
  { lia. }
  destruct stack as [|current rest].
  { by eexists. }
  rewrite maze_loop_S.
  pose proof (maze_body_inv rng inputs current rest w Hinv) as Hb.
  destruct (maze_body rng inputs current rest w) as [[r1 w1]|[[[rng' inputs'] stack'] w1]].
  { by eexists. }
  destruct Hb as (Hinv' & Hm & _). apply IH; [done | lia].
Qed.

(** ** The grid before and after the carving *)

Lemma make_obstacle_unset p w :
  START w = None → END w = None → make_obstacle p w = set_node p (paint GREY) w.
Proof.
  intros Hs He. unfold make_obstacle.
  by rewrite (is_start_None _ _ Hs), (is_end_None _ _ He).
Qed.

Lemma foldl_make_obstacle l w :
  START w = None → END w = None →
  let w' := foldl (λ w p, make_obstacle p w) w l in
  same_globals w w'
  ∧ ∀ q, node w' q = if bool_decide (q ∈ l) then paint GREY (node w q) else node w q.
Proof.
  revert w. induction l as [|x l IH]; intros w Hs He; simpl.
  { split; [apply same_globals_refl | done]. }
  rewrite (make_obstacle_unset x w Hs He).
  destruct (IH (set_node x (paint GREY) w) Hs He) as [G Hn]. split.
  { eapply same_globals_trans; [apply same_globals_set_node | apply G]. }
  intros q. rewrite Hn, node_set_node. destruct (decide (x = q)) as [->|Hne].
  - rewrite (bool_decide_eq_true_2 (q ∈ q :: l)) by left.
    by destruct (bool_decide (q ∈ l)).
  - rewrite (bool_decide_ext (q ∈ x :: l) (q ∈ l)); [done|].
    rewrite elem_of_cons. split; [intros [?|?]; congruence | by right].
Qed.

(** The state in which [generate_maze] enters its loop: the origin is
    white, every other cell of the grid is an obstacle. *)
Definition maze_start (w : World) : World :=
  reset (0, 0) (foldl (λ w p, make_obstacle p w) (reset_grid 0 w).2
                      (all_nodes (reset_grid 0 w).2)).

Lemma maze_start_inv w :
  distinct_ends w → ends_in_grid w → 1 ≤ ROWS w → 1 ≤ COLUMNS w →
  maze_inv (maze_start w) [(0, 0)]
  ∧ ROWS (maze_start w) = ROWS w ∧ COLUMNS (maze_start w) = COLUMNS w
  ∧ ALG (maze_start w) = ALG w.
Proof.
  intros Hd He HR HC. unfold maze_start.
  assert (HA : START (reset_grid 0 w).2 = None ∧ END (reset_grid 0 w).2 = None
               ∧ (∀ q, in_grid w q →
                       node (reset_grid 0 w).2 q
                       = mkNode WHITE true Inf (h_score (node w q)) None)
               ∧ same_globals (with_END None (with_START None w)) (reset_grid 0 w).2).
  { unfold reset_grid. cbn [Z.eqb snd].
    destruct (reset_all_spec w Hd He) as (Es & Ee & Hn & G).
    split; [exact Es|]. split; [exact Ee|]. split; [|exact G].
    intros q Hq. rewrite Hn. by rewrite bool_decide_eq_true_2. }
  destruct HA as (As & Ae & An & AG).
  set (wA := (reset_grid 0 w).2) in *.
  destruct (foldl_make_obstacle (all_nodes wA) wA As Ae) as [BG Bn].
  set (wB := foldl (λ w p, make_obstacle p w) wA (all_nodes wA)) in *.
  destruct AG as (A1 & A2 & A3 & _). simpl in A1, A2, A3.
  destruct BG as (B1 & B2 & B3 & B4 & B5 & _).
  assert (Bs : START wB = None) by congruence.
  assert (Be : END wB = None) by congruence.
  set (wC := reset (0, 0) wB).
  assert (CR : ROWS wC = ROWS w).
  { unfold wC. destruct (reset_dims (0, 0) wB) as (-> & _). congruence. }
  assert (CC : COLUMNS wC = COLUMNS w).
  { unfold wC. destruct (reset_dims (0, 0) wB) as (_ & -> & _). congruence. }
  assert (CA : ALG wC = ALG w).
  { unfold wC. destruct (reset_dims (0, 0) wB) as (_ & _ & -> & _). congruence. }
  assert (Hg : ∀ q, in_grid wC q ↔ in_grid w q).
  { intros q. unfold in_grid. by rewrite CR, CC. }
  assert (HgA : ∀ q, in_grid w q → q ∈ all_nodes wA).
  { intros q Hq. apply elem_of_all_nodes. unfold in_grid. by rewrite A1, A2. }
  assert (Cn : ∀ q, in_grid w q →
                    node wC q = mkNode (if decide (q = (0, 0)) then WHITE else GREY) true Inf
                                       (h_score (node w q)) None).
  { intros q Hq. unfold wC. rewrite reset_node.
    assert (Hb : node wB q = paint GREY (node wA q)).
    { rewrite Bn, bool_decide_eq_true_2; [done | by apply HgA]. }
    destruct (decide ((0, 0) = q)) as [<-|Hne].
    - rewrite decide_True by done. rewrite Hb, An by done. done.
    - rewrite decide_False by done. rewrite Hb, An by done. done. }
  assert (H0 : in_grid w (0, 0)) by (split; simpl; lia).
  assert (Hwhite : ∀ p, normal wC p → p = (0, 0)).
  { intros p [Hp Hn]. apply Hg in Hp. unfold is_normal in Hn. rewrite Cn in Hn by done.
    simpl in Hn. destruct (decide (p = (0, 0))); [done|].
    by apply bool_decide_eq_true in Hn. }
  assert (Hn0 : normal wC (0, 0)).
  { split; [by apply Hg|]. unfold is_normal. rewrite Cn by done. done. }
  split; [|done].
  split_and!.
  - unfold wC. rewrite reset_START. by destruct (is_start _ _).
  - unfold wC. rewrite reset_END. by destruct (_ && _).
  - done.
  - intros p Hp. apply Hg in Hp. rewrite Cn by done. simpl.
    destruct (decide (p = (0, 0))); [by left | by right].
  - intros p Hp. apply Hg in Hp. by rewrite Cn.
  - intros p ->%list_elem_of_singleton. split; [done|]. by split.
  - intros p Hp. rewrite (Hwhite p Hp). constructor.
  - intros p Hp. rewrite (Hwhite p Hp). split; simpl; intros H; by vm_compute in H.
  - intros p q Hp _ Hps. rewrite (Hwhite p Hp) in Hps. exfalso. apply Hps. left.
Qed.

Lemma all_nodes_length w :
  length (all_nodes w) = (Z.to_nat (ROWS w) * Z.to_nat (COLUMNS w))%nat.
Proof.
  unfold all_nodes. rewrite <- (length_seqZ 0 (ROWS w)), <- (length_seqZ 0 (COLUMNS w)).
  generalize (seqZ 0 (ROWS w)) as rs. generalize (seqZ 0 (COLUMNS w)) as cs.
  intros cs rs. induction rs as [|r rs IH]; [done|].
  rewrite bind_cons, length_app, IH. simpl. f_equal.
  clear. induction cs as [|c cs IH]; [done|].
  rewrite bind_cons, length_app, IH. done.
Qed.

Lemma walls_left_bound w :
  (walls_left w ≤ Z.to_nat (ROWS w) * Z.to_nat (COLUMNS w))%nat.
Proof. unfold walls_left. rewrite <- all_nodes_length. apply length_filter. Qed.

(** Once the stack is empty, every cell with two even coordinates is
    white. *)
Lemma maze_inv_even_cells w :
  maze_inv w [] → ∀ p, in_grid w p → even2 p → is_normal w p = true.
Proof.
  intros (I1 & I2 & I3 & I4 & I5 & I6 & I7 & I8 & I9).
  assert (H : ∀ n : nat, ∀ p, in_grid w p → even2 p → (Z.to_nat (p.1 + p.2) ≤ n)%nat →
                              is_normal w p = true).
  { induction n as [|n IH]; intros [r c] [Hr Hc] [Er Ec] Hn; simpl in *.
    - assert (r = 0 ∧ c = 0) as [-> ->] by lia. apply I3.
    - destruct (decide (2 ≤ r)) as [H2|H2].
      + apply (I9 (r - 2, c) (r, c)).
        * split; [split; simpl; lia|].
          apply IH; [split; simpl; lia | split; simpl; zlia | simpl; lia].
        * split; simpl; zlia.
        * apply not_elem_of_nil.
        * split; simpl; lia.
        * left. simpl. lia.
      + assert (r = 0) as -> by zlia.
        destruct (decide (2 ≤ c)) as [H3|H3].
        * apply (I9 (0, c - 2) (0, c)).
          -- split; [split; simpl; lia|].
             apply IH; [split; simpl; lia | split; simpl; zlia | simpl; lia].
          -- split; simpl; zlia.
          -- apply not_elem_of_nil.
          -- split; simpl; lia.
          -- right. simpl. lia.
        * assert (c = 0) as -> by zlia. apply I3. }
  intros p Hp He. by apply (H (Z.to_nat (p.1 + p.2))).
Qed.

(** The cell [nodes[ROWS-1][COLUMNS-2]]; with a single column the index
    [-1] counts from the end of the row and gives column 0. *)
Definition maze_end_cell (w : World) : pos := (ROWS w - 1, Z.max 0 (COLUMNS w - 2)).

Lemma nodes_at_end_cell w :
  1 ≤ ROWS w → 1 ≤ COLUMNS w →
  nodes_at w (ROWS w - 1) (COLUMNS w - 2) = Some (maze_end_cell w).
Proof.
  intros HR HC. unfold maze_end_cell.
  destruct (decide (2 ≤ COLUMNS w)) as [H2|H2].
  - rewrite Z.max_r by lia. apply nodes_at_in_grid. split; simpl; lia.
  - assert (E : COLUMNS w = 1) by lia. unfold nodes_at. rewrite E.
    rewrite (py_index_in_range (ROWS w) (ROWS w - 1)) by lia.
    change (py_index 1 (1 - 2)) with (Some 0). change (Z.max 0 (1 - 2)) with 0. done.
Qed.

(** The last two statements of [generate_maze]. *)
Definition maze_finish (w : World) : World :=
  make_end (maze_end_cell w) (make_start (0, 0) w).

(** The walls that [generate_maze] builds change nothing but nodes. *)
Lemma foldl_make_obstacle_globals l w :
  let w' := foldl (λ w p, make_obstacle p w) w l in
  ROWS w' = ROWS w ∧ COLUMNS w' = COLUMNS w ∧ SHOW_MAZE_ANIM w' = SHOW_MAZE_ANIM w.
Proof.
  revert w. induction l as [|x l IH]; intros w; [done|]. cbn [foldl].
  destruct (IH (make_obstacle x w)) as (-> & -> & ->).
  unfold make_obstacle. by destruct (_ && _).
Qed.

Lemma maze_walls_globals w :
  let w' := foldl (λ w p, make_obstacle p w) (reset_grid 0 w).2
                  (all_nodes (reset_grid 0 w).2) in
  ROWS w' = ROWS w ∧ COLUMNS w' = COLUMNS w ∧ SHOW_MAZE_ANIM w' = SHOW_MAZE_ANIM w.
Proof.
  intros w'.
  destruct (foldl_make_obstacle_globals (all_nodes (reset_grid 0 w).2) (reset_grid 0 w).2)
    as (D1 & D2 & D3).
  fold w' in D1, D2, D3. rewrite D1, D2, D3.
  unfold reset_grid. cbn [Z.eqb snd].
  destruct (foldl_reset_dims (all_nodes w) w) as (R1 & R2 & _ & R4 & _).
  by rewrite R1, R2, R4.
Qed.

Lemma generate_maze_origin w :
  1 ≤ ROWS w → 1 ≤ COLUMNS w →
  nodes_at (foldl (λ w p, make_obstacle p w) (reset_grid 0 w).2
                  (all_nodes (reset_grid 0 w).2)) 0 0 = Some (0, 0).
Proof.
  intros HR HC. apply nodes_at_in_grid.
  destruct (maze_walls_globals w) as (D1 & D2 & _).
  split; cbn [fst snd]; lia.
Qed.

Lemma maze_start_SHOW w : SHOW_MAZE_ANIM (maze_start w) = SHOW_MAZE_ANIM w.
Proof.
  unfold maze_start.
  destruct (reset_dims (0, 0) (foldl (λ w p, make_obstacle p w) (reset_grid 0 w).2
                                     (all_nodes (reset_grid 0 w).2)))
    as (_ & _ & _ & -> & _).
  by destruct (maze_walls_globals w) as (_ & _ & ->).
Qed.

(** However [generate_maze] ends on a grid with at least one cell, it
    has raised the [SystemExit] of a [QUIT] event, or it has run its
    last two statements on a state that satisfies the invariant of the
    loop with an empty stack. *)
Lemma generate_maze_result fuel rng inputs w r w' :
  distinct_ends w → ends_in_grid w → 1 ≤ ROWS w → 1 ≤ COLUMNS w →
  generate_maze fuel rng inputs w = Some (r, w') →
  (r = Raise SystemExit ∧ ¬ no_quit inputs ∧ SHOW_MAZE_ANIM w = true)
  ∨ (r = Ok tt
     ∧ ∃ wM, w' = maze_finish wM ∧ maze_inv wM []
             ∧ ROWS wM = ROWS w ∧ COLUMNS wM = COLUMNS w ∧ ALG wM = ALG w).
Proof.
  intros Hd He HR HC.
  destruct (maze_start_inv w Hd He HR HC) as (Hinv & SR & SC & SA).
  unfold generate_maze. rewrite (generate_maze_origin w HR HC). fold (maze_start w).
  destruct (maze_loop fuel rng inputs [(0, 0)] (maze_start w)) as [[r1 wM]|] eqn:E; [|done].
  pose proof (maze_loop_partial _ _ _ _ _ _ _ Hinv E) as Hr.
  destruct r1 as [[]|e].
  - destruct Hr as (HM & MR & MC & MA).
    assert (En : nodes_at (make_start (0, 0) wM) (ROWS (make_start (0, 0) wM) - 1)
                          (COLUMNS (make_start (0, 0) wM) - 2)
                 = Some (maze_end_cell wM)).
    { assert (D : ROWS (make_start (0, 0) wM) = ROWS wM
                  ∧ COLUMNS (make_start (0, 0) wM) = COLUMNS wM).
      { unfold make_start. by destruct (negb _). }
      destruct D as [D1 D2]. unfold nodes_at. rewrite D1, D2.
      apply nodes_at_end_cell; lia. }
    rewrite En. intros [= <- <-]. right. split; [done|].
    exists wM. split_and!; try done; congruence.
  - intros [= <- <-]. left. destruct Hr as (-> & Hr & Hs). rewrite maze_start_SHOW in Hs.
    done.
Qed.

(** The cell is in the grid and no obstacle. *)
Definition passable (w : World) (p : pos) : Prop :=
  in_grid w p ∧ is_obstacle w p = false.

(** The colours after the last two statements. *)
Lemma maze_finish_spec wM :
  maze_inv wM [] → 1 ≤ ROWS wM → 1 ≤ COLUMNS wM →
  let w' := maze_finish wM in
  let e := maze_end_cell wM in
  ROWS w' = ROWS wM ∧ COLUMNS w' = COLUMNS wM ∧ ALG w' = ALG wM
  ∧ START w' = Some (0, 0)
  ∧ END w' = (if decide (e = (0, 0)) then None else Some e)
  ∧ in_grid wM e
  ∧ (∀ q, color (node w' q)
          = if decide (q = (0, 0)) then BLUE
            else if decide (q = e) then CYAN
            else color (node wM q))
  ∧ (∀ q, g_score (node w' q) = g_score (node wM q)
          ∧ parent_node (node w' q) = parent_node (node wM q)
          ∧ h_score (node w' q) = h_score (node wM q)).
Proof.
  intros (I1 & I2 & I3 & _) HR HC w' e.
  assert (Heg : in_grid wM e).
  { unfold e, maze_end_cell. split; cbn [fst snd]; lia. }
  unfold w', maze_finish. fold e.
  assert (ES : make_start (0, 0) wM
               = with_START (Some (0, 0)) (set_node (0, 0) (paint BLUE) wM)).
  { unfold make_start. by rewrite (is_end_None _ _ I2). }
  rewrite ES.
  set (wS := with_START (Some (0, 0)) (set_node (0, 0) (paint BLUE) wM)).
  assert (HnS : ∀ q, node wS q = if decide ((0, 0) = q) then paint BLUE (node wM (0, 0))
                                 else node wM q).
  { intros q. unfold wS. apply (node_set_node (0, 0) (paint BLUE) wM q). }
  assert (HS : START wS = Some (0, 0)) by reflexivity.
  assert (HE : END wS = None) by exact I2.
  assert (HD : ROWS wS = ROWS wM ∧ COLUMNS wS = COLUMNS wM ∧ ALG wS = ALG wM)
    by (split_and!; reflexivity).
  destruct HD as (D1 & D2 & D3).
  unfold make_end, is_start. rewrite HS.
  destruct (decide (e = (0, 0))) as [E0|E0].
  - rewrite E0, bool_decide_eq_true_2 by reflexivity. cbn [negb].
    split_and!; [done|done|done|done|done|by rewrite <- E0| |].
    + intros q. rewrite HnS. destruct (decide (q = (0, 0))) as [->|Hne].
      * by rewrite decide_True.
      * by rewrite decide_False.
    + intros q. rewrite HnS. by destruct (decide ((0, 0) = q)) as [<-|].
  - rewrite bool_decide_eq_false_2 by congruence. cbn [negb].
    set (wF := with_END (Some e) (set_node e (paint CYAN) wS)).
    assert (HnF : ∀ q, node wF q = if decide (e = q) then paint CYAN (node wS e)
                                   else node wS q).
    { intros q. unfold wF. apply (node_set_node e (paint CYAN) wS q). }
    split_and!; [exact D1 | exact D2 | exact D3 | exact HS | reflexivity | exact Heg | |].
    + intros q. rewrite HnF. destruct (decide (q = (0, 0))) as [->|Hne0].
      * rewrite decide_False by done. rewrite HnS. by rewrite decide_True.
      * destruct (decide (q = e)) as [->|Hne].
        -- by rewrite decide_True.
        -- rewrite decide_False by done. rewrite HnS. by rewrite decide_False.
    + intros q. rewrite HnF. destruct (decide (e = q)) as [<-|Hne].
      * cbn [paint g_score parent_node h_score]. rewrite HnS.
        by destruct (decide ((0, 0) = e)) as [<-|].
      * rewrite HnS. by destruct (decide ((0, 0) = q)) as [<-|].
Qed.

(** ** The maze generator as a whole *)

(** On a grid with at least one cell [generate_maze] ends within
    [2 * ROWS * COLUMNS + 1] rounds of its loop.  It returns normally
    or raises [SystemExit]; it returns normally when no poll brings a
    [QUIT] event, and always when the animation is off at the call. *)
Theorem generate_maze_terminates (w : World) (fuel : nat) (rng : list nat)
    (inputs : list (list Event)) :
  distinct_ends w → ends_in_grid w → 1 ≤ ROWS w → 1 ≤ COLUMNS w →
  (2 * (Z.to_nat (ROWS w) * Z.to_nat (COLUMNS w)) + 1 < fuel)%nat →
  ∃ r w', generate_maze fuel rng inputs w = Some (r, w')
          ∧ (r = Ok tt ∨ r = Raise SystemExit)
          ∧ (no_quit inputs ∨ SHOW_MAZE_ANIM w = false → r = Ok tt).
Proof.
  intros Hd He HR HC Hf.
  destruct (maze_start_inv w Hd He HR HC) as (Hinv & SR & SC & SA).
  assert (Hm : (2 * walls_left (maze_start w) + length [(0, 0)] < fuel)%nat).
  { pose proof (walls_left_bound (maze_start w)) as Hb. rewrite SR, SC in Hb.
    cbn [length]. lia. }
  destruct (maze_loop_terminates fuel rng inputs [(0, 0)] (maze_start w) Hinv Hm)
    as [[r1 wM] E].
  assert (E' : ∃ r w', generate_maze fuel rng inputs w = Some (r, w')).
  { unfold generate_maze. rewrite (generate_maze_origin w HR HC). fold (maze_start w).
    rewrite E. destruct r1 as [[]|e]; [|by eauto].
    destruct (nodes_at _ _ _); by eauto. }
  destruct E' as (r & w' & E'). exists r, w'. split; [exact E'|].
  destruct (generate_maze_result fuel rng inputs w r w' Hd He HR HC E')
    as [(-> & Hq & Hs)|(-> & _)].
  - split; [by right|]. intros [Hq'|Hs']; [done | congruence].
  - split; [by left | done].
Qed.

(** The theorem for a 3 × 4 grid, 40 rounds of fuel and no input. *)
Lemma generate_maze_terminates_witness :
  ∃ r w', generate_maze 40 [1; 0; 2]%nat [] (create_nodes 3 4 A_STAR) = Some (r, w')
          ∧ (r = Ok tt ∨ r = Raise SystemExit)
          ∧ (no_quit [] ∨ SHOW_MAZE_ANIM (create_nodes 3 4 A_STAR) = false → r = Ok tt).
Proof.
  apply (generate_maze_terminates (create_nodes 3 4 A_STAR) 40 [1; 0; 2]%nat []).
  - intros p Hp. vm_compute in Hp. discriminate Hp.
  - split; intros p Hp; vm_compute in Hp; discriminate Hp.
  - vm_compute. discriminate.
  - vm_compute. discriminate.
  - vm_compute. lia.
Defined.

Lemma py_index_empty len i : len ≤ 0 → py_index len i = None.
Proof.
  intros H. unfold py_index.
  destruct (Z.leb_spec 0 i), (Z.ltb_spec i len), (Z.leb_spec (- len) i), (Z.ltb_spec i 0);
    simpl; try done; lia.
Qed.

(** On a grid without rows or without columns [generate_maze] raises
    the [IndexError] of [nodes[0][0]]. *)
Theorem generate_maze_empty_grid (w : World) (fuel : nat) (rng : list nat)
    (inputs : list (list Event)) :
  ROWS w ≤ 0 ∨ COLUMNS w ≤ 0 →
  ∃ w', generate_maze fuel rng inputs w = Some (Raise IndexError, w').
Proof.
  intros H. unfold generate_maze.
  destruct (maze_walls_globals w) as (D1 & D2 & _).
  set (wB := foldl _ (reset_grid 0 w).2 _) in *.
  assert (E : nodes_at wB 0 0 = None).
  { unfold nodes_at. rewrite D1, D2.
    destruct (decide (ROWS w ≤ 0)) as [HR|HR].
    - by rewrite (py_index_empty (ROWS w) 0 HR).
    - rewrite (py_index_empty (COLUMNS w) 0) by lia. by destruct (py_index _ _). }
  rewrite E. by eexists.
Qed.

Lemma generate_maze_empty_grid_witness :
  ∃ w', generate_maze 5 [] [] (create_nodes 3 0 A_STAR) = Some (Raise IndexError, w').
Proof.
  apply (generate_maze_empty_grid (create_nodes 3 0 A_STAR) 5 [] []).
  right. vm_compute. discriminate.
Defined.

(** A small maze: what [generate_maze] leaves on a 3 × 4 grid for the
    draws 1, 0, 2 and then 0. *)
Definition maze_demo : World :=
  match generate_maze 40 [1; 0; 2]%nat [] (create_nodes 3 4 A_STAR) with
  | Some (_, w) => w
  | None => create_nodes 3 4 A_STAR
  end.

Local Ltac demo_grid_hyps :=
  [> intros ? Hp; vm_compute in Hp; discriminate Hp
   | split; intros ? Hp; vm_compute in Hp; discriminate Hp
   | vm_compute; discriminate
   | vm_compute; discriminate
   | vm_compute; reflexivity ].

(** When [generate_maze] returns, the grid has its size and algorithm
    of before, Start is the blue cell [(0, 0)], and End is the cyan
    cell [nodes[ROWS-1][COLUMNS-2]], in a single column the cell
    [(ROWS-1, 0)] that the index [-1] selects.  Where that cell is
    [(0, 0)] itself, on a grid of one row and one or two columns, the
    generator leaves End unset. *)
Theorem generate_maze_ends (w : World) (fuel : nat) (rng : list nat)
    (inputs : list (list Event)) (w' : World) :
  distinct_ends w → ends_in_grid w → 1 ≤ ROWS w → 1 ≤ COLUMNS w →
  generate_maze fuel rng inputs w = Some (Ok tt, w') →
  let e := (ROWS w - 1, Z.max 0 (COLUMNS w - 2)) in
  ROWS w' = ROWS w ∧ COLUMNS w' = COLUMNS w ∧ ALG w' = ALG w
  ∧ START w' = Some (0, 0) ∧ color (node w' (0, 0)) = BLUE
  ∧ in_grid w' e
  ∧ (e ≠ (0, 0) → END w' = Some e ∧ color (node w' e) = CYAN)
  ∧ (e = (0, 0) → END w' = None).
Proof.
  intros Hd He HR HC E e.
  destruct (generate_maze_result fuel rng inputs w (Ok tt) w' Hd He HR HC E)
    as [(? & _)|(_ & wM & -> & HM & MR & MC & MA)]; [done|].
  destruct (maze_finish_spec wM HM) as (F1 & F2 & F3 & F4 & F5 & F6 & F7 & _); [lia | lia |].
  assert (Ee : maze_end_cell wM = e).
  { unfold maze_end_cell, e. by rewrite MR, MC. }
  rewrite Ee in F5, F6, F7.
  split_and!; try congruence.
  - rewrite F7. by rewrite decide_True.
  - unfold in_grid. rewrite F1, F2. exact F6.
  - intros Hne. rewrite decide_False in F5 by done. split; [done|].
    rewrite F7. rewrite decide_False by done. by rewrite decide_True.
  - intros He0. by rewrite decide_True in F5.
Qed.

Lemma generate_maze_ends_witness :
  let w := create_nodes 3 4 A_STAR in
  let e := (ROWS w - 1, Z.max 0 (COLUMNS w - 2)) in
  ROWS maze_demo = ROWS w ∧ COLUMNS maze_demo = COLUMNS w ∧ ALG maze_demo = ALG w
  ∧ START maze_demo = Some (0, 0) ∧ color (node maze_demo (0, 0)) = BLUE
  ∧ in_grid maze_demo e
  ∧ (e ≠ (0, 0) → END maze_demo = Some e ∧ color (node maze_demo e) = CYAN)
  ∧ (e = (0, 0) → END maze_demo = None).
Proof.
  apply (generate_maze_ends (create_nodes 3 4 A_STAR) 40 [1; 0; 2]%nat [] maze_demo);
    demo_grid_hyps.
Defined.

(** The cells of a generated maze.  Every cell of the grid is ready for
    a search: its [g_score] is infinite and it has no parent.  Start is
    blue, End cyan, every other cell white or an obstacle.  The cells
    at two even coordinates are no obstacles.  A cell other than End
    that is no obstacle lies where the generator carves: not at two odd
    coordinates, and at an odd coordinate only strictly between two
    rows or two columns of the grid. *)
Theorem generate_maze_cells (w : World) (fuel : nat) (rng : list nat)
    (inputs : list (list Event)) (w' : World) :
  distinct_ends w → ends_in_grid w → 1 ≤ ROWS w → 1 ≤ COLUMNS w →
  generate_maze fuel rng inputs w = Some (Ok tt, w') →
  ∀ p, in_grid w' p →
    g_score (node w' p) = Inf ∧ parent_node (node w' p) = None
    ∧ (color (node w' p) = BLUE ↔ START w' = Some p)
    ∧ (END w' = Some p → color (node w' p) = CYAN)
    ∧ (START w' ≠ Some p → END w' ≠ Some p →
       color (node w' p) = WHITE ∨ color (node w' p) = GREY)
    ∧ (even2 p → is_obstacle w' p = false)
    ∧ (is_obstacle w' p = false → END w' ≠ Some p → carvable w' p).
Proof.
  intros Hd He HR HC E p Hp.
  destruct (generate_maze_result fuel rng inputs w (Ok tt) w' Hd He HR HC E)
    as [(? & _)|(_ & wM & -> & HM & MR & MC & MA)]; [done|].
  destruct (maze_finish_spec wM HM) as (F1 & F2 & F3 & F4 & F5 & F6 & F7 & F8); [lia | lia |].
  pose proof (maze_inv_even_cells wM HM) as Hev.
  destruct HM as (I1 & I2 & I3 & I4 & I5 & I6 & I7 & I8 & I9).
  set (e := maze_end_cell wM) in *.
  assert (HpM : in_grid wM p).
  { unfold in_grid in *. by rewrite F1, F2 in Hp. }
  destruct (F8 p) as (G1 & G2 & _). destruct (I5 p HpM) as [G3 G4].
  assert (HcM : color (node wM p) = WHITE ∨ color (node wM p) = GREY) by (by apply I4).
  assert (HE : END (maze_finish wM) = Some p → p = e ∧ e ≠ (0, 0)).
  { rewrite F5. destruct (decide (e = (0, 0))); [done|]. intros [= <-]. done. }
  split_and!.
  - congruence.
  - congruence.
  - rewrite F4, F7. destruct (decide (p = (0, 0))) as [->|Hne]; [done|].
    split; [|congruence].
    destruct (decide (p = e)); [done|]. destruct HcM as [-> | ->]; done.
  - intros [-> Hne]%HE. rewrite F7. rewrite decide_False by done. by rewrite decide_True.
  - rewrite F4, F5, F7. intros Hs Hen.
    rewrite decide_False by congruence.
    destruct (decide (p = e)) as [->|Hne]; [|done].
    destruct (decide (e = (0, 0))); congruence.
  - intros Hp2. unfold is_obstacle. rewrite F7.
    destruct (decide (p = (0, 0))); [done|]. destruct (decide (p = e)); [done|].
    specialize (Hev p HpM Hp2). unfold is_normal in Hev.
    apply bool_decide_eq_true in Hev. rewrite Hev. done.
  - unfold is_obstacle. rewrite F5, F7. intros Ho Hen.
    assert (Hc : carvable wM p).
    { apply I8. destruct (decide (p = (0, 0))) as [->|Hne0]; [done|].
      split; [done|]. unfold is_normal.
      destruct (decide (p = e)) as [->|Hne].
      - destruct (decide (e = (0, 0))); congruence.
      - apply bool_decide_eq_false in Ho. destruct HcM as [Hw|Hg]; [|done].
        by rewrite Hw. }
    unfold carvable in *. by rewrite F1, F2.
Qed.

(** The theorem for the cell [(0, 1)] of the small maze. *)
Lemma generate_maze_cells_witness :
  let p := (0, 1) in
  g_score (node maze_demo p) = Inf ∧ parent_node (node maze_demo p) = None
  ∧ (color (node maze_demo p) = BLUE ↔ START maze_demo = Some p)
  ∧ (END maze_demo = Some p → color (node maze_demo p) = CYAN)
  ∧ (START maze_demo ≠ Some p → END maze_demo ≠ Some p →
     color (node maze_demo p) = WHITE ∨ color (node maze_demo p) = GREY)
  ∧ (even2 p → is_obstacle maze_demo p = false)
  ∧ (is_obstacle maze_demo p = false → END maze_demo ≠ Some p → carvable maze_demo p).
Proof.
  intros p.
  apply (generate_maze_cells (create_nodes 3 4 A_STAR) 40 [1; 0; 2]%nat [] maze_demo).
  6:{ split; vm_compute; split; congruence. }
  all: demo_grid_hyps.
Defined.

(** The passages after the last two statements of the generator hang
    together. *)
Lemma maze_finish_connected wM :
  maze_inv wM [] → 1 ≤ ROWS wM → 1 ≤ COLUMNS wM →
  let w' := maze_finish wM in
  (∀ p, passable w' p → END w' ≠ Some p ∨ p.1 mod 2 = 0 ∨ p.2 mod 2 = 0 →
        route (passable w') (0, 0) p)
  ∧ (ROWS wM mod 2 = 1 ∨ COLUMNS wM mod 2 = 0 ∨ COLUMNS wM = 1 →
     ∀ e, END w' = Some e → route (passable w') (0, 0) e).
Proof.
  intros HM HR HC w'.
  destruct (maze_finish_spec wM HM) as (F1 & F2 & F3 & F4 & F5 & F6 & F7 & F8); [lia | lia |].
  pose proof (maze_inv_even_cells wM HM) as Hev.
  destruct HM as (I1 & I2 & I3 & I4 & I5 & I6 & I7 & I8 & I9).
  set (e := maze_end_cell wM) in *. fold w' in F1, F2, F3, F4, F5, F7, F8.
  assert (Hg : ∀ q, in_grid w' q ↔ in_grid wM q).
  { intros q. unfold in_grid. by rewrite F1, F2. }
  assert (Hnp : ∀ q, normal wM q → passable w' q).
  { intros q [Hq Hn]. split; [by apply Hg|]. unfold is_obstacle. rewrite F7.
    destruct (decide (q = (0, 0))); [done|]. destruct (decide (q = e)); [done|].
    unfold is_normal in Hn. apply bool_decide_eq_true in Hn. by rewrite Hn. }
  assert (Hnr : ∀ q, normal wM q → route (passable w') (0, 0) q).
  { intros q Hq. eapply route_mono; [apply Hnp | by apply I7]. }
  assert (Hpn : ∀ q, passable w' q → q ≠ e → normal wM q).
  { intros q [Hq Ho] Hne. destruct (decide (q = (0, 0))) as [->|Hne0]; [done|].
    apply Hg in Hq. split; [done|]. unfold is_normal, is_obstacle in *.
    rewrite F7 in Ho. rewrite decide_False in Ho by done. rewrite decide_False in Ho by done.
    apply bool_decide_eq_false in Ho. destruct (I4 q Hq) as [Hw|Hgr]; [|done].
    by rewrite Hw. }
  assert (Hend : ∀ q, passable w' q → q = e → q.1 mod 2 = 0 ∨ q.2 mod 2 = 0 →
                      route (passable w') (0, 0) q).
  { intros q Hq -> Hpar.
    destruct (decide (e.1 mod 2 = 0)) as [H1|H1]; destruct (decide (e.2 mod 2 = 0)) as [H2|H2].
    - apply Hnr. split; [exact F6|]. by apply Hev.
    - assert (Hn : normal wM (e.1, e.2 - 1)).
      { assert (Hin : in_grid wM (e.1, e.2 - 1)).
        { destruct F6 as [G1 G2]. split; cbn [fst snd]; [done|]. zlia. }
        split; [done|]. apply Hev; [done|]. split; cbn [fst snd]; [done|]. zlia. }
      eapply route_step; [apply (Hnr _ Hn) | | done].
      unfold adjacent4. cbn [fst snd]. lia.
    - assert (Hn : normal wM (e.1 - 1, e.2)).
      { assert (Hin : in_grid wM (e.1 - 1, e.2)).
        { destruct F6 as [G1 G2]. split; cbn [fst snd]; [|done]. zlia. }
        split; [done|]. apply Hev; [done|]. split; cbn [fst snd]; [|done]. zlia. }
      eapply route_step; [apply (Hnr _ Hn) | | done].
      unfold adjacent4. cbn [fst snd]. lia.
    - destruct Hpar; done. }
  assert (HE : ∀ q, END w' = Some q → q = e).
  { intros q. rewrite F5. destruct (decide (e = (0, 0))); [done|]. by intros [= <-]. }
  split.
  - intros p Hp Hor. destruct (decide (p = e)) as [Hpe|Hpe].
    + destruct Hor as [Hne|Hpar]; [|by apply Hend].
      apply Hnr. destruct (decide (p = (0, 0))) as [->|Hne0]; [done|].
      exfalso. apply Hne. rewrite F5, Hpe. by rewrite decide_False by congruence.
    + by apply Hnr, Hpn.
  - intros Hdim q Hq. pose proof (HE q Hq) as ->.
    assert (Hpe : passable w' e).
    { split; [by apply Hg|]. unfold is_obstacle. rewrite F7.
      destruct (decide (e = (0, 0))); [done|]. by rewrite decide_True. }
    apply Hend; [done | done |].
    unfold e, maze_end_cell. cbn [fst snd].
    destruct Hdim as [Hd1|[Hd2|Hd3]].
    + left. zlia.
    + right. zlia.
    + right. rewrite Hd3. done.
Qed.

(** The passages of a generated maze hang together: every cell that is
    no obstacle, End excepted, can be reached from Start by steps
    between 4-adjacent cells that are no obstacles, and so can End when
    one of its coordinates is even.  That is the case whenever the
    number of rows is odd, the number of columns is even, or there is a
    single column. *)
Theorem generate_maze_connected (w : World) (fuel : nat) (rng : list nat)
    (inputs : list (list Event)) (w' : World) :
  distinct_ends w → ends_in_grid w → 1 ≤ ROWS w → 1 ≤ COLUMNS w →
  generate_maze fuel rng inputs w = Some (Ok tt, w') →
  (∀ p, passable w' p → END w' ≠ Some p ∨ p.1 mod 2 = 0 ∨ p.2 mod 2 = 0 →
        route (passable w') (0, 0) p)
  ∧ (ROWS w mod 2 = 1 ∨ COLUMNS w mod 2 = 0 ∨ COLUMNS w = 1 →
     ∀ e, END w' = Some e → route (passable w') (0, 0) e).
Proof.
  intros Hd He HR HC E.
  destruct (generate_maze_result fuel rng inputs w (Ok tt) w' Hd He HR HC E)
    as [(? & _)|(_ & wM & -> & HM & MR & MC & MA)]; [done|].
  destruct (maze_finish_connected wM HM) as [C1 C2]; [lia | lia |].
  split; [exact C1|]. rewrite <- MR, <- MC. exact C2.
Qed.

Lemma generate_maze_connected_witness :
  (∀ p, passable maze_demo p → END maze_demo ≠ Some p ∨ p.1 mod 2 = 0 ∨ p.2 mod 2 = 0 →
        route (passable maze_demo) (0, 0) p)
  ∧ (ROWS (create_nodes 3 4 A_STAR) mod 2 = 1 ∨ COLUMNS (create_nodes 3 4 A_STAR) mod 2 = 0
     ∨ COLUMNS (create_nodes 3 4 A_STAR) = 1 →
     ∀ e, END maze_demo = Some e → route (passable maze_demo) (0, 0) e).
Proof.
  apply (generate_maze_connected (create_nodes 3 4 A_STAR) 40 [1; 0; 2]%nat [] maze_demo);
    demo_grid_hyps.
Defined.

(** * What a search reports *)

(** ** Paths *)

(** [path] leads from [a] to [b]: its first cell is 4-adjacent to [a],
    every further cell to the one before it, its last cell is [b] (or
    it is empty and [a] is [b]), and all its cells lie in the grid and
    are no obstacles. *)
Definition is_path (w : World) (a b : pos) (path : list pos) : Prop :=
  contiguous (a :: path) ∧ last (a :: path) = Some b
  ∧ ∀ c, c ∈ path → in_grid w c ∧ is_obstacle w c = false.

Lemma contiguous_snoc l c :
  contiguous (l ++ [c]) ↔ contiguous l ∧ ∀ a, last l = Some a → adjacent4 a c.
Proof.
  induction l as [|a l IH]; [by split|].
  destruct l as [|b l].
  - simpl. split.
    + intros [H _]. split; [done|]. by intros ? [= <-].
    + intros [_ H]. split; [by apply H | done].
  - change (contiguous ((a :: b :: l) ++ [c]))
      with (adjacent4 a b ∧ contiguous ((b :: l) ++ [c])).
    change (contiguous (a :: b :: l)) with (adjacent4 a b ∧ contiguous (b :: l)).
    change (last (a :: b :: l)) with (last (b :: l)).
    rewrite IH. tauto.
Qed.

Lemma is_path_nil w a : is_path w a a [].
Proof. split_and!; [done | done |]. by intros c ?%elem_of_nil. Qed.

Lemma is_path_snoc w a b c path :
  is_path w a b path → adjacent4 b c → in_grid w c → is_obstacle w c = false →
  is_path w a c (path ++ [c]).
Proof.
  intros (H1 & H2 & H3) Hadj Hc Ho. split_and!.
  - change (a :: path ++ [c]) with ((a :: path) ++ [c]). apply contiguous_snoc.
    split; [done|]. intros x Hx. congruence.
  - change (a :: path ++ [c]) with ((a :: path) ++ [c]). by rewrite last_snoc.
  - intros x [Hx|Hx]%elem_of_app; [by apply H3|].
    apply list_elem_of_singleton in Hx as ->. done.
Qed.

(** The two ways of saying that [b] can be reached from [a]. *)
Lemma route_is_path w a b : route (passable w) a b ↔ ∃ path, is_path w a b path.
Proof.
  split.
  - induction 1 as [|q r _ [path IH] Hadj [Hr Ho]].
    + exists []. apply is_path_nil.
    + exists (path ++ [r]). by eapply is_path_snoc.
  - intros [path Hp]. revert b Hp. induction path as [|c path IH] using rev_ind; intros b.
    + intros (_ & H & _). injection H as <-. constructor.
    + intros (H1 & H2 & H3).
      change (a :: path ++ [c]) with ((a :: path) ++ [c]) in H1, H2.
      rewrite last_snoc in H2. injection H2 as <-.
      apply contiguous_snoc in H1 as [H1 Hadj].
      destruct (last (a :: path)) as [b'|] eqn:El.
      2:{ by apply last_None in El. }
      eapply route_step.
      * apply (IH b'). split_and!; [done | done |].
        intros x Hx. apply H3. apply elem_of_app. by left.
      * by apply Hadj.
      * apply H3. apply elem_of_app. right. by apply list_elem_of_singleton.
Qed.

(** ** A reported path exists *)

(** In a state of the search every reached cell of the grid is joined
    to Start by a path that is no longer than its cost. *)
Lemma world_inv_path st w :
  world_inv st w →
  ∀ (n : nat) c g, in_grid w c → g_score (node w c) = Fin g → 0 ≤ g → g ≤ Z.of_nat n →
    ∃ path, is_path w st c path ∧ Z.of_nat (length path) ≤ g.
Proof.
  intros (I1 & I2 & I3 & I4 & I5 & I6 & I7).
  induction n as [|n IH]; intros c g Hc Hg H0 Hn.
  - destruct (decide (c = st)) as [->|Hne].
    { exists []. split; [apply is_path_nil | simpl; lia]. }
    destruct (parent_node (node w c)) as [p|] eqn:Hp.
    + destruct (I6 c p Hc Hp) as (_ & _ & _ & _ & gp & gc & _ & E2 & E3 & E4).
      rewrite Hg in E2. injection E2 as <-. lia.
    + rewrite (I7 c Hc Hne Hp) in Hg. done.
  - destruct (decide (c = st)) as [->|Hne].
    { exists []. split; [apply is_path_nil | simpl; lia]. }
    destruct (parent_node (node w c)) as [p|] eqn:Hp.
    + destruct (I6 c p Hc Hp) as (Hpg & Hadj & Hoc & _ & gp & gc & E1 & E2 & E3 & E4).
      rewrite Hg in E2. injection E2 as <-.
      destruct (IH p gp Hpg E1 E3) as (path & Hpath & Hlen); [lia|].
      exists (path ++ [c]). split; [by eapply is_path_snoc|].
      rewrite length_app. simpl. lia.
    + rewrite (I7 c Hc Hne Hp) in Hg. done.
Qed.

(** [w'] has the grid of [w]: its size, its Start and End, and its
    obstacles. *)
Definition same_grid (w w' : World) : Prop :=
  ROWS w' = ROWS w ∧ COLUMNS w' = COLUMNS w
  ∧ START w' = START w ∧ END w' = END w ∧ ALG w' = ALG w
  ∧ ∀ q, is_obstacle w' q = is_obstacle w q.

Lemma same_grid_refl w : same_grid w w.
Proof. by split_and!. Qed.

Lemma same_grid_trans w1 w2 w3 : same_grid w1 w2 → same_grid w2 w3 → same_grid w1 w3.
Proof.
  intros (A1 & A2 & A3 & A4 & A5 & A6) (B1 & B2 & B3 & B4 & B5 & B6).
  split_and!; congruence.
Qed.

Lemma same_grid_in_grid w w' q : same_grid w w' → in_grid w' q ↔ in_grid w q.
Proof. intros (H1 & H2 & _). unfold in_grid. by rewrite H1, H2. Qed.

Lemma same_grid_is_path w w' a b path :
  same_grid w w' → is_path w' a b path → is_path w a b path.
Proof.
  intros Hg (H1 & H2 & H3). split_and!; [done | done |].
  intros c Hc. destruct (H3 c Hc) as [Hi Ho]. split.
  - by apply (same_grid_in_grid w w').
  - destruct Hg as (_ & _ & _ & _ & _ & Hq). by rewrite <- Hq.
Qed.

Lemma obst_eq_same_grid w w' : obst_eq w w' → same_grid w w'.
Proof.
  intros (H1 & H2 & H3 & H4 & H5 & Hq). split_and!; try done. intros q. apply Hq.
Qed.

Lemma relax_same_grid current s nb : same_grid (world s) (world (relax current s nb)).
Proof.
  destruct (relax_spec current s nb)
    as [->|(Ho & _ & G & Hq & _ & _ & _ & Hcol & _)]; [apply same_grid_refl|].
  destruct G as (G1 & G2 & G3 & G4 & G5 & _).
  split_and!; try done. intros q. destruct (decide (q = nb)) as [->|Hne].
  - rewrite Ho. unfold is_obstacle in *. apply bool_decide_eq_false.
    apply bool_decide_eq_false in Ho. destruct Hcol as [-> | ->]; done.
  - unfold is_obstacle. by rewrite Hq.
Qed.

Lemma foldl_relax_same_grid current nbs s :
  same_grid (world s) (world (foldl (relax current) s nbs)).
Proof.
  apply (foldl_relax_ind (λ s1, same_grid (world s) (world s1))).
  - apply same_grid_refl.
  - intros s1 nb _ H. eapply same_grid_trans; [exact H | apply relax_same_grid].
Qed.

(** The cell that an iteration marks as visited comes from the queue,
    so it is no obstacle. *)
Lemma iter_relax_visited st s w1 e0 q0 m q :
  search_inv st s → active s = e0 :: q0 → core_eq (world s) w1 →
  extract_min e0 q0 = (m, q) →
  obst_eq (world s) (make_visited (e_node m) w1).
Proof.
  intros [Hw Hk] Ha Hc Hm. apply core_eq_obst_eq in Hc.
  destruct (extract_min_spec _ _ _ _ Hm) as (Hin & _).
  rewrite <- Ha in Hin. destruct (Hk m Hin) as (K1 & K2 & K3).
  destruct Hc as (C1 & C2 & C3 & C4 & C5 & Cq).
  assert (Ho : is_obstacle w1 (e_node m) = false).
  { destruct (Cq (e_node m)) as (-> & _). done. }
  destruct (obst_eq_make_visited (e_node m) w1 Ho) as (V1 & V2 & V3 & V4 & V5 & Vq).
  split_and!; try congruence.
  intros x. destruct (Cq x) as (? & ? & ? & ?), (Vq x) as (? & ? & ? & ?).
  split_and!; congruence.
Qed.

Lemma iter_same_grid st s s' :
  iter s s' → search_inv st s → same_grid (world s) (world s').
Proof.
  intros Hi Hinv.
  destruct Hi as [w1 Hc|w1 e0 q0 m q Ha Hc Hm He|w1 e0 q0 m q nbs Ha Hc Hm He Hnb].
  - by apply obst_eq_same_grid, core_eq_obst_eq.
  - by apply obst_eq_same_grid, core_eq_obst_eq.
  - eapply same_grid_trans; [|apply foldl_relax_same_grid].
    cbn [world]. apply obst_eq_same_grid. by eapply iter_relax_visited.
Qed.

Lemma rtc_iter_same_grid st s s' :
  rtc iter s s' → search_inv st s → same_grid (world s) (world s').
Proof.
  induction 1 as [|s1 s2 s3 H12 _ IH]; intros Hinv; [apply same_grid_refl|].
  eapply same_grid_trans; [by eapply iter_same_grid|].
  apply IH. by eapply iter_search_inv.
Qed.

Lemma search_init_same_grid w st e s0 w0 :
  START w = Some st → END w = Some e →
  search_init w = (Ok s0, w0) → same_grid w (world s0).
Proof.
  intros Hs He Hi.
  destruct (search_init_spec w st e Hs He) as (w' & E & G & Hn).
  rewrite E in Hi. injection Hi as <- <-. cbn [world].
  destruct G as (G1 & G2 & G3 & G4 & G5 & _).
  split_and!; try done. intros q. unfold is_obstacle. rewrite Hn.
  destruct (decide (st = q)); destruct (bool_decide (in_grid w q)); done.
Qed.

(** [find_path] prints a path message only after its loop dequeued
    End, and the length it prints is the cost of End at that time. *)
Lemma find_path_found fuel inputs w run len :
  find_path fuel inputs w = Some run → MsgPathFound len ∈ printed run →
  ∃ s0 w0 s1 rest,
    search_init w = (Ok s0, w0) ∧ search_loop fuel inputs s0 = (Found s1, rest)
    ∧ len = match END (world s1) with
            | Some e => g_score (node (world s1) e)
            | None => Inf
            end.
Proof.
  unfold find_path.
  destruct (search_init w) as [[s0|ex] w0]; [|by intros [= <-] ?%elem_of_nil].
  destruct (search_loop fuel inputs s0) as [[[r1 w1]|s1|s1|ex w1|] rest] eqn:El.
  - intros [= <-]. cbn [printed]. by intros ?%list_elem_of_singleton.
  - intros Hrun Hmsg. exists s0, w0, s1, rest. split; [done|]. split; [done|].
    destruct (draw_path fuel rest (world s1)) as [[[[[]|ex] w2] rest2]|]; [| |done].
    + destruct (reset_grid 1 (draw_screen w2)) as [r w3].
      injection Hrun as <-. cbn [printed] in Hmsg.
      apply list_elem_of_singleton in Hmsg. by injection Hmsg.
    + injection Hrun as <-. cbn [printed] in Hmsg.
      apply list_elem_of_singleton in Hmsg. by injection Hmsg.
  - destruct (reset_grid 1 (draw_screen (world s1))) as [r w2].
    intros [= <-]. cbn [printed]. by intros ?%list_elem_of_singleton.
  - intros [= <-]. cbn [printed]. by intros ?%elem_of_nil.
  - done.
Qed.

(** The hypotheses under which [find_path] is called: Start and End
    are set, Start is a cell of the grid and no obstacle, and no other
    cell of the grid carries a cost. *)
Definition search_ready (w : World) (st e : pos) : Prop :=
  START w = Some st ∧ END w = Some e ∧ in_grid w st ∧ is_obstacle w st = false
  ∧ ∀ q, in_grid w q → q ≠ st → g_score (node w q) = Inf.

(** The state in which the loop dequeues End. *)
Lemma search_found_state w st e fuel inputs s0 w0 s1 rest :
  search_ready w st e →
  search_init w = (Ok s0, w0) → search_loop fuel inputs s0 = (Found s1, rest) →
  world_inv st (world s1) ∧ same_grid w (world s1)
  ∧ in_grid (world s1) e ∧ reached (world s1) e.
Proof.
  intros (Hs & He & Hg & Ho & Hinf) Hi Hl.
  destruct (search_init_search_inv w st e s0 w0 Hs He Hg Ho Hinf Hi) as (Hinv0 & G0 & _).
  destruct (search_loop_found st fuel inputs s0 s1 rest Hinv0 Hl)
    as (Hr & e' & He' & Heg & Hre).
  pose proof (rtc_iter_search_inv st _ _ Hr Hinv0) as [Hw1 _].
  assert (Hsg : same_grid w (world s1)).
  { eapply same_grid_trans; [by eapply search_init_same_grid|].
    by eapply rtc_iter_same_grid. }
  assert (e' = e) as ->.
  { destruct Hsg as (_ & _ & _ & E4 & _). congruence. }
  done.
Qed.

(** In the state in which the loop dequeues End, a path leads from
    Start to End that is no longer than the cost of End. *)
Lemma found_state_path w st e fuel inputs s0 w0 s1 rest :
  search_ready w st e →
  search_init w = (Ok s0, w0) → search_loop fuel inputs s0 = (Found s1, rest) →
  ∃ g path, END (world s1) = Some e ∧ g_score (node (world s1) e) = Fin g
            ∧ is_path w st e path ∧ Z.of_nat (length path) ≤ g.
Proof.
  intros Hready Hi Hl.
  destruct (search_found_state w st e fuel inputs s0 w0 s1 rest Hready Hi Hl)
    as (Hw1 & Hsg & Heg & g & Hge & Hg0).
  assert (He1 : END (world s1) = Some e).
  { destruct Hsg as (_ & _ & _ & -> & _). by destruct Hready as (_ & ? & _). }
  destruct (world_inv_path st (world s1) Hw1 (Z.to_nat g) e g Heg Hge Hg0)
    as (path & Hpath & Hlenp); [lia|].
  exists g, path. split_and!; try done.
  by apply (same_grid_is_path w (world s1)).
Qed.

(** Whenever [find_path] prints that it found a path of some length,
    whatever the algorithm, the length is a number [g], and there is a
    path of at most [g] steps from Start to End through cells of the
    grid that are no obstacles. *)
Theorem path_found_sound (w : World) (st e : pos) (fuel : nat)
    (inputs : list (list Event)) (run : Run) (len : Num) :
  search_ready w st e →
  find_path fuel inputs w = Some run → MsgPathFound len ∈ printed run →
  ∃ g path, len = Fin g ∧ is_path w st e path ∧ Z.of_nat (length path) ≤ g.
Proof.
  intros Hready Hrun Hmsg.
  destruct (find_path_found fuel inputs w run len Hrun Hmsg)
    as (s0 & w0 & s1 & rest & Hi & Hl & Hlen).
  destruct (found_state_path w st e fuel inputs s0 w0 s1 rest Hready Hi Hl)
    as (g & path & He1 & Hge & Hpath & Hlenp).
  rewrite He1, Hge in Hlen.
  exists g, path. by split_and!.
Qed.

(** No cell of an open 5 × 5 grid carries a cost. *)
Lemma grid5_costs alg q : g_score (node (grid5 alg) q) = Inf.
Proof.
  unfold node.
  assert (Hall : map_Forall (λ _ n, g_score n = Inf) (nodes (grid5 alg))).
  { apply map_Forall_to_list. destruct alg; vm_compute; repeat constructor. }
  rewrite lookup_total_alt.
  destruct (nodes (grid5 alg) !! q) as [n|] eqn:E; simpl; [|done].
  by apply (Hall q n).
Qed.

Lemma grid5_ready alg : search_ready (grid5 alg) (0, 0) (4, 4).
Proof.
  split_and!.
  - by destruct alg.
  - by destruct alg.
  - split; vm_compute; split; congruence.
  - destruct alg; vm_compute; reflexivity.
  - intros q _ _. apply grid5_costs.
Qed.

(** The theorem for Dijkstra's search on the open 5 × 5 grid, which
    prints the length 8. *)
Lemma path_found_sound_witness :
  ∃ g path, Fin 8 = Fin g ∧ is_path (grid5 DJIKSTRA) (0, 0) (4, 4) path
            ∧ Z.of_nat (length path) ≤ g.
Proof.
  apply (path_found_sound (grid5 DJIKSTRA) (0, 0) (4, 4) 100 []
           (default (mkRun (Ok tt) [] (grid5 DJIKSTRA)) (find_path 100 [] (grid5 DJIKSTRA)))
           (Fin 8)).
  - apply grid5_ready.
  - vm_compute. reflexivity.
  - assert (E : printed (default (mkRun (Ok tt) [] (grid5 DJIKSTRA))
                                 (find_path 100 [] (grid5 DJIKSTRA)))
                = [MsgPathFound (Fin 8)]) by (vm_compute; reflexivity).
    rewrite E. left.
Defined.

(** ** What an iteration does, in full *)

(** The three cases of [relax]: nothing happens; or the neighbour gets
    the candidate cost and the parent but is open or visited already,
    and the queue is left alone; or it is neither, turns green and is
    put in the queue. *)
Lemma relax_cases current s nb :
  let w := world s in
  let w1 := set_node nb (relaxed (cand w current) current) w in
  relax current s nb = s
  ∨ (is_obstacle w nb = false ∧ num_ltb (cand w current) (g_score (node w nb)) = true
     ∧ (is_active w nb = true ∨ is_visited w nb = true)
     ∧ relax current s nb = mkSearch w1 (active s) (index s) (puts s))
  ∨ (is_obstacle w nb = false ∧ num_ltb (cand w current) (g_score (node w nb)) = true
     ∧ is_active w nb = false ∧ is_visited w nb = false
     ∧ relax current s nb
       = mkSearch (make_active nb w1)
                  (active s ++ [mkEntry (score (make_active nb w1) nb) (index s) nb])
                  (index s + 1)
                  (puts s ++ [mkEntry (score (make_active nb w1) nb) (index s) nb])).
Proof.
  intros w w1. unfold relax. fold w. fold (cand w current). fold w1.
  destruct (is_obstacle w nb) eqn:Ho; cbn [negb]; [by left|].
  destruct (num_ltb (cand w current) (g_score (node w nb))) eqn:Hlt; [|left; by destruct s].
  assert (Ea : is_active w1 nb = is_active w nb).
  { unfold is_active, w1. by rewrite node_set_node_eq. }
  assert (Ev : is_visited w1 nb = is_visited w nb).
  { unfold is_visited, is_start, w1. by rewrite node_set_node_eq. }
  rewrite Ea, Ev. right.
  destruct (is_active w nb); cbn [negb andb]; [left; by split_and!; try left|].
  destruct (is_visited w nb); cbn [negb andb]; [left; by split_and!; try right|].
  right. by split_and!.
Qed.

(** ** The iterations that stay in the loop *)

(** The iterations after which the loop goes on: the skipped iteration
    of a paused search, and the one that dequeues a cell other than End
    and relaxes its neighbours. *)
Inductive step_on (s : Search) : Search → Prop :=
  | step_paused w1 :
      core_eq (world s) w1 →
      step_on s (mkSearch w1 (active s) (index s) (puts s))
  | step_relax w1 e0 q0 m q nbs :
      active s = e0 :: q0 → core_eq (world s) w1 →
      extract_min e0 q0 = (m, q) →
      is_end w1 (e_node m) = false →
      get_neighbours (make_visited (e_node m) w1) (e_node m) 1 = Some nbs →
      step_on s (foldl (relax (e_node m))
                       (mkSearch (make_visited (e_node m) w1) q (index s) (puts s)) nbs).

Lemma step_on_iter s s' : step_on s s' → iter s s'.
Proof.
  intros [w1 Hc|w1 e0 q0 m q nbs Ha Hc Hm He Hnb]; [by constructor | by eapply iter_relax].
Qed.

Lemma rtc_step_on_iter s s' : rtc step_on s s' → rtc iter s s'.
Proof.
  induction 1 as [|s1 s2 s3 H12 _ IH]; [done|].
  eapply rtc_l; [by apply step_on_iter | done].
Qed.

Lemma search_iteration_step evs s e0 q0 s' :
  active s = e0 :: q0 → search_iteration evs s e0 q0 = Next s' → step_on s s'.
Proof.
  intros Ha. unfold search_iteration.
  pose proof (core_eq_handle_input_running evs (world s)) as Hh.
  destruct (handle_input_running evs (world s)) as [[[]|e] w1]; simpl in *; try done.
  destruct (PAUSED w1); simpl.
  { intros [= <-]. by constructor. }
  set (w2 := if QUICK_MODE w1 then w1 else draw_screen w1).
  assert (H2 : core_eq (world s) w2).
  { unfold w2. destruct (QUICK_MODE w1); [done|].
    eapply core_eq_trans; [apply Hh | apply core_eq_draw_screen]. }
  destruct (extract_min e0 q0) as [m q] eqn:Em.
  destruct (is_end w2 (e_node m)) eqn:Ee; simpl; [done|].
  destruct (get_neighbours _ _ _) as [nbs|] eqn:En; simpl; [|done].
  intros [= <-]. by eapply step_relax.
Qed.

(** How the loop gets to its end: by such iterations to an empty
    queue, or to the state in which End is the least entry. *)
Lemma search_loop_steps fuel inputs s :
  match (search_loop fuel inputs s).1 with
  | Exhausted s1 => rtc step_on s s1 ∧ active s1 = []
  | Found s1 =>
      ∃ s', rtc step_on s s'
            ∧ ∃ w1 e0 q0 m q,
                active s' = e0 :: q0 ∧ core_eq (world s') w1
                ∧ extract_min e0 q0 = (m, q) ∧ is_end w1 (e_node m) = true
                ∧ s1 = mkSearch w1 q (index s') (puts s')
  | _ => True
  end.
Proof.
  revert inputs s. induction fuel as [|fuel IH]; intros inputs s; [done|].
  cbn [search_loop].
  destruct (active s) as [|e0 q0] eqn:Ha; [by split|].
  destruct (poll inputs) as [evs rest].
  destruct (search_iteration evs s e0 q0) as [s'|r] eqn:E.
  - pose proof (search_iteration_step evs s e0 q0 s' Ha E) as Hstep.
    specialize (IH rest s').
    destruct (search_loop fuel rest s').1 as [[r ?]|s1|s1|ex ?|]; try done.
    + destruct IH as (s2 & Hr & Hlast). exists s2. split; [|done]. by eapply rtc_l.
    + destruct IH as [Hr Hn]. split; [|done]. by eapply rtc_l.
  - cbn [fst]. destruct r as [[r ?]|s1|s1|ex ?|]; try done.
    + exists s. split; [done|].
      unfold search_iteration in E.
      pose proof (core_eq_handle_input_running evs (world s)) as Hh.
      destruct (handle_input_running evs (world s)) as [[[]|ex] w1]; simpl in *; try done.
      destruct (PAUSED w1); [done|].
      set (w2 := if QUICK_MODE w1 then w1 else draw_screen w1) in *.
      assert (H2 : core_eq (world s) w2).
      { unfold w2. destruct (QUICK_MODE w1); [done|].
        eapply core_eq_trans; [apply Hh | apply core_eq_draw_screen]. }
      destruct (extract_min e0 q0) as [m q] eqn:Em.
      destruct (is_end w2 (e_node m)) eqn:Ee.
      2:{ by destruct (get_neighbours _ _ _). }
      injection E as <-. exists w2, e0, q0, m, q. by split_and!.
    + exfalso. unfold search_iteration in E.
      destruct (handle_input_running evs (world s)) as [[[]|ex] w1]; simpl in *; try done.
      destruct (PAUSED w1); [done|].
      destruct (extract_min e0 q0) as [m q].
      destruct (is_end _ _); [done|]. by destruct (get_neighbours _ _ _).
Qed.

(** The state from which the loop leaves with End in hand. *)
Lemma search_loop_last fuel inputs s s1 rest :
  search_loop fuel inputs s = (Found s1, rest) →
  ∃ s', rtc iter s s'
        ∧ ∃ w1 e0 q0 m q,
            active s' = e0 :: q0 ∧ core_eq (world s') w1
            ∧ extract_min e0 q0 = (m, q) ∧ is_end w1 (e_node m) = true
            ∧ s1 = mkSearch w1 q (index s') (puts s').
Proof.
  intros E. pose proof (search_loop_steps fuel inputs s) as H. rewrite E in H.
  destruct H as (s' & Hr & Hlast). exists s'. split; [|done]. by apply rtc_step_on_iter.
Qed.

(** ** An End that is open or visited already *)

(** End is green or red, and it is not in the queue. *)
Definition end_stale (e : pos) (s : Search) : Prop :=
  (color (node (world s) e) = GREEN ∨ color (node (world s) e) = RED)
  ∧ ∀ x, x ∈ active s → e_node x ≠ e.

Lemma relax_end_stale e current s nb :
  end_stale e s → end_stale e (relax current s nb).
Proof.
  intros [Hcol Hq].
  destruct (relax_cases current s nb)
    as [->|[(_ & _ & _ & ->)|(_ & _ & Ha & Hv & ->)]]; [done| |].
  - split; [|done]. cbn [world]. rewrite node_set_node.
    destruct (decide (nb = e)) as [->|]; done.
  - assert (Hne : nb ≠ e).
    { intros ->. unfold is_active, is_visited in *.
      apply bool_decide_eq_false in Ha. apply orb_false_iff in Hv as [Hv _].
      apply bool_decide_eq_false in Hv. destruct Hcol; done. }
    split; cbn [world active].
    + unfold make_active. rewrite !node_set_node_ne by done. done.
    + intros x [Hx|Hx]%elem_of_app; [by apply Hq|].
      apply list_elem_of_singleton in Hx as ->. done.
Qed.

Lemma iter_end_stale e s s' : iter s s' → end_stale e s → end_stale e s'.
Proof.
  intros Hi [Hcol Hq].
  assert (Hc1 : ∀ w1, core_eq (world s) w1 →
                      color (node w1 e) = GREEN ∨ color (node w1 e) = RED).
  { intros w1 (_ & _ & _ & _ & _ & Cq). destruct (Cq e) as (-> & _). done. }
  destruct Hi as [w1 Hc|w1 e0 q0 m q Ha Hc Hm He|w1 e0 q0 m q nbs Ha Hc Hm He Hnb].
  - split; cbn [world active]; [by apply Hc1 | done].
  - destruct (extract_min_spec _ _ _ _ Hm) as (_ & _ & Hsub & _).
    split; cbn [world active]; [by apply Hc1|].
    intros x Hx. apply Hq. rewrite Ha. by eapply elem_of_sublist.
  - destruct (extract_min_spec _ _ _ _ Hm) as (Hin & _ & Hsub & _).
    apply foldl_relax_ind; [|intros s1 nb _; apply relax_end_stale].
    split; cbn [world active].
    + assert (Hne : e_node m ≠ e) by (apply Hq; by rewrite Ha).
      unfold make_visited. destruct (negb _); [|by apply Hc1].
      rewrite node_set_node_ne by done. by apply Hc1.
    + intros x Hx. apply Hq. rewrite Ha. by eapply elem_of_sublist.
Qed.

Lemma rtc_iter_end_stale e s s' : rtc iter s s' → end_stale e s → end_stale e s'.
Proof.
  induction 1 as [|s1 s2 s3 H12 _ IH]; [done|].
  intros H. apply IH. by eapply iter_end_stale.
Qed.

(** A search never finds an End that is green or red when it starts:
    the loop puts no such cell in the queue.  So whatever the grid,
    [find_path] then prints no path message: it prints nothing (when it
    raises), that it was cancelled, or that there is no path. *)
Theorem stale_end_never_found (w : World) (st e : pos) (fuel : nat)
    (inputs : list (list Event)) (run : Run) :
  START w = Some st → END w = Some e → st ≠ e →
  color (node w e) = GREEN ∨ color (node w e) = RED →
  find_path fuel inputs w = Some run →
  printed run = [] ∨ printed run = [MsgCancelled] ∨ printed run = [MsgNoPath].
Proof.
  intros Hs He Hne Hcol Hrun.
  assert (Hno : ∀ len, MsgPathFound len ∉ printed run).
  { intros len Hmsg.
    destruct (find_path_found fuel inputs w run len Hrun Hmsg)
      as (s0 & w0 & s1 & rest & Hi & Hl & _).
    destruct (search_init_spec w st e Hs He) as (w' & E & G & Hn).
    rewrite E in Hi. injection Hi as <- <-.
    set (s0 := mkSearch w' _ 0 _) in *.
    assert (H0 : end_stale e s0).
    { split; cbn [world active].
      - rewrite Hn. rewrite decide_False by done.
        destruct (bool_decide (in_grid w e)); done.
      - intros x ->%list_elem_of_singleton. done. }
    destruct (search_loop_last fuel inputs s0 s1 rest Hl)
      as (s' & Hr & w1 & e0 & q0 & m & q & Ha & Hc & Hm & Hend & _).
    destruct (rtc_iter_end_stale e s0 s' Hr H0) as [_ Hq].
    destruct (rtc_iter_END_ALG _ _ Hr) as (R1 & _).
    destruct (extract_min_spec _ _ _ _ Hm) as (Hin & _).
    apply (Hq m); [by rewrite Ha|].
    unfold is_end in Hend. apply bool_decide_eq_true in Hend.
    destruct Hc as (_ & _ & _ & _ & C5 & _). destruct G as (_ & _ & _ & _ & G5 & _).
    change (world s0) with w' in R1. congruence. }
  unfold find_path in Hrun.
  destruct (search_init w) as [[s0|ex] w0]; [|injection Hrun as <-; by left].
  destruct (search_loop fuel inputs s0) as [[[r1 w1]|s1|s1|ex w1|] rest].
  - injection Hrun as <-. right. by left.
  - destruct (draw_path fuel rest (world s1)) as [[[[[]|ex] w2] rest2]|]; [| |done].
    + destruct (reset_grid 1 (draw_screen w2)) as [r w3]. injection Hrun as <-.
      exfalso. eapply Hno. cbn [printed]. left.
    + injection Hrun as <-. exfalso. eapply Hno. cbn [printed]. left.
  - destruct (reset_grid 1 (draw_screen (world s1))) as [r w2].
    injection Hrun as <-. right. by right.
  - injection Hrun as <-. by left.
  - done.
Qed.

(** A row of three cells, Start at the left and End at the right. *)
Definition row3 : World := make_end (0, 2) (make_start (0, 0) (create_nodes 1 3 A_STAR)).

(** The row after a search that was cancelled in its third iteration,
    when End was in the queue: End has stayed green. *)
Definition row3_cancelled : World :=
  match find_path 10 [[]; []; [KEYDOWN K_BACKSPACE]] row3 with
  | Some run => final run
  | None => row3
  end.

(** The theorem for a search on that row: End is two steps from Start,
    and the search prints that there is no path. *)
Lemma stale_end_never_found_witness :
  let run := default (mkRun (Ok tt) [] row3) (find_path 10 [] row3_cancelled) in
  printed run = [] ∨ printed run = [MsgCancelled] ∨ printed run = [MsgNoPath].
Proof.
  intros run.
  apply (stale_end_never_found row3_cancelled (0, 0) (0, 2) 10 [] run).
  - vm_compute. reflexivity.
  - vm_compute. reflexivity.
  - discriminate.
  - left. vm_compute. reflexivity.
  - vm_compute. reflexivity.
Defined.

(** ** The search terminates *)

(** The cell is green, red or Start: the loop will not put it in the
    queue. *)
Definition marked (w : World) (p : pos) : bool := is_active w p || is_visited w p.

(** The number of cells of the grid that the loop can still put in the
    queue. *)
Definition open_left (w : World) : nat :=
  length (filter (λ p, marked w p = false) (all_nodes w)).

Lemma open_left_mono w w' :
  ROWS w' = ROWS w → COLUMNS w' = COLUMNS w →
  (∀ p, marked w p = true → marked w' p = true) →
  (open_left w' ≤ open_left w)%nat
  ∧ ∀ x, in_grid w x → marked w x = false → marked w' x = true →
         (open_left w' < open_left w)%nat.
Proof.
  intros HR HC Hm. unfold open_left.
  assert (Ea : all_nodes w' = all_nodes w) by (unfold all_nodes; by rewrite HR, HC).
  rewrite Ea.
  destruct (filter_false_length (marked w) (marked w') (all_nodes w) Hm) as [H1 H2].
  split; [done|]. intros x Hx. apply H2. by apply elem_of_all_nodes.
Qed.

Lemma open_left_bound w :
  (open_left w ≤ Z.to_nat (ROWS w) * Z.to_nat (COLUMNS w))%nat.
Proof. unfold open_left. rewrite <- all_nodes_length. apply length_filter. Qed.

Lemma core_eq_marked w w' p : core_eq w w' → marked w' p = marked w p.
Proof.
  intros (_ & _ & _ & C4 & _ & Cq). unfold marked, is_active, is_visited, is_start.
  destruct (Cq p) as (-> & _). by rewrite C4.
Qed.

Lemma open_left_ext w w' :
  ROWS w' = ROWS w → COLUMNS w' = COLUMNS w →
  (∀ p, marked w' p = marked w p) → open_left w' = open_left w.
Proof.
  intros HR HC Hm.
  destruct (open_left_mono w w' HR HC) as [H1 _].
  { intros p. by rewrite Hm. }
  destruct (open_left_mono w' w) as [H2 _]; [done | done | |lia].
  intros p. by rewrite Hm.
Qed.

Lemma core_eq_open_left w w' : core_eq w w' → open_left w' = open_left w.
Proof.
  intros Hc. pose proof Hc as (C1 & C2 & _).
  apply open_left_ext; [done | done |]. intros p. by apply core_eq_marked.
Qed.

Lemma make_visited_open_left current w :
  (open_left (make_visited current w) ≤ open_left w)%nat.
Proof.
  apply open_left_mono.
  - unfold make_visited. by destruct (negb _).
  - unfold make_visited. by destruct (negb _).
  - intros p. unfold make_visited. destruct (negb _); [|done].
    unfold marked, is_active, is_visited, is_start. cbn [START set_node with_nodes].
    rewrite node_set_node. destruct (decide (current = p)) as [->|]; [|done].
    intros _. cbn [paint color]. rewrite (bool_decide_eq_true_2 (RED = RED)) by done.
    by rewrite orb_true_r.
Qed.

(** How the counts of two states compare: the cells left to open, the
    length of the queue and the number of puts. *)
Definition counts_le (s s' : Search) : Prop :=
  (open_left (world s') + length (active s') ≤ open_left (world s) + length (active s))%nat
  ∧ (open_left (world s') ≤ open_left (world s))%nat
  ∧ (length (puts s') + open_left (world s') ≤ length (puts s) + open_left (world s))%nat
  ∧ (length (puts s') + length (active s) = length (puts s) + length (active s'))%nat.

Lemma counts_le_refl s : counts_le s s.
Proof. unfold counts_le. lia. Qed.

Lemma counts_le_trans s1 s2 s3 : counts_le s1 s2 → counts_le s2 s3 → counts_le s1 s3.
Proof. unfold counts_le. lia. Qed.

Lemma relax_counts current s nb :
  in_grid (world s) nb → counts_le s (relax current s nb).
Proof.
  intros Hnb.
  destruct (relax_cases current s nb)
    as [->|[(_ & _ & _ & ->)|(_ & _ & Ha & Hv & ->)]]; [apply counts_le_refl| |].
  - assert (E : open_left (set_node nb (relaxed (cand (world s) current) current) (world s))
                = open_left (world s)).
    { apply open_left_ext; [done | done |]. intros q.
      unfold marked, is_active, is_visited, is_start. cbn [START set_node with_nodes].
      rewrite node_set_node. destruct (decide (nb = q)) as [->|]; done. }
    unfold counts_le. cbn [world active puts]. rewrite E. lia.
  - set (w1 := set_node nb (relaxed (cand (world s) current) current) (world s)).
    destruct (open_left_mono (world s) (make_active nb w1)) as [_ H]; [done | done | |].
    { intros p. unfold marked, is_active, is_visited, is_start, make_active, w1.
      cbn [START set_node with_nodes]. rewrite !node_set_node.
      destruct (decide (nb = p)) as [->|]; [|done]. intros _. cbn [paint color].
      by rewrite (bool_decide_eq_true_2 (GREEN = GREEN)). }
    specialize (H nb Hnb).
    assert (Hlt : (open_left (make_active nb w1) < open_left (world s))%nat).
    { apply H.
      - unfold marked. by rewrite Ha, Hv.
      - unfold marked, is_active, make_active. rewrite node_set_node_eq. cbn [paint color].
        by rewrite (bool_decide_eq_true_2 (GREEN = GREEN)). }
    unfold counts_le. cbn [world active puts]. rewrite !length_app. cbn [length]. lia.
Qed.

Lemma foldl_relax_counts current nbs s :
  (∀ nb, nb ∈ nbs → in_grid (world s) nb) →
  counts_le s (foldl (relax current) s nbs).
Proof.
  intros Hnbs.
  assert (H : counts_le s (foldl (relax current) s nbs)
              ∧ same_grid (world s) (world (foldl (relax current) s nbs))); [|apply H].
  apply (foldl_relax_ind (λ s1, counts_le s s1 ∧ same_grid (world s) (world s1))).
  - split; [apply counts_le_refl | apply same_grid_refl].
  - intros s1 nb Hnb [H1 H2]. split.
    + eapply counts_le_trans; [exact H1|]. apply relax_counts.
      apply (same_grid_in_grid (world s)); [done | by apply Hnbs].
    + eapply same_grid_trans; [exact H2 | apply relax_same_grid].
Qed.

Lemma extract_min_length e q m r : extract_min e q = (m, r) → length r = length q.
Proof.
  revert e m r. induction q as [|x q IH]; intros e m r; simpl.
  { by intros [= <- <-]. }
  destruct (extract_min x q) as [m1 r1] eqn:E1.
  specialize (IH x m1 r1 E1).
  destruct (entry_leb e m1); intros [= <- <-]; simpl; lia.
Qed.

(** Whatever [get_neighbours] returns lies in the grid. *)
Lemma get_neighbours_in_grid w p n l :
  get_neighbours w p n = Some l → ∀ q, q ∈ l → in_grid w q.
Proof.
  unfold get_neighbours.
  assert (H : ∀ cond x acc l', append_if cond x acc = Some l' →
              (∀ q, x = Some q → in_grid w q) →
              (∀ l0, acc = Some l0 → ∀ q, q ∈ l0 → in_grid w q) →
              ∀ q, q ∈ l' → in_grid w q).
  { intros cond x acc l' E Hx Hacc. unfold append_if in E. destruct cond.
    - destruct acc as [l0|]; [|done]. destruct x as [q0|]; [|done].
      simpl in E. injection E as <-. intros q [Hq|Hq]%elem_of_app.
      + by apply (Hacc l0).
      + apply list_elem_of_singleton in Hq as ->. by apply Hx.
    - by apply Hacc. }
  intros E. eapply H; [exact E | intros q; apply nodes_at_Some_in_grid |].
  intros l3 E3. eapply H; [exact E3 | intros q; apply nodes_at_Some_in_grid |].
  intros l2 E2. eapply H; [exact E2 | intros q; apply nodes_at_Some_in_grid |].
  intros l1 E1. eapply H; [exact E1 | intros q; apply nodes_at_Some_in_grid |].
  intros l0 [= <-] q Hq. by apply elem_of_nil in Hq.
Qed.

(** The counts after an iteration that dequeued a cell and relaxed its
    neighbours. *)
Lemma relax_round_counts s w2 e0 q0 m q nbs :
  active s = e0 :: q0 → core_eq (world s) w2 → extract_min e0 q0 = (m, q) →
  get_neighbours (make_visited (e_node m) w2) (e_node m) 1 = Some nbs →
  let s' := foldl (relax (e_node m))
                  (mkSearch (make_visited (e_node m) w2) q (index s) (puts s)) nbs in
  (open_left (world s') + S (length (active s')) ≤ open_left (world s) + length (active s))%nat
  ∧ (open_left (world s') ≤ open_left (world s))%nat
  ∧ (length (puts s') + open_left (world s') ≤ length (puts s) + open_left (world s))%nat
  ∧ (length (puts s') + length (active s) = length (puts s) + S (length (active s')))%nat.
Proof.
  intros Ha Hc Hm Hnb s'.
  set (s1 := mkSearch (make_visited (e_node m) w2) q (index s) (puts s)).
  destruct (foldl_relax_counts (e_node m) nbs s1) as (F1 & F2 & F3 & F4).
  { intros nb Hin. by eapply get_neighbours_in_grid. }
  subst s1. fold s' in F1, F2, F3, F4. cbn [world active puts] in F1, F2, F3, F4.
  pose proof (make_visited_open_left (e_node m) w2) as Hv.
  rewrite (core_eq_open_left _ _ Hc) in Hv.
  pose proof (extract_min_length _ _ _ _ Hm) as Hlen.
  rewrite Ha. cbn [length]. lia.
Qed.

(** No poll brings the space key. *)
Definition no_pause (inputs : list (list Event)) : Prop :=
  Forall (Forall (λ ev, ev ≠ KEYDOWN K_SPACE)) inputs.

Lemma handle_input_running_PAUSED evs w :
  Forall (λ ev, ev ≠ KEYDOWN K_SPACE) evs →
  PAUSED (handle_input_running evs w).2 = PAUSED w.
Proof.
  revert w. induction evs as [|ev evs IH]; intros w Hq; simpl; [done|].
  apply Forall_cons in Hq as [Hev Hq].
  destruct ev as [|[]|]; simpl; try done; by rewrite IH.
Qed.

Lemma poll_no_pause inputs :
  no_pause inputs
  → Forall (λ ev, ev ≠ KEYDOWN K_SPACE) (poll inputs).1 ∧ no_pause (poll inputs).2.
Proof.
  intros H. destruct inputs as [|evs rest]; simpl.
  - split; constructor.
  - by apply Forall_cons in H.
Qed.

Lemma draw_screen_PAUSED w : PAUSED (draw_screen w) = PAUSED w.
Proof.
  unfold draw_screen. generalize (all_nodes w). intros l. revert w.
  induction l as [|x l IH]; intros w; simpl; [done|].
  rewrite IH. unfold draw. by destruct (needs_refresh _).
Qed.

Lemma foldl_relax_PAUSED current nbs s :
  PAUSED (world (foldl (relax current) s nbs)) = PAUSED (world s).
Proof.
  apply (foldl_relax_ind (λ s1, PAUSED (world s1) = PAUSED (world s))); [done|].
  intros s1 nb _ <-.
  destruct (relax_spec current s1 nb) as [->|(_ & _ & G & _)]; [done|].
  by destruct G as (_ & _ & _ & _ & _ & _ & ? & _).
Qed.

(** While nothing pauses it, the loop ends within as many iterations as
    twice the cells left to open plus the length of the queue; it
    leaves polls without pause key and stays unpaused. *)
Lemma search_loop_terminates fuel inputs s :
  PAUSED (world s) = false → no_pause inputs →
  (2 * open_left (world s) + length (active s) < fuel)%nat →
  (search_loop fuel inputs s).1 ≠ OutOfFuel
  ∧ no_pause (search_loop fuel inputs s).2
  ∧ ∀ s1, (search_loop fuel inputs s).1 = Found s1 → PAUSED (world s1) = false.
Proof.
  revert inputs s. induction fuel as [|fuel IH]; intros inputs s Hp Hn Hf; [lia|].
  cbn [search_loop].
  destruct (active s) as [|e0 q0] eqn:Ha; [by split_and!|].
  destruct (poll_no_pause inputs Hn) as [Hevs Hrest].
  destruct (poll inputs) as [evs rest]. cbn [fst snd] in Hevs, Hrest.
  pose proof (handle_input_running_PAUSED evs (world s) Hevs) as Hp1.
  pose proof (core_eq_handle_input_running evs (world s)) as Hh.
  unfold search_iteration.
  destruct (handle_input_running evs (world s)) as [[[]|ex] w1];
    cbn [fst snd] in Hp1, Hh; [by split_and! | | by split_and!].
  rewrite Hp1, Hp.
  set (w2 := if QUICK_MODE w1 then w1 else draw_screen w1).
  assert (H2 : core_eq (world s) w2).
  { unfold w2. destruct (QUICK_MODE w1); [done|].
    eapply core_eq_trans; [apply Hh | apply core_eq_draw_screen]. }
  assert (Hp2 : PAUSED w2 = false).
  { unfold w2. destruct (QUICK_MODE w1); [congruence|].
    rewrite draw_screen_PAUSED. congruence. }
  destruct (extract_min e0 q0) as [m q] eqn:Em.
  destruct (is_end w2 (e_node m)).
  { split_and!; [done | done |]. by intros s1 [= <-]. }
  destruct (get_neighbours (make_visited (e_node m) w2) (e_node m) 1) as [nbs|] eqn:En;
    [|by split_and!].
  destruct (relax_round_counts s w2 e0 q0 m q nbs Ha H2 Em En) as (F1 & F2 & _).
  apply IH; [| done | rewrite Ha in F1; cbn [length] in *; lia].
  rewrite foldl_relax_PAUSED. cbn [world]. unfold make_visited. by destruct (negb _).
Qed.

(** No cell of the grid costs more than the number of cells dequeued
    so far, which is the number of puts less the length of the queue. *)
Definition cost_bound (s : Search) : Prop :=
  ∃ D : nat, length (puts s) = (length (active s) + D)%nat
    ∧ ∀ c g, in_grid (world s) c → g_score (node (world s) c) = Fin g → g ≤ Z.of_nat D.

Lemma relax_cost_bound (D : nat) current s nb :
  let I := λ s1 : Search,
    length (puts s1) = (length (active s1) + S D)%nat
    ∧ (∀ c g, in_grid (world s1) c → g_score (node (world s1) c) = Fin g
              → g ≤ Z.of_nat (S D))
    ∧ (∀ g, g_score (node (world s1) current) = Fin g → g ≤ Z.of_nat D) in
  I s → I (relax current s nb).
Proof.
  intros I (H1 & H2 & H3).
  destruct (relax_spec current s nb)
    as [->|(_ & Hlt & G & Hq & Hg & _ & _ & _ & Hqueue)]; [done|].
  unfold cand in Hlt, Hg.
  destruct (g_score (node (world s) current)) as [gc|] eqn:Hgc; [|done].
  specialize (H3 gc eq_refl). cbn [num_add] in Hlt, Hg.
  assert (Hne : nb ≠ current).
  { intros ->. rewrite Hgc in Hlt. cbn [num_ltb] in Hlt. apply Z.ltb_lt in Hlt. lia. }
  split_and!.
  - destruct Hqueue as [(-> & _ & ->)|(-> & _ & ->)]; [done|].
    rewrite !length_app. cbn [length]. lia.
  - intros c g Hc. destruct (decide (c = nb)) as [->|Hcn].
    + rewrite Hg. intros [= <-]. lia.
    + rewrite Hq by done. apply H2.
      destruct G as (G1 & G2 & _). unfold in_grid in *. by rewrite <- G1, <- G2.
  - intros g. rewrite Hq by done. rewrite Hgc. intros [= <-]. done.
Qed.

Lemma iter_cost_bound st s s' : iter s s' → search_inv st s → cost_bound s → cost_bound s'.
Proof.
  intros Hi [Hw Hk] (D & HD & Hg).
  destruct Hi as [w1 Hc|w1 e0 q0 m q Ha Hc Hm He|w1 e0 q0 m q nbs Ha Hc Hm He Hnb].
  - exists D. cbn [world active puts]. split; [done|].
    intros c g Hc1 Hg1. apply (core_eq_in_grid _ _ c Hc) in Hc1.
    destruct Hc as (_ & _ & _ & _ & _ & Cq). destruct (Cq c) as (_ & Eg & _).
    rewrite Eg in Hg1. by apply (Hg c).
  - exists (S D). cbn [world active puts]. split.
    + rewrite (extract_min_length _ _ _ _ Hm). rewrite HD, Ha. cbn [length]. lia.
    + intros c g Hc1 Hg1. apply (core_eq_in_grid _ _ c Hc) in Hc1.
      destruct Hc as (_ & _ & _ & _ & _ & Cq). destruct (Cq c) as (_ & Eg & _).
      rewrite Eg in Hg1. specialize (Hg c g Hc1 Hg1). lia.
  - destruct (extract_min_spec _ _ _ _ Hm) as (Hin & _).
    rewrite <- Ha in Hin. destruct (Hk m Hin) as (K1 & _).
    pose proof Hc as (_ & _ & _ & _ & _ & Cq).
    assert (Hg2 : ∀ c, g_score (node (make_visited (e_node m) w1) c)
                       = g_score (node (world s) c)).
    { intros c. rewrite make_visited_g_score. destruct (Cq c) as (_ & Eg & _). done. }
    assert (Hgrid2 : ∀ c, in_grid (make_visited (e_node m) w1) c ↔ in_grid (world s) c).
    { intros c. rewrite <- (core_eq_in_grid _ _ c Hc).
      unfold make_visited. by destruct (negb _). }
    set (s1 := mkSearch (make_visited (e_node m) w1) q (index s) (puts s)).
    assert (HI : length (puts (foldl (relax (e_node m)) s1 nbs))
                 = (length (active (foldl (relax (e_node m)) s1 nbs)) + S D)%nat
                 ∧ (∀ c g, in_grid (world (foldl (relax (e_node m)) s1 nbs)) c
                           → g_score (node (world (foldl (relax (e_node m)) s1 nbs)) c) = Fin g
                           → g ≤ Z.of_nat (S D))
                 ∧ (∀ g, g_score (node (world (foldl (relax (e_node m)) s1 nbs)) (e_node m))
                         = Fin g → g ≤ Z.of_nat D)).
    { apply (foldl_relax_ind
               (λ s2, length (puts s2) = (length (active s2) + S D)%nat
                      ∧ (∀ c g, in_grid (world s2) c → g_score (node (world s2) c) = Fin g
                                → g ≤ Z.of_nat (S D))
                      ∧ (∀ g, g_score (node (world s2) (e_node m)) = Fin g
                              → g ≤ Z.of_nat D))).
      - unfold s1. cbn [world active puts]. split_and!.
        + rewrite (extract_min_length _ _ _ _ Hm). rewrite HD, Ha. cbn [length]. lia.
        + intros c g Hc1 Hg1. rewrite Hgrid2 in Hc1. rewrite Hg2 in Hg1.
          specialize (Hg c g Hc1 Hg1). lia.
        + intros g Hg1. rewrite Hg2 in Hg1. by apply (Hg (e_node m)).
      - intros s2 nb _ H2. by apply (relax_cost_bound D (e_node m) s2 nb). }
    destruct HI as (I1 & I2 & _). exists (S D). by split.
Qed.

Lemma rtc_iter_cost_bound st s s' :
  rtc iter s s' → search_inv st s → cost_bound s → cost_bound s'.
Proof.
  induction 1 as [|s1 s2 s3 H12 _ IH]; [done|].
  intros Hinv Hc. apply IH; [by eapply iter_search_inv | by eapply iter_cost_bound].
Qed.

(** Every put uses up a cell that was left to open. *)
Definition puts_bound (N : nat) (s : Search) : Prop :=
  (length (puts s) + open_left (world s) ≤ N)%nat.

Lemma iter_puts_bound N s s' : iter s s' → puts_bound N s → puts_bound N s'.
Proof.
  unfold puts_bound. intros Hi HN.
  destruct Hi as [w1 Hc|w1 e0 q0 m q Ha Hc Hm He|w1 e0 q0 m q nbs Ha Hc Hm He Hnb].
  - cbn [world puts]. by rewrite (core_eq_open_left _ _ Hc).
  - cbn [world puts]. by rewrite (core_eq_open_left _ _ Hc).
  - destruct (relax_round_counts s w1 e0 q0 m q nbs Ha Hc Hm Hnb) as (_ & _ & F3 & _). lia.
Qed.

Lemma rtc_iter_puts_bound N s s' : rtc iter s s' → puts_bound N s → puts_bound N s'.
Proof.
  induction 1 as [|s1 s2 s3 H12 _ IH]; [done|].
  intros H. apply IH. by eapply iter_puts_bound.
Qed.

(** The cost with which End leaves the queue is at most the number of
    cells of the grid plus one. *)
Lemma found_cost_bound w st e fuel inputs s0 w0 s1 rest g :
  search_ready w st e →
  search_init w = (Ok s0, w0) → search_loop fuel inputs s0 = (Found s1, rest) →
  g_score (node (world s1) e) = Fin g →
  g ≤ Z.of_nat (Z.to_nat (ROWS w) * Z.to_nat (COLUMNS w)) + 1.
Proof.
  intros Hready Hi Hl Hge.
  pose proof Hready as (Hs & He & Hg & Ho & Hinf).
  destruct (search_init_search_inv w st e s0 w0 Hs He Hg Ho Hinf Hi) as (Hinv0 & G0 & Ha0).
  destruct (search_found_state w st e fuel inputs s0 w0 s1 rest Hready Hi Hl)
    as (_ & _ & Heg & _).
  destruct (search_init_spec w st e Hs He) as (w' & E & G & Hn).
  rewrite E in Hi. injection Hi as <- <-.
  set (s0 := mkSearch w' _ 0 _) in *.
  assert (Hgrid : ∀ q, in_grid w' q ↔ in_grid w q).
  { intros q. destruct G as (G1 & G2 & _). unfold in_grid. by rewrite G1, G2. }
  assert (Hc0 : cost_bound s0).
  { exists O. split; [done|]. cbn [world]. intros c g0 Hc. rewrite Hn.
    apply Hgrid in Hc. rewrite (bool_decide_eq_true_2 _ Hc).
    destruct (decide (st = c)) as [->|Hne]; cbn [with_g initialised g_score id].
    - intros [= <-]. done.
    - rewrite Hinf by done. done. }
  assert (Hp0 : puts_bound (S (open_left w')) s0).
  { unfold puts_bound, s0. cbn [world puts length]. lia. }
  destruct (search_loop_last fuel inputs s0 s1 rest Hl)
    as (s' & Hr & w1 & e0 & q0 & m & q & Ha & Hc & Hm & Hend & ->).
  destruct (rtc_iter_cost_bound st s0 s' Hr Hinv0 Hc0) as (D & HD & HgD).
  pose proof (rtc_iter_puts_bound _ s0 s' Hr Hp0) as HN. unfold puts_bound in HN.
  cbn [world] in Heg, Hge.
  apply (core_eq_in_grid _ _ e Hc) in Heg.
  destruct Hc as (_ & _ & _ & _ & _ & Cq). destruct (Cq e) as (_ & Eg & _).
  rewrite Eg in Hge. specialize (HgD e g Heg Hge).
  pose proof (open_left_bound w') as Hb.
  destruct G as (G1 & G2 & _). rewrite G1, G2 in Hb. lia.
Qed.

Lemma paint_loop_terminates fuel inputs n i todo w :
  PAUSED w = false → no_pause inputs → (length todo ≤ fuel)%nat →
  ∃ r, paint_loop fuel inputs n i todo w = Some r.
Proof.
  revert inputs i todo w. induction fuel as [|fuel IH]; intros inputs i todo w Hp Hn Hf.
  { destruct todo; [by eexists | simpl in Hf; lia]. }
  destruct todo as [|p todo]; [by eexists|]. cbn [paint_loop].
  destruct (poll_no_pause inputs Hn) as [Hevs Hrest].
  destruct (poll inputs) as [evs rest]. cbn [fst snd] in Hevs, Hrest.
  pose proof (handle_input_running_PAUSED evs w Hevs) as Hp1.
  destruct (handle_input_running evs w) as [[b|ex] w1]; cbn [snd] in Hp1; [|by eexists].
  rewrite Hp1, Hp. apply IH; [| done | simpl in Hf; lia].
  unfold make_path. destruct (QUICK_MODE _); [|rewrite draw_screen_PAUSED];
    cbn [PAUSED set_node with_nodes]; congruence.
Qed.

(** For a search that starts unpaused on a ready grid, and whose polls
    bring no pause key, twice the number of cells plus two iterations
    are enough for [find_path] to end, whatever the algorithm and the
    obstacles. *)
Theorem find_path_terminates (w : World) (st e : pos) (fuel : nat)
    (inputs : list (list Event)) :
  search_ready w st e → PAUSED w = false → no_pause inputs →
  (2 * (Z.to_nat (ROWS w) * Z.to_nat (COLUMNS w)) + 1 < fuel)%nat →
  ∃ run, find_path fuel inputs w = Some run.
Proof.
  intros Hready Hp Hn Hf.
  pose proof Hready as (Hs & He & Hg & Ho & Hinf).
  destruct (search_init_spec w st e Hs He) as (w' & E & G & Hnode).
  set (s0 := mkSearch w' [mkEntry (score w' st) 0 st] 0 [mkEntry (score w' st) 0 st]) in *.
  assert (Hb : (2 * open_left (world s0) + length (active s0) < fuel)%nat).
  { unfold s0. cbn [world active length]. pose proof (open_left_bound w') as Hb.
    destruct G as (G1 & G2 & _). rewrite G1, G2 in Hb. lia. }
  assert (Hp0 : PAUSED (world s0) = false).
  { unfold s0. cbn [world]. destruct G as (_ & _ & _ & _ & _ & _ & -> & _). done. }
  destruct (search_loop_terminates fuel inputs s0 Hp0 Hn Hb) as (Hfuel & Hrest & Hpf).
  pose proof (found_cost_bound w st e fuel inputs s0 w') as Hcost.
  pose proof (search_found_state w st e fuel inputs s0 w') as Hstate.
  unfold find_path. rewrite E.
  destruct (search_loop fuel inputs s0) as [[[r1 w1]|s1|s1|ex w1|] rest];
    cbn [fst snd] in Hfuel, Hrest, Hpf.
  - by eexists.
  - specialize (Hcost s1 rest). specialize (Hstate s1 rest Hready E eq_refl).
    destruct Hstate as (_ & Hsg & _ & g & Hge & Hg0).
    assert (He1 : END (world s1) = Some e).
    { destruct Hsg as (_ & _ & _ & -> & _). done. }
    specialize (Hcost g Hready E eq_refl Hge).
    unfold draw_path, path_walk. rewrite He1, Hge.
    destruct (walk (Z.to_nat g) (world s1) (Some e) []) as [[path nd]|ex] eqn:Ew.
    2:{ by eexists. }
    destruct (walk_spec _ _ _ _ _ _ Ew) as (chain & -> & Hlen & _).
    rewrite app_nil_r.
    destruct (paint_loop_terminates fuel rest (length chain) O chain (world s1))
      as [[[r2 w2] rest2] ->]; [by apply Hpf | done | lia |].
    destruct r2 as [[]|ex]; [|by eexists].
    destruct (reset_grid 1 (draw_screen w2)). by eexists.
  - destruct (reset_grid 1 (draw_screen (world s1))). by eexists.
  - by eexists.
  - done.
Qed.

(** The theorem for an A* search on the open 5 × 5 grid. *)
Lemma find_path_terminates_witness :
  ∃ run, find_path 60 [] (grid5 A_STAR) = Some run.
Proof.
  apply (find_path_terminates (grid5 A_STAR) (0, 0) (4, 4) 60 []).
  - apply grid5_ready.
  - reflexivity.
  - constructor.
  - vm_compute. lia.
Defined.

(** ** The exceptions of a search *)

Lemma handle_input_running_raise evs w ex w1 :
  handle_input_running evs w = (Raise ex, w1) →
  ex = SystemExit ∧ ¬ Forall (λ ev, ev ≠ QUIT) evs.
Proof.
  revert w. induction evs as [|ev evs IH]; intros w; simpl; [done|].
  destruct ev as [|[]|]; simpl; try done;
    try (intros H; destruct (IH _ H) as [-> Hn]; split; [done|];
         intros [_ Hf]%Forall_cons; by apply Hn).
  intros [= <- <-]. split; [done|]. by intros [Hf _]%Forall_cons.
Qed.

Lemma poll_quit inputs : ¬ no_quit (poll inputs).2 → ¬ no_quit inputs.
Proof. intros H Hn. apply H. by apply poll_no_quit. Qed.

Lemma poll_quit_now inputs : ¬ Forall (λ ev, ev ≠ QUIT) (poll inputs).1 → ¬ no_quit inputs.
Proof. intros H Hn. apply H. by apply poll_no_quit. Qed.

(** The loop of [find_path] raises nothing but the [SystemExit] of a
    [QUIT] event, and the reset after a cancellation finds End set. *)
Lemma search_loop_outcome st e fuel inputs s :
  search_inv st s → END (world s) = Some e →
  match (search_loop fuel inputs s).1 with
  | Cancelled (r, _) => r = Ok tt
  | Raised ex _ => ex = SystemExit ∧ ¬ no_quit inputs
  | _ => True
  end
  ∧ (¬ no_quit (search_loop fuel inputs s).2 → ¬ no_quit inputs).
Proof.
  revert inputs s. induction fuel as [|fuel IH]; intros inputs s Hinv He; [done|].
  cbn [search_loop].
  destruct (active s) as [|e0 q0] eqn:Ha; [done|].
  pose proof (poll_quit inputs) as Hq. pose proof (poll_quit_now inputs) as Hq0.
  destruct (poll inputs) as [evs rest]. cbn [fst snd] in Hq, Hq0.
  destruct (search_iteration evs s e0 q0) as [s'|r] eqn:E.
  - assert (Hi : iter s s') by (eapply search_iteration_iter; [done | by rewrite E]).
    destruct (iter_END_ALG _ _ Hi) as (E1 & _).
    destruct (IH rest s') as [H1 H2]; [by eapply iter_search_inv | congruence |].
    split; [|by auto].
    destruct (search_loop fuel rest s').1 as [[r ?]| | |ex ?|]; try done.
    destruct H1 as [-> H1]. split; [done | by auto].
  - cbn [fst snd]. split; [|done]. unfold search_iteration in E.
    pose proof (core_eq_handle_input_running evs (world s)) as Hh.
    pose proof (handle_input_running_raise evs (world s)) as Hr.
    destruct (handle_input_running evs (world s)) as [[[]|ex] w1]; cbn [snd] in Hh.
    + injection E as <-.
      destruct Hh as (_ & _ & _ & _ & C5 & _).
      destruct (reset_grid_1_nodes w1 e) as (R & _); [congruence|].
      by destruct (reset_grid 1 w1).
    + destruct (PAUSED w1); [done|].
      set (w2 := if QUICK_MODE w1 then w1 else draw_screen w1) in *.
      assert (H2 : core_eq (world s) w2).
      { unfold w2. destruct (QUICK_MODE w1); [done|].
        eapply core_eq_trans; [apply Hh | apply core_eq_draw_screen]. }
      destruct (extract_min e0 q0) as [m q] eqn:Em.
      destruct (is_end w2 (e_node m)); [by injection E as <-|].
      pose proof (iter_relax_visited st s w2 e0 q0 m q Hinv Ha H2 Em) as Hv.
      destruct (extract_min_spec _ _ _ _ Em) as (Hin & _).
      rewrite <- Ha in Hin. destruct Hinv as [_ Hk]. destruct (Hk m Hin) as (K1 & _).
      destruct (get_neighbours_axial (make_visited (e_node m) w2) (e_node m) 1)
        as (l & El & _); [lia | by apply (obst_eq_in_grid (world s)) |].
      rewrite El in E. done.
    + injection E as <-. destruct (Hr ex w1 eq_refl) as [-> Hn]. split; [done | by auto].
Qed.

Lemma walk_raise k w nd acc ex : walk k w nd acc = Raise ex → ex = AttributeError.
Proof.
  revert nd acc. induction k as [|k IH]; intros nd acc; simpl; [done|].
  destruct nd as [p|]; [apply IH | by intros [= <-]].
Qed.

(** The painting loop keeps End and raises nothing but the
    [SystemExit] of a [QUIT] event. *)
Lemma paint_loop_outcome fuel inputs n i todo w r w' rest :
  paint_loop fuel inputs n i todo w = Some (r, w', rest) →
  END w' = END w
  ∧ match r with
    | Ok _ => True
    | Raise ex => ex = SystemExit ∧ ¬ no_quit inputs
    end.
Proof.
  revert inputs i todo w. induction fuel as [|fuel IH]; intros inputs i todo w.
  { destruct todo; simpl; [|done]. by intros [= <- <- <-]. }
  destruct todo as [|p todo]; simpl; [by intros [= <- <- <-]|].
  pose proof (poll_quit inputs) as Hq. pose proof (poll_quit_now inputs) as Hq0.
  destruct (poll inputs) as [evs rest0]. cbn [fst snd] in Hq, Hq0.
  pose proof (core_eq_handle_input_running evs w) as Hh.
  pose proof (handle_input_running_raise evs w) as Hr.
  destruct (handle_input_running evs w) as [[b|ex] w1]; cbn [snd] in Hh.
  - destruct Hh as (_ & _ & _ & _ & C5 & _).
    destruct (PAUSED w1).
    + intros H. destruct (IH _ _ _ _ H) as [H1 H2]. split; [congruence|].
      destruct r as [|ex]; [done|]. destruct H2 as [-> H2]. split; [done | by auto].
    + intros H. destruct (IH _ _ _ _ H) as [H1 H2]. split.
      * rewrite H1. destruct (QUICK_MODE _); [done|].
        destruct (core_eq_draw_screen (make_path p (Gradient i n) w1))
          as (_ & _ & _ & _ & D5 & _).
        rewrite D5. done.
      * destruct r as [|ex]; [done|]. destruct H2 as [-> H2]. split; [done | by auto].
  - intros [= <- <- <-]. destruct Hh as (_ & _ & _ & _ & C5 & _). split; [done|].
    destruct (Hr ex w1 eq_refl) as [-> Hn]. split; [done | by auto].
Qed.




(** ** No path is reported only when there is none *)

Lemma world_inv_nonneg st w c g :
  world_inv st w → in_grid w c → g_score (node w c) = Fin g → 0 ≤ g.
Proof.
  intros (I1 & I2 & I3 & I4 & I5 & I6 & I7) Hc Hg.
  destruct (decide (c = st)) as [->|Hne].
  { rewrite I4 in Hg. injection Hg as <-. done. }
  destruct (parent_node (node w c)) as [p|] eqn:Hp.
  - destruct (I6 c p Hc Hp) as (_ & _ & _ & _ & gp & gc & _ & E2 & E3 & E4).
    rewrite Hg in E2. injection E2 as <-. lia.
  - rewrite (I7 c Hc Hne Hp) in Hg. done.
Qed.

(** A cell of the grid is reached, or its cost is infinite. *)
Lemma world_inv_reached_or_inf st w c :
  world_inv st w → in_grid w c → reached w c ∨ g_score (node w c) = Inf.
Proof.
  intros Hw Hc. destruct (g_score (node w c)) as [g|] eqn:Hg; [left | by right].
  exists g. split; [done|]. by eapply world_inv_nonneg.
Qed.

Lemma adjacent4_axial a p : adjacent4 a p ↔ axial 1 a.1 a.2 p.
Proof. unfold adjacent4, axial. lia. Qed.

(** The cell has an entry in the queue. *)
Definition queued (s : Search) (c : pos) : Prop := ∃ x, x ∈ active s ∧ e_node x = c.

(** All neighbours of the cell that are no obstacles are reached. *)
Definition closed (w : World) (c : pos) : Prop :=
  ∀ n, passable w n → adjacent4 c n → reached w n.

(** What holds between two iterations: a reached cell is in the queue
    or has all its neighbours reached; a cell that is not reached is
    neither green nor red nor Start; and End, once reached, is in the
    queue. *)
Definition front_inv (e : pos) (s : Search) : Prop :=
  (∀ c, passable (world s) c → reached (world s) c → queued s c ∨ closed (world s) c)
  ∧ (∀ c, in_grid (world s) c → g_score (node (world s) c) = Inf →
          marked (world s) c = false)
  ∧ (reached (world s) e → queued s e).

(** The same while the neighbours of [cur] are relaxed. *)
Definition round_inv (e cur : pos) (s : Search) : Prop :=
  (∀ c, passable (world s) c → reached (world s) c → c ≠ cur →
        queued s c ∨ closed (world s) c)
  ∧ (∀ c, in_grid (world s) c → g_score (node (world s) c) = Inf →
          marked (world s) c = false)
  ∧ (reached (world s) e → queued s e).

Lemma same_grid_passable w w' c : same_grid w w' → passable w' c ↔ passable w c.
Proof.
  intros Hg. unfold passable. rewrite (same_grid_in_grid w w' c Hg).
  destruct Hg as (_ & _ & _ & _ & _ & Hq). by rewrite Hq.
Qed.

Lemma relax_reached current s nb q :
  reached (world s) current → reached (world s) q →
  reached (world (relax current s nb)) q.
Proof.
  intros (gc & Hgc & Hc0) (g & Hg & H0).
  destruct (relax_g_score current s nb q) as [E|(-> & E & _)].
  - exists g. split; [congruence | done].
  - exists (gc + 1). split; [|lia]. rewrite E. unfold cand. by rewrite Hgc.
Qed.

Lemma relax_reaches st current s nb :
  world_inv st (world s) → reached (world s) current →
  in_grid (world s) nb → is_obstacle (world s) nb = false →
  reached (world (relax current s nb)) nb.
Proof.
  intros Hw (gc & Hgc & Hc0) Hnb Ho.
  destruct (world_inv_reached_or_inf st (world s) nb Hw Hnb) as [Hr|Hinf].
  { apply relax_reached; [by exists gc | done]. }
  unfold relax. rewrite Ho. cbn [negb]. rewrite Hgc, Hinf. cbn [num_add num_ltb].
  exists (gc + 1). split; [|lia].
  destruct (negb _ && negb _); cbn [world]; unfold make_active;
    by rewrite !node_set_node_eq.
Qed.

Lemma relax_queued current s nb c : queued s c → queued (relax current s nb) c.
Proof.
  intros (x & Hx & Ec). exists x. split; [|done].
  destruct (relax_spec current s nb)
    as [->|(_ & _ & _ & _ & _ & _ & _ & _ & [(-> & _)|(-> & _)])]; [done | done |].
  apply elem_of_app. by left.
Qed.

Lemma relax_round_inv st e current s nb :
  relax_inv st current s → in_grid (world s) nb → round_inv e current s →
  round_inv e current (relax current s nb).
Proof.
  intros ([Hw _] & Hcg & Hco & Hcr) Hnb (R1 & R2 & R3).
  pose proof (relax_same_grid current s nb) as Hsg.
  pose proof (relax_reaches st current s nb Hw Hcr Hnb) as Hreaches.
  assert (Hmono : ∀ q, reached (world s) q → reached (world (relax current s nb)) q)
    by (intros q; by apply relax_reached).
  assert (Hclosed : ∀ c, closed (world s) c → closed (world (relax current s nb)) c).
  { intros c Hc n Hn Hadj. apply Hmono. apply Hc; [|done].
    by apply (same_grid_passable (world s) _ n Hsg). }
  (* a cell whose cost was infinite and is not any more has been put *)
  assert (Hput : g_score (node (world s) nb) = Inf →
                 reached (world (relax current s nb)) nb →
                 queued (relax current s nb) nb).
  { intros Hinf Hr. pose proof (R2 nb Hnb Hinf) as Hm. unfold marked in Hm.
    apply orb_false_iff in Hm as [Ha Hv].
    destruct (relax_cases current s nb)
      as [E|[(_ & _ & [Ha'|Hv'] & _)|(_ & _ & _ & _ & E)]]; [|congruence|congruence|].
    - rewrite E in Hr. destruct Hr as (g & Hg & _). congruence.
    - rewrite E. unfold queued. cbn [active]. eexists. split.
      + apply elem_of_app. right. apply list_elem_of_singleton. reflexivity.
      + reflexivity. }
  assert (Hsame : ∀ c, c ≠ nb → node (world (relax current s nb)) c = node (world s) c).
  { intros c Hc.
    destruct (relax_spec current s nb) as [->|(_ & _ & _ & Hq & _)]; [done | by apply Hq]. }
  split_and!.
  - intros c Hc Hr Hne. apply (same_grid_passable _ _ c Hsg) in Hc as Hc0.
    destruct Hc0 as [Hcin _].
    destruct (world_inv_reached_or_inf st (world s) c Hw Hcin) as [Hr0|Hinf].
    + destruct (R1 c) as [Hq|Hcl]; [by apply (same_grid_passable _ _ c Hsg) | done | done | |].
      * left. by apply relax_queued.
      * right. by apply Hclosed.
    + left. destruct (decide (c = nb)) as [->|Hcn]; [by apply Hput|].
      destruct Hr as (g & Hg & _). rewrite Hsame in Hg by done. congruence.
  - intros c Hc Hinf. apply (same_grid_in_grid _ _ c Hsg) in Hc.
    destruct (relax_cases current s nb) as [E|Hcases].
    { rewrite E in Hinf |- *. by apply R2. }
    assert (Hcn : c ≠ nb).
    { intros ->. destruct Hcr as (gc & Hgc & _).
      assert (E : g_score (node (world (relax current s nb)) nb) = Fin (gc + 1)).
      { destruct Hcases as [(_ & _ & _ & ->)|(_ & _ & _ & _ & ->)]; cbn [world];
          unfold make_active, cand; rewrite !node_set_node_eq; cbn [relaxed paint g_score];
          by rewrite Hgc. }
      congruence. }
    rewrite Hsame in Hinf by done. rewrite <- (R2 c Hc Hinf).
    destruct Hsg as (_ & _ & S3 & _).
    unfold marked, is_active, is_visited, is_start. by rewrite Hsame, S3.
  - intros Hr. destruct (g_score (node (world s) e)) as [g|] eqn:Hge.
    + destruct (decide (e = nb)) as [->|Hen].
      * apply relax_queued, R3. exists g. split; [done|]. by eapply world_inv_nonneg.
      * apply relax_queued, R3. destruct Hr as (g' & Hg' & H0).
        rewrite Hsame in Hg' by done. exists g'. split; congruence.
    + destruct (decide (e = nb)) as [->|Hen]; [by apply Hput|].
      destruct Hr as (g' & Hg' & _). rewrite Hsame in Hg' by done. congruence.
Qed.

(** A round of relaxations reaches every neighbour that is no
    obstacle. *)
Lemma round_closed st e current nbs s :
  relax_inv st current s → round_inv e current s →
  (∀ nb, nb ∈ nbs → in_grid (world s) nb ∧ adjacent4 current nb) →
  let s' := foldl (relax current) s nbs in
  relax_inv st current s' ∧ round_inv e current s'
  ∧ (∀ q, reached (world s) q → reached (world s') q)
  ∧ ∀ n, n ∈ nbs → is_obstacle (world s) n = false → reached (world s') n.
Proof.
  revert s. induction nbs as [|x l IH]; intros s Hri Hro Hnbs; cbn [foldl].
  { split_and!; try done. by intros n ?%elem_of_nil. }
  destruct (Hnbs x) as [Hx Hadj]; [left|].
  pose proof (relax_same_grid current s x) as Hsg.
  pose proof Hri as ([Hw _] & _ & _ & Hcr).
  destruct (IH (relax current s x)) as (I1 & I2 & I3 & I4).
  - by apply relax_inv_step.
  - by eapply relax_round_inv.
  - intros nb Hnb. destruct (Hnbs nb) as [H1 H2]; [by right|]. split; [|done].
    by apply (same_grid_in_grid (world s)).
  - split_and!; try done.
    + intros q Hq. apply I3. by apply relax_reached.
    + intros n [->|Hn]%elem_of_cons Ho.
      * apply I3. by eapply relax_reaches.
      * apply I4; [done|]. destruct Hsg as (_ & _ & _ & _ & _ & Hq). by rewrite Hq.
Qed.

Lemma obst_eq_passable w w' c : obst_eq w w' → passable w' c ↔ passable w c.
Proof. intros H. by apply same_grid_passable, obst_eq_same_grid. Qed.

Lemma obst_eq_reached_iff w w' c : obst_eq w w' → reached w' c ↔ reached w c.
Proof.
  intros (_ & _ & _ & _ & _ & Hq). unfold reached.
  destruct (Hq c) as (_ & -> & _). done.
Qed.

Lemma obst_eq_closed w w' c : obst_eq w w' → closed w c → closed w' c.
Proof.
  intros He Hc n Hn Hadj. apply (obst_eq_reached_iff w w' n He).
  apply Hc; [|done]. by apply (obst_eq_passable w w' n He).
Qed.

(** What the loop of a search keeps true, from iteration to
    iteration. *)
Definition complete_inv (st e : pos) (s : Search) : Prop :=
  search_inv st s ∧ END (world s) = Some e ∧ front_inv e s.

(** The state in which a round of relaxations starts: the least entry
    [m] has left the queue and its cell is marked as visited. *)
Lemma round_start st e s w1 e0 q0 m q :
  complete_inv st e s →
  active s = e0 :: q0 → core_eq (world s) w1 → extract_min e0 q0 = (m, q) →
  is_end w1 (e_node m) = false →
  let s1 := mkSearch (make_visited (e_node m) w1) q (index s) (puts s) in
  obst_eq (world s) (world s1)
  ∧ relax_inv st (e_node m) s1 ∧ round_inv e (e_node m) s1
  ∧ (∀ c, c ≠ e_node m → queued s c → queued s1 c).
Proof.
  intros (Hinv & He & F1 & F2 & F3) Ha Hc Hm Hend s1.
  pose proof (iter_relax_visited st s w1 e0 q0 m q Hinv Ha Hc Hm) as Hv.
  destruct (extract_min_spec _ _ _ _ Hm) as (Hin & _ & Hsub & Hall).
  rewrite <- Ha in Hin, Hsub, Hall.
  pose proof Hinv as [Hw Hk]. destruct (Hk m Hin) as (K1 & K2 & K3).
  set (cur := e_node m) in *.
  assert (Hcur : cur ≠ e).
  { intros Hce. unfold is_end in Hend. apply bool_decide_eq_false in Hend.
    destruct Hc as (_ & _ & _ & _ & C5 & _). apply Hend. congruence. }
  assert (Hrest : ∀ c, c ≠ cur → queued s c → queued s1 c).
  { intros c Hne (x & Hx & Ex). exists x. split; [|done]. unfold s1. cbn [active].
    destruct (Hall x Hx) as [->|Hxq]; [done | done]. }
  split; [exact Hv|]. split; [|split; [|exact Hrest]].
  - unfold relax_inv, s1. cbn [world]. split_and!.
    + split; cbn [world active]; [by eapply obst_eq_world_inv|].
      eapply obst_eq_queue_ok; [done|]. intros x Hx. apply Hk.
      by eapply elem_of_sublist.
    + by apply (obst_eq_in_grid (world s)).
    + destruct Hv as (_ & _ & _ & _ & _ & Vq). destruct (Vq cur) as (-> & _). done.
    + by eapply obst_eq_reached.
  - unfold round_inv. split_and!.
    + intros c Hp Hr Hne. apply (obst_eq_passable _ _ c Hv) in Hp.
      apply (obst_eq_reached_iff _ _ c Hv) in Hr.
      destruct (F1 c Hp Hr) as [Hq|Hcl]; [left; by apply Hrest|].
      right. by eapply obst_eq_closed.
    + intros c Hcin Hinf. apply (obst_eq_in_grid _ _ c Hv) in Hcin.
      assert (Hinf0 : g_score (node (world s) c) = Inf).
      { destruct Hv as (_ & _ & _ & _ & _ & Vq). destruct (Vq c) as (_ & <- & _). done. }
      assert (Hne : c ≠ cur).
      { intros ->. destruct K3 as (g & Hg & _). congruence. }
      rewrite <- (F2 c Hcin Hinf0). rewrite <- (core_eq_marked _ _ c Hc).
      unfold s1. cbn [world]. unfold make_visited. destruct (negb _); [|done].
      unfold marked, is_active, is_visited, is_start. cbn [START set_node with_nodes].
      by rewrite node_set_node_ne.
    + intros Hr. apply (obst_eq_reached_iff _ _ e Hv) in Hr.
      apply Hrest; [done | by apply F3].
Qed.

Lemma step_on_complete_inv st e s s' :
  step_on s s' → complete_inv st e s → complete_inv st e s'.
Proof.
  intros Hstep Hci. pose proof Hci as (Hinv & He & F1 & F2 & F3).
  pose proof (step_on_iter s s' Hstep) as Hi.
  split; [by eapply iter_search_inv|].
  split; [destruct (iter_END_ALG s s' Hi) as (-> & _); done|].
  destruct Hstep as [w1 Hc|w1 e0 q0 m q nbs Ha Hc Hm Hend Hnb].
  - pose proof (core_eq_obst_eq _ _ Hc) as Ho.
    split_and!; cbn [world active].
    + intros c Hp Hr. apply (obst_eq_passable _ _ c Ho) in Hp.
      apply (obst_eq_reached_iff _ _ c Ho) in Hr.
      destruct (F1 c Hp Hr) as [Hq|Hcl]; [by left | right; by eapply obst_eq_closed].
    + intros c Hcin Hinf. apply (obst_eq_in_grid _ _ c Ho) in Hcin.
      rewrite (core_eq_marked _ _ c Hc). apply F2; [done|].
      destruct Ho as (_ & _ & _ & _ & _ & Hq). destruct (Hq c) as (_ & <- & _). done.
    + intros Hr. apply (obst_eq_reached_iff _ _ e Ho) in Hr. by apply F3.
  - destruct (round_start st e s w1 e0 q0 m q Hci Ha Hc Hm Hend)
      as (Hv & Hri & Hro & Hrest).
    set (cur := e_node m) in *.
    set (s1 := mkSearch (make_visited cur w1) q (index s) (puts s)) in *.
    destruct (get_neighbours_axial (make_visited cur w1) cur 1) as (l & El & Hl);
      [lia | by apply Hri |].
    rewrite El in Hnb. injection Hnb as <-.
    destruct (round_closed st e cur l s1 Hri Hro) as (R1 & (Q1 & Q2 & Q3) & Rm & Rc).
    { intros nb Hnb. apply Hl in Hnb as [H1 H2]. split; [done|].
      by apply adjacent4_axial. }
    pose proof (foldl_relax_same_grid cur l s1) as Hsg.
    split_and!; [|done|done].
    intros c Hp Hr. destruct (decide (c = cur)) as [->|Hne]; [|by apply Q1].
    right. intros n Hn Hadj.
    apply (same_grid_passable _ _ n Hsg) in Hn as [Hnin Hno].
    apply Rc; [|done]. apply Hl. split; [done|]. by apply adjacent4_axial.
Qed.

Lemma rtc_step_on_complete_inv st e s s' :
  rtc step_on s s' → complete_inv st e s → complete_inv st e s'.
Proof.
  induction 1 as [|s1 s2 s3 H12 _ IH]; [done|].
  intros H. apply IH. by eapply step_on_complete_inv.
Qed.

(** No cell of the grid other than Start is green or red: no search
    has left its marks. *)
Definition unmarked (w : World) : Prop :=
  ∀ c, in_grid w c → START w ≠ Some c →
       color (node w c) ≠ GREEN ∧ color (node w c) ≠ RED.

Lemma search_init_complete_inv w st e s0 w0 :
  search_ready w st e → st ≠ e → in_grid w e → unmarked w →
  search_init w = (Ok s0, w0) → complete_inv st e s0.
Proof.
  intros (Hs & He & Hg & Ho & Hinf) Hne Heg Hun Hi.
  destruct (search_init_search_inv w st e s0 w0 Hs He Hg Ho Hinf Hi) as (Hinv0 & G0 & Ha0).
  destruct (search_init_spec w st e Hs He) as (w' & E & G & Hn).
  rewrite E in Hi. injection Hi as <- <-.
  pose proof G as (G1 & G2 & G3 & G4 & G5 & _).
  assert (Hgrid : ∀ q, in_grid w' q ↔ in_grid w q).
  { intros q. unfold in_grid. by rewrite G1, G2. }
  assert (Hcost : ∀ c, in_grid w' c → c ≠ st → g_score (node w' c) = Inf).
  { intros c Hc Hcs. rewrite Hn. apply Hgrid in Hc. rewrite decide_False by done.
    rewrite (bool_decide_eq_true_2 _ Hc). cbn [initialised g_score id]. by apply Hinf. }
  split; [done|]. split; [cbn [world]; congruence|].
  split_and!; cbn [world active].
  - intros c [Hc _] (g & Hgc & _). left.
    destruct (decide (c = st)) as [->|Hcs].
    + eexists. split; [by apply list_elem_of_singleton | done].
    + rewrite Hcost in Hgc by done. done.
  - intros c Hc Hci.
    assert (Hcs : c ≠ st).
    { intros ->. rewrite Hn in Hci. rewrite decide_True in Hci by done. done. }
    apply Hgrid in Hc. destruct (Hun c Hc) as [U1 U2]; [congruence|].
    unfold marked, is_active, is_visited, is_start. rewrite G4, Hs.
    assert (Ecol : color (node w' c) = color (node w c)).
    { rewrite Hn. rewrite decide_False by done. by rewrite (bool_decide_eq_true_2 _ Hc). }
    rewrite Ecol.
    rewrite !bool_decide_eq_false_2; [done | congruence | done | done].
  - intros (g & Hge & _). exfalso.
    rewrite Hcost in Hge; [done | by apply Hgrid | done].
Qed.

Lemma route_start_or_free (free : pos → Prop) a b : route free a b → b = a ∨ free b.
Proof. intros [|q r _ _ Hr]; [by left | by right]. Qed.

(** Once the queue is empty, every cell that can be reached from Start
    is reached. *)
Lemma complete_inv_reaches st e s :
  complete_inv st e s → active s = [] →
  ∀ c, route (passable (world s)) st c → reached (world s) c.
Proof.
  intros ([Hw _] & _ & F1 & _) Ha c Hroute.
  pose proof Hw as (I1 & I2 & I3 & I4 & _).
  induction Hroute as [|q r Hq IH Hadj Hr].
  { exists 0. by split. }
  assert (Hpq : passable (world s) q).
  { destruct (route_start_or_free _ _ _ Hq) as [->|Hf]; [by split | done]. }
  destruct (F1 q Hpq IH) as [(x & Hx & _)|Hcl].
  - rewrite Ha in Hx. by apply elem_of_nil in Hx.
  - by apply Hcl.
Qed.

(** [find_path] prints that there is no path only after its loop
    emptied the queue. *)
Lemma find_path_no_path fuel inputs w run :
  find_path fuel inputs w = Some run → MsgNoPath ∈ printed run →
  ∃ s0 w0 s1 rest,
    search_init w = (Ok s0, w0) ∧ search_loop fuel inputs s0 = (Exhausted s1, rest).
Proof.
  unfold find_path.
  destruct (search_init w) as [[s0|ex] w0]; [|by intros [= <-] ?%elem_of_nil].
  destruct (search_loop fuel inputs s0) as [[[r1 w1]|s1|s1|ex w1|] rest] eqn:El.
  - intros [= <-]. cbn [printed]. by intros ?%list_elem_of_singleton.
  - destruct (draw_path fuel rest (world s1)) as [[[[[]|ex] w2] rest2]|]; [| |done].
    + destruct (reset_grid 1 (draw_screen w2)) as [r w3].
      intros [= <-]. cbn [printed]. by intros ?%list_elem_of_singleton.
    + intros [= <-]. cbn [printed]. by intros ?%list_elem_of_singleton.
  - intros _ _. by exists s0, w0, s1, rest.
  - intros [= <-]. cbn [printed]. by intros ?%elem_of_nil.
  - done.
Qed.

(** After the loop emptied the queue, no route leads from Start to
    End. *)
Lemma search_exhausted_no_route w st e fuel inputs s0 w0 s1 rest :
  search_ready w st e → st ≠ e → in_grid w e → unmarked w →
  search_init w = (Ok s0, w0) → search_loop fuel inputs s0 = (Exhausted s1, rest) →
  ¬ route (passable w) st e.
Proof.
  intros Hready Hne Heg Hun Hi Hl Hpath.
  pose proof (search_loop_steps fuel inputs s0) as Hsteps. rewrite Hl in Hsteps.
  cbn [fst] in Hsteps. destruct Hsteps as [Hr Ha].
  pose proof (search_init_complete_inv w st e s0 w0 Hready Hne Heg Hun Hi) as Hc0.
  pose proof (rtc_step_on_complete_inv st e s0 s1 Hr Hc0) as Hc1.
  assert (Hsg : same_grid w (world s1)).
  { destruct Hready as (Hs & He & _).
    eapply same_grid_trans; [by eapply search_init_same_grid|].
    eapply rtc_iter_same_grid; [by apply rtc_step_on_iter | apply Hc0]. }
  assert (Hroute : route (passable (world s1)) st e).
  { eapply route_mono; [|exact Hpath]. intros p Hp.
    by apply (same_grid_passable w (world s1)). }
  pose proof (complete_inv_reaches st e s1 Hc1 Ha e Hroute) as Hre.
  destruct Hc1 as (_ & _ & _ & _ & F3).
  destruct (F3 Hre) as (x & Hx & _). rewrite Ha in Hx. by apply elem_of_nil in Hx.
Qed.

(** Called on a ready grid without marks of an earlier search, and
    with End a cell of the grid other than Start, [find_path] prints
    that there is no path only if there is none: no list of 4-adjacent
    cells of the grid that are no obstacles leads from Start to End.
    This holds for each of the three algorithms. *)
Theorem no_path_complete (w : World) (st e : pos) (fuel : nat)
    (inputs : list (list Event)) (run : Run) :
  search_ready w st e → st ≠ e → in_grid w e → unmarked w →
  find_path fuel inputs w = Some run → MsgNoPath ∈ printed run →
  ¬ ∃ path, is_path w st e path.
Proof.
  intros Hready Hne Heg Hun Hrun Hmsg Hpath.
  destruct (find_path_no_path fuel inputs w run Hrun Hmsg) as (s0 & w0 & s1 & rest & Hi & Hl).
  apply (search_exhausted_no_route w st e fuel inputs s0 w0 s1 rest); try done.
  by apply route_is_path.
Qed.

(** Costs and marks of a grid, read off its table of nodes. *)
Lemma costs_by_nodes w :
  map_Forall (λ _ n, g_score n = Inf) (nodes w) → ∀ q, g_score (node w q) = Inf.
Proof.
  intros Hall q. unfold node. rewrite lookup_total_alt.
  destruct (nodes w !! q) as [n|] eqn:E; simpl; [|done]. by apply (Hall q n).
Qed.

Lemma unmarked_by_nodes w :
  map_Forall (λ _ n, color n ≠ GREEN ∧ color n ≠ RED) (nodes w) → unmarked w.
Proof.
  intros Hall q _ _. unfold node. rewrite lookup_total_alt.
  destruct (nodes w !! q) as [n|] eqn:E; simpl; [|done]. by apply (Hall q n).
Qed.

(** The row of three cells with an obstacle between Start and End. *)
Definition row3_blocked : World := make_obstacle (0, 1) row3.

(** The theorem for the blocked row, where the search prints that
    there is no path. *)
Lemma no_path_complete_witness : ¬ ∃ path, is_path row3_blocked (0, 0) (0, 2) path.
Proof.
  apply (no_path_complete row3_blocked (0, 0) (0, 2) 10 []
           (default (mkRun (Ok tt) [] row3_blocked) (find_path 10 [] row3_blocked))).
  - split_and!.
    + vm_compute. reflexivity.
    + vm_compute. reflexivity.
    + split; vm_compute; split; congruence.
    + vm_compute. reflexivity.
    + intros q _ _. apply costs_by_nodes.
      apply map_Forall_to_list. vm_compute. repeat constructor.
  - discriminate.
  - split; vm_compute; split; congruence.
  - apply unmarked_by_nodes. apply map_Forall_to_list. vm_compute.
    repeat (apply Forall_cons; split; [simpl; split; discriminate|]). constructor.
  - vm_compute. reflexivity.
  - assert (E : printed (default (mkRun (Ok tt) [] row3_blocked)
                                 (find_path 10 [] row3_blocked))
                = [MsgNoPath]) by (vm_compute; reflexivity).
    rewrite E. left.
Defined.

(** ** Dijkstra's search finds a shortest path *)

(** Every neighbour that is no obstacle costs at most one more than
    the cell. *)
Definition tight (w : World) (c : pos) : Prop :=
  ∀ n, passable w n → adjacent4 c n →
       ∃ gn gc, g_score (node w n) = Fin gn ∧ g_score (node w c) = Fin gc ∧ gn ≤ gc + 1.

Lemma obst_eq_tight w w' c : obst_eq w w' → tight w c → tight w' c.
Proof.
  intros He Hc n Hn Hadj. apply (obst_eq_passable w w' n He) in Hn.
  destruct (Hc n Hn Hadj) as (gn & gc & E1 & E2 & E3). exists gn, gc.
  destruct He as (_ & _ & _ & _ & _ & Hq).
  destruct (Hq n) as (_ & -> & _), (Hq c) as (_ & -> & _). done.
Qed.

(** With Dijkstra's order a relaxation changes no finite cost. *)
Lemma relax_level_frame L current s nb q g :
  level_inv L s → g_score (node (world s) current) = Fin L → in_grid (world s) nb →
  g_score (node (world s) q) = Fin g →
  g_score (node (world (relax current s nb)) q) = Fin g.
Proof.
  intros (_ & D2 & _) Hcur Hnb Hg.
  destruct (relax_g_score current s nb q) as [E|(-> & E & Hlt)]; [congruence|].
  exfalso. unfold num_lt in Hlt. rewrite E, Hg in Hlt. unfold cand in Hlt.
  rewrite Hcur in Hlt. cbn [num_add num_ltb] in Hlt. apply Z.ltb_lt in Hlt.
  specialize (D2 nb g Hnb Hg). lia.
Qed.

Lemma relax_put_fresh current s nb :
  marked (world s) nb = false → g_score (node (world s) nb) = Inf →
  reached (world (relax current s nb)) nb → queued (relax current s nb) nb.
Proof.
  intros Hm Hinf Hr. unfold marked in Hm. apply orb_false_iff in Hm as [Ha Hv].
  destruct (relax_cases current s nb)
    as [E|[(_ & _ & [Ha'|Hv'] & _)|(_ & _ & _ & _ & E)]]; [|congruence|congruence|].
  - rewrite E in Hr. destruct Hr as (g & Hg & _). congruence.
  - rewrite E. unfold queued. cbn [active]. eexists. split.
    + apply elem_of_app. right. apply list_elem_of_singleton. reflexivity.
    + reflexivity.
Qed.

(** During a round, every reached cell other than [cur] is in the
    queue or tight. *)
Definition round_tight (cur : pos) (s : Search) : Prop :=
  ∀ c, passable (world s) c → reached (world s) c → c ≠ cur →
       queued s c ∨ tight (world s) c.

Lemma relax_round_tight st e L current s nb :
  relax_inv st current s → round_inv e current s →
  level_inv L s → g_score (node (world s) current) = Fin L → in_grid (world s) nb →
  round_tight current s → round_tight current (relax current s nb).
Proof.
  intros ([Hw _] & _ & _ & Hcr) (_ & R2 & _) HL Hcur Hnb HT c Hc Hr Hne.
  pose proof (relax_same_grid current s nb) as Hsg.
  apply (same_grid_passable _ _ c Hsg) in Hc as Hc0. pose proof Hc0 as [Hcin _].
  destruct (world_inv_reached_or_inf st (world s) c Hw Hcin) as [Hr0|Hinf].
  - destruct (HT c Hc0 Hr0 Hne) as [Hq|Ht]; [left; by apply relax_queued|].
    right. intros n Hn Hadj. apply (same_grid_passable _ _ n Hsg) in Hn.
    destruct (Ht n Hn Hadj) as (gn & gc & E1 & E2 & E3). exists gn, gc.
    split_and!; [by eapply relax_level_frame | by eapply relax_level_frame | done].
  - left. destruct (decide (c = nb)) as [->|Hcn].
    + apply relax_put_fresh; [by apply R2 | done | done].
    + destruct Hr as (g & Hg & _).
      destruct (relax_spec current s nb) as [E|(_ & _ & _ & Hq & _)].
      * rewrite E in Hg. congruence.
      * rewrite Hq in Hg by done. congruence.
Qed.

Lemma obst_eq_level_inv L w2 s q :
  obst_eq (world s) w2 → (∀ x, x ∈ q → x ∈ active s) →
  level_inv L s → level_inv L (mkSearch w2 q (index s) (puts s)).
Proof.
  intros Hv Hsub (D1 & D2 & D3 & D4).
  pose proof Hv as (V1 & V2 & V3 & V4 & V5 & Vq).
  assert (Hgrid : ∀ x, in_grid w2 x ↔ in_grid (world s) x)
    by (intros; by apply obst_eq_in_grid).
  assert (Hg : ∀ x, g_score (node w2 x) = g_score (node (world s) x))
    by (intros x; apply Vq).
  assert (Hp : ∀ x, parent_node (node w2 x) = parent_node (node (world s) x))
    by (intros x; apply Vq).
  split_and!; cbn [world active].
  - congruence.
  - intros c g Hcg Hgc. rewrite Hgrid in Hcg. rewrite Hg in Hgc. by eapply D2.
  - intros x Hx. rewrite Hg. by apply D3, Hsub.
  - intros c p Hcg Hpc. rewrite Hgrid in Hcg. rewrite Hp in Hpc. rewrite !Hg. by apply D4.
Qed.

Lemma level_inv_raise L L' s :
  L ≤ L' → (∀ x, x ∈ active s → ∀ g, e_score x = Fin g → L' ≤ g) →
  level_inv L s → level_inv L' s.
Proof.
  intros HLL Hq (D1 & D2 & D3 & D4). split_and!; [done | | | done].
  - intros c g Hc Hg. specialize (D2 c g Hc Hg). lia.
  - intros x Hx. destruct (D3 x Hx) as (g & E1 & E2 & E3). exists g.
    split_and!; [done | by apply (Hq x Hx) | done].
Qed.

(** What the loop of Dijkstra's search keeps true. *)
Definition shortest_inv (st e : pos) (s : Search) : Prop :=
  complete_inv st e s ∧ dijkstra_inv s
  ∧ ∀ c, passable (world s) c → reached (world s) c → queued s c ∨ tight (world s) c.

Lemma step_on_shortest_inv st e s s' :
  step_on s s' → shortest_inv st e s → shortest_inv st e s'.
Proof.
  intros Hstep (Hci & Hd & HT).
  pose proof (step_on_iter s s' Hstep) as Hi.
  pose proof (step_on_complete_inv st e s s' Hstep Hci) as Hci'.
  pose proof Hci as (Hinv & _).
  split; [done|]. split; [by eapply iter_dijkstra_inv|].
  destruct Hstep as [w1 Hc|w1 e0 q0 m q nbs Ha Hc Hm Hend Hnb].
  - pose proof (core_eq_obst_eq _ _ Hc) as Ho. cbn [world].
    intros c Hp Hr. apply (obst_eq_passable _ _ c Ho) in Hp.
    apply (obst_eq_reached_iff _ _ c Ho) in Hr.
    destruct (HT c Hp Hr) as [Hq|Ht]; [by left | right; by eapply obst_eq_tight].
  - destruct (round_start st e s w1 e0 q0 m q Hci Ha Hc Hm Hend)
      as (Hv & Hri & Hro & Hrest).
    destruct (extract_min_spec _ _ _ _ Hm) as (Hin & Hle & Hsub & _).
    rewrite <- Ha in Hin, Hle, Hsub.
    destruct Hd as [L HL]. pose proof HL as (_ & _ & D3 & _).
    destruct (D3 m Hin) as (gm & Em & HLm & Egm).
    set (cur := e_node m) in *.
    set (s1 := mkSearch (make_visited cur w1) q (index s) (puts s)) in *.
    unfold s1 in Hv. cbn [world] in Hv.
    assert (HL1 : level_inv gm s1).
    { apply (level_inv_raise L gm); [done| |].
      - unfold s1. cbn [active]. intros x Hx g Hg.
        assert (Hx' : x ∈ active s) by (by eapply elem_of_sublist).
        by eapply entry_leb_score; [apply Hle | |].
      - apply obst_eq_level_inv; [done | | done].
        intros x Hx. by eapply elem_of_sublist. }
    assert (Hg1 : g_score (node (world s1) cur) = Fin gm).
    { unfold s1. cbn [world]. destruct Hv as (_ & _ & _ & _ & _ & Vq).
      destruct (Vq cur) as (_ & -> & _). done. }
    assert (HT1 : round_tight cur s1).
    { intros c Hp Hr Hne. unfold s1 in Hp, Hr. cbn [world] in Hp, Hr.
      apply (obst_eq_passable _ _ c Hv) in Hp.
      apply (obst_eq_reached_iff _ _ c Hv) in Hr.
      destruct (HT c Hp Hr) as [Hq|Ht]; [left; by apply Hrest|].
      right. unfold s1. cbn [world]. by eapply obst_eq_tight. }
    destruct (get_neighbours_axial (make_visited cur w1) cur 1) as (l & El & Hl);
      [lia | by apply Hri |].
    rewrite El in Hnb. injection Hnb as <-.
    assert (Hnbs : ∀ nb, nb ∈ l → in_grid (world s1) nb ∧ adjacent4 cur nb).
    { intros nb Hnb. apply Hl in Hnb as [H1 H2]. split; [done|].
      by apply adjacent4_axial. }
    destruct (round_closed st e cur l s1 Hri Hro Hnbs) as (_ & _ & _ & Rc).
    set (I := λ s2 : Search,
           relax_inv st cur s2 ∧ round_inv e cur s2 ∧ level_inv gm s2
           ∧ g_score (node (world s2) cur) = Fin gm
           ∧ same_grid (world s1) (world s2) ∧ round_tight cur s2).
    assert (HI : I (foldl (relax cur) s1 l)).
    { apply foldl_relax_ind.
      - unfold I. by split_and!.
      - intros s2 nb Hnb (J1 & J2 & J3 & J4 & J5 & J6).
        destruct (Hnbs nb Hnb) as [Hnin Hadj].
        apply (same_grid_in_grid _ _ nb J5) in Hnin.
        destruct (relax_level_inv gm cur s2 nb Hnin J4 J3) as [R1 R2].
        unfold I. split_and!.
        + by apply relax_inv_step.
        + by eapply relax_round_inv.
        + done.
        + done.
        + eapply same_grid_trans; [exact J5 | apply relax_same_grid].
        + by eapply relax_round_tight. }
    destruct HI as (_ & _ & (_ & D2' & _) & Hg' & Hsg & HT').
    intros c Hp Hr. destruct (decide (c = cur)) as [->|Hne]; [|by apply HT'].
    right. intros n Hn Hadj.
    apply (same_grid_passable _ _ n Hsg) in Hn as Hn1. destruct Hn1 as [Hnin Hno].
    destruct (Rc n) as (gn & Egn & _); [by apply Hl; split; [|apply adjacent4_axial] | done |].
    exists gn, gm. split_and!; [done | done |].
    apply (D2' n gn); [by destruct Hn | done].
Qed.

Lemma rtc_step_on_shortest_inv st e s s' :
  rtc step_on s s' → shortest_inv st e s → shortest_inv st e s'.
Proof.
  induction 1 as [|s1 s2 s3 H12 _ IH]; [done|].
  intros H. apply IH. by eapply step_on_shortest_inv.
Qed.

Lemma search_init_shortest_inv w st e s0 w0 :
  search_ready w st e → st ≠ e → in_grid w e → unmarked w → ALG w = DJIKSTRA →
  search_init w = (Ok s0, w0) → shortest_inv st e s0.
Proof.
  intros Hready Hne Heg Hun HA Hi.
  pose proof (search_init_complete_inv w st e s0 w0 Hready Hne Heg Hun Hi) as Hci.
  destruct Hready as (Hs & He & Hg & Ho & Hinf).
  split; [done|]. split; [by eapply search_init_dijkstra_inv|].
  destruct Hci as (_ & _ & F1 & _).
  destruct (search_init_search_inv w st e s0 w0 Hs He Hg Ho Hinf Hi) as (_ & _ & Ha0).
  intros c Hp Hr. destruct (F1 c Hp Hr) as [Hq|Hcl]; [by left|]. left.
  (* at the start only Start is reached *)
  destruct (search_init_spec w st e Hs He) as (w' & E & G & Hn).
  rewrite E in Hi. injection Hi as <- <-. cbn [world] in *.
  destruct (decide (c = st)) as [->|Hcs].
  - eexists. split; [by apply list_elem_of_singleton | done].
  - exfalso. destruct Hr as (g & Hgc & _). destruct Hp as [Hc _].
    rewrite Hn in Hgc. rewrite decide_False in Hgc by done.
    assert (Hc0 : in_grid w c).
    { destruct G as (G1 & G2 & _). unfold in_grid in *. by rewrite <- G1, <- G2. }
    rewrite (bool_decide_eq_true_2 _ Hc0) in Hgc. cbn [initialised g_score id] in Hgc.
    rewrite Hinf in Hgc by done. done.
Qed.

(** In the state in which End is the least entry of the queue, no path
    from Start is shorter than the cost of its last cell, unless it is
    at least as long as the cost of End. *)
Lemma shortest_inv_paths st e s m gm :
  shortest_inv st e s →
  m ∈ active s → e_score m = Fin gm → (∀ x, x ∈ active s → entry_leb m x = true) →
  ∀ path b, is_path (world s) st b path →
    (∃ gb, g_score (node (world s) b) = Fin gb ∧ gb ≤ Z.of_nat (length path))
    ∨ gm ≤ Z.of_nat (length path).
Proof.
  intros (([Hw _] & _) & [L (_ & _ & D3 & _)] & HT) Hm Em Hle.
  pose proof Hw as (I1 & I2 & I3 & I4 & _).
  induction path as [|c path IH] using rev_ind; intros b.
  - intros (_ & H & _). injection H as <-. left. exists 0. by split.
  - intros (H1 & H2 & H3).
    change (st :: path ++ [c]) with ((st :: path) ++ [c]) in H1, H2.
    rewrite last_snoc in H2. injection H2 as <-.
    apply contiguous_snoc in H1 as [H1 Hadj].
    destruct (last (st :: path)) as [b'|] eqn:El.
    2:{ by apply last_None in El. }
    specialize (Hadj b' eq_refl).
    assert (Hc : passable (world s) c).
    { apply H3. apply elem_of_app. right. by apply list_elem_of_singleton. }
    assert (Hpath' : is_path (world s) st b' path).
    { split_and!; [done | done |]. intros x Hx. apply H3. apply elem_of_app. by left. }
    assert (Hb' : passable (world s) b').
    { destruct path as [|p0 path0] using rev_ind.
      - injection El as <-. by split.
      - change (st :: path0 ++ [p0]) with ((st :: path0) ++ [p0]) in El.
        rewrite last_snoc in El. injection El as <-.
        apply H3. apply elem_of_app. left. apply elem_of_app. right.
        by apply list_elem_of_singleton. }
    rewrite length_app. cbn [length].
    destruct (IH b' Hpath') as [(gb & Egb & Hgb)|Hlong]; [|right; lia].
    assert (Hrb : reached (world s) b').
    { exists gb. split; [done|]. destruct Hb' as [Hbin _]. by eapply world_inv_nonneg. }
    destruct (HT b' Hb' Hrb) as [(x & Hx & Ex)|Ht].
    + right. destruct (D3 x Hx) as (gx & Egx & _ & Egx'). rewrite Ex in Egx'.
      assert (gx = gb) as -> by congruence.
      pose proof (entry_leb_score m x gm gb (Hle x Hx) Em Egx). lia.
    + left. destruct (Ht c Hc Hadj) as (gn & gc & E1 & E2 & E3).
      exists gn. split; [done|]. assert (gc = gb) by congruence. lia.
Qed.

(** With Dijkstra's algorithm, on a ready grid without marks of an
    earlier search and with End a cell of the grid other than Start,
    the length that [find_path] prints is the length of a shortest
    path: a path of that many steps leads from Start to End through
    cells of the grid that are no obstacles, and no such path is
    shorter. *)
Theorem dijkstra_shortest (w : World) (st e : pos) (fuel : nat)
    (inputs : list (list Event)) (run : Run) (len : Num) :
  search_ready w st e → st ≠ e → in_grid w e → unmarked w → ALG w = DJIKSTRA →
  find_path fuel inputs w = Some run → MsgPathFound len ∈ printed run →
  ∃ g, len = Fin g
       ∧ (∃ path, is_path w st e path ∧ Z.of_nat (length path) = g)
       ∧ ∀ path, is_path w st e path → g ≤ Z.of_nat (length path).
Proof.
  intros Hready Hne Heg Hun HA Hrun Hmsg.
  destruct (find_path_found fuel inputs w run len Hrun Hmsg)
    as (s0 & w0 & s1 & rest & Hi & Hl & Hlen).
  destruct (found_state_path w st e fuel inputs s0 w0 s1 rest Hready Hi Hl)
    as (g & path0 & He1 & Hge & Hpath0 & Hlen0).
  rewrite He1, Hge in Hlen. subst len.
  pose proof (search_init_shortest_inv w st e s0 w0 Hready Hne Heg Hun HA Hi) as Hs0.
  pose proof (search_loop_steps fuel inputs s0) as Hsteps. rewrite Hl in Hsteps.
  cbn [fst] in Hsteps.
  destruct Hsteps as (s' & Hr & w1 & e0 & q0 & m & q & Ha & Hc & Hm & Hend & ->).
  pose proof (rtc_step_on_shortest_inv st e s0 s' Hr Hs0) as Hs'.
  destruct (extract_min_spec _ _ _ _ Hm) as (Hin & Hle & _).
  rewrite <- Ha in Hin, Hle.
  pose proof Hs' as ((Hinv' & He' & _) & [L (_ & _ & D3 & _)] & _).
  destruct (D3 m Hin) as (gm & Em & _ & Egm).
  assert (Hme : e_node m = e).
  { unfold is_end in Hend. apply bool_decide_eq_true in Hend.
    destruct Hc as (_ & _ & _ & _ & C5 & _). congruence. }
  assert (gm = g) as ->.
  { cbn [world] in Hge. destruct Hc as (_ & _ & _ & _ & _ & Cq).
    destruct (Cq e) as (_ & Eg & _). rewrite Eg, <- Hme, Egm in Hge. by injection Hge. }
  assert (Hsg : same_grid w (world s')).
  { destruct Hready as (Hs & He & _).
    eapply same_grid_trans; [by eapply search_init_same_grid|].
    eapply rtc_iter_same_grid; [by apply rtc_step_on_iter | apply Hs0]. }
  assert (Hopt : ∀ path, is_path w st e path → g ≤ Z.of_nat (length path)).
  { intros path (P1 & P2 & P3).
    assert (Hp' : is_path (world s') st e path).
    { split_and!; [done | done |]. intros c Hc'.
      by apply (same_grid_passable w (world s') c Hsg), P3. }
    destruct (shortest_inv_paths st e s' m g Hs' Hin Em Hle path e Hp')
      as [(gb & Egb & Hgb)|Hlong]; [|done].
    rewrite <- Hme, Egm in Egb. injection Egb as <-. done. }
  exists g. split; [done|]. split; [|done].
  exists path0. split; [done|]. specialize (Hopt path0 Hpath0). lia.
Qed.

Lemma grid5_unmarked alg : unmarked (grid5 alg).
Proof.
  apply unmarked_by_nodes. apply map_Forall_to_list.
  destruct alg; vm_compute;
    repeat (apply Forall_cons; split; [simpl; split; discriminate|]); constructor.
Qed.

(** The theorem for Dijkstra's search on the open 5 × 5 grid, which
    prints the length 8. *)
Lemma dijkstra_shortest_witness :
  ∃ g, Fin 8 = Fin g
       ∧ (∃ path, is_path (grid5 DJIKSTRA) (0, 0) (4, 4) path ∧ Z.of_nat (length path) = g)
       ∧ ∀ path, is_path (grid5 DJIKSTRA) (0, 0) (4, 4) path → g ≤ Z.of_nat (length path).
Proof.
  apply (dijkstra_shortest (grid5 DJIKSTRA) (0, 0) (4, 4) 100 []
           (default (mkRun (Ok tt) [] (grid5 DJIKSTRA)) (find_path 100 [] (grid5 DJIKSTRA)))
           (Fin 8)).
  - apply grid5_ready.
  - discriminate.
  - split; vm_compute; split; congruence.
  - apply grid5_unmarked.
  - reflexivity.
  - vm_compute. reflexivity.
  - assert (E : printed (default (mkRun (Ok tt) [] (grid5 DJIKSTRA))
                                 (find_path 100 [] (grid5 DJIKSTRA)))
                = [MsgPathFound (Fin 8)]) by (vm_compute; reflexivity).
    rewrite E. left.
Defined.

(** ** A search leaves the grid ready for the next one *)

(** An obstacle of the grid carries no cost. *)
Lemma world_inv_obstacle st w c :
  world_inv st w → in_grid w c → is_obstacle w c = true → g_score (node w c) = Inf.
Proof.
  intros (I1 & I2 & I3 & I4 & I5 & I6 & I7) Hc Ho.
  destruct (parent_node (node w c)) as [p|] eqn:Hp.
  - destruct (I6 c p Hc Hp) as (_ & _ & Hoc & _). congruence.
  - apply I7; [done | | done]. intros ->. congruence.
Qed.

(** The cells of a chain of parent links that ends at a cell of the
    grid which is no obstacle are all cells of the grid and no
    obstacles. *)
Lemma linked_free st w chain e :
  world_inv st w → linked w chain → last chain = Some e →
  in_grid w e → is_obstacle w e = false →
  ∀ c, c ∈ chain → in_grid w c ∧ is_obstacle w c = false.
Proof.
  intros (_ & _ & _ & _ & _ & I6 & _) Hl Hlast He Ho.
  induction chain as [|a chain IH]; [by intros c ?%elem_of_nil|].
  destruct chain as [|b chain].
  - injection Hlast as ->. by intros c ->%list_elem_of_singleton.
  - destruct Hl as [Hab Hl].
    assert (Hrest : ∀ c, c ∈ b :: chain → in_grid w c ∧ is_obstacle w c = false)
      by (by apply IH).
    destruct (Hrest b) as [Hb _]; [left|].
    destruct (I6 b a Hb Hab) as (Ha & _ & _ & Hoa & _).
    intros c [->|Hc]%elem_of_cons; [done | by apply Hrest].
Qed.

(** What the painting loop does when it ends normally: the cells of
    the path get colours of the gradient, and nothing else changes but
    refresh flags and toggles. *)
Lemma paint_loop_spec fuel inputs n i todo w w' rest :
  paint_loop fuel inputs n i todo w = Some (Ok tt, w', rest) →
  ROWS w' = ROWS w ∧ COLUMNS w' = COLUMNS w ∧ ALG w' = ALG w
  ∧ START w' = START w ∧ END w' = END w
  ∧ (∀ q, g_score (node w' q) = g_score (node w q)
          ∧ h_score (node w' q) = h_score (node w q)
          ∧ parent_node (node w' q) = parent_node (node w q))
  ∧ (∀ q, q ∉ todo → color (node w' q) = color (node w q))
  ∧ (∀ q, (∃ j, color (node w q) = Gradient j n) ∨ q ∈ todo →
          ∃ j, color (node w' q) = Gradient j n).
Proof.
  revert inputs i todo w. induction fuel as [|fuel IH]; intros inputs i todo w.
  { destruct todo; simpl; [|done]. intros [= <- <-]. split_and!; try done.
    intros q [Hq|Hq]; [done | by apply elem_of_nil in Hq]. }
  destruct todo as [|p todo]; simpl.
  { intros [= <- <-]. split_and!; try done.
    intros q [Hq|Hq]; [done | by apply elem_of_nil in Hq]. }
  destruct (poll inputs) as [evs rest0].
  pose proof (core_eq_handle_input_running evs w) as Hh.
  destruct (handle_input_running evs w) as [[b|ex] w1]; cbn [snd] in Hh; [|done].
  destruct Hh as (C1 & C2 & C3 & C4 & C5 & Cq).
  destruct (PAUSED w1).
  - intros H. destruct (IH _ _ _ _ H) as (H1 & H2 & H3 & H4 & H5 & H6 & H7 & H8).
    split_and!; try congruence.
    + intros q. destruct (H6 q) as (-> & -> & ->), (Cq q) as (_ & -> & -> & ->). done.
    + intros q Hq. rewrite H7 by done. apply Cq.
    + intros q Hq. apply H8. destruct Hq as [[j Hj]|Hq]; [left|by right].
      exists j. destruct (Cq q) as (-> & _). done.
  - set (w2 := make_path p (Gradient i n) w1).
    set (w3 := if QUICK_MODE w1 then w2 else draw_screen w2).
    assert (H23 : core_eq w2 w3).
    { unfold w3. destruct (QUICK_MODE w1); [apply core_eq_refl | apply core_eq_draw_screen]. }
    destruct H23 as (D1 & D2 & D3 & D4 & D5 & Dq).
    assert (Hn2 : ∀ q, node w2 q = if decide (p = q) then paint (Gradient i n) (node w1 p)
                                   else node w1 q).
    { intros q. unfold w2, make_path. apply node_set_node. }
    intros H. destruct (IH _ _ _ _ H) as (H1 & H2 & H3 & H4 & H5 & H6 & H7 & H8).
    assert (E2 : ROWS w2 = ROWS w1 ∧ COLUMNS w2 = COLUMNS w1 ∧ ALG w2 = ALG w1
                 ∧ START w2 = START w1 ∧ END w2 = END w1) by (by split_and!).
    destruct E2 as (E21 & E22 & E23 & E24 & E25).
    split_and!; try congruence.
    + intros q. destruct (H6 q) as (-> & -> & ->), (Dq q) as (_ & -> & -> & ->).
      rewrite Hn2. destruct (Cq q) as (_ & <- & <- & <-).
      by destruct (decide (p = q)) as [->|].
    + intros q Hq. apply not_elem_of_cons in Hq as [Hqp Hq].
      rewrite H7 by done. destruct (Dq q) as (-> & _). rewrite Hn2.
      rewrite decide_False by done. apply Cq.
    + intros q Hq. apply H8.
      destruct (decide (q ∈ todo)) as [Hin|Hnin]; [by right|]. left.
      destruct (Dq q) as (-> & _). rewrite Hn2.
      destruct (decide (p = q)) as [->|Hpq]; [by eexists|].
      destruct Hq as [[j Hj]|Hq].
      * exists j. destruct (Cq q) as (-> & _). done.
      * apply elem_of_cons in Hq as [->|Hq]; done.
Qed.

(** The mode-1 reset after a search: what it leaves. *)
Lemma reset_after_search st e w :
  world_inv st w → END w = Some e → st ≠ e →
  let w' := (reset_grid 1 w).2 in
  (reset_grid 1 w).1 = Ok tt
  ∧ search_ready w' st e ∧ same_grid w w'
  ∧ (∀ c, in_grid w c → c ≠ st → c ≠ e → is_obstacle w c = false →
          color (node w' c) = WHITE)
  ∧ color (node w' e) = color (node w e).
Proof.
  intros Hw He Hne w'.
  pose proof Hw as (I1 & I2 & I3 & I4 & I5 & I6 & I7).
  destruct (reset_grid_1_nodes w e He) as (R & R1 & R2 & R3 & R4 & R5 & _ & _ & _ & Hn).
  fold w' in R1, R2, R3, R4, R5, Hn.
  assert (Hend : node w' e = clear_end (node w e)).
  { apply node_lookup. rewrite Hn. by rewrite decide_True. }
  assert (Hsoft : ∀ q, q ≠ e → in_grid w q → soft w q = true → node w' q = cleared (node w q)).
  { intros q Hqe Hq Hs. apply node_lookup. rewrite Hn. rewrite decide_False by done.
    rewrite bool_decide_eq_true_2 by (by apply elem_of_all_nodes). by rewrite Hs. }
  assert (Hkeep : ∀ q, q ≠ e → ¬ (in_grid w q ∧ soft w q = true) → node w' q = node w q).
  { intros q Hqe Hq. apply node_lookup_eq. rewrite Hn. rewrite decide_False by done.
    destruct (bool_decide (q ∈ all_nodes w)) eqn:Eb; [|done].
    apply bool_decide_eq_true in Eb. apply elem_of_all_nodes in Eb.
    destruct (soft w q) eqn:Es; [|done]. exfalso. by apply Hq. }
  assert (Hst : node w' st = node w st).
  { apply Hkeep; [done|]. intros [_ Hs]. unfold soft, is_start in Hs.
    rewrite (bool_decide_eq_true_2 _ I1) in Hs. done. }
  assert (Hobs : ∀ q, is_obstacle w' q = is_obstacle w q).
  { intros q. unfold is_obstacle. destruct (decide (q = e)) as [->|Hqe].
    { by rewrite Hend. }
    destruct (decide (in_grid w q ∧ soft w q = true)) as [[Hq Hs]|Hns].
    - rewrite Hsoft by done. cbn [cleared color].
      unfold soft in Hs. apply andb_true_iff in Hs as [_ Hs].
      apply negb_true_iff in Hs. unfold is_obstacle in Hs. by rewrite Hs.
    - by rewrite Hkeep. }
  split; [done|]. split; [|split; [|split]].
  - unfold search_ready. split; [congruence|]. split; [congruence|].
    split; [unfold in_grid; by rewrite R1, R2|]. split; [by rewrite Hobs|].
    intros q Hq Hqs. assert (Hq0 : in_grid w q).
    { unfold in_grid in *. by rewrite <- R1, <- R2. }
    destruct (decide (q = e)) as [->|Hqe]; [by rewrite Hend|].
    destruct (soft w q) eqn:Es; [by rewrite Hsoft|].
    rewrite Hkeep; [|done|intros [_ ?]; congruence].
    unfold soft in Es. apply andb_false_iff in Es as [Es|Es].
    + apply andb_false_iff in Es as [Es|Es]; apply negb_false_iff in Es.
      * unfold is_start in Es. apply bool_decide_eq_true in Es. congruence.
      * unfold is_end in Es. apply bool_decide_eq_true in Es. congruence.
    + apply negb_false_iff in Es. by eapply world_inv_obstacle.
  - by split_and!.
  - intros c Hc Hcs Hce Hco. rewrite Hsoft; [done | done | done |].
    unfold soft, is_start, is_end. rewrite Hco.
    rewrite !bool_decide_eq_false_2; [done | congruence | congruence].
  - by rewrite Hend.
Qed.

Lemma ready_after st e w w_pre r wf :
  same_grid w w_pre → world_inv st w_pre → END w_pre = Some e → st ≠ e →
  reset_grid 1 w_pre = (r, wf) →
  r = Ok tt ∧ search_ready wf st e ∧ same_grid w wf
  ∧ (∀ c, in_grid w c → c ≠ st → c ≠ e → is_obstacle w c = false →
          color (node wf c) = WHITE)
  ∧ (color (node w_pre e) ≠ GREEN ∧ color (node w_pre e) ≠ RED → unmarked wf).
Proof.
  intros Hsg Hw He Hne Hreset.
  destruct (reset_after_search st e w_pre Hw He Hne) as (R & Hready & Hsg' & Hwhite & Hcol).
  rewrite Hreset in R, Hready, Hsg', Hwhite, Hcol. cbn [fst snd] in *.
  assert (Hsgf : same_grid w wf) by (by eapply same_grid_trans).
  assert (Hwh : ∀ c, in_grid w c → c ≠ st → c ≠ e → is_obstacle w c = false →
                     color (node wf c) = WHITE).
  { intros c Hc Hcs Hce Hco. apply Hwhite; [by apply (same_grid_in_grid w) | done | done |].
    destruct Hsg as (_ & _ & _ & _ & _ & Hq). by rewrite Hq. }
  split_and!; try done.
  intros [He1 He2] c Hc Hcs.
  destruct Hready as (Hs & _).
  assert (Hcst : c ≠ st) by congruence.
  destruct (decide (c = e)) as [->|Hce]; [by rewrite Hcol|].
  apply (same_grid_in_grid w wf c Hsgf) in Hc.
  destruct (is_obstacle w c) eqn:Ho.
  - destruct Hsgf as (_ & _ & _ & _ & _ & Hq). rewrite <- Hq in Ho.
    unfold is_obstacle in Ho. apply bool_decide_eq_true in Ho. by rewrite Ho.
  - by rewrite Hwh.
Qed.

(** The state in which the loop reads the cancel key. *)
Lemma search_loop_cancelled fuel inputs s r wf rest :
  search_loop fuel inputs s = (Cancelled (r, wf), rest) →
  ∃ s' w1, rtc step_on s s' ∧ core_eq (world s') w1 ∧ reset_grid 1 w1 = (r, wf).
Proof.
  revert inputs s. induction fuel as [|fuel IH]; intros inputs s; [done|].
  cbn [search_loop].
  destruct (active s) as [|e0 q0] eqn:Ha; [done|].
  destruct (poll inputs) as [evs rest0].
  destruct (search_iteration evs s e0 q0) as [s'|r0] eqn:E.
  - intros H. destruct (IH rest0 s' H) as (s2 & w1 & Hr & Hc & Hreset).
    exists s2, w1. split; [|done]. eapply rtc_l; [|exact Hr].
    by eapply search_iteration_step.
  - intros [= -> ->]. exists s. unfold search_iteration in E.
    pose proof (core_eq_handle_input_running evs (world s)) as Hh.
    destruct (handle_input_running evs (world s)) as [[[]|ex] w1]; cbn [snd] in Hh.
    + injection E as E. exists w1. by split_and!.
    + destruct (PAUSED w1); [done|]. destruct (extract_min e0 q0) as [m q].
      destruct (is_end _ _); [done|]. by destruct (get_neighbours _ _ _).
    + done.
Qed.

Lemma found_cost_positive st e w :
  world_inv st w → st ≠ e → in_grid w e → reached w e →
  ∃ g, g_score (node w e) = Fin g ∧ 1 ≤ g.
Proof.
  intros (I1 & I2 & I3 & I4 & I5 & I6 & I7) Hne He (g & Hg & H0).
  exists g. split; [done|].
  destruct (parent_node (node w e)) as [p|] eqn:Hp.
  - destruct (I6 e p He Hp) as (_ & _ & _ & _ & gp & gc & _ & E2 & E3 & E4).
    rewrite Hg in E2. injection E2 as <-. lia.
  - rewrite I7 in Hg; [done | done | congruence | done].
Qed.

(** When [find_path] returns normally from a ready grid, the grid is
    ready again: Start, End, the size and the obstacles are as they
    were, no cell but Start carries a cost, and every other cell that
    is neither End nor an obstacle is white.  Unless the search was
    cancelled, a grid without green and red cells is left without
    them, End included. *)
Theorem find_path_leaves_ready (w : World) (st e : pos) (fuel : nat)
    (inputs : list (list Event)) (run : Run) :
  search_ready w st e → st ≠ e → in_grid w e →
  find_path fuel inputs w = Some run → returned run = Ok tt →
  search_ready (final run) st e ∧ same_grid w (final run)
  ∧ (∀ c, in_grid w c → c ≠ st → c ≠ e → is_obstacle w c = false →
          color (node (final run) c) = WHITE)
  ∧ (unmarked w → MsgCancelled ∉ printed run → unmarked (final run)).
Proof.
  intros Hready Hne Heg Hrun Hret.
  pose proof Hready as (Hs & He & Hg & Ho & Hinf).
  destruct (search_init_spec w st e Hs He) as (w' & E & G & Hnode).
  set (s0 := mkSearch w' [mkEntry (score w' st) 0 st] 0 [mkEntry (score w' st) 0 st]) in *.
  destruct (search_init_search_inv w st e s0 w' Hs He Hg Ho Hinf E) as (Hinv0 & _ & _).
  pose proof (search_init_same_grid w st e s0 w' Hs He E) as Hsg0.
  assert (Hstate : ∀ s1, rtc step_on s0 s1 →
            search_inv st s1 ∧ same_grid w (world s1) ∧ END (world s1) = Some e).
  { intros s1 Hr. apply rtc_step_on_iter in Hr.
    pose proof (rtc_iter_same_grid st s0 s1 Hr Hinv0) as Hsg1.
    assert (Hsg : same_grid w (world s1)) by (by eapply same_grid_trans).
    split; [by eapply rtc_iter_search_inv|]. split; [done|].
    destruct Hsg as (_ & _ & _ & -> & _). done. }
  pose proof (search_loop_steps fuel inputs s0) as Hsteps.
  pose proof (search_loop_cancelled fuel inputs s0) as Hcancel.
  pose proof (search_found_state w st e fuel inputs s0 w') as Hfound.
  pose proof (search_loop_found st fuel inputs s0) as Hfound'.
  unfold find_path in Hrun. rewrite E in Hrun.
  destruct (search_loop fuel inputs s0) as [[[r1 w1]|s1|s1|ex w1|] rest];
    cbn [fst] in Hsteps.
  - (* cancelled *)
    injection Hrun as <-. cbn [returned final printed] in *.
    destruct (Hcancel r1 w1 rest eq_refl) as (s' & wc & Hr & Hc & Hreset).
    destruct (Hstate s' Hr) as ([Hw' _] & Hsg' & He').
    pose proof (core_eq_obst_eq _ _ Hc) as Hoc.
    destruct (ready_after st e w wc r1 w1) as (_ & R1 & R2 & R3 & _); try done.
    + eapply same_grid_trans; [exact Hsg' | by apply obst_eq_same_grid].
    + by eapply obst_eq_world_inv.
    + destruct Hc as (_ & _ & _ & _ & -> & _). done.
    + split_and!; try done. intros _ Hno. exfalso. apply Hno. left.
  - (* found *)
    specialize (Hfound s1 rest Hready E eq_refl).
    destruct Hfound as (Hw1 & Hsg1 & Heg1 & Hre).
    destruct (found_cost_positive st e (world s1) Hw1 Hne Heg1 Hre) as (g & Hge & Hg1).
    assert (He1 : END (world s1) = Some e).
    { destruct Hsg1 as (_ & _ & _ & -> & _). done. }
    unfold draw_path, path_walk in Hrun. rewrite He1, Hge in Hrun.
    destruct (walk (Z.to_nat g) (world s1) (Some e) []) as [[path nd]|ex] eqn:Ew.
    2:{ injection Hrun as <-. done. }
    destruct (paint_loop fuel rest (length path) 0 path (world s1))
      as [[[r2 w2] rest2]|] eqn:Ep; [|done].
    destruct r2 as [[]|ex]; [|injection Hrun as <-; done].
    destruct (reset_grid 1 (draw_screen w2)) as [r w3] eqn:Hreset.
    injection Hrun as <-. cbn [returned final printed] in *.
    destruct (walk_spec _ _ _ _ _ _ Ew) as (chain & -> & Hlen & Hlk & Hlast & _).
    rewrite app_nil_r in *.
    assert (Hlast' : last chain = Some e).
    { destruct (last chain) as [a|] eqn:El.
      - specialize (Hlast a eq_refl). congruence.
      - apply last_None in El. subst chain. simpl in Hlen. lia. }
    assert (Hoe : is_obstacle (world s1) e = false).
    { destruct Hw1 as (_ & _ & _ & _ & _ & I6 & I7).
      destruct (parent_node (node (world s1) e)) as [p|] eqn:Hp.
      - by destruct (I6 e p Heg1 Hp) as (_ & _ & ? & _).
      - rewrite I7 in Hge; [done | done | congruence | done]. }
    pose proof (linked_free st (world s1) chain e Hw1 Hlk Hlast' Heg1 Hoe) as Hfree.
    destruct (paint_loop_spec _ _ _ _ _ _ _ _ Ep) as (P1 & P2 & P3 & P4 & P5 & P6 & P7 & P8).
    assert (Hob : obst_eq (world s1) w2).
    { split_and!; try done. intros q. destruct (P6 q) as (-> & -> & ->).
      split_and!; try done. unfold is_obstacle.
      destruct (decide (q ∈ chain)) as [Hin|Hnin]; [|by rewrite P7].
      destruct (P8 q) as [j Hj]; [by right|]. rewrite Hj.
      destruct (Hfree q Hin) as [_ Hfq]. unfold is_obstacle in Hfq. by rewrite Hfq. }
    pose proof (core_eq_obst_eq _ _ (core_eq_draw_screen w2)) as Hod.
    destruct (ready_after st e w (draw_screen w2) r w3) as (_ & R1 & R2 & R3 & R4); try done.
    + eapply same_grid_trans; [exact Hsg1|].
      eapply same_grid_trans; by apply obst_eq_same_grid.
    + eapply obst_eq_world_inv; [exact Hod|]. by eapply obst_eq_world_inv.
    + destruct Hod as (_ & _ & _ & _ & -> & _). congruence.
    + split_and!; try done. intros _ _. apply R4.
      destruct (core_eq_draw_screen w2) as (_ & _ & _ & _ & _ & Dq).
      destruct (Dq e) as (-> & _).
      destruct (P8 e) as [j Hj]; [right; by apply last_Some_elem_of|].
      rewrite Hj. done.
  - (* exhausted *)
    destruct Hsteps as [Hr Ha].
    destruct (reset_grid 1 (draw_screen (world s1))) as [r w2] eqn:Hreset.
    injection Hrun as <-. cbn [returned final printed] in *.
    destruct (Hstate s1 Hr) as ([Hw1 _] & Hsg1 & He1).
    pose proof (core_eq_obst_eq _ _ (core_eq_draw_screen (world s1))) as Hod.
    destruct (ready_after st e w (draw_screen (world s1)) r w2) as (_ & R1 & R2 & R3 & R4);
      try done.
    + eapply same_grid_trans; [exact Hsg1 | by apply obst_eq_same_grid].
    + by eapply obst_eq_world_inv.
    + destruct Hod as (_ & _ & _ & _ & -> & _). done.
    + split_and!; try done. intros Hun _. apply R4.
      pose proof (search_init_complete_inv w st e s0 w' Hready Hne Heg Hun E) as Hc0.
      pose proof (rtc_step_on_complete_inv st e s0 s1 Hr Hc0) as Hc1.
      assert (Hinf1 : g_score (node (world s1) e) = Inf).
      { destruct (world_inv_reached_or_inf st (world s1) e Hw1) as [Hre|Hi]; [| |done].
        - by apply (same_grid_in_grid w).
        - destruct Hc1 as (_ & _ & _ & _ & F3). destruct (F3 Hre) as (x & Hx & _).
          rewrite Ha in Hx. by apply elem_of_nil in Hx. }
      destruct Hc1 as (_ & _ & _ & F2 & _).
      assert (Hm : marked (world s1) e = false).
      { apply F2; [by apply (same_grid_in_grid w) | done]. }
      destruct (core_eq_draw_screen (world s1)) as (_ & _ & _ & _ & _ & Dq).
      destruct (Dq e) as (-> & _).
      unfold marked, is_active, is_visited in Hm.
      apply orb_false_iff in Hm as [Hm1 Hm2]. apply orb_false_iff in Hm2 as [Hm2 _].
      apply bool_decide_eq_false in Hm1, Hm2. done.
  - injection Hrun as <-. done.
  - done.
Qed.

(** The theorem for an A* search on the open 5 × 5 grid. *)
Lemma find_path_leaves_ready_witness :
  let run := default (mkRun (Ok tt) [] (grid5 A_STAR)) (find_path 100 [] (grid5 A_STAR)) in
  search_ready (final run) (0, 0) (4, 4) ∧ same_grid (grid5 A_STAR) (final run)
  ∧ (∀ c, in_grid (grid5 A_STAR) c → c ≠ (0, 0) → c ≠ (4, 4) →
          is_obstacle (grid5 A_STAR) c = false → color (node (final run) c) = WHITE)
  ∧ (unmarked (grid5 A_STAR) → MsgCancelled ∉ printed run → unmarked (final run)).
Proof.
  intros run.
  apply (find_path_leaves_ready (grid5 A_STAR) (0, 0) (4, 4) 100 [] run).
  - apply grid5_ready.
  - discriminate.
  - split; vm_compute; split; congruence.
  - vm_compute. reflexivity.
  - vm_compute. reflexivity.
Defined.

(** ** Searching a generated maze *)

(** A generated maze is ready for a search and carries no marks. *)
Lemma maze_finish_ready wM :
  maze_inv wM [] → 1 ≤ ROWS wM → 1 ≤ COLUMNS wM → 2 ≤ ROWS wM ∨ 3 ≤ COLUMNS wM →
  let w' := maze_finish wM in
  let e := maze_end_cell wM in
  search_ready w' (0, 0) e ∧ (0, 0) ≠ e ∧ in_grid w' e ∧ unmarked w'.
Proof.
  intros HM HR HC Hdim w' e.
  destruct (maze_finish_spec wM HM) as (F1 & F2 & F3 & F4 & F5 & F6 & F7 & F8); [lia | lia |].
  fold w' in F1, F2, F3, F4, F5, F7, F8. fold e in F5, F6, F7.
  destruct HM as (I1 & I2 & I3 & I4 & I5 & _).
  assert (Hne : e ≠ (0, 0)).
  { unfold e, maze_end_cell. intros [= H1 H2]. lia. }
  rewrite decide_False in F5 by done.
  assert (Hg : ∀ q, in_grid w' q ↔ in_grid wM q).
  { intros q. unfold in_grid. by rewrite F1, F2. }
  split_and!.
  - unfold search_ready. split; [done|]. split; [done|].
    split; [apply Hg; by destruct I3|]. split.
    + unfold is_obstacle. rewrite F7. by rewrite decide_True.
    + intros q Hq _. destruct (F8 q) as (-> & _). apply I5. by apply Hg.
  - congruence.
  - by apply Hg.
  - intros c Hc Hcs. rewrite F7.
    destruct (decide (c = (0, 0))); [done|]. destruct (decide (c = e)); [done|].
    apply Hg in Hc. destruct (I4 c Hc) as [-> | ->]; done.
Qed.

(** A search on a maze that [generate_maze] made on a grid with an odd
    number of rows, an even number of columns or a single column, and
    with more than two cells, never reports that there is no path. *)
Theorem maze_search_finds_path (w : World) (fuel : nat) (rng : list nat)
    (inputs : list (list Event)) (w1 : World) (fuel2 : nat)
    (inputs2 : list (list Event)) (run : Run) :
  distinct_ends w → ends_in_grid w → 1 ≤ ROWS w → 1 ≤ COLUMNS w →
  ROWS w mod 2 = 1 ∨ COLUMNS w mod 2 = 0 ∨ COLUMNS w = 1 →
  2 ≤ ROWS w ∨ 3 ≤ COLUMNS w →
  generate_maze fuel rng inputs w = Some (Ok tt, w1) →
  find_path fuel2 inputs2 w1 = Some run →
  MsgNoPath ∉ printed run.
Proof.
  intros Hd He HR HC Hpar Hdim Hmaze Hrun Hmsg.
  destruct (generate_maze_result fuel rng inputs w (Ok tt) w1 Hd He HR HC Hmaze)
    as [(? & _)|(_ & wM & -> & HM & MR & MC & MA)]; [done|].
  destruct (maze_finish_ready wM HM) as (Hready & Hne & Heg & Hun); [lia | lia | lia |].
  destruct (maze_finish_connected wM HM) as [_ Hconn]; [lia | lia |].
  destruct (find_path_no_path fuel2 inputs2 _ run Hrun Hmsg)
    as (s0 & w0 & s1 & rest & Hi & Hl).
  apply (search_exhausted_no_route _ _ _ fuel2 inputs2 s0 w0 s1 rest Hready Hne Heg Hun Hi Hl).
  apply Hconn; [by rewrite MR, MC|]. by destruct Hready as (_ & ? & _).
Qed.

(** The theorem for a Greedy search on the small maze. *)
Lemma maze_search_finds_path_witness :
  MsgNoPath ∉ printed (default (mkRun (Ok tt) [] maze_demo)
                               (find_path 100 [] (with_ALG GREEDY maze_demo))).
Proof.
  apply (maze_search_finds_path (create_nodes 3 4 GREEDY) 40 [1; 0; 2]%nat []
           (with_ALG GREEDY maze_demo) 100 []).
  - intros p Hp. vm_compute in Hp. discriminate Hp.
  - split; intros p Hp; vm_compute in Hp; discriminate Hp.
  - vm_compute. discriminate.
  - vm_compute. discriminate.
  - left. vm_compute. reflexivity.
  - left. vm_compute. discriminate.
  - vm_compute. reflexivity.
  - vm_compute. reflexivity.
Defined.

(** * The main loop *)

(** ** The state between two commands *)

(** What holds of the module state whenever the main loop reads its
    input: Start and End, when set, are distinct cells of the grid,
    Start is no obstacle, and no cell of the grid but Start carries a
    cost. *)
Definition app_inv (w : World) : Prop :=
  distinct_ends w ∧ ends_in_grid w
  ∧ (∀ st, START w = Some st → is_obstacle w st = false)
  ∧ (∀ q, in_grid w q → START w ≠ Some q → g_score (node w q) = Inf).

Lemma app_inv_ready w st e :
  app_inv w → START w = Some st → END w = Some e →
  search_ready w st e ∧ st ≠ e ∧ in_grid w e.
Proof.
  intros (Hd & [Hs He] & Ho & Hg) Est Een. split_and!.
  - unfold search_ready. split_and!; try done; [by apply Hs | by apply Ho |].
    intros q Hq Hne. apply Hg; [done | congruence].
  - intros ->. by apply (Hd e).
  - by apply He.
Qed.

Lemma node_with_START s w q : node (with_START s w) q = node w q.
Proof. done. Qed.

Lemma node_with_END e w q : node (with_END e w) q = node w q.
Proof. done. Qed.

Lemma app_inv_make_start p w :
  app_inv w → START w = None → in_grid w p → app_inv (make_start p w).
Proof.
  intros (Hd & [Hs He] & Ho & Hg) Hn Hp. unfold make_start, is_end.
  case_bool_decide as Hpe; cbn [negb]; [by split_and!|].
  set (w1 := set_node p (paint BLUE) w).
  assert (E1 : START (with_START (Some p) w1) = Some p) by done.
  assert (E2 : END (with_START (Some p) w1) = END w) by done.
  assert (Hgrid : ∀ q, in_grid (with_START (Some p) w1) q ↔ in_grid w q) by done.
  split_and!.
  - intros q. rewrite E1, E2. intros [= <-]. done.
  - split; intros q; rewrite ?E1, ?E2.
    + intros [= <-]. by apply Hgrid.
    + intros Hq. apply Hgrid. by apply He.
  - intros st. rewrite E1. intros [= <-]. unfold is_obstacle.
    rewrite node_with_START. unfold w1. by rewrite node_set_node_eq.
  - intros q Hq. rewrite E1. intros Hne. rewrite node_with_START. unfold w1.
    rewrite node_set_node_ne by congruence. apply Hg; [by apply Hgrid | by rewrite Hn].
Qed.

Lemma app_inv_make_end p w : app_inv w → in_grid w p → app_inv (make_end p w).
Proof.
  intros (Hd & [Hs He] & Ho & Hg) Hp. unfold make_end, is_start.
  case_bool_decide as Hps; cbn [negb]; [by split_and!|].
  set (w1 := set_node p (paint CYAN) w).
  assert (E1 : START (with_END (Some p) w1) = START w) by done.
  assert (E2 : END (with_END (Some p) w1) = Some p) by done.
  assert (Hgrid : ∀ q, in_grid (with_END (Some p) w1) q ↔ in_grid w q) by done.
  split_and!.
  - intros q. rewrite E1, E2. intros Hq [= <-]. done.
  - split; intros q; rewrite ?E1, ?E2.
    + intros Hq. apply Hgrid. by apply Hs.
    + intros [= <-]. by apply Hgrid.
  - intros st. rewrite E1. intros Hst. unfold is_obstacle.
    rewrite node_with_END. unfold w1. rewrite node_set_node_ne by congruence. by apply Ho.
  - intros q Hq. rewrite E1. intros Hne. rewrite node_with_END. unfold w1.
    rewrite node_set_node. destruct (decide (p = q)) as [->|]; apply Hg; try done;
      by apply Hgrid.
Qed.

Lemma app_inv_make_obstacle p w : app_inv w → app_inv (make_obstacle p w).
Proof.
  intros (Hd & [Hs He] & Ho & Hg). unfold make_obstacle, is_start, is_end.
  repeat case_bool_decide; cbn [negb andb]; try (by split_and!).
  split_and!; try done.
  - intros st Hst. assert (Hne : p ≠ st) by (cbn in Hst; congruence).
    unfold is_obstacle. rewrite node_set_node_ne by done. by apply Ho.
  - intros q Hq Hne. rewrite node_set_node.
    destruct (decide (p = q)) as [->|]; by apply Hg.
Qed.

Lemma app_inv_reset p w : app_inv w → app_inv (reset p w).
Proof.
  intros (Hd & [Hs He] & Ho & Hg).
  assert (Hgrid : ∀ q, in_grid (reset p w) q ↔ in_grid w q).
  { intros q. destruct (reset_dims p w) as (R1 & R2 & _). unfold in_grid. by rewrite R1, R2. }
  split_and!.
  - intros q. rewrite reset_START, reset_END. unfold is_start, is_end.
    repeat case_bool_decide; cbn [negb andb]; try done. by apply Hd.
  - split; intros q; rewrite ?reset_START, ?reset_END; unfold is_start, is_end;
      repeat case_bool_decide; cbn [negb andb]; try done; intros Hq; apply Hgrid; auto.
  - intros st. rewrite reset_START. unfold is_start.
    case_bool_decide as Hps; [done|]. intros Hst.
    unfold is_obstacle. rewrite reset_node. rewrite decide_False by congruence.
    by apply Ho.
  - intros q Hq. rewrite reset_START. unfold is_start. rewrite reset_node.
    destruct (decide (p = q)) as [->|Hpq]; [done|].
    apply Hgrid in Hq. case_bool_decide as Hps; intros Hne; apply Hg; try done.
    congruence.
Qed.

Lemma create_nodes_spec rows columns alg :
  let w := create_nodes rows columns alg in
  ROWS w = rows ∧ COLUMNS w = columns ∧ ALG w = alg ∧ START w = None ∧ END w = None
  ∧ SHOW_MAZE_ANIM w = false ∧ PAUSED w = false ∧ QUICK_MODE w = false
  ∧ ∀ q, node w q = new_node.
Proof.
  unfold create_nodes.
  set (w0 := mkWorld rows columns alg None None ∅ false false false).
  generalize (all_nodes w0). intros l.
  assert (H0 : ROWS w0 = rows ∧ COLUMNS w0 = columns ∧ ALG w0 = alg ∧ START w0 = None
               ∧ END w0 = None ∧ SHOW_MAZE_ANIM w0 = false ∧ PAUSED w0 = false
               ∧ QUICK_MODE w0 = false ∧ ∀ q, node w0 q = new_node).
  { split_and!; try done. }
  revert H0. generalize w0. clear w0.
  induction l as [|x l IH]; intros w0 H0; cbn [foldl]; [done|].
  apply IH. destruct H0 as (? & ? & ? & ? & ? & ? & ? & ? & Hn).
  split_and!; try done. intros q. rewrite node_set_node.
  by destruct (decide (x = q)).
Qed.

(** The state in which the main loop starts. *)
Lemma app_inv_create_nodes rows columns alg : app_inv (create_nodes rows columns alg).
Proof.
  destruct (create_nodes_spec rows columns alg) as (_ & _ & _ & Hs & He & _ & _ & _ & Hn).
  split_and!.
  - intros p. by rewrite Hs.
  - split; intros p; by rewrite ?Hs, ?He.
  - intros st. by rewrite Hs.
  - intros q _ _. by rewrite Hn.
Qed.

Lemma app_inv_ext w w' :
  ROWS w' = ROWS w → COLUMNS w' = COLUMNS w → START w' = START w → END w' = END w →
  (∀ q, color (node w' q) = color (node w q) ∧ g_score (node w' q) = g_score (node w q)) →
  app_inv w → app_inv w'.
Proof.
  intros E1 E2 E3 E4 Hn (Hd & [Hs He] & Ho & Hg).
  assert (Hgrid : ∀ q, in_grid w' q ↔ in_grid w q).
  { intros q. unfold in_grid. by rewrite E1, E2. }
  split_and!.
  - intros p. rewrite E3, E4. apply Hd.
  - split; intros p; rewrite ?E3, ?E4; intros Hp; apply Hgrid; auto.
  - intros st. rewrite E3. intros Hst. unfold is_obstacle.
    destruct (Hn st) as [-> _]. by apply Ho.
  - intros q Hq. rewrite E3. intros Hne. destruct (Hn q) as [_ ->].
    apply Hg; [by apply Hgrid | done].
Qed.

Lemma app_inv_core_eq w w' : core_eq w w' → app_inv w → app_inv w'.
Proof.
  intros (C1 & C2 & _ & C4 & C5 & Cq). apply app_inv_ext; try done.
  intros q. by destruct (Cq q) as (-> & -> & _).
Qed.

(** ** Exceptions beyond those of the search *)

(** [random_grid] and [parse_args] raise two exceptions that the search
    and the maze generator never raise. *)
Inductive Exc := ValueError | ZeroDivisionError | Exc_of (e : Exn).

Inductive Outcome (A : Type) := Returns (a : A) | Raises (e : Exc).
Arguments Returns {A} a.
Arguments Raises {A} e.

Definition of_Res {A : Type} (r : Res A) : Outcome A :=
  match r with
  | Ok a => Returns a
  | Raise e => Raises (Exc_of e)
  end.

(** [a // b] on integers. *)
Definition floordiv (a b : Z) : Outcome Z :=
  if b =? 0 then Raises ZeroDivisionError else Returns (a / b).

(** ** [parse_args] *)

(** The assignments at the end of [parse_args], from the values of
    [--width], [--height] and [--ROWS] (all of them integers, by
    [type=int]); the result is [(CELL_SIZE, COLUMNS)]. *)
Definition parse_args (width height rows : Z) : Outcome (Z * Z) :=
  match floordiv height rows with
  | Raises e => Raises e
  | Returns cell_size =>
      match floordiv width cell_size with
      | Raises e => Raises e
      | Returns columns => Returns (cell_size, columns)
      end
  end.

(** ** [handle_mouse_press] *)

(** What [pygame.mouse] tells one call of [handle_mouse_press], which
    asks twice: whether the button is pressed, and the position
    [(x, y)] of the pointer. *)
Record Mouse := mkMouse {
  left_pressed : bool;
  left_pos : Z * Z;
  right_pressed : bool;
  right_pos : Z * Z
}.

(** One of the two [if pygame.mouse.get_pressed()[i]] blocks, with
    [act] for what it does to the node under the pointer. *)
Definition click (cell_size : Z) (xy : Z * Z) (act : pos → World → World) (w : World)
  : Outcome unit * World :=
  match floordiv xy.2 cell_size with
  | Raises e => (Raises e, w)
  | Returns row =>
      match floordiv xy.1 cell_size with
      | Raises e => (Raises e, w)
      | Returns column =>
          if (row <? ROWS w) && (column <? COLUMNS w) then
            match nodes_at w row column with
            | None => (Raises (Exc_of IndexError), w)
            | Some p => (Returns tt, act p w)
            end
          else (Returns tt, w)
      end
  end.

(** The left button: the first click sets Start, the next one End, and
    the clicks after that make obstacles. *)
Definition left_click (p : pos) (w : World) : World :=
  match START w, END w with
  | Some _, Some _ => make_obstacle p w
  | Some _, None => make_end p w
  | None, _ => make_start p w
  end.

Definition handle_mouse_press (cell_size : Z) (ms : Mouse) (w : World)
  : Outcome unit * World :=
  match (if left_pressed ms then click cell_size (left_pos ms) left_click w
         else (Returns tt, w)) with
  | (Raises e, w) => (Raises e, w)
  | (Returns _, w) =>
      if right_pressed ms then click cell_size (right_pos ms) reset w
      else (Returns tt, w)
  end.

(** ** [random_grid] *)

(** [randint(a, b)] with the random draw [k]. *)
Definition randint (k : nat) (a b : Z) : Outcome Z :=
  if b <? a then Raises ValueError else Returns (a + Z.of_nat k `mod` (b - a + 1)).

(** [nodes[randint(0, ROWS-1)][randint(0, COLUMNS-1)]]: the row is
    taken before the second draw. *)
Definition random_node (rng : list nat) (w : World) : Outcome pos * list nat :=
  let '(k1, rng) := draw_rng rng in
  match randint k1 0 (ROWS w - 1) with
  | Raises e => (Raises e, rng)
  | Returns i =>
      match py_index (ROWS w) i with
      | None => (Raises (Exc_of IndexError), rng)
      | Some r =>
          let '(k2, rng) := draw_rng rng in
          match randint k2 0 (COLUMNS w - 1) with
          | Raises e => (Raises e, rng)
          | Returns j =>
              match py_index (COLUMNS w) j with
              | None => (Raises (Exc_of IndexError), rng)
              | Some c => (Returns (r, c), rng)
              end
          end
      end
  end.

(** The outcomes of [random() < 0.3] still to come; once they are used
    up the test fails. *)
Definition toss (coins : list bool) : bool * list bool :=
  match coins with
  | [] => (false, [])
  | c :: coins' => (c, coins')
  end.

(** The loop that scatters the obstacles. *)
Fixpoint scatter (coins : list bool) (cells : list pos) (w : World) : World :=
  match cells with
  | [] => w
  | p :: cells' =>
      let '(c, coins') := toss coins in
      scatter coins' cells' (if c then make_obstacle p w else w)
  end.

(** The loop [while end == START]; [None] when the fuel does not cover
    it. *)
Fixpoint redraw_end (fuel : nat) (rng : list nat) (end_ : pos) (w : World)
  : option (Outcome pos) :=
  if bool_decide (START w = Some end_) then
    match fuel with
    | O => None
    | S fuel' =>
        match random_node rng w with
        | (Raises e, _) => Some (Raises e)
        | (Returns p, rng') => redraw_end fuel' rng' p w
        end
    end
  else Some (Returns end_).

Definition random_grid (fuel : nat) (coins : list bool) (rng : list nat) (w : World)
  : option (Outcome unit * World) :=
  let w := (reset_grid 0 w).2 in
  let w := scatter coins (all_nodes w) w in
  match random_node rng w with
  | (Raises e, _) => Some (Raises e, w)
  | (Returns s, rng) =>
      let w := make_start s w in
      match random_node rng w with
      | (Raises e, _) => Some (Raises e, w)
      | (Returns e0, rng) =>
          match redraw_end fuel rng e0 w with
          | None => None
          | Some (Raises e) => Some (Raises e, w)
          | Some (Returns e1) => Some (Returns tt, make_end e1 w)
          end
      end
  end.

(** ** [handle_input_normal] and [main] *)

(** What the program prints. *)
Inductive Line := Line_of (m : Message) | Set_Djikstra | Set_A_star | Set_Greedy.

(** An event of the main loop.  A key that starts a long-running
    command comes with what the environment supplies while the command
    runs: the polls of [handle_input_running] and the random draws. *)
Inductive Command :=
  | Quit
  | Space (polls : list (list Event))
  | Key_s
  | Key_q
  | Backspace
  | Key_r (coins : list bool) (rng : list nat)
  | Key_m (rng : list nat) (polls : list (list Event))
  | Key_d
  | Key_a
  | Key_g
  | Other.

(** A run of the loop body or of the whole loop: how it ended, what it
    printed, and the state it left. *)
Definition Trace : Type := Outcome unit * list Line * World.

Definition set_alg (a : Algorithm) (l : Line) (w : World) : option Trace :=
  Some (Returns tt, [l], with_ALG a w).

(** The body of the loop over the events. *)
Definition handle_event (fuel : nat) (c : Command) (w : World) : option Trace :=
  match c with
  | Quit => Some (Raises (Exc_of SystemExit), [], w)
  | Space polls =>
      match START w, END w with
      | Some _, Some _ =>
          match find_path fuel polls w with
          | None => None
          | Some run =>
              match returned run with
              | Raise e => Some (Raises (Exc_of e), map Line_of (printed run), final run)
              | Ok _ => Some (Returns tt, map Line_of (printed run),
                              with_PAUSED false (final run))
              end
          end
      | _, _ => Some (Returns tt, [], w)
      end
  | Key_s => Some (Returns tt, [], with_SHOW_MAZE_ANIM (negb (SHOW_MAZE_ANIM w)) w)
  | Key_q => Some (Returns tt, [], with_QUICK_MODE (negb (QUICK_MODE w)) w)
  | Backspace => let '(r, w1) := reset_grid 0 w in Some (of_Res r, [], w1)
  | Key_r coins rng =>
      match random_grid fuel coins rng w with
      | None => None
      | Some (r, w1) => Some (r, [], w1)
      end
  | Key_m rng polls =>
      match generate_maze fuel rng polls w with
      | None => None
      | Some (Raise e, w1) => Some (Raises (Exc_of e), [], w1)
      | Some (Ok _, w1) => Some (Returns tt, [], with_PAUSED false w1)
      end
  | Key_d => set_alg DJIKSTRA Set_Djikstra w
  | Key_a => set_alg A_STAR Set_A_star w
  | Key_g => set_alg GREEDY Set_Greedy w
  | Other => Some (Returns tt, [], w)
  end.

(** [st] first, then [k] on the state it left. *)
Definition and_then (st : option Trace) (k : World → option Trace) : option Trace :=
  match st with
  | None => None
  | Some (Raises e, out, w) => Some (Raises e, out, w)
  | Some (Returns _, out, w) =>
      match k w with
      | None => None
      | Some (r, out', w') => Some (r, out ++ out', w')
      end
  end.

Fixpoint handle_events (fuel : nat) (cs : list Command) (w : World) : option Trace :=
  match cs with
  | [] => Some (Returns tt, [], w)
  | c :: cs' => and_then (handle_event fuel c w) (handle_events fuel cs')
  end.

Definition handle_input_normal (fuel : nat) (cell_size : Z) (cs : list Command)
    (ms : Mouse) (w : World) : option Trace :=
  and_then (handle_events fuel cs w)
           (λ w, let '(r, w') := handle_mouse_press cell_size ms w in Some (r, [], w')).

(** What one round of the main loop reads. *)
Record Frame := mkFrame {
  events : list Command;
  mouse : Mouse
}.

(** The loop [while True] of [main], for as many rounds as there are
    frames: [Returns] means that the loop is still running. *)
Fixpoint main_loop (fuel : nat) (cell_size : Z) (frames : list Frame) (w : World)
  : option Trace :=
  match frames with
  | [] => Some (Returns tt, [], w)
  | fr :: frames' =>
      and_then (handle_input_normal fuel cell_size (events fr) (mouse fr) w)
               (λ w, main_loop fuel cell_size frames' (draw_screen w))
  end.

(** [main]: the arguments are parsed, the grid is made, and the loop
    runs on it. *)
Inductive Session := NoGrid (e : Exc) | Grid (cell_size : Z) (st : Trace).

Definition main (fuel : nat) (width height rows : Z) (frames : list Frame)
  : option Session :=
  match parse_args width height rows with
  | Raises e => Some (NoGrid e)
  | Returns (cell_size, columns) =>
      match main_loop fuel cell_size frames (create_nodes rows columns A_STAR) with
      | None => None
      | Some st => Some (Grid cell_size st)
      end
  end.

(** ** The mouse *)

Lemma floordiv_nonneg a b : 0 ≤ a → 1 ≤ b → ∃ q, floordiv a b = Returns q ∧ 0 ≤ q.
Proof.
  intros Ha Hb. unfold floordiv. rewrite (proj2 (Z.eqb_neq b 0)) by lia.
  exists (a / b). split; [done|]. apply Z.div_pos; lia.
Qed.

(** The size of the grid and the pause flag are those of [w]. *)
Definition same_frame (w w' : World) : Prop :=
  ROWS w' = ROWS w ∧ COLUMNS w' = COLUMNS w ∧ PAUSED w' = PAUSED w.

Lemma same_frame_trans w1 w2 w3 : same_frame w1 w2 → same_frame w2 w3 → same_frame w1 w3.
Proof. intros (A1 & A2 & A3) (B1 & B2 & B3). split_and!; congruence. Qed.

Lemma same_frame_reset p w : same_frame w (reset p w).
Proof. by destruct (reset_dims p w) as (R1 & R2 & _ & _ & R5 & _). Qed.

Lemma same_frame_make_start p w : same_frame w (make_start p w).
Proof. unfold make_start. by destruct (negb _). Qed.

Lemma same_frame_make_end p w : same_frame w (make_end p w).
Proof. unfold make_end. by destruct (negb _). Qed.

Lemma same_frame_make_obstacle p w : same_frame w (make_obstacle p w).
Proof. unfold make_obstacle. by destruct (_ && _). Qed.

Lemma left_click_spec p w :
  app_inv w → in_grid w p → app_inv (left_click p w) ∧ same_frame w (left_click p w).
Proof.
  intros Hinv Hp. unfold left_click.
  destruct (START w) as [st|] eqn:Hs; [destruct (END w)|].
  - split; [by apply app_inv_make_obstacle | apply same_frame_make_obstacle].
  - split; [by apply app_inv_make_end | apply same_frame_make_end].
  - split; [by apply app_inv_make_start | apply same_frame_make_start].
Qed.

Lemma click_spec cell_size xy act w :
  (∀ p, in_grid w p → app_inv (act p w) ∧ same_frame w (act p w)) →
  app_inv w →
  app_inv (click cell_size xy act w).2
  ∧ same_frame w (click cell_size xy act w).2
  ∧ (1 ≤ cell_size → 0 ≤ xy.1 ∧ 0 ≤ xy.2 → (click cell_size xy act w).1 = Returns tt).
Proof.
  intros Hact Hinv. unfold click.
  destruct (floordiv xy.2 cell_size) as [row|e1] eqn:E1.
  2:{ split; [done|]. split; [done|]. intros Hc [_ Hy].
      destruct (floordiv_nonneg xy.2 cell_size Hy Hc) as (q & Hq & _). congruence. }
  destruct (floordiv xy.1 cell_size) as [column|e2] eqn:E2.
  2:{ split; [done|]. split; [done|]. intros Hc [Hx _].
      destruct (floordiv_nonneg xy.1 cell_size Hx Hc) as (q & Hq & _). congruence. }
  destruct (Z.ltb_spec row (ROWS w)) as [Hr|Hr]; cbn [andb]; [|done].
  destruct (Z.ltb_spec column (COLUMNS w)) as [Hc|Hc]; [|done].
  destruct (nodes_at w row column) as [p|] eqn:Hp.
  - apply nodes_at_Some_in_grid in Hp. destruct (Hact p Hp) as [A1 A2]. done.
  - split; [done|]. split; [done|]. intros Hcs [Hx Hy].
    destruct (floordiv_nonneg xy.2 cell_size Hy Hcs) as (q1 & Hq1 & H1).
    destruct (floordiv_nonneg xy.1 cell_size Hx Hcs) as (q2 & Hq2 & H2).
    rewrite E1 in Hq1. rewrite E2 in Hq2. injection Hq1 as <-. injection Hq2 as <-.
    rewrite nodes_at_in_grid in Hp; [done|]. split; cbn [fst snd]; lia.
Qed.

(** The pointer is inside the window. *)
Definition on_screen (ms : Mouse) : Prop :=
  (0 ≤ (left_pos ms).1 ∧ 0 ≤ (left_pos ms).2)
  ∧ (0 ≤ (right_pos ms).1 ∧ 0 ≤ (right_pos ms).2).

Lemma handle_mouse_press_spec cell_size ms w :
  app_inv w →
  app_inv (handle_mouse_press cell_size ms w).2
  ∧ same_frame w (handle_mouse_press cell_size ms w).2
  ∧ (1 ≤ cell_size → on_screen ms → (handle_mouse_press cell_size ms w).1 = Returns tt).
Proof.
  intros Hinv. unfold handle_mouse_press.
  set (l := if left_pressed ms then click cell_size (left_pos ms) left_click w
            else (Returns tt, w)).
  assert (H1 : app_inv l.2 ∧ same_frame w l.2
               ∧ (1 ≤ cell_size → 0 ≤ (left_pos ms).1 ∧ 0 ≤ (left_pos ms).2 →
                  l.1 = Returns tt)).
  { unfold l. destruct (left_pressed ms); [|done].
    apply click_spec; [|done]. intros p Hp. by apply left_click_spec. }
  destruct l as [[[]|ex] w1]; cbn [fst snd] in H1.
  - destruct H1 as (H1 & S1 & _). destruct (right_pressed ms).
    + destruct (click_spec cell_size (right_pos ms) reset w1) as (R1 & R2 & R3); [|done|].
      { intros p _. split; [by apply app_inv_reset | apply same_frame_reset]. }
      split; [done|]. split; [by eapply same_frame_trans|].
      intros Hc [_ Hr]. by apply R3.
    + done.
  - destruct H1 as (H1 & S1 & H2). split; [done|]. split; [done|].
    intros Hc [Hl _]. by specialize (H2 Hc Hl).
Qed.

(** ** Clearing and scattering *)

(** Start and End are unset, and the cells of the grid carry no cost
    and are white or obstacles. *)
Definition blank (w : World) : Prop :=
  START w = None ∧ END w = None
  ∧ ∀ q, in_grid w q →
         g_score (node w q) = Inf
         ∧ (color (node w q) = WHITE ∨ color (node w q) = GREY).

Lemma blank_app_inv w : blank w → app_inv w.
Proof.
  intros (Hs & He & Hn). split_and!.
  - intros p. by rewrite Hs.
  - split; intros p; by rewrite ?Hs, ?He.
  - intros st. by rewrite Hs.
  - intros q Hq _. by apply Hn.
Qed.

Lemma reset_grid_0_blank w :
  distinct_ends w → ends_in_grid w →
  (reset_grid 0 w).1 = Ok tt ∧ blank (reset_grid 0 w).2 ∧ same_frame w (reset_grid 0 w).2.
Proof.
  intros Hd He. unfold reset_grid. cbn [Z.eqb fst snd].
  destruct (reset_all_spec w Hd He) as (Es & Ee & Hn & G).
  destruct G as (G1 & G2 & _ & _ & _ & _ & G7 & _).
  split; [done|]. split; [|done]. split; [done|]. split; [done|].
  intros q Hq. rewrite Hn. rewrite bool_decide_eq_true_2.
  - split; [done | by left].
  - cbn in G1, G2. unfold in_grid in *. by rewrite <- G1, <- G2.
Qed.

Lemma blank_make_obstacle p w : blank w → blank (make_obstacle p w).
Proof.
  intros (Hs & He & Hn). unfold make_obstacle.
  rewrite (is_end_None _ _ He), (is_start_None _ _ Hs). cbn [negb andb].
  split; [done|]. split; [done|]. intros q Hq. rewrite node_set_node.
  destruct (decide (p = q)) as [->|Hne]; [|by apply Hn].
  destruct (Hn q Hq) as [Hg _]. split; [done | by right].
Qed.

Lemma scatter_blank coins cells w :
  blank w → blank (scatter coins cells w) ∧ same_frame w (scatter coins cells w).
Proof.
  revert coins w. induction cells as [|p cells IH]; intros coins w Hb; [done|].
  cbn [scatter]. destruct (toss coins) as [c coins'].
  destruct c.
  - destruct (IH coins' (make_obstacle p w)) as [B S]; [by apply blank_make_obstacle|].
    split; [done|]. eapply same_frame_trans; [apply same_frame_make_obstacle | done].
  - by apply IH.
Qed.

(** ** Random cells *)

Lemma randint_range k a b : a ≤ b → ∃ i, randint k a b = Returns i ∧ a ≤ i ≤ b.
Proof.
  intros H. unfold randint. rewrite (proj2 (Z.ltb_ge b a)) by done.
  eexists. split; [done|].
  pose proof (Z.mod_pos_bound (Z.of_nat k) (b - a + 1)). lia.
Qed.

Lemma randint_empty k a b : b < a → randint k a b = Raises ValueError.
Proof. intros H. unfold randint. by rewrite (proj2 (Z.ltb_lt b a)). Qed.

Lemma random_node_in_grid rng w :
  1 ≤ ROWS w → 1 ≤ COLUMNS w →
  ∃ p, (random_node rng w).1 = Returns p ∧ in_grid w p.
Proof.
  intros HR HC. unfold random_node.
  destruct (draw_rng rng) as [k1 rng1].
  destruct (randint_range k1 0 (ROWS w - 1)) as (i & -> & Hi); [lia|].
  rewrite py_index_in_range by lia.
  destruct (draw_rng rng1) as [k2 rng2].
  destruct (randint_range k2 0 (COLUMNS w - 1)) as (j & -> & Hj); [lia|].
  rewrite py_index_in_range by lia.
  exists (i, j). split; [done|]. split; cbn [fst snd]; lia.
Qed.

Lemma random_node_empty rng w :
  ROWS w ≤ 0 ∨ COLUMNS w ≤ 0 → (random_node rng w).1 = Raises ValueError.
Proof.
  intros H. unfold random_node.
  destruct (draw_rng rng) as [k1 rng1].
  destruct (decide (ROWS w ≤ 0)) as [HR|HR].
  { by rewrite randint_empty by lia. }
  destruct (randint_range k1 0 (ROWS w - 1)) as (i & -> & Hi); [lia|].
  rewrite py_index_in_range by lia.
  destruct (draw_rng rng1) as [k2 rng2].
  by rewrite randint_empty by lia.
Qed.

Lemma redraw_end_spec fuel rng e0 w r :
  1 ≤ ROWS w → 1 ≤ COLUMNS w → in_grid w e0 →
  redraw_end fuel rng e0 w = Some r →
  ∃ e1, r = Returns e1 ∧ in_grid w e1 ∧ START w ≠ Some e1.
Proof.
  intros HR HC. revert rng e0. induction fuel as [|fuel IH]; intros rng e0 He0; cbn [redraw_end].
  - case_bool_decide as Hs; [done|]. intros [= <-]. by exists e0.
  - case_bool_decide as Hs.
    + destruct (random_node_in_grid rng w HR HC) as (p & Hp & Hg).
      destruct (random_node rng w) as [[p'|ex] rng']; cbn [fst] in Hp; [|done].
      injection Hp as ->. by apply IH.
    + intros [= <-]. by exists e0.
Qed.

(** With a single cell every draw is Start. *)
Lemma redraw_end_single fuel rng e0 w :
  ROWS w = 1 → COLUMNS w = 1 → START w = Some (0, 0) → e0 = (0, 0) →
  redraw_end fuel rng e0 w = None.
Proof.
  intros HR HC Hs. revert rng e0. induction fuel as [|fuel IH]; intros rng e0 ->;
    cbn [redraw_end]; rewrite bool_decide_eq_true_2 by done; [done|].
  destruct (random_node_in_grid rng w) as (p & Hp & [H1 H2]); [lia | lia |].
  destruct (random_node rng w) as [[p'|ex] rng']; cbn [fst] in Hp; [|done].
  injection Hp as ->. apply IH. destruct p as [a b]. cbn [fst snd] in *.
  f_equal; lia.
Qed.

(** The state after the first three statements of [random_grid]. *)
Definition scattered (coins : list bool) (w : World) : World :=
  scatter coins (all_nodes (reset_grid 0 w).2) (reset_grid 0 w).2.

Lemma scattered_blank coins w :
  distinct_ends w → ends_in_grid w →
  blank (scattered coins w) ∧ same_frame w (scattered coins w).
Proof.
  intros Hd He. destruct (reset_grid_0_blank w Hd He) as (_ & B & S).
  destruct (scatter_blank coins (all_nodes (reset_grid 0 w).2) _ B) as [B' S'].
  split; [done|]. by eapply same_frame_trans.
Qed.

Lemma blank_make_start p w :
  blank w → in_grid w p →
  let w' := make_start p w in
  START w' = Some p ∧ END w' = None ∧ app_inv w' ∧ same_frame w w'
  ∧ ∀ q, in_grid w' q → START w' ≠ Some q →
         color (node w' q) = WHITE ∨ color (node w' q) = GREY.
Proof.
  intros Hb Hp w'. pose proof Hb as (Hs & He & Hn).
  assert (Ha : app_inv w') by (apply app_inv_make_start; [by apply blank_app_inv|done|done]).
  unfold w', make_start in *. rewrite (is_end_None _ _ He) in *. cbn [negb] in *.
  split_and!; try done.
  intros q Hq Hne. rewrite node_with_START, node_set_node_ne.
  - by apply Hn.
  - intros ->. by apply Hne.
Qed.

(** However [random_grid] ends on a grid with at least one cell: it
    has returned, with Start and End on two different cells. *)
Lemma random_grid_spec fuel coins rng w r w' :
  distinct_ends w → ends_in_grid w → 1 ≤ ROWS w → 1 ≤ COLUMNS w →
  random_grid fuel coins rng w = Some (r, w') →
  r = Returns tt ∧ app_inv w' ∧ same_frame w w'
  ∧ (∃ st e, START w' = Some st ∧ END w' = Some e ∧ color (node w' e) = CYAN)
  ∧ ∀ q, in_grid w' q → START w' ≠ Some q → END w' ≠ Some q →
         color (node w' q) = WHITE ∨ color (node w' q) = GREY.
Proof.
  intros Hd He HR HC. unfold random_grid. fold (scattered coins w).
  destruct (scattered_blank coins w Hd He) as [B (S1 & S2 & S3)].
  set (w1 := scattered coins w) in *.
  destruct (random_node_in_grid rng w1) as (s & Hs & Hsg); [lia | lia |].
  destruct (random_node rng w1) as [[s'|ex] rng1]; cbn [fst] in Hs; [|done].
  injection Hs as ->.
  destruct (blank_make_start s w1 B Hsg) as (M1 & M2 & M3 & (M4 & M5 & M7) & M6).
  set (w2 := make_start s w1) in *.
  destruct (random_node_in_grid rng1 w2) as (e0 & He0 & He0g); [lia | lia |].
  destruct (random_node rng1 w2) as [[e0'|ex] rng2]; cbn [fst] in He0; [|done].
  injection He0 as ->.
  destruct (redraw_end fuel rng2 e0 w2) as [r1|] eqn:Er; [|done].
  destruct (redraw_end_spec fuel rng2 e0 w2 r1) as (e1 & -> & He1 & Hne); [lia|lia|done|done|].
  intros [= <- <-].
  assert (Hns : is_start w2 e1 = false).
  { unfold is_start. by apply bool_decide_eq_false. }
  split; [done|]. split; [by apply app_inv_make_end|]. split.
  { eapply same_frame_trans; [|apply same_frame_make_end]. split_and!; congruence. }
  unfold make_end. rewrite Hns. cbn [negb]. split.
  - exists s, e1. split; [done|]. split; [done|].
    by rewrite node_with_END, node_set_node_eq.
  - intros q Hq Hqs Hqe. rewrite node_with_END, node_set_node_ne.
    + by apply M6.
    + intros ->. by apply Hqe.
Qed.

(** ** The commands of the main loop *)

(** However [find_path] ends on a ready grid: it has returned and left
    the grid ready, or it has raised [SystemExit] or
    [AttributeError]. *)
Lemma find_path_state w st e fuel inputs run :
  search_ready w st e → st ≠ e → in_grid w e →
  find_path fuel inputs w = Some run →
  match returned run with
  | Ok _ => search_ready (final run) st e ∧ same_grid w (final run)
  | Raise ex => ex = SystemExit ∨ ex = AttributeError
  end.
Proof.
  intros Hready Hne Heg Hrun.
  pose proof Hready as (Hs & He & Hg & Ho & Hinf).
  destruct (search_init_spec w st e Hs He) as (w' & E & G & Hnode).
  set (s0 := mkSearch w' [mkEntry (score w' st) 0 st] 0 [mkEntry (score w' st) 0 st]) in *.
  destruct (search_init_search_inv w st e s0 w' Hs He Hg Ho Hinf E) as (Hinv0 & _ & _).
  pose proof (search_init_same_grid w st e s0 w' Hs He E) as Hsg0.
  assert (He0 : END (world s0) = Some e).
  { unfold s0. cbn [world]. destruct G as (_ & _ & _ & _ & -> & _). done. }
  assert (Hstate : ∀ s1, rtc step_on s0 s1 →
            search_inv st s1 ∧ same_grid w (world s1) ∧ END (world s1) = Some e).
  { intros s1 Hr. apply rtc_step_on_iter in Hr.
    pose proof (rtc_iter_same_grid st s0 s1 Hr Hinv0) as Hsg1.
    assert (Hsg : same_grid w (world s1)) by (by eapply same_grid_trans).
    split; [by eapply rtc_iter_search_inv|]. split; [done|].
    destruct Hsg as (_ & _ & _ & -> & _). done. }
  destruct (search_loop_outcome st e fuel inputs s0 Hinv0 He0) as [Hout _].
  pose proof (search_loop_steps fuel inputs s0) as Hsteps.
  pose proof (search_loop_cancelled fuel inputs s0) as Hcancel.
  pose proof (search_found_state w st e fuel inputs s0 w') as Hfound.
  unfold find_path in Hrun. rewrite E in Hrun.
  destruct (search_loop fuel inputs s0) as [[[r1 w1]|s1|s1|ex w1|] rest];
    cbn [fst] in Hsteps, Hout.
  - (* cancelled *)
    injection Hrun as <-. cbn [returned final].
    destruct (Hcancel r1 w1 rest eq_refl) as (s' & wc & Hr & Hc & Hreset).
    destruct (Hstate s' Hr) as ([Hw' _] & Hsg' & He').
    pose proof (core_eq_obst_eq _ _ Hc) as Hoc.
    destruct (ready_after st e w wc r1 w1) as (-> & R1 & R2 & _); try done.
    + eapply same_grid_trans; [exact Hsg' | by apply obst_eq_same_grid].
    + by eapply obst_eq_world_inv.
    + destruct Hc as (_ & _ & _ & _ & -> & _). done.
  - (* found *)
    specialize (Hfound s1 rest Hready E eq_refl).
    destruct Hfound as (Hw1 & Hsg1 & Heg1 & Hre).
    destruct (found_cost_positive st e (world s1) Hw1 Hne Heg1 Hre) as (g & Hge & Hg1).
    assert (He1 : END (world s1) = Some e).
    { destruct Hsg1 as (_ & _ & _ & -> & _). done. }
    unfold draw_path, path_walk in Hrun. rewrite He1, Hge in Hrun.
    destruct (walk (Z.to_nat g) (world s1) (Some e) []) as [[path nd]|ex] eqn:Ew.
    2:{ injection Hrun as <-. cbn [returned]. right. by eapply walk_raise. }
    destruct (paint_loop fuel rest (length path) 0 path (world s1))
      as [[[r2 w2] rest2]|] eqn:Ep; [|done].
    destruct (paint_loop_outcome _ _ _ _ _ _ _ _ _ Ep) as [_ Q2].
    destruct r2 as [[]|ex].
    2:{ injection Hrun as <-. cbn [returned]. left. by destruct Q2. }
    destruct (reset_grid 1 (draw_screen w2)) as [r w3] eqn:Hreset.
    injection Hrun as <-. cbn [returned final].
    destruct (walk_spec _ _ _ _ _ _ Ew) as (chain & -> & Hlen & Hlk & Hlast & _).
    rewrite app_nil_r in *.
    assert (Hlast' : last chain = Some e).
    { destruct (last chain) as [a|] eqn:El.
      - specialize (Hlast a eq_refl). congruence.
      - apply last_None in El. subst chain. simpl in Hlen. lia. }
    assert (Hoe : is_obstacle (world s1) e = false).
    { destruct Hw1 as (_ & _ & _ & _ & _ & I6 & I7).
      destruct (parent_node (node (world s1) e)) as [p|] eqn:Hp.
      - by destruct (I6 e p Heg1 Hp) as (_ & _ & ? & _).
      - rewrite I7 in Hge; [done | done | congruence | done]. }
    pose proof (linked_free st (world s1) chain e Hw1 Hlk Hlast' Heg1 Hoe) as Hfree.
    destruct (paint_loop_spec _ _ _ _ _ _ _ _ Ep) as (P1 & P2 & P3 & P4 & P5 & P6 & P7 & P8).
    assert (Hob : obst_eq (world s1) w2).
    { split_and!; try done. intros q. destruct (P6 q) as (-> & -> & ->).
      split_and!; try done. unfold is_obstacle.
      destruct (decide (q ∈ chain)) as [Hin|Hnin]; [|by rewrite P7].
      destruct (P8 q) as [j Hj]; [by right|]. rewrite Hj.
      destruct (Hfree q Hin) as [_ Hfq]. unfold is_obstacle in Hfq. by rewrite Hfq. }
    pose proof (core_eq_obst_eq _ _ (core_eq_draw_screen w2)) as Hod.
    destruct (ready_after st e w (draw_screen w2) r w3) as (-> & R1 & R2 & _); try done.
    + eapply same_grid_trans; [exact Hsg1|].
      eapply same_grid_trans; by apply obst_eq_same_grid.
    + eapply obst_eq_world_inv; [exact Hod|]. by eapply obst_eq_world_inv.
    + destruct Hod as (_ & _ & _ & _ & -> & _). congruence.
  - (* exhausted *)
    destruct Hsteps as [Hr Ha].
    destruct (reset_grid 1 (draw_screen (world s1))) as [r w2] eqn:Hreset.
    injection Hrun as <-. cbn [returned final].
    destruct (Hstate s1 Hr) as ([Hw1 _] & Hsg1 & He1).
    pose proof (core_eq_obst_eq _ _ (core_eq_draw_screen (world s1))) as Hod.
    destruct (ready_after st e w (draw_screen (world s1)) r w2) as (-> & R1 & R2 & _);
      try done.
    + eapply same_grid_trans; [exact Hsg1 | by apply obst_eq_same_grid].
    + by eapply obst_eq_world_inv.
    + destruct Hod as (_ & _ & _ & _ & -> & _). done.
  - injection Hrun as <-. cbn [returned]. left. by destruct Hout.
  - done.
Qed.

Lemma ready_app_inv w st e :
  search_ready w st e → st ≠ e → in_grid w e → app_inv w.
Proof.
  intros (Hs & He & Hg & Ho & Hinf) Hne Heg. split_and!.
  - intros p. rewrite Hs, He. congruence.
  - split; intros p; rewrite ?Hs, ?He; by intros [= <-].
  - intros p. rewrite Hs. by intros [= <-].
  - intros q Hq. rewrite Hs. intros Hqs. apply Hinf; [done | congruence].
Qed.

Lemma maze_finish_app_inv wM :
  maze_inv wM [] → 1 ≤ ROWS wM → 1 ≤ COLUMNS wM →
  app_inv (maze_finish wM) ∧ same_frame wM (maze_finish wM).
Proof.
  intros HM HR HC.
  destruct (maze_finish_spec wM HM HR HC) as (F1 & F2 & F3 & F4 & F5 & F6 & F7 & F8).
  destruct HM as (I1 & I2 & I3 & I4 & I5 & _).
  assert (Hg : ∀ q, in_grid (maze_finish wM) q ↔ in_grid wM q).
  { intros q. unfold in_grid. by rewrite F1, F2. }
  split.
  2:{ unfold maze_finish.
      eapply same_frame_trans; [apply same_frame_make_start | apply same_frame_make_end]. }
  split_and!.
  - intros p. rewrite F4, F5. intros [= <-].
    destruct (decide (maze_end_cell wM = (0, 0))); congruence.
  - split; intros p; rewrite ?F4, ?F5.
    + intros [= <-]. apply Hg. by destruct I3.
    + destruct (decide (maze_end_cell wM = (0, 0))); [done|]. intros [= <-]. by apply Hg.
  - intros st. rewrite F4. intros [= <-]. unfold is_obstacle. rewrite F7.
    by rewrite decide_True.
  - intros q Hq _. destruct (F8 q) as (-> & _). apply I5. by apply Hg.
Qed.

(** How a command may end: normally in a state with [I], or with the
    [SystemExit] of a [QUIT] event or the [AttributeError] of the
    reconstructor. *)
Definition ends_well (I : World → Prop) (st : option Trace) : Prop :=
  match st with
  | None => True
  | Some (Returns _, _, w) => I w
  | Some (Raises ex, _, _) => ex = Exc_of SystemExit ∨ ex = Exc_of AttributeError
  end.

Lemma and_then_ends_well (I J : World → Prop) st k :
  ends_well I st → (∀ w, I w → ends_well J (k w)) → ends_well J (and_then st k).
Proof.
  intros H1 H2. unfold and_then. destruct st as [[[[[]|ex] out] w]|]; cbn in H1; [|done|done].
  specialize (H2 w H1). destruct (k w) as [[[r out'] w']|]; done.
Qed.

(** The state of the main loop on a grid of [rows × columns] cells:
    between two commands the program is not paused. *)
Definition loop_inv (rows columns : Z) (w : World) : Prop :=
  app_inv w ∧ ROWS w = rows ∧ COLUMNS w = columns ∧ PAUSED w = false.

Lemma loop_inv_size rows columns w w' :
  app_inv w' → same_frame w w' → loop_inv rows columns w → loop_inv rows columns w'.
Proof. intros H (S1 & S2 & S3) (_ & <- & <- & P). split_and!; congruence. Qed.

Lemma loop_inv_toggle rows columns w w' :
  app_inv w → ROWS w = rows → COLUMNS w = columns →
  ROWS w' = ROWS w → COLUMNS w' = COLUMNS w → START w' = START w → END w' = END w →
  nodes w' = nodes w → PAUSED w' = false →
  loop_inv rows columns w'.
Proof.
  intros Ha <- <- E1 E2 E3 E4 E5 E6. split; [|done].
  apply (app_inv_ext w w'); try done. intros q. unfold node. by rewrite E5.
Qed.

Lemma handle_event_ends_well rows columns fuel c w :
  1 ≤ rows → 1 ≤ columns → loop_inv rows columns w →
  ends_well (loop_inv rows columns) (handle_event fuel c w).
Proof.
  intros HR HC Hinv. pose proof Hinv as (Ha & ER & EC & EP).
  pose proof Ha as (Hd & Hg & _).
  destruct c as [|polls| | | |coins rng|rng polls| | | |]; cbn [handle_event set_alg ends_well].
  - by left.
  - destruct (START w) as [st|] eqn:Hs; [|done].
    destruct (END w) as [e|] eqn:He; [|done].
    destruct (app_inv_ready w st e Ha Hs He) as (Hready & Hne & Heg).
    destruct (find_path fuel polls w) as [run|] eqn:Hrun; [|done].
    pose proof (find_path_state w st e fuel polls run Hready Hne Heg Hrun) as Hst.
    destruct (returned run) as [[]|ex].
    + destruct Hst as [Hr Hsg]. cbn.
      destruct Hsg as (S1 & S2 & _).
      apply (loop_inv_toggle rows columns (final run)); try done; try congruence.
      apply (ready_app_inv _ st e); [done | done |].
      unfold in_grid in *. by rewrite S1, S2.
    + cbn. destruct Hst as [-> | ->]; [by left | by right].
  - by apply (loop_inv_toggle rows columns w).
  - by apply (loop_inv_toggle rows columns w).
  - destruct (reset_grid_0_blank w Hd Hg) as (Hr & Hb & Hs).
    destruct (reset_grid 0 w) as [r w1]. cbn [fst snd] in *. subst r. cbn.
    apply (loop_inv_size rows columns w); [by apply blank_app_inv | done | done].
  - destruct (random_grid fuel coins rng w) as [[r w1]|] eqn:E; [|done].
    destruct (random_grid_spec fuel coins rng w r w1 Hd Hg) as (-> & H1 & H2 & _);
      [lia | lia | done |].
    cbn. by apply (loop_inv_size rows columns w).
  - destruct (generate_maze fuel rng polls w) as [[r w1]|] eqn:E; [|done].
    destruct (generate_maze_result fuel rng polls w r w1 Hd Hg) as [(-> & _)|(-> & Hm)];
      [lia | lia | done | by left |].
    destruct Hm as (wM & -> & HM & MR & MC & _). cbn.
    destruct (maze_finish_app_inv wM HM) as [F1 (F2 & F3 & _)]; [lia | lia |].
    apply (loop_inv_toggle rows columns (maze_finish wM)); try done; congruence.
  - by apply (loop_inv_toggle rows columns w).
  - by apply (loop_inv_toggle rows columns w).
  - by apply (loop_inv_toggle rows columns w).
  - done.
Qed.

Lemma handle_events_ends_well rows columns fuel cs w :
  1 ≤ rows → 1 ≤ columns → loop_inv rows columns w →
  ends_well (loop_inv rows columns) (handle_events fuel cs w).
Proof.
  intros HR HC. revert w. induction cs as [|c cs IH]; intros w Hinv; [done|].
  cbn [handle_events].
  apply (and_then_ends_well (loop_inv rows columns)); [|done].
  by apply handle_event_ends_well.
Qed.

Lemma handle_input_normal_ends_well rows columns fuel cell_size cs ms w :
  1 ≤ rows → 1 ≤ columns → 1 ≤ cell_size → on_screen ms → loop_inv rows columns w →
  ends_well (loop_inv rows columns) (handle_input_normal fuel cell_size cs ms w).
Proof.
  intros HR HC Hcs Hms Hinv. unfold handle_input_normal.
  apply (and_then_ends_well (loop_inv rows columns)).
  - by apply handle_events_ends_well.
  - intros w1 Hw1. pose proof Hw1 as (H1 & _).
    destruct (handle_mouse_press_spec cell_size ms w1 H1) as (M1 & M2 & M3).
    specialize (M3 Hcs Hms).
    destruct (handle_mouse_press cell_size ms w1) as [r w2]. cbn [fst snd] in *.
    subst r. cbn. by apply (loop_inv_size rows columns w1).
Qed.

Lemma main_loop_ends_well rows columns fuel cell_size frames w :
  1 ≤ rows → 1 ≤ columns → 1 ≤ cell_size →
  Forall (λ fr, on_screen (mouse fr)) frames → loop_inv rows columns w →
  ends_well (loop_inv rows columns) (main_loop fuel cell_size frames w).
Proof.
  intros HR HC Hcs Hfr. revert w.
  induction Hfr as [|fr frames Hms Hfr IH]; intros w Hinv; [done|].
  cbn [main_loop].
  apply (and_then_ends_well (loop_inv rows columns)).
  - by apply handle_input_normal_ends_well.
  - intros w1 (H1 & H2 & H3 & H4). apply IH.
    destruct (core_eq_draw_screen w1) as (C1 & C2 & _).
    split; [|rewrite draw_screen_PAUSED; split_and!; congruence].
    eapply app_inv_core_eq; [apply core_eq_draw_screen | done].
Qed.

(** ** The mouse, the random grid, the arguments and the loop *)

(** With the pointer inside the window and cells of at least one
    pixel, [handle_mouse_press] returns normally, whatever the buttons.
    Afterwards Start and End, when set, are still two different cells
    of the grid, Start is no obstacle and no other cell carries a cost;
    and unless the right button is pressed, a Start or End that was set
    is where it was. *)
Theorem handle_mouse_press_safe (cell_size : Z) (ms : Mouse) (w : World) :
  app_inv w → 1 ≤ cell_size → on_screen ms →
  let w' := (handle_mouse_press cell_size ms w).2 in
  (handle_mouse_press cell_size ms w).1 = Returns tt
  ∧ app_inv w'
  ∧ (right_pressed ms = false →
     (∀ st, START w = Some st → START w' = Some st)
     ∧ (∀ e, END w = Some e → END w' = Some e)).
Proof.
  intros Hinv Hcs Hms w'.
  destruct (handle_mouse_press_spec cell_size ms w Hinv) as (H1 & _ & H3).
  split; [by apply H3|]. split; [done|].
  intros Hr. unfold w', handle_mouse_press. rewrite Hr.
  assert (Hkeep : ∀ p, (∀ st, START w = Some st → START (left_click p w) = Some st)
                       ∧ (∀ e, END w = Some e → END (left_click p w) = Some e)).
  { intros p. unfold left_click.
    destruct (START w) as [st|] eqn:Hs; [destruct (END w) as [e|] eqn:He|].
    - unfold make_obstacle. destruct (_ && _); cbn; by rewrite Hs, He.
    - split; [|done]. intros st' [= <-]. unfold make_end.
      destruct (negb _); cbn; by rewrite Hs.
    - split; [done|]. intros e He. unfold make_start.
      destruct (negb _); cbn; by rewrite He. }
  destruct (left_pressed ms); [|by destruct (Returns tt)].
  unfold click.
  destruct (floordiv (left_pos ms).2 cell_size) as [row|e1]; [|done].
  destruct (floordiv (left_pos ms).1 cell_size) as [column|e2]; [|done].
  destruct ((row <? ROWS w) && (column <? COLUMNS w)); [|done].
  destruct (nodes_at w row column) as [p|]; [|done].
  apply Hkeep.
Qed.

(** The theorem for a left click on the cell next to Start, on the
    open 5 × 5 grid shown with cells of 10 pixels. *)
Lemma handle_mouse_press_safe_witness :
  let ms := mkMouse true (15, 5) false (0, 0) in
  let w' := (handle_mouse_press 10 ms (grid5 A_STAR)).2 in
  (handle_mouse_press 10 ms (grid5 A_STAR)).1 = Returns tt
  ∧ app_inv w'
  ∧ (right_pressed ms = false →
     (∀ st, START (grid5 A_STAR) = Some st → START w' = Some st)
     ∧ (∀ e, END (grid5 A_STAR) = Some e → END w' = Some e)).
Proof.
  intros ms.
  apply (handle_mouse_press_safe 10 ms (grid5 A_STAR)).
  - apply (ready_app_inv _ (0, 0) (4, 4)); [apply grid5_ready | discriminate |].
    split; vm_compute; split; congruence.
  - lia.
  - split; split; vm_compute; congruence.
Defined.

(** On a grid with at least one cell [random_grid] raises
    nothing, and when it returns the grid is ready for a search: Start
    and End are two different cells of the grid, neither of them an
    obstacle, no cell carries a cost, and no cell is green or red. *)
Theorem random_grid_ready (fuel : nat) (coins : list bool) (rng : list nat)
    (w : World) (r : Outcome unit) (w' : World) :
  distinct_ends w → ends_in_grid w → 1 ≤ ROWS w → 1 ≤ COLUMNS w →
  random_grid fuel coins rng w = Some (r, w') →
  r = Returns tt
  ∧ ROWS w' = ROWS w ∧ COLUMNS w' = COLUMNS w
  ∧ ∃ st e, search_ready w' st e ∧ st ≠ e ∧ in_grid w' e
            ∧ is_obstacle w' e = false ∧ g_score (node w' st) = Inf
            ∧ unmarked w'.
Proof.
  intros Hd He HR HC Hrun.
  destruct (random_grid_spec fuel coins rng w r w' Hd He HR HC Hrun)
    as (-> & Hinv & (S1 & S2 & _) & (st & e & Hs & Hen & Hcol) & Hwg).
  split; [done|]. split; [done|]. split; [done|]. exists st, e.
  destruct (app_inv_ready w' st e Hinv Hs Hen) as (Hready & Hne & Heg).
  split; [done|]. split; [done|]. split; [done|]. split.
  { unfold is_obstacle. rewrite Hcol. by apply bool_decide_eq_false. }
  split.
  - unfold random_grid in Hrun. fold (scattered coins w) in Hrun.
    destruct (scattered_blank coins w Hd He) as [B (B1 & B2 & _)].
    set (w1 := scattered coins w) in *.
    destruct (random_node_in_grid rng w1) as (s & Hsn & Hsg); [lia | lia |].
    destruct (random_node rng w1) as [[s'|ex] rng1]; cbn [fst] in Hsn; [|done].
    injection Hsn as ->.
    destruct (blank_make_start s w1 B Hsg) as (M1 & M2 & _).
    destruct B as (_ & _ & Bn). destruct (Bn s Hsg) as [Bg _].
    set (w2 := make_start s w1) in *.
    assert (Hg2 : g_score (node w2 s) = Inf).
    { unfold w2, make_start. destruct (negb _); [|done].
      by rewrite node_with_START, node_set_node_eq. }
    destruct (random_node rng1 w2) as [[e0|ex] rng2]; [|done].
    destruct (redraw_end fuel rng2 e0 w2) as [[e1|ex]|]; [|done|done].
    injection Hrun as <-.
    assert (Hst : st = s).
    { unfold make_end in Hs. destruct (negb _); cbn in Hs; congruence. }
    subst st. unfold make_end, is_start. case_bool_decide as Hse; cbn [negb]; [done|].
    rewrite node_with_END, node_set_node_ne; [done | congruence].
  - intros c Hc Hcs. destruct (decide (END w' = Some c)) as [Hce|Hce].
    + assert (c = e) as -> by congruence. by rewrite Hcol.
    + destruct (Hwg c Hc Hcs Hce) as [-> | ->]; done.
Qed.

(** The theorem on the empty 3 × 3 grid, where the first cell drawn for
    End is Start and the second one is not. *)
Lemma random_grid_ready_witness :
  let w := create_nodes 3 3 A_STAR in
  let o := default (Returns tt, w)
                   (random_grid 3 [true; false; true] [4; 1; 4; 1; 2; 5]%nat w) in
  o.1 = Returns tt
  ∧ ROWS o.2 = ROWS w ∧ COLUMNS o.2 = COLUMNS w
  ∧ ∃ st e, search_ready o.2 st e ∧ st ≠ e ∧ in_grid o.2 e
            ∧ is_obstacle o.2 e = false ∧ g_score (node o.2 st) = Inf
            ∧ unmarked o.2.
Proof.
  intros w o.
  destruct (app_inv_create_nodes 3 3 A_STAR) as (Hd & Hg & _).
  apply (random_grid_ready 3 [true; false; true] [4; 1; 4; 1; 2; 5]%nat w o.1 o.2).
  - exact Hd.
  - exact Hg.
  - vm_compute. discriminate.
  - vm_compute. discriminate.
  - vm_compute. reflexivity.
Defined.

(** On a grid without cells [random_grid] raises the
    [ValueError] of [randint] on an empty range; on a grid of a single
    cell it never returns, because every cell drawn for End is
    Start. *)
Theorem random_grid_small_grids (fuel : nat) (coins : list bool) (rng : list nat)
    (w : World) :
  distinct_ends w → ends_in_grid w →
  (ROWS w ≤ 0 ∨ COLUMNS w ≤ 0 →
   ∃ w', random_grid fuel coins rng w = Some (Raises ValueError, w'))
  ∧ (ROWS w = 1 ∧ COLUMNS w = 1 → random_grid fuel coins rng w = None).
Proof.
  intros Hd He. unfold random_grid. fold (scattered coins w).
  destruct (scattered_blank coins w Hd He) as [B (S1 & S2 & S3)].
  set (w1 := scattered coins w) in *. split.
  - intros Hsize.
    pose proof (random_node_empty rng w1) as Hr. rewrite S1, S2 in Hr.
    specialize (Hr Hsize).
    destruct (random_node rng w1) as [[s|ex] rng1]; cbn [fst] in Hr; [done|].
    injection Hr as ->. by eexists.
  - intros [HR HC].
    destruct (random_node_in_grid rng w1) as (s & Hs & Hsg); [lia | lia |].
    destruct (random_node rng w1) as [[s'|ex] rng1]; cbn [fst] in Hs; [|done].
    injection Hs as ->.
    assert (Es : s = (0, 0)).
    { destruct s as [a b]. destruct Hsg as [H1 H2]. cbn [fst snd] in *. f_equal; lia. }
    subst s.
    destruct (blank_make_start (0, 0) w1 B Hsg) as (M1 & M2 & _ & (M4 & M5 & _) & _).
    set (w2 := make_start (0, 0) w1) in *.
    destruct (random_node_in_grid rng1 w2) as (e0 & He0 & He0g); [lia | lia |].
    destruct (random_node rng1 w2) as [[e0'|ex] rng2]; cbn [fst] in He0; [|done].
    injection He0 as ->.
    rewrite (redraw_end_single fuel rng2 e0 w2); [done | lia | lia | done |].
    destruct e0 as [a b]. destruct He0g as [H1 H2]. cbn [fst snd] in *. f_equal; lia.
Qed.

(** The theorem on the grid of one cell. *)
Lemma random_grid_small_grids_witness :
  random_grid 50 [true] [3; 1; 4; 1; 5]%nat (create_nodes 1 1 A_STAR) = None.
Proof.
  destruct (app_inv_create_nodes 1 1 A_STAR) as (Hd & Hg & _).
  apply (random_grid_small_grids 50 [true] [3; 1; 4; 1; 5]%nat (create_nodes 1 1 A_STAR) Hd Hg).
  split; vm_compute; reflexivity.
Defined.

(** For a window of [width × height] pixels and [rows ≥ 0] rows,
    [parse_args] raises [ZeroDivisionError] when there are no rows or
    more rows than pixels of height.  Otherwise the cells have at least
    one pixel, the grid fits into the window, and less than one column
    of the width is left over. *)
Theorem parse_args_window (width height rows : Z) :
  0 ≤ rows → 0 ≤ height → 0 ≤ width →
  (rows = 0 ∨ height < rows → parse_args width height rows = Raises ZeroDivisionError)
  ∧ (1 ≤ rows ≤ height →
     ∃ cell_size columns,
       parse_args width height rows = Returns (cell_size, columns)
       ∧ 1 ≤ cell_size ∧ 0 ≤ columns
       ∧ rows * cell_size ≤ height
       ∧ columns * cell_size ≤ width < (columns + 1) * cell_size).
Proof.
  intros Hr Hh Hw. unfold parse_args, floordiv. split.
  - intros [-> | Hlt]; [done|].
    destruct (Z.eqb_spec rows 0) as [|Hne]; [done|].
    rewrite Z.div_small by lia. done.
  - intros [H1 H2].
    rewrite (proj2 (Z.eqb_neq rows 0)) by lia.
    assert (Hc : 1 ≤ height / rows).
    { apply Z.div_le_lower_bound; lia. }
    rewrite (proj2 (Z.eqb_neq (height / rows) 0)) by lia.
    exists (height / rows), (width / (height / rows)).
    split; [done|]. split; [done|]. split; [apply Z.div_pos; lia|]. split.
    + apply Z.mul_div_le. lia.
    + pose proof (Z.mul_div_le width (height / rows)).
      pose proof (Z.mul_succ_div_gt width (height / rows)). lia.
Qed.

(** The theorem at the default window of 1300 × 700 pixels with the
    default of 350 rows. *)
Lemma parse_args_window_witness :
  ∃ cell_size columns,
    parse_args 1300 700 350 = Returns (cell_size, columns)
    ∧ 1 ≤ cell_size ∧ 0 ≤ columns
    ∧ 350 * cell_size ≤ 700
    ∧ columns * cell_size ≤ 1300 < (columns + 1) * cell_size.
Proof.
  apply (parse_args_window 1300 700 350); lia.
Defined.

(** Let the window have at least as many pixels of height as
    there are rows, and a width of at least one cell, and let the
    pointer stay inside the window.  Then [main] parses its arguments
    without an exception, and however many rounds the main loop runs,
    it is still running and not paused, on a grid of the size chosen at
    the start, with Start and End (when set) on two different cells of
    the grid, Start no obstacle and no cost on any other cell (so every
    search starts unpaused on a ready grid), or it has ended with the
    [SystemExit] of a [QUIT] event or with the [AttributeError] of the
    path reconstructor: no command of the loop raises [IndexError],
    [TypeError], [ValueError] or [ZeroDivisionError]. *)
Theorem main_ends_well (fuel : nat) (width height rows : Z) (frames : list Frame)
    (s : Session) :
  1 ≤ rows ≤ height → height / rows ≤ width →
  Forall (λ fr, on_screen (mouse fr)) frames →
  main fuel width height rows frames = Some s →
  ∃ r out w,
    s = Grid (height / rows) (r, out, w)
    ∧ match r with
      | Returns _ => loop_inv rows (width / (height / rows)) w
      | Raises ex => ex = Exc_of SystemExit ∨ ex = Exc_of AttributeError
      end.
Proof.
  intros [H1 H2] Hw Hfr. unfold main, parse_args, floordiv.
  rewrite (proj2 (Z.eqb_neq rows 0)) by lia.
  assert (Hc : 1 ≤ height / rows) by (apply Z.div_le_lower_bound; lia).
  rewrite (proj2 (Z.eqb_neq (height / rows) 0)) by lia.
  set (cell_size := height / rows) in *.
  assert (Hcol : 1 ≤ width / cell_size) by (apply Z.div_le_lower_bound; lia).
  set (columns := width / cell_size) in *.
  assert (Hinv : loop_inv rows columns (create_nodes rows columns A_STAR)).
  { destruct (create_nodes_spec rows columns A_STAR) as (C1 & C2 & _ & _ & _ & _ & C7 & _).
    split; [apply app_inv_create_nodes | done]. }
  pose proof (main_loop_ends_well rows columns fuel cell_size frames _ H1 Hcol Hc Hfr Hinv)
    as Hend.
  destruct (main_loop fuel cell_size frames (create_nodes rows columns A_STAR))
    as [[[r out] w]|]; [|done].
  intros [= <-]. exists r, out, w. split; [done|].
  destruct r as [[]|ex]; exact Hend.
Qed.

(** The theorem for a session in a window of 30 × 30 pixels with three
    rows: Start and End are placed with the mouse, a search is run with
    Dijkstra's algorithm, a maze is generated and searched, a random
    grid is made, and the window is closed. *)
Lemma main_ends_well_witness :
  let idle := mkMouse false (0, 0) false (0, 0) in
  let frames :=
    [mkFrame [] (mkMouse true (5, 5) false (0, 0));
     mkFrame [] (mkMouse true (25, 25) false (0, 0));
     mkFrame [Key_d; Space []] idle;
     mkFrame [Key_m [3; 1; 2]%nat []; Space []] idle;
     mkFrame [Key_r [true; false] [0; 0; 0; 0; 1; 2]%nat; Quit] idle] in
  let s := default (NoGrid ValueError) (main 100 30 30 3 frames) in
  ∃ r out w,
    s = Grid (30 / 3) (r, out, w)
    ∧ match r with
      | Returns _ => loop_inv 3 (30 / (30 / 3)) w
      | Raises ex => ex = Exc_of SystemExit ∨ ex = Exc_of AttributeError
      end.
Proof.
  intros idle frames s.
  apply (main_ends_well 100 30 30 3 frames s).
  - lia.
  - vm_compute. discriminate.
  - repeat (apply Forall_cons; split; [split; split; vm_compute; congruence|]).
    apply Forall_nil_2.
  - vm_compute. reflexivity.
Defined.

(** * A* with stale queue entries *)

(** A grid of 8 × 4 cells ([S] Start, [E] End, [#] obstacles):
<<
      . S . .
      . . # .
      . # . .
      . . . .
      . # . .
      . . . .
      . # # .
      # E . .
>> *)
Definition stale_grid (alg : Algorithm) : World :=
  foldl (λ w p, make_obstacle p w)
        (make_end (7, 1) (make_start (0, 1) (create_nodes 8 4 alg)))
        [(1, 2); (2, 1); (4, 1); (6, 1); (6, 2); (7, 0)].

(** The eleven steps along the right border. *)
Definition border_path : list pos :=
  [(0, 2); (0, 3); (1, 3); (2, 3); (3, 3); (4, 3); (5, 3); (6, 3); (7, 3); (7, 2); (7, 1)].

Lemma stale_grid_ready alg : search_ready (stale_grid alg) (0, 1) (7, 1).
Proof.
  split_and!.
  - destruct alg; vm_compute; reflexivity.
  - destruct alg; vm_compute; reflexivity.
  - destruct alg; split; vm_compute; split; congruence.
  - destruct alg; vm_compute; reflexivity.
  - intros q _ _. apply costs_by_nodes.
    apply map_Forall_to_list. destruct alg; vm_compute; repeat constructor.
Qed.

Lemma stale_grid_unmarked alg : unmarked (stale_grid alg).
Proof.
  apply unmarked_by_nodes. apply map_Forall_to_list.
  destruct alg; vm_compute;
    repeat (apply Forall_cons; split; [simpl; split; discriminate|]); constructor.
Qed.

Lemma border_path_is_path alg : is_path (stale_grid alg) (0, 1) (7, 1) border_path.
Proof.
  split_and!.
  - vm_compute. repeat split.
  - reflexivity.
  - apply Forall_forall. unfold border_path.
    repeat (apply Forall_cons; split;
            [split; [split; vm_compute; split; congruence
                    | destruct alg; vm_compute; reflexivity]|]).
    constructor.
Qed.

(** With A* the length that [find_path] prints need not be that of a
    shortest path, and the reconstructor may fail.  A cell that is
    reached a second time at a lower cost while it is green keeps its
    place in the queue, and a cell that is reached at a lower cost after
    it was dequeued passes nothing on to the cells behind it.  On the
    grid above, which is ready for a search and carries no marks, A*
    prints the length 13 although eleven steps lead from Start to End,
    and [find_path] then ends with the [AttributeError] of [draw_path],
    which walks 13 parent links where there are only 11; Dijkstra's
    algorithm prints 11 on the same grid. *)
Theorem a_star_not_shortest :
  ∃ (grid : Algorithm → World) (st e : pos) (path : list pos) (run run' : Run),
    (∀ alg, ALG (grid alg) = alg ∧ search_ready (grid alg) st e ∧ unmarked (grid alg)
            ∧ is_path (grid alg) st e path)
    ∧ st ≠ e ∧ in_grid (grid A_STAR) e ∧ length path = 11%nat
    ∧ find_path 200 [] (grid A_STAR) = Some run
    ∧ printed run = [MsgPathFound (Fin 13)]
    ∧ returned run = Raise AttributeError
    ∧ find_path 200 [] (grid DJIKSTRA) = Some run'
    ∧ printed run' = [MsgPathFound (Fin 11)]
    ∧ returned run' = Ok tt.
Proof.
  exists stale_grid, (0, 1), (7, 1), border_path.
  exists (default (mkRun (Ok tt) [] (stale_grid A_STAR)) (find_path 200 [] (stale_grid A_STAR))).
  exists (default (mkRun (Ok tt) [] (stale_grid A_STAR))
                  (find_path 200 [] (stale_grid DJIKSTRA))).
  split.
  { intros alg. split; [by destruct alg|]. split; [apply stale_grid_ready|].
    split; [apply stale_grid_unmarked | apply border_path_is_path]. }
  split; [discriminate|].
  split; [split; vm_compute; split; congruence|].
  split; [reflexivity|].
  split; [vm_compute; reflexivity|].
  split; [vm_compute; reflexivity|].
  split; [vm_compute; reflexivity|].
  split; [vm_compute; reflexivity|].
  split; vm_compute; reflexivity.
Qed.

(** * The maze as a tree *)

(** ** Counting cells *)

Lemma filter_length_ext (P Q : pos → Prop) `{DP : !∀ x, Decision (P x)}
    `{DQ : !∀ x, Decision (Q x)}
    (l : list pos) :
  (∀ y, y ∈ l → (Q y ↔ P y)) → length (filter Q l) = length (filter P l).
Proof.
  induction l as [|a l IH]; intros H; [done|].
  rewrite !filter_cons.
  assert (Ha : Q a ↔ P a) by (apply H; left).
  assert (Hl : length (filter Q l) = length (filter P l)).
  { apply IH. intros y Hy. apply H. by right. }
  destruct (decide (Q a)) as [q|q], (decide (P a)) as [p|p]; cbn [length]; tauto || lia.
Qed.

Lemma filter_length_add (P Q : pos → Prop) `{DP : !∀ x, Decision (P x)}
    `{DQ : !∀ x, Decision (Q x)}
    (l : list pos) (x : pos) :
  NoDup l → x ∈ l → ¬ P x → Q x → (∀ y, y ∈ l → y ≠ x → (Q y ↔ P y)) →
  length (filter Q l) = S (length (filter P l)).
Proof.
  induction l as [|a l IH]; intros Hnd Hx HP HQ H.
  { by apply elem_of_nil in Hx. }
  apply NoDup_cons in Hnd as [Ha Hnd]. rewrite !filter_cons.
  apply elem_of_cons in Hx as [<-|Hx].
  - rewrite decide_True by done. rewrite decide_False by done. cbn [length]. f_equal.
    apply filter_length_ext. intros y Hy. apply H; [by right|]. intros ->. done.
  - assert (Hax : a ≠ x) by (intros ->; done).
    assert (Hqa : Q a ↔ P a) by (apply H; [left | done]).
    assert (Hl : length (filter Q l) = S (length (filter P l))).
    { apply IH; try done. intros y Hy. apply H. by right. }
    destruct (decide (Q a)) as [q|q], (decide (P a)) as [p|p]; cbn [length]; tauto || lia.
Qed.

Lemma NoDup_all_nodes w : NoDup (all_nodes w).
Proof.
  unfold all_nodes. apply NoDup_bind.
  - intros r1 r2 p _ _ H1 H2.
    apply list_elem_of_bind in H1 as (c1 & ->%list_elem_of_singleton & _).
    apply list_elem_of_bind in H2 as (c2 & [= -> _]%list_elem_of_singleton & _). done.
  - intros r _. apply NoDup_bind.
    + intros c1 c2 p _ _ ->%list_elem_of_singleton [= ->]%list_elem_of_singleton. done.
    + intros c _. apply NoDup_singleton.
    + apply NoDup_seqZ.
  - apply NoDup_seqZ.
Qed.

Lemma filter_length_none (Q : pos → Prop) `{DQ : !∀ x, Decision (Q x)} (l : list pos) :
  (∀ y, y ∈ l → ¬ Q y) → length (filter Q l) = O.
Proof.
  induction l as [|a l IH]; intros H; [done|].
  rewrite filter_cons. rewrite decide_False by (apply H; left).
  apply IH. intros y Hy. apply H. by right.
Qed.

(** ** Rooms and doors *)

Global Instance even2_dec p : Decision (even2 p).
Proof. unfold even2. apply _. Defined.

(** The white cells of the grid with two even coordinates are the rooms
    of the maze, the other white cells are its doors. *)
Definition rooms (w : World) : nat :=
  length (filter (λ p, is_normal w p = true ∧ even2 p) (all_nodes w)).

Definition doors (w : World) : nat :=
  length (filter (λ p, is_normal w p = true ∧ ¬ even2 p) (all_nodes w)).

(** There is one door less than there are rooms, and a door has a room
    on either side. *)
Definition tree_inv (w : World) : Prop :=
  rooms w = S (doors w)
  ∧ ∀ d q, normal w d → ¬ even2 d → in_grid w q → adjacent4 d q → even2 q →
           is_normal w q = true.

Lemma tree_inv_pop w w' current :
  carved [current] w w' → normal w current → tree_inv w → tree_inv w'.
Proof.
  intros Hc [Hcg Hcn] [Hcount Hdoor].
  assert (Hn : ∀ q, is_normal w' q = is_normal w q).
  { intros q. rewrite (carved_is_normal _ _ _ _ Hc).
    case_bool_decide as Hq; [|done]. apply list_elem_of_singleton in Hq. by subst q. }
  split.
  - unfold rooms, doors in *. rewrite (carved_all_nodes _ _ _ Hc).
    rewrite (filter_length_ext (λ p, is_normal w p = true ∧ even2 p)
                               (λ p, is_normal w' p = true ∧ even2 p))
      by (intros y _; by rewrite Hn).
    rewrite (filter_length_ext (λ p, is_normal w p = true ∧ ¬ even2 p)
                               (λ p, is_normal w' p = true ∧ ¬ even2 p))
      by (intros y _; by rewrite Hn).
    done.
  - intros d q [Hd1 Hd2] Hde Hq Hadj Hqe. rewrite Hn in *.
    apply (Hdoor d q); try done.
    + split; [by apply (carved_in_grid _ _ _ d Hc) | done].
    + by apply (carved_in_grid _ _ _ q Hc).
Qed.

Lemma tree_inv_carve w w' current next wall :
  carved [next; wall; current] w w' → normal w current → even2 current →
  in_grid w next → axial 2 current.1 current.2 next → is_normal w next = false →
  wall = ((current.1 + next.1) / 2, (current.2 + next.2) / 2) →
  in_grid w wall → tree_inv w → tree_inv w'.
Proof.
  intros Hc [Hcg Hcn] Hce Hng Hax Hnn Hw Hwg [Hcount Hdoor].
  assert (Hne : even2 next).
  { destruct Hce as [E1 E2], Hax as [[A1 A2]|[A1 A2]]; split; zlia. }
  assert (Hwe : ¬ even2 wall).
  { subst wall. destruct Hce as [E1 E2], Hax as [[A1 A2]|[A1 A2]]; intros [F1 F2];
      cbn [fst snd] in *; zlia. }
  assert (Hadj : ∀ q, adjacent4 wall q → even2 q → q = current ∨ q = next).
  { intros [a b] Hq [Q1 Q2]. subst wall. unfold adjacent4 in Hq.
    destruct current as [r c], next as [r' c'].
    destruct Hce as [E1 E2], Hax as [[A1 A2]|[A1 A2]]; cbn [fst snd] in *;
      assert (a = r ∧ b = c ∨ a = r' ∧ b = c') as [[-> ->]|[-> ->]] by zlia; auto. }
  assert (Hwn : is_normal w wall = false).
  { destruct (is_normal w wall) eqn:E; [|done].
    rewrite (Hdoor wall next) in Hnn; try done.
    subst wall. unfold adjacent4.
    destruct Hax as [[A1 A2]|[A1 A2]]; cbn [fst snd] in *; zlia. }
  assert (Hn : ∀ q, is_normal w' q = true ↔ q = next ∨ q = wall ∨ is_normal w q = true).
  { intros q. rewrite (carved_is_normal _ _ _ _ Hc). rewrite orb_true_iff.
    rewrite bool_decide_eq_true, !elem_of_cons, elem_of_nil.
    split; [|tauto]. intros [[?|[?|[->|[]]]]|?]; auto. }
  assert (Hnw : next ≠ wall) by (intros ->; done).
  split.
  - unfold rooms, doors in *. rewrite (carved_all_nodes _ _ _ Hc).
    rewrite (filter_length_add (λ p, is_normal w p = true ∧ even2 p)
                               (λ p, is_normal w' p = true ∧ even2 p) (all_nodes w) next).
    + rewrite (filter_length_add (λ p, is_normal w p = true ∧ ¬ even2 p)
                                 (λ p, is_normal w' p = true ∧ ¬ even2 p) (all_nodes w) wall).
      * lia.
      * apply NoDup_all_nodes.
      * by apply elem_of_all_nodes.
      * intros [H _]. congruence.
      * split; [apply Hn; auto | done].
      * intros y _ Hy. rewrite Hn. split; [|tauto].
        intros [[->|[->|H]] He]; done.
    + apply NoDup_all_nodes.
    + by apply elem_of_all_nodes.
    + intros [H _]. congruence.
    + split; [apply Hn; auto | done].
    + intros y _ Hy. rewrite Hn. split; [|tauto].
      intros [[->|[->|H]] He]; done.
  - intros d q [Hd1 Hd2] Hde Hq Hdq Hqe. apply Hn.
    apply Hn in Hd2 as [->|[->|Hd2]]; [done | |].
    + destruct (Hadj q Hdq Hqe) as [-> | ->]; auto.
    + right. right. apply (Hdoor d q); try done.
      * split; [by apply (carved_in_grid _ _ _ d Hc) | done].
      * by apply (carved_in_grid _ _ _ q Hc).
Qed.

Lemma maze_body_tree rng inputs current rest w :
  maze_inv w (current :: rest) → tree_inv w →
  match maze_body rng inputs current rest w with
  | inl _ => True
  | inr (_, _, _, w') => tree_inv w'
  end.
Proof.
  intros Hinv Ht. pose proof Hinv as (I1 & I2 & _ & _ & _ & I6 & _).
  destruct (I6 current) as [Hcn Hce]; [left|].
  pose proof (maze_body_spec rng inputs current rest w I1 I2 (proj1 Hcn)) as Hb.
  destruct (maze_body rng inputs current rest w) as [[r w']|[[[rng' inputs'] stack'] w']];
    [done|].
  destruct Hb as [(_ & Hc & _)|(next & wall & _ & Hc & Hng & Hax & Hnn & Hw & Hwg & _)].
  - by eapply tree_inv_pop.
  - by eapply tree_inv_carve.
Qed.

Lemma maze_loop_tree fuel rng inputs stack w w' :
  maze_inv w stack → tree_inv w →
  maze_loop fuel rng inputs stack w = Some (Ok tt, w') → tree_inv w'.
Proof.
  revert rng inputs stack w. induction fuel as [|fuel IH]; intros rng inputs stack w Hinv Ht.
  { destruct stack; [|done]. cbn [maze_loop]. by intros [= <-]. }
  destruct stack as [|current rest].
  { cbn [maze_loop]. by intros [= <-]. }
  rewrite maze_loop_S.
  pose proof (maze_body_inv rng inputs current rest w Hinv) as Hb.
  pose proof (maze_body_tree rng inputs current rest w Hinv Ht) as Hbt.
  destruct (maze_body rng inputs current rest w) as [[r w1]|[[[rng' inputs'] stack'] w1]].
  { intros [= -> <-]. by destruct Hb. }
  destruct Hb as (Hinv' & _). by apply IH.
Qed.

(** In the state in which the loop is entered the origin is the only
    white cell. *)
Lemma maze_start_white w :
  distinct_ends w → ends_in_grid w → 1 ≤ ROWS w → 1 ≤ COLUMNS w →
  ∀ p, in_grid w p → is_normal (maze_start w) p = bool_decide (p = (0, 0)).
Proof.
  intros Hd He HR HC p Hp. unfold maze_start.
  destruct (reset_grid_0_blank w Hd He) as (_ & (As & Ae & An) & (A1 & A2 & _)).
  set (wA := (reset_grid 0 w).2) in *.
  destruct (foldl_make_obstacle (all_nodes wA) wA As Ae) as [_ Bn].
  unfold is_normal. rewrite reset_node.
  destruct (decide ((0, 0) = p)) as [<-|Hne].
  - by rewrite bool_decide_eq_true_2.
  - rewrite Bn. rewrite (bool_decide_eq_true_2 (p ∈ all_nodes wA)).
    + cbn [paint color]. rewrite (bool_decide_eq_false_2 (p = (0, 0))) by congruence.
      by apply bool_decide_eq_false_2.
    + apply elem_of_all_nodes. unfold in_grid. by rewrite A1, A2.
Qed.

Lemma all_nodes_size w w' : ROWS w' = ROWS w → COLUMNS w' = COLUMNS w → all_nodes w' = all_nodes w.
Proof. intros E1 E2. unfold all_nodes. by rewrite E1, E2. Qed.

Lemma maze_start_tree w :
  distinct_ends w → ends_in_grid w → 1 ≤ ROWS w → 1 ≤ COLUMNS w → tree_inv (maze_start w).
Proof.
  intros Hd He HR HC.
  destruct (maze_start_inv w Hd He HR HC) as (_ & SR & SC & _).
  pose proof (maze_start_white w Hd He HR HC) as Hw.
  assert (H0 : in_grid w (0, 0)) by (split; simpl; lia).
  assert (Hg : ∀ q, in_grid (maze_start w) q ↔ in_grid w q).
  { intros q. unfold in_grid. by rewrite SR, SC. }
  split.
  - unfold rooms, doors. rewrite (all_nodes_size w (maze_start w) SR SC).
    rewrite (filter_length_none (λ p, is_normal (maze_start w) p = true ∧ ¬ even2 p)).
    + rewrite (filter_length_add (λ _, False)
                 (λ p, is_normal (maze_start w) p = true ∧ even2 p) (all_nodes w) (0, 0)).
      * by rewrite (filter_length_none (λ _, False)) by (intros ? _ []).
      * apply NoDup_all_nodes.
      * by apply elem_of_all_nodes.
      * tauto.
      * rewrite Hw by done. done.
      * intros y Hy%elem_of_all_nodes Hne. rewrite Hw by done.
        rewrite bool_decide_eq_false_2 by done. split; [by intros [? _] | done].
    + intros y Hy%elem_of_all_nodes [Hn Hev]. rewrite Hw in Hn by done.
      apply bool_decide_eq_true in Hn. subst y. by apply Hev.
  - intros d q [Hd1 Hd2] Hde _ _ _. apply Hg in Hd1. rewrite Hw in Hd2 by done.
    apply bool_decide_eq_true in Hd2. subst d. exfalso. by apply Hde.
Qed.

(** The loop of [generate_maze] ends in a maze that is a tree. *)
Lemma generate_maze_tree_state fuel rng inputs w w' :
  distinct_ends w → ends_in_grid w → 1 ≤ ROWS w → 1 ≤ COLUMNS w →
  generate_maze fuel rng inputs w = Some (Ok tt, w') →
  ∃ wM, w' = maze_finish wM ∧ maze_inv wM [] ∧ tree_inv wM
        ∧ ROWS wM = ROWS w ∧ COLUMNS wM = COLUMNS w.
Proof.
  intros Hd He HR HC.
  destruct (maze_start_inv w Hd He HR HC) as (Hinv & SR & SC & SA).
  pose proof (maze_start_tree w Hd He HR HC) as Ht.
  unfold generate_maze. rewrite (generate_maze_origin w HR HC). fold (maze_start w).
  destruct (maze_loop fuel rng inputs [(0, 0)] (maze_start w)) as [[r1 wM]|] eqn:E; [|done].
  destruct r1 as [[]|ex]; [|done].
  destruct (maze_loop_partial _ _ _ _ _ _ _ Hinv E) as (HM & MR & MC & MA).
  pose proof (maze_loop_tree _ _ _ _ _ _ Hinv Ht E) as HT.
  assert (En : nodes_at (make_start (0, 0) wM) (ROWS (make_start (0, 0) wM) - 1)
                        (COLUMNS (make_start (0, 0) wM) - 2)
               = Some (maze_end_cell wM)).
  { destruct (same_frame_make_start (0, 0) wM) as (D1 & D2 & _).
    unfold nodes_at. rewrite D1, D2. apply nodes_at_end_cell; lia. }
  rewrite En. intros [= <-]. exists wM. split_and!; try done; congruence.
Qed.

(** The cells of the grid that are no obstacles: those with two even
    coordinates, and the others. *)
Definition open_rooms (w : World) : nat :=
  length (filter (λ p, is_obstacle w p = false ∧ even2 p) (all_nodes w)).

Definition open_doors (w : World) : nat :=
  length (filter (λ p, is_obstacle w p = false ∧ ¬ even2 p) (all_nodes w)).

(** The maze that [generate_maze] returns has no loops: among the cells
    that are no obstacles there is one less with an odd coordinate (a
    door between two rooms) than with two even coordinates (a room),
    which with the connectedness of the maze makes the rooms and doors
    a tree.  The one exception is the cell of End when it has an odd
    coordinate and was a wall: the last statement of the generator
    opens it, and the counts are then equal. *)
Theorem generate_maze_tree (w : World) (fuel : nat) (rng : list nat)
    (inputs : list (list Event)) (w' : World) :
  distinct_ends w → ends_in_grid w → 1 ≤ ROWS w → 1 ≤ COLUMNS w →
  generate_maze fuel rng inputs w = Some (Ok tt, w') →
  (open_rooms w' = S (open_doors w')
   ∨ (open_rooms w' = open_doors w' ∧ ∃ e, END w' = Some e ∧ ¬ even2 e))
  ∧ ((∀ e, END w' = Some e → even2 e) → open_rooms w' = S (open_doors w')).
Proof.
  intros Hd He HR HC E.
  destruct (generate_maze_tree_state fuel rng inputs w w' Hd He HR HC E)
    as (wM & -> & HM & [Hcount _] & MR & MC).
  destruct (maze_finish_spec wM HM) as (F1 & F2 & _ & _ & F5 & F6 & F7 & _); [lia | lia |].
  pose proof (maze_inv_even_cells wM HM) as Hev.
  destruct HM as (_ & _ & [_ I3] & I4 & _).
  set (e := maze_end_cell wM) in *.
  assert (Hopen : ∀ q, in_grid wM q →
            is_obstacle (maze_finish wM) q = false ↔ q = e ∨ is_normal wM q = true).
  { intros q Hq. unfold is_obstacle, is_normal. rewrite F7.
    destruct (decide (q = (0, 0))) as [->|Hq0].
    { split; [|done]. intros _. right. exact I3. }
    destruct (decide (q = e)) as [->|Hqe]; [by split; auto|].
    rewrite bool_decide_eq_false, bool_decide_eq_true.
    destruct (I4 q Hq) as [-> | ->]; split; try done; [by right | by intros [?|?]]. }
  assert (Hrooms : open_rooms (maze_finish wM) = rooms wM).
  { unfold open_rooms, rooms. rewrite (all_nodes_size wM _ F1 F2).
    apply filter_length_ext. intros y Hy%elem_of_all_nodes.
    rewrite (Hopen y Hy). split; [|tauto].
    intros [[->|H] Hy2]; [|done]. split; [by apply Hev | done]. }
  destruct (is_normal wM e) eqn:Hen.
  - assert (Hdoors : open_doors (maze_finish wM) = doors wM).
    { unfold open_doors, doors. rewrite (all_nodes_size wM _ F1 F2).
      apply filter_length_ext. intros y Hy%elem_of_all_nodes.
      rewrite (Hopen y Hy). split; [|tauto]. intros [[->|H] Hy2]; done. }
    rewrite Hrooms, Hdoors. split; [by left | done].
  - assert (Hee : ¬ even2 e).
    { intros H. rewrite (Hev e F6 H) in Hen. done. }
    assert (He0 : e ≠ (0, 0)) by (intros H; rewrite H in Hen; congruence).
    rewrite decide_False in F5 by done.
    assert (Hdoors : open_doors (maze_finish wM) = S (doors wM)).
    { unfold open_doors, doors. rewrite (all_nodes_size wM _ F1 F2).
      apply (filter_length_add _ _ (all_nodes wM) e).
      - apply NoDup_all_nodes.
      - by apply elem_of_all_nodes.
      - intros [H _]. congruence.
      - split; [|done]. apply Hopen; [done | by left].
      - intros y Hy%elem_of_all_nodes Hne. rewrite (Hopen y Hy).
        split; [|tauto]. intros [[->|H] Hy2]; done. }
    rewrite Hrooms, Hdoors, Hcount. split.
    + right. split; [done|]. by exists e.
    + intros H. exfalso. apply Hee. by apply H.
Qed.

(** The theorem for a maze on the grid of 3 × 4 cells. *)
Lemma generate_maze_tree_witness :
  (open_rooms maze_demo = S (open_doors maze_demo)
   ∨ (open_rooms maze_demo = open_doors maze_demo
      ∧ ∃ e, END maze_demo = Some e ∧ ¬ even2 e))
  ∧ ((∀ e, END maze_demo = Some e → even2 e) →
     open_rooms maze_demo = S (open_doors maze_demo)).
Proof.
  apply (generate_maze_tree (create_nodes 3 4 A_STAR) 40 [1; 0; 2]%nat [] maze_demo).
  - intros ? Hp; vm_compute in Hp; discriminate Hp.
  - split; intros ? Hp; vm_compute in Hp; discriminate Hp.
  - vm_compute; discriminate.
  - vm_compute; discriminate.
  - vm_compute; reflexivity.
Defined.

(** * Drawing and the algorithm *)

(** ** States that differ for the display only *)

(** [w'] is [w] up to what only the display reads: the refresh flags of
    the nodes and [QUICK_MODE]. *)
Definition alike (w w' : World) : Prop :=
  core_eq w w' ∧ PAUSED w' = PAUSED w ∧ SHOW_MAZE_ANIM w' = SHOW_MAZE_ANIM w.

(** The fields of a node that the algorithms read. *)
Definition node_core (n : Node) : Color * Num * Z * option pos :=
  (color n, g_score n, h_score n, parent_node n).

Lemma alike_node w w' q : alike w w' → node_core (node w' q) = node_core (node w q).
Proof.
  intros [(_ & _ & _ & _ & _ & Hq) _]. unfold node_core.
  by destruct (Hq q) as (-> & -> & -> & ->).
Qed.

Lemma alike_refl w : alike w w.
Proof. split; [apply core_eq_refl | done]. Qed.

Lemma alike_sym w w' : alike w w' → alike w' w.
Proof.
  intros [(C1 & C2 & C3 & C4 & C5 & Cq) [P S]]. split; [|done].
  split_and!; try done. intros q. by destruct (Cq q) as (-> & -> & -> & ->).
Qed.

Lemma alike_trans w1 w2 w3 : alike w1 w2 → alike w2 w3 → alike w1 w3.
Proof.
  intros [C [P S]] [C' [P' S']]. split; [by eapply core_eq_trans|]. split; congruence.
Qed.

Lemma alike_intro w w' :
  ROWS w' = ROWS w → COLUMNS w' = COLUMNS w → ALG w' = ALG w →
  START w' = START w → END w' = END w →
  PAUSED w' = PAUSED w → SHOW_MAZE_ANIM w' = SHOW_MAZE_ANIM w →
  (∀ q, node_core (node w' q) = node_core (node w q)) →
  alike w w'.
Proof.
  intros E1 E2 E3 E4 E5 E6 E7 Hq. split; [|done]. split_and!; try done.
  intros q. specialize (Hq q). unfold node_core in Hq. by injection Hq as -> -> -> ->.
Qed.

Lemma alike_globals w w' :
  alike w w' →
  ROWS w' = ROWS w ∧ COLUMNS w' = COLUMNS w ∧ ALG w' = ALG w
  ∧ START w' = START w ∧ END w' = END w
  ∧ PAUSED w' = PAUSED w ∧ SHOW_MAZE_ANIM w' = SHOW_MAZE_ANIM w.
Proof. intros [(C1 & C2 & C3 & C4 & C5 & _) [P S]]. by split_and!. Qed.

Lemma alike_all_nodes w w' : alike w w' → all_nodes w' = all_nodes w.
Proof.
  intros H. destruct (alike_globals _ _ H) as (E1 & E2 & _). unfold all_nodes.
  by rewrite E1, E2.
Qed.

(** An assignment to node fields that reads none but those four. *)
Lemma alike_set_node p f f' w w' :
  alike w w' →
  node_core (f' (node w' p)) = node_core (f (node w p)) →
  alike (set_node p f w) (set_node p f' w').
Proof.
  intros H Hf. destruct (alike_globals _ _ H) as (E1 & E2 & E3 & E4 & E5 & E6 & E7).
  apply alike_intro; try done.
  intros q. rewrite !node_set_node. destruct (decide (p = q)); [done|].
  by apply alike_node.
Qed.

Lemma alike_color w w' q : alike w w' → color (node w' q) = color (node w q).
Proof. intros H. pose proof (alike_node w w' q H) as E. unfold node_core in E. congruence. Qed.

Lemma alike_g_score w w' q : alike w w' → g_score (node w' q) = g_score (node w q).
Proof. intros H. pose proof (alike_node w w' q H) as E. unfold node_core in E. congruence. Qed.

Lemma alike_h_score w w' q : alike w w' → h_score (node w' q) = h_score (node w q).
Proof. intros H. pose proof (alike_node w w' q H) as E. unfold node_core in E. congruence. Qed.

Lemma alike_parent w w' q : alike w w' → parent_node (node w' q) = parent_node (node w q).
Proof. intros H. pose proof (alike_node w w' q H) as E. unfold node_core in E. congruence. Qed.

Lemma alike_is_start w w' q : alike w w' → is_start w' q = is_start w q.
Proof. intros H. destruct (alike_globals _ _ H) as (_ & _ & _ & E & _). unfold is_start. by rewrite E. Qed.

Lemma alike_is_end w w' q : alike w w' → is_end w' q = is_end w q.
Proof. intros H. destruct (alike_globals _ _ H) as (_ & _ & _ & _ & E & _). unfold is_end. by rewrite E. Qed.

Lemma alike_is_obstacle w w' q : alike w w' → is_obstacle w' q = is_obstacle w q.
Proof. intros H. unfold is_obstacle. by rewrite (alike_color w w' q H). Qed.

Lemma alike_is_active w w' q : alike w w' → is_active w' q = is_active w q.
Proof. intros H. unfold is_active. by rewrite (alike_color w w' q H). Qed.

Lemma alike_is_visited w w' q : alike w w' → is_visited w' q = is_visited w q.
Proof.
  intros H. unfold is_visited. by rewrite (alike_color w w' q H), (alike_is_start w w' q H).
Qed.

Lemma alike_score w w' q : alike w w' → score w' q = score w q.
Proof.
  intros H. destruct (alike_globals _ _ H) as (_ & _ & E & _). unfold score, f_score.
  by rewrite E, (alike_g_score w w' q H), (alike_h_score w w' q H).
Qed.

Lemma alike_get_neighbours w w' p n : alike w w' → get_neighbours w' p n = get_neighbours w p n.
Proof.
  intros H. destruct (alike_globals _ _ H) as (E1 & E2 & _).
  unfold get_neighbours, nodes_at. by rewrite E1, E2.
Qed.

(** ** The operations on alike states *)

Lemma alike_paint p c w w' : alike w w' → alike (set_node p (paint c) w) (set_node p (paint c) w').
Proof.
  intros H. apply alike_set_node; [done|]. unfold node_core, paint; cbn.
  by rewrite (alike_g_score w w' p H), (alike_h_score w w' p H), (alike_parent w w' p H).
Qed.

Lemma alike_make_active p w w' : alike w w' → alike (make_active p w) (make_active p w').
Proof. apply alike_paint. Qed.

Lemma alike_make_path p c w w' : alike w w' → alike (make_path p c w) (make_path p c w').
Proof. apply alike_paint. Qed.

Lemma alike_make_visited p w w' : alike w w' → alike (make_visited p w) (make_visited p w').
Proof.
  intros H. unfold make_visited. rewrite (alike_is_start w w' p H).
  destruct (is_start w p); [done | by apply alike_paint].
Qed.

Lemma alike_cleared p w w' : alike w w' → alike (set_node p cleared w) (set_node p cleared w').
Proof.
  intros H. apply alike_set_node; [done|]. unfold node_core, cleared; cbn.
  by rewrite (alike_h_score w w' p H).
Qed.

Lemma alike_soft_reset p w w' : alike w w' → alike (soft_reset w p) (soft_reset w' p).
Proof.
  intros H. rewrite !soft_reset_unfold. unfold soft.
  rewrite (alike_is_start w w' p H), (alike_is_end w w' p H), (alike_is_obstacle w w' p H).
  destruct (_ && _); [by apply alike_cleared | done].
Qed.

Lemma alike_foldl (f : World → pos → World) l w w' :
  (∀ p w w', alike w w' → alike (f w p) (f w' p)) →
  alike w w' → alike (foldl f w l) (foldl f w' l).
Proof.
  intros Hf. revert w w'. induction l as [|x l IH]; intros w w' H; [done|].
  cbn [foldl]. apply IH. by apply Hf.
Qed.

Lemma alike_draw_screen w : alike w (draw_screen w).
Proof.
  split; [apply core_eq_draw_screen|]. split; [apply draw_screen_PAUSED|].
  unfold draw_screen. generalize (all_nodes w). intros l. revert w.
  induction l as [|x l IH]; intros w; simpl; [done|].
  rewrite IH. unfold draw. by destruct (needs_refresh _).
Qed.

Lemma alike_reset_grid_1 w w' :
  alike w w' →
  (reset_grid 1 w').1 = (reset_grid 1 w).1 ∧ alike (reset_grid 1 w).2 (reset_grid 1 w').2.
Proof.
  intros H. unfold reset_grid. cbn [Z.eqb].
  rewrite (alike_all_nodes w w' H).
  pose proof (alike_foldl soft_reset (all_nodes w) w w'
                (λ p w w' H, alike_soft_reset p w w' H) H) as H1.
  destruct (alike_globals _ _ H1) as (_ & _ & _ & _ & E & _). rewrite E.
  destruct (END (foldl soft_reset w (all_nodes w))) as [e|]; cbn [fst snd]; [|done].
  split; [done|]. apply alike_set_node; [done|]. unfold node_core, clear_end; cbn.
  by rewrite (alike_color _ _ e H1), (alike_h_score _ _ e H1).
Qed.

Lemma alike_handle_input_running evs w w' :
  alike w w' →
  (handle_input_running evs w').1 = (handle_input_running evs w).1
  ∧ alike (handle_input_running evs w).2 (handle_input_running evs w').2.
Proof.
  revert w w'. induction evs as [|ev evs IH]; intros w w' H; [done|].
  destruct (alike_globals _ _ H) as (E1 & E2 & E3 & E4 & E5 & E6 & E7).
  assert (Hq : ∀ b b', alike (with_QUICK_MODE b w) (with_QUICK_MODE b' w')).
  { intros b b'. apply alike_intro; try done. intros q. exact (alike_node w w' q H). }
  assert (Hs : alike (with_SHOW_MAZE_ANIM (negb (SHOW_MAZE_ANIM w)) w)
                     (with_SHOW_MAZE_ANIM (negb (SHOW_MAZE_ANIM w')) w')).
  { rewrite E7. apply alike_intro; try done. intros q. exact (alike_node w w' q H). }
  assert (Hp : alike (with_PAUSED (negb (PAUSED w)) w) (with_PAUSED (negb (PAUSED w')) w')).
  { rewrite E6. apply alike_intro; try done. intros q. exact (alike_node w w' q H). }
  destruct ev as [|[]|]; cbn [handle_input_running]; try done; by apply IH.
Qed.

(** ** The search on alike states *)

Definition alike_search (s s' : Search) : Prop :=
  alike (world s) (world s') ∧ active s' = active s ∧ index s' = index s
  ∧ puts s' = puts s.

Definition alike_end (r r' : LoopEnd) : Prop :=
  match r, r' with
  | Cancelled (a, w), Cancelled (a', w') => a' = a ∧ alike w w'
  | Found s, Found s' => alike_search s s'
  | Exhausted s, Exhausted s' => alike_search s s'
  | Raised e w, Raised e' w' => e' = e ∧ alike w w'
  | OutOfFuel, OutOfFuel => True
  | _, _ => False
  end.

Definition alike_step (r r' : Step) : Prop :=
  match r, r' with
  | Next s, Next s' => alike_search s s'
  | Stop e, Stop e' => alike_end e e'
  | _, _ => False
  end.

Lemma alike_relax current s s' nb :
  alike_search s s' → alike_search (relax current s nb) (relax current s' nb).
Proof.
  intros (H & Ea & Ei & Ep). unfold relax.
  rewrite (alike_is_obstacle _ _ nb H), (alike_g_score _ _ current H),
    (alike_g_score _ _ nb H).
  destruct (negb (is_obstacle (world s) nb)); [|by split_and!].
  set (g := num_add (g_score (node (world s) current)) (Fin 1)).
  destruct (num_ltb g (g_score (node (world s) nb))); [|by split_and!].
  assert (H1 : alike (set_node nb (relaxed g current) (world s))
                     (set_node nb (relaxed g current) (world s'))).
  { apply alike_set_node; [done|]. unfold node_core, relaxed; cbn.
    by rewrite (alike_color _ _ nb H), (alike_h_score _ _ nb H). }
  rewrite (alike_is_active _ _ nb H1), (alike_is_visited _ _ nb H1).
  destruct (_ && _); cbn [world active index puts].
  - pose proof (alike_make_active nb _ _ H1) as H2.
    rewrite (alike_score _ _ nb H2), Ea, Ei, Ep. by split_and!.
  - by split_and!.
Qed.

Lemma alike_foldl_relax current nbs s s' :
  alike_search s s' →
  alike_search (foldl (relax current) s nbs) (foldl (relax current) s' nbs).
Proof.
  revert s s'. induction nbs as [|nb nbs IH]; intros s s' H; [done|].
  cbn [foldl]. apply IH. by apply alike_relax.
Qed.

Lemma alike_search_iteration evs s s' e0 q0 :
  alike_search s s' →
  alike_step (search_iteration evs s e0 q0) (search_iteration evs s' e0 q0).
Proof.
  intros (H & Ea & Ei & Ep). unfold search_iteration.
  destruct (alike_handle_input_running evs _ _ H) as [Hr Hw].
  destruct (handle_input_running evs (world s)) as [r w1],
           (handle_input_running evs (world s')) as [r' w1'].
  cbn [fst snd] in Hr, Hw. subst r'.
  destruct r as [[|]|ex]; cbn [alike_step alike_end].
  - destruct (alike_reset_grid_1 _ _ Hw) as [R1 R2].
    destruct (reset_grid 1 w1) as [a w2], (reset_grid 1 w1') as [a' w2']. done.
  - destruct (alike_globals _ _ Hw) as (_ & _ & _ & _ & _ & EP & _). rewrite EP.
    destruct (PAUSED w1); cbn [alike_step].
    { by split_and!. }
    assert (Hd : alike (if QUICK_MODE w1 then w1 else draw_screen w1)
                       (if QUICK_MODE w1' then w1' else draw_screen w1')).
    { apply (alike_trans _ w1).
      - destruct (QUICK_MODE w1); [apply alike_refl | apply alike_sym, alike_draw_screen].
      - apply (alike_trans _ w1'); [done|].
        destruct (QUICK_MODE w1'); [apply alike_refl | apply alike_draw_screen]. }
    set (w2 := if QUICK_MODE w1 then w1 else draw_screen w1) in *.
    set (w2' := if QUICK_MODE w1' then w1' else draw_screen w1') in *.
    destruct (extract_min e0 q0) as [m q].
    rewrite (alike_is_end _ _ (e_node m) Hd).
    destruct (is_end w2 (e_node m)); cbn [alike_step alike_end].
    { by split_and!. }
    pose proof (alike_make_visited (e_node m) _ _ Hd) as Hv.
    rewrite (alike_get_neighbours _ _ (e_node m) 1 Hv).
    destruct (get_neighbours (make_visited (e_node m) w2) (e_node m) 1) as [nbs|];
      cbn [alike_step alike_end]; [|done].
    apply alike_foldl_relax. by split_and!.
  - done.
Qed.

Lemma alike_search_loop fuel inputs s s' :
  alike_search s s' →
  alike_end (search_loop fuel inputs s).1 (search_loop fuel inputs s').1
  ∧ (search_loop fuel inputs s').2 = (search_loop fuel inputs s).2.
Proof.
  revert inputs s s'. induction fuel as [|fuel IH]; intros inputs s s' H; [done|].
  cbn [search_loop]. pose proof H as (_ & Ea & _). rewrite Ea.
  destruct (active s) as [|e0 q0]; [done|].
  destruct (poll inputs) as [evs rest].
  pose proof (alike_search_iteration evs s s' e0 q0 H) as Hs.
  destruct (search_iteration evs s e0 q0) as [s1|r], (search_iteration evs s' e0 q0) as [s1'|r'];
    try done.
  by apply IH.
Qed.

Lemma alike_init_node r w w' p :
  alike w w' →
  (init_node (r, w') p).1 = (init_node (r, w) p).1
  ∧ alike (init_node (r, w) p).2 (init_node (r, w') p).2.
Proof.
  intros H. unfold init_node, update_h_score.
  destruct r as [[]|ex]; [|done].
  destruct (alike_globals _ _ H) as (_ & _ & _ & _ & E & _). rewrite E.
  destruct (END w) as [e|]; cbn [fst snd]; [|done].
  split; [done|]. apply alike_set_node.
  - apply alike_set_node; [done|]. unfold node_core; cbn.
    by rewrite (alike_color _ _ p H), (alike_g_score _ _ p H), (alike_parent _ _ p H).
  - rewrite !node_set_node_eq. unfold node_core; cbn.
    by rewrite (alike_color _ _ p H), (alike_g_score _ _ p H).
Qed.

Lemma alike_foldl_init_node l r w w' :
  alike w w' →
  (foldl init_node (r, w') l).1 = (foldl init_node (r, w) l).1
  ∧ alike (foldl init_node (r, w) l).2 (foldl init_node (r, w') l).2.
Proof.
  revert r w w'. induction l as [|p l IH]; intros r w w' H; [done|].
  cbn [foldl]. destruct (alike_init_node r w w' p H) as [H1 H2].
  destruct (init_node (r, w) p) as [r1 w1], (init_node (r, w') p) as [r1' w1'].
  cbn [fst snd] in H1, H2. subst r1'. by apply IH.
Qed.

Lemma alike_search_init w w' :
  alike w w' →
  match search_init w, search_init w' with
  | (Ok s, w1), (Ok s', w1') => alike_search s s' ∧ alike w1 w1'
  | (Raise e, w1), (Raise e', w1') => e' = e ∧ alike w1 w1'
  | _, _ => False
  end.
Proof.
  intros H. unfold search_init. rewrite (alike_all_nodes w w' H).
  destruct (alike_foldl_init_node (all_nodes w) (Ok tt) w w' H) as [H1 H2].
  destruct (foldl init_node (Ok tt, w) (all_nodes w)) as [r w1],
           (foldl init_node (Ok tt, w') (all_nodes w)) as [r' w1'].
  cbn [fst snd] in H1, H2. subst r'. destruct r as [[]|ex]; [|done].
  destruct (alike_globals _ _ H2) as (_ & _ & _ & E & _). rewrite E.
  destruct (START w1) as [st|]; [|done].
  set (f := λ n, mkNode (color n) (needs_refresh n) (Fin 0) (h_score n) (parent_node n)).
  assert (H3 : alike (set_node st f w1) (set_node st f w1')).
  { apply alike_set_node; [done|]. unfold node_core, f; cbn.
    by rewrite (alike_color _ _ st H2), (alike_h_score _ _ st H2), (alike_parent _ _ st H2). }
  rewrite (alike_score _ _ st H3). split; [|done]. by split_and!.
Qed.

(** ** The reconstructor on alike states *)

Lemma alike_walk k w w' nd acc : alike w w' → walk k w' nd acc = walk k w nd acc.
Proof.
  intros H. revert nd acc. induction k as [|k IH]; intros nd acc; [done|].
  cbn [walk]. destruct nd as [p|]; [|done]. by rewrite (alike_parent _ _ p H), IH.
Qed.

Lemma alike_path_walk w w' : alike w w' → path_walk w' = path_walk w.
Proof.
  intros H. unfold path_walk.
  destruct (alike_globals _ _ H) as (_ & _ & _ & _ & E & _). rewrite E.
  destruct (END w) as [e|]; [|done]. rewrite (alike_g_score _ _ e H).
  destruct (g_score (node w e)); [|done]. by apply alike_walk.
Qed.

(** The outcomes of the painting loop and of [draw_path]. *)
Definition alike_drawn (r r' : option (Res unit * World * list (list Event))) : Prop :=
  match r, r' with
  | Some (a, w, rest), Some (a', w', rest') => a' = a ∧ alike w w' ∧ rest' = rest
  | None, None => True
  | _, _ => False
  end.

Lemma alike_paint_loop fuel inputs n i todo w w' :
  alike w w' →
  alike_drawn (paint_loop fuel inputs n i todo w) (paint_loop fuel inputs n i todo w').
Proof.
  revert inputs i todo w w'. induction fuel as [|fuel IH]; intros inputs i todo w w' H.
  { destruct todo; cbn [paint_loop alike_drawn]; done. }
  destruct todo as [|p todo]; cbn [paint_loop alike_drawn]; [done|].
  destruct (poll inputs) as [evs rest].
  destruct (alike_handle_input_running evs _ _ H) as [Hr Hw].
  destruct (handle_input_running evs w) as [r w1],
           (handle_input_running evs w') as [r' w1'].
  cbn [fst snd] in Hr, Hw. subst r'.
  destruct r as [b|ex]; cbn [alike_drawn]; [|done].
  destruct (alike_globals _ _ Hw) as (_ & _ & _ & _ & _ & EP & _). rewrite EP.
  destruct (PAUSED w1); [by apply IH|].
  apply IH. pose proof (alike_make_path p (Gradient i n) _ _ Hw) as Hm.
  apply (alike_trans _ (make_path p (Gradient i n) w1)).
  - destruct (QUICK_MODE _); [apply alike_refl | apply alike_sym, alike_draw_screen].
  - apply (alike_trans _ (make_path p (Gradient i n) w1')); [done|].
    destruct (QUICK_MODE _); [apply alike_refl | apply alike_draw_screen].
Qed.

Lemma alike_draw_path fuel inputs w w' :
  alike w w' → alike_drawn (draw_path fuel inputs w) (draw_path fuel inputs w').
Proof.
  intros H. unfold draw_path. rewrite (alike_path_walk w w' H).
  destruct (path_walk w) as [[path nd]|ex]; [by apply alike_paint_loop | done].
Qed.

(** ** The maze generator on alike states *)

Lemma alike_with_START s w w' : alike w w' → alike (with_START s w) (with_START s w').
Proof.
  intros H. destruct (alike_globals _ _ H) as (E1 & E2 & E3 & E4 & E5 & E6 & E7).
  apply alike_intro; try done; intros q; exact (alike_node w w' q H).
Qed.

Lemma alike_with_END e w w' : alike w w' → alike (with_END e w) (with_END e w').
Proof.
  intros H. destruct (alike_globals _ _ H) as (E1 & E2 & E3 & E4 & E5 & E6 & E7).
  apply alike_intro; try done; intros q; exact (alike_node w w' q H).
Qed.

Lemma alike_reset p w w' : alike w w' → alike (reset p w) (reset p w').
Proof.
  intros H. unfold reset. rewrite (alike_is_start _ _ p H), (alike_is_end _ _ p H).
  destruct (is_start w p); [apply alike_cleared; by apply alike_with_START|].
  destruct (is_end w p); apply alike_cleared; [by apply alike_with_END | done].
Qed.

Lemma alike_make_obstacle p w w' : alike w w' → alike (make_obstacle p w) (make_obstacle p w').
Proof.
  intros H. unfold make_obstacle. rewrite (alike_is_start _ _ p H), (alike_is_end _ _ p H).
  destruct (_ && _); [by apply alike_paint | done].
Qed.

Lemma alike_make_start p w w' : alike w w' → alike (make_start p w) (make_start p w').
Proof.
  intros H. unfold make_start. rewrite (alike_is_end _ _ p H).
  destruct (negb _); [|done]. apply alike_with_START. by apply alike_paint.
Qed.

Lemma alike_make_end p w w' : alike w w' → alike (make_end p w) (make_end p w').
Proof.
  intros H. unfold make_end. rewrite (alike_is_start _ _ p H).
  destruct (negb _); [|done]. apply alike_with_END. by apply alike_paint.
Qed.

Lemma alike_is_normal w w' q : alike w w' → is_normal w' q = is_normal w q.
Proof. intros H. unfold is_normal. by rewrite (alike_color w w' q H). Qed.

Lemma alike_nodes_at w w' i j : alike w w' → nodes_at w' i j = nodes_at w i j.
Proof.
  intros H. destruct (alike_globals _ _ H) as (E1 & E2 & _). unfold nodes_at.
  by rewrite E1, E2.
Qed.

(** The outcomes of the maze generator. *)
Definition alike_made (r r' : option (Res unit * World)) : Prop :=
  match r, r' with
  | Some (a, w), Some (a', w') => a' = a ∧ alike w w'
  | None, None => True
  | _, _ => False
  end.

Lemma alike_maze_loop fuel rng inputs stack w w' :
  alike w w' →
  alike_made (maze_loop fuel rng inputs stack w) (maze_loop fuel rng inputs stack w').
Proof.
  revert rng inputs stack w w'. induction fuel as [|fuel IH]; intros rng inputs stack w w' H.
  { destruct stack; cbn [maze_loop alike_made]; done. }
  destruct stack as [|current rest]; cbn [maze_loop alike_made]; [done|].
  destruct (alike_globals _ _ H) as (_ & _ & _ & _ & _ & _ & ES). rewrite ES.
  assert (Hround : ∀ inputs w w', alike w w' →
    alike_made
      (let w := reset current (make_active current w) in
       match get_neighbours w current 2 with
       | None => Some (Raise IndexError, w)
       | Some nbs =>
           match filter (λ p, is_normal w p = false) nbs with
           | [] => maze_loop fuel rng inputs rest w
           | _ :: _ =>
               let '(k, rng') := draw_rng rng in
               let next_cell := choice k (filter (λ p, is_normal w p = false) nbs) current in
               match nodes_at w ((current.1 + next_cell.1) / 2)
                                ((current.2 + next_cell.2) / 2) with
               | None => Some (Raise IndexError, w)
               | Some dividing_wall =>
                   maze_loop fuel rng' inputs (next_cell :: current :: rest)
                             (reset next_cell (reset dividing_wall w))
               end
           end
       end)
      (let w := reset current (make_active current w') in
       match get_neighbours w current 2 with
       | None => Some (Raise IndexError, w)
       | Some nbs =>
           match filter (λ p, is_normal w p = false) nbs with
           | [] => maze_loop fuel rng inputs rest w
           | _ :: _ =>
               let '(k, rng') := draw_rng rng in
               let next_cell := choice k (filter (λ p, is_normal w p = false) nbs) current in
               match nodes_at w ((current.1 + next_cell.1) / 2)
                                ((current.2 + next_cell.2) / 2) with
               | None => Some (Raise IndexError, w)
               | Some dividing_wall =>
                   maze_loop fuel rng' inputs (next_cell :: current :: rest)
                             (reset next_cell (reset dividing_wall w))
               end
           end
       end)).
  { clear w w' H ES. intros inputs0 w w' H. cbn zeta.
    pose proof (alike_reset current _ _ (alike_make_active current _ _ H)) as H1.
    set (w1 := reset current (make_active current w)) in *.
    set (w1' := reset current (make_active current w')) in *.
    rewrite (alike_get_neighbours _ _ current 2 H1).
    destruct (get_neighbours w1 current 2) as [nbs|]; cbn [alike_made]; [|done].
    assert (Ef : filter (λ p, is_normal w1' p = false) nbs
                 = filter (λ p, is_normal w1 p = false) nbs).
    { apply list_filter_iff. intros p. by rewrite (alike_is_normal _ _ p H1). }
    rewrite Ef. destruct (filter (λ p, is_normal w1 p = false) nbs) as [|n0 ns] eqn:El.
    { by apply IH. }
    destruct (draw_rng rng) as [k rng'].
    rewrite (alike_nodes_at _ _ _ _ H1).
    destruct (nodes_at w1 _ _) as [wall|]; cbn [alike_made]; [|done].
    apply IH. by apply alike_reset, alike_reset. }
  destruct (SHOW_MAZE_ANIM w).
  - destruct (poll inputs) as [evs inputs'].
    destruct (alike_handle_input_running evs _ _ H) as [Hr Hw].
    destruct (handle_input_running evs w) as [r w1],
             (handle_input_running evs w') as [r' w1'].
    cbn [fst snd] in Hr, Hw. subst r'.
    destruct r as [b|ex]; cbn [alike_made]; [|done].
    apply Hround.
    apply (alike_trans _ w1); [apply alike_sym, alike_draw_screen|].
    apply (alike_trans _ w1'); [done | apply alike_draw_screen].
  - by apply Hround.
Qed.

Lemma alike_with_QUICK_MODE b w : alike w (with_QUICK_MODE b w).
Proof. by apply alike_intro. Qed.

(** ** The display does not steer the algorithms *)

(** The refresh flags of the nodes and [QUICK_MODE] have no influence
    on a search: from two states that differ in nothing else, and with
    the same events, [find_path] ends in the same way after the same
    number of rounds, prints the same, and leaves states that again
    differ in nothing else. *)
Theorem find_path_ignores_display (w w' : World) (fuel : nat)
    (inputs : list (list Event)) :
  alike w w' →
  match find_path fuel inputs w, find_path fuel inputs w' with
  | Some run, Some run' =>
      returned run' = returned run ∧ printed run' = printed run
      ∧ alike (final run) (final run')
  | None, None => True
  | _, _ => False
  end.
Proof.
  intros H. unfold find_path.
  pose proof (alike_search_init w w' H) as Hi.
  destruct (search_init w) as [[s|ex] w1], (search_init w') as [[s'|ex'] w1']; try done.
  2:{ destruct Hi as [-> Hi]. by split_and!. }
  destruct Hi as [Hs _].
  destruct (alike_search_loop fuel inputs s s' Hs) as [He Hr].
  destruct (search_loop fuel inputs s) as [r rest], (search_loop fuel inputs s') as [r' rest'].
  cbn [fst snd] in He, Hr. subst rest'.
  destruct r as [[a wa]|s1|s1|ex wa|], r' as [[a' wa']|s1'|s1'|ex' wa'|];
    cbn [alike_end] in He; try done.
  - destruct He as [-> He]. by split_and!.
  - destruct He as (Hw & _).
    destruct (alike_globals _ _ Hw) as (_ & _ & _ & _ & EE & _).
    rewrite EE. assert (Eg : ∀ e, g_score (node (world s1') e) = g_score (node (world s1) e))
      by (intros e; by apply alike_g_score).
    pose proof (alike_draw_path fuel rest _ _ Hw) as Hd.
    destruct (draw_path fuel rest (world s1)) as [[[a w2] rest2]|],
             (draw_path fuel rest (world s1')) as [[[a' w2'] rest2']|]; try done.
    destruct Hd as (-> & Hw2 & _).
    assert (Em : MsgPathFound (match END (world s1) with
                               | Some e => g_score (node (world s1') e)
                               | None => Inf
                               end)
                 = MsgPathFound (match END (world s1) with
                                 | Some e => g_score (node (world s1) e)
                                 | None => Inf
                                 end)).
    { destruct (END (world s1)); [by rewrite Eg | done]. }
    rewrite Em. destruct a as [[]|ex]; [|by split_and!].
    assert (Hw3 : alike (draw_screen w2) (draw_screen w2')).
    { apply (alike_trans _ w2); [apply alike_sym, alike_draw_screen|].
      apply (alike_trans _ w2'); [done | apply alike_draw_screen]. }
    destruct (alike_reset_grid_1 _ _ Hw3) as [R1 R2].
    destruct (reset_grid 1 (draw_screen w2)) as [r3 w3],
             (reset_grid 1 (draw_screen w2')) as [r3' w3'].
    by split_and!.
  - destruct He as (Hw & _).
    assert (Hw3 : alike (draw_screen (world s1)) (draw_screen (world s1'))).
    { apply (alike_trans _ (world s1)); [apply alike_sym, alike_draw_screen|].
      apply (alike_trans _ (world s1')); [done | apply alike_draw_screen]. }
    destruct (alike_reset_grid_1 _ _ Hw3) as [R1 R2].
    destruct (reset_grid 1 (draw_screen (world s1))) as [r3 w3],
             (reset_grid 1 (draw_screen (world s1'))) as [r3' w3'].
    by split_and!.
  - destruct He as [-> He]. by split_and!.
Qed.

(** The theorem for the A* search on the open 5 × 5 grid, once with
    the cells drawn in every round and once in quick mode on the grid
    already drawn. *)
Lemma find_path_ignores_display_witness :
  match find_path 100 [] (grid5 A_STAR),
        find_path 100 [] (with_QUICK_MODE true (draw_screen (grid5 A_STAR))) with
  | Some run, Some run' =>
      returned run' = returned run ∧ printed run' = printed run
      ∧ alike (final run) (final run')
  | None, None => True
  | _, _ => False
  end.
Proof.
  apply (find_path_ignores_display (grid5 A_STAR)
           (with_QUICK_MODE true (draw_screen (grid5 A_STAR))) 100 []).
  apply (alike_trans _ (draw_screen (grid5 A_STAR)));
    [apply alike_draw_screen | apply alike_with_QUICK_MODE].
Defined.

(** Nor have they any influence on the maze generator: from two states
    that differ in nothing else, with the same random draws and the
    same events, [generate_maze] ends in the same way after the same
    number of rounds and leaves states that differ in nothing else. *)
Theorem generate_maze_ignores_display (w w' : World) (fuel : nat) (rng : list nat)
    (inputs : list (list Event)) :
  alike w w' →
  match generate_maze fuel rng inputs w, generate_maze fuel rng inputs w' with
  | Some (r, wf), Some (r', wf') => r' = r ∧ alike wf wf'
  | None, None => True
  | _, _ => False
  end.
Proof.
  intros H. unfold generate_maze, reset_grid. cbn [Z.eqb snd].
  rewrite (alike_all_nodes w w' H).
  pose proof (alike_foldl (λ w p, reset p w) (all_nodes w) w w'
                (λ p w w' H, alike_reset p w w' H) H) as H1.
  set (w1 := foldl (λ w p, reset p w) w (all_nodes w)) in *.
  set (w1' := foldl (λ w p, reset p w) w' (all_nodes w)) in *.
  rewrite (alike_all_nodes w1 w1' H1).
  pose proof (alike_foldl (λ w p, make_obstacle p w) (all_nodes w1) w1 w1'
                (λ p w w' H, alike_make_obstacle p w w' H) H1) as H2.
  set (w2 := foldl (λ w p, make_obstacle p w) w1 (all_nodes w1)) in *.
  set (w2' := foldl (λ w p, make_obstacle p w) w1' (all_nodes w1)) in *.
  rewrite (alike_nodes_at _ _ 0 0 H2).
  destruct (nodes_at w2 0 0) as [origin|]; [|done].
  pose proof (alike_maze_loop fuel rng inputs [origin] _ _ (alike_reset origin _ _ H2)) as H3.
  destruct (maze_loop fuel rng inputs [origin] (reset origin w2)) as [[r w3]|],
           (maze_loop fuel rng inputs [origin] (reset origin w2')) as [[r' w3']|]; try done.
  destruct H3 as [-> H3]. destruct r as [[]|ex]; [|done].
  pose proof (alike_make_start origin _ _ H3) as H4.
  destruct (alike_globals _ _ H4) as (E1 & E2 & _). rewrite E1, E2.
  rewrite (alike_nodes_at _ _ _ _ H4).
  destruct (nodes_at (make_start origin w3) _ _) as [e|]; [|done].
  split; [done|]. by apply alike_make_end.
Qed.

(** The theorem for a maze on the grid of 3 × 4 cells, made once on the
    new grid and once in quick mode on the grid already drawn. *)
Lemma generate_maze_ignores_display_witness :
  match generate_maze 40 [1; 0; 2]%nat [] (create_nodes 3 4 A_STAR),
        generate_maze 40 [1; 0; 2]%nat []
                      (with_QUICK_MODE true (draw_screen (create_nodes 3 4 A_STAR))) with
  | Some (r, wf), Some (r', wf') => r' = r ∧ alike wf wf'
  | None, None => True
  | _, _ => False
  end.
Proof.
  apply (generate_maze_ignores_display (create_nodes 3 4 A_STAR)
           (with_QUICK_MODE true (draw_screen (create_nodes 3 4 A_STAR)))
           40 [1; 0; 2]%nat []).
  apply (alike_trans _ (draw_screen (create_nodes 3 4 A_STAR)));
    [apply alike_draw_screen | apply alike_with_QUICK_MODE].
Defined.
